(** * Tries of terms (src/pl-trie.c, src/pl-trie.h)

    A shallow embedding of the trie engine of SWI-Prolog: the node store,
    the children representation, the key encoder [trie_lookup] with its
    variable rewriting, value attachment, deletion and pruning, the
    enumerator of [trie_gen] and the term builder [unify_key].

    The execution is sequential: a COMPARE_AND_SWAP whose expected value
    was read at the top of the same block finds that value in place, so
    it is written as the assignment it performs and the retry branch of
    the surrounding loop is not taken.  ATOMIC_INC / ATOMIC_DEC are the
    plain operations on the counter's width.  PL_malloc returns fresh
    storage. *)

From Stdlib Require Import ZArith List Lia Bool.
From stdpp Require Import base option list gmap fin_maps.

Local Open Scope Z_scope.

(** ** Words and tags (pl-data.h is not part of the sources) *)

Abbreviation word := Z.

(** Modelled from the spec: the host value representation, of which the
    trie needs tag inspection, functor/arity extraction and variable
    identity.  A word is an unsigned 64 bit quantity whose low LMASK_BITS
    bits hold the tag (3 bits), the storage class (2 bits) and two
    collector marks. *)
Definition word_bits : Z := 64.
Definition wrap (z : Z) : word := z mod 2 ^ word_bits.

Definition LMASK_BITS : Z := 7.
Definition TAG_MASK : Z := 7.
Definition TAG_VAR : Z := 0.
Definition TAG_ATTVAR : Z := 1.
Definition TAG_FLOAT : Z := 2.
Definition TAG_INTEGER : Z := 3.
Definition TAG_STRING : Z := 4.
Definition TAG_ATOM : Z := 5.
Definition TAG_COMPOUND : Z := 6.
Definition TAG_REFERENCE : Z := 7.
Definition STG_MASK : Z := 24.
Definition STG_STATIC : Z := 0.
Definition STG_INLINE : Z := 0.
Definition STG_GLOBAL : Z := 8.
Definition STG_LOCAL : Z := 16.

Definition tag (w : word) : Z := Z.land w TAG_MASK.
Definition storage (w : word) : Z := Z.land w STG_MASK.
Definition tagex (w : word) : Z := Z.land w (Z.lor TAG_MASK STG_MASK).

Definition isVar (w : word) : bool := w =? 0.
Definition isAtom (w : word) : bool := tagex w =? Z.lor TAG_ATOM STG_STATIC.
Definition isTaggedInt (w : word) : bool := tagex w =? Z.lor TAG_INTEGER STG_INLINE.
Definition isIndirect (w : word) : bool :=
  negb (storage w =? STG_INLINE)
  && ((tag w =? TAG_FLOAT) || (tag w =? TAG_INTEGER) || (tag w =? TAG_STRING)).
Definition isRef (w : word) : bool := tag w =? TAG_REFERENCE.
Definition isTerm (w : word) : bool := tag w =? TAG_COMPOUND.

(** Pointers are cell indices; a pointer word carries the index above the
    mask bits. *)
Definition consPtr (a : Z) (ts : Z) : word := wrap (Z.lor (Z.shiftl a LMASK_BITS) ts).
Definition valPtr (w : word) : Z := Z.shiftr w LMASK_BITS.
Definition makeRefG (a : Z) : word := consPtr a (Z.lor TAG_REFERENCE STG_GLOBAL).
Definition unRef (w : word) : Z := valPtr w.

(** Modelled from the spec: a functor word (tagged TAG_ATOM|STG_GLOBAL)
    names a functor and gives its arity; the arity sits in the five bits
    above the mask bits (pl-funct.h is not part of the sources). *)
Definition F_ARITY_BITS : Z := 5.
Definition MK_FUNCTOR (n : Z) (arity : Z) : word :=
  wrap (Z.lor (Z.shiftl (Z.lor (Z.shiftl n F_ARITY_BITS) arity) LMASK_BITS)
              (Z.lor TAG_ATOM STG_GLOBAL)).
Definition arityFunctor (f : word) : nat :=
  Z.to_nat (Z.land (Z.shiftr f LMASK_BITS) (Z.ones F_ARITY_BITS)).
Definition isFunctorKey (key : word) : bool := tagex key =? Z.lor TAG_ATOM STG_GLOBAL.

(** pl-trie.c: RESERVED_TRIE_VAL, TRIE_ERROR_VAL, TRIE_KEY_POP *)
Definition RESERVED_TRIE_VAL (n : Z) : word :=
  Z.lor (wrap (Z.shiftl (wrap (- n)) LMASK_BITS)) TAG_VAR.
Definition TRIE_ERROR_VAL : word := RESERVED_TRIE_VAL 1.
Definition TRIE_KEY_POP : word := RESERVED_TRIE_VAL 2.

(** The key of the n-th variable of one walk: (n << LMASK_BITS)|TAG_VAR *)
Definition var_key (n : Z) : word := Z.lor (wrap (Z.shiftl n LMASK_BITS)) TAG_VAR.

(** pl-trie.c: isRecord *)
Definition isRecord (w : word) : bool := Z.land w 3 =? 0.

(** ** The hashed children table (pl-table.c is not part of the sources) *)

Abbreviation node_id := nat.

(** Modelled from the spec: the table of a hashed node, a map from key to
    child with unique keys.  [addHTable] returns the value stored under
    the key after the call (the old one when the key was present),
    enumeration visits the entries in a fixed order. *)
Definition Table := list (word * node_id).

Fixpoint lookupHTable (t : Table) (k : word) : option node_id :=
  match t with
  | [] => None
  | (k', v) :: t' => if k' =? k then Some v else lookupHTable t' k
  end.

Definition addHTable (t : Table) (k : word) (v : node_id) : node_id * Table :=
  match lookupHTable t k with
  | Some old => (old, t)
  | None => (v, t ++ [(k, v)])
  end.

Fixpoint deleteHTable (t : Table) (k : word) : Table :=
  match t with
  | [] => []
  | (k', v) :: t' => if k' =? k then deleteHTable t' k else (k', v) :: deleteHTable t' k
  end.

Definition newHTable : Table := [].

Definition TableEnum := list (word * node_id).
Definition newTableEnum (t : Table) : TableEnum := t.
Definition advanceTableEnum (e : TableEnum) : option (word * node_id * TableEnum) :=
  match e with
  | [] => None
  | (k, v) :: e' => Some (k, v, e')
  end.

(** ** Nodes and the trie (pl-trie.h) *)

Inductive trie_children :=
| NoChildren                              (* children.any == NULL *)
| TN_KEY (key : word) (child : node_id)   (* trie_children_key *)
| TN_HASHED (table : Table).              (* trie_children_hashed *)

Record trie_node := mkNode {
  tn_value : word;
  tn_key : word;
  tn_parent : option node_id;
  tn_children : trie_children
}.

Record trie_allocation_pool := mkPool {
  pool_size : Z;
  pool_limit : Z
}.

(** Modelled from the spec: the indirect table interns oversized values
    into surrogate tokens; an entry is the tag of the value and its
    content, the entry at position i has the surrogate of index i+1. *)
Definition indirect_table := list (Z * word).

(** The trie together with the part of the host it acts on: the node
    store, the atom reference counts and the recorded value blobs.  The
    root node is node 0.  [release_node] is the null pointer in a trie
    made by [trie_create] and nothing in pl-trie.c sets it. *)
Record trie := mkTrie {
  node_count : Z;
  value_count : Z;
  indirects : option indirect_table;
  alloc_pool : option trie_allocation_pool;
  nodes : gmap nat trie_node;
  next_node : nat;
  atom_refs : gmap Z Z;
  records : gmap Z (list word);
  next_record : Z
}.

Definition root : node_id := 0%nat.
Definition sizeof_trie_node : Z := 48.
Definition uint_wrap (z : Z) : Z := z mod 2 ^ 32.

Definition set_node_count (t : trie) (x : Z) : trie :=
  mkTrie x (value_count t) (indirects t) (alloc_pool t) (nodes t) (next_node t) (atom_refs t) (records t) (next_record t).
Definition set_value_count (t : trie) (x : Z) : trie :=
  mkTrie (node_count t) x (indirects t) (alloc_pool t) (nodes t) (next_node t) (atom_refs t) (records t) (next_record t).
Definition set_indirects (t : trie) (x : option indirect_table) : trie :=
  mkTrie (node_count t) (value_count t) x (alloc_pool t) (nodes t) (next_node t) (atom_refs t) (records t) (next_record t).
Definition set_alloc_pool (t : trie) (x : option trie_allocation_pool) : trie :=
  mkTrie (node_count t) (value_count t) (indirects t) x (nodes t) (next_node t) (atom_refs t) (records t) (next_record t).
Definition set_nodes (t : trie) (x : gmap nat trie_node) : trie :=
  mkTrie (node_count t) (value_count t) (indirects t) (alloc_pool t) x (next_node t) (atom_refs t) (records t) (next_record t).
Definition set_next_node (t : trie) (x : nat) : trie :=
  mkTrie (node_count t) (value_count t) (indirects t) (alloc_pool t) (nodes t) x (atom_refs t) (records t) (next_record t).
Definition set_atom_refs (t : trie) (x : gmap Z Z) : trie :=
  mkTrie (node_count t) (value_count t) (indirects t) (alloc_pool t) (nodes t) (next_node t) x (records t) (next_record t).
Definition set_records (t : trie) (x : gmap Z (list word)) : trie :=
  mkTrie (node_count t) (value_count t) (indirects t) (alloc_pool t) (nodes t) (next_node t) (atom_refs t) x (next_record t).
Definition set_next_record (t : trie) (x : Z) : trie :=
  mkTrie (node_count t) (value_count t) (indirects t) (alloc_pool t) (nodes t) (next_node t) (atom_refs t) (records t) x.

Definition set_children (nd : trie_node) (c : trie_children) : trie_node :=
  mkNode (tn_value nd) (tn_key nd) (tn_parent nd) c.
Definition set_parent (nd : trie_node) (p : option node_id) : trie_node :=
  mkNode (tn_value nd) (tn_key nd) p (tn_children nd).
Definition set_value (nd : trie_node) (v : word) : trie_node :=
  mkNode v (tn_key nd) (tn_parent nd) (tn_children nd).

Definition update_node (t : trie) (n : node_id) (nd : trie_node) : trie :=
  set_nodes t (<[n := nd]> (nodes t)).
Definition PL_free_node (t : trie) (n : node_id) : trie :=
  set_nodes t (delete n (nodes t)).

(** trie_create: a zeroed trie; the root is embedded in it *)
Definition trie_create : trie :=
  mkTrie 0 0 None None {[ root := mkNode 0 0 None NoChildren ]} 1 ∅ ∅ 8.

(** ** Atom and record references (host collaborators) *)

Definition PL_register_atom (a : word) (t : trie) : trie :=
  set_atom_refs t (<[a := default 0 (atom_refs t !! a) + 1]> (atom_refs t)).
Definition PL_unregister_atom (a : word) (t : trie) : trie :=
  set_atom_refs t (<[a := default 0 (atom_refs t !! a) - 1]> (atom_refs t)).
Definition PL_erase (r : word) (t : trie) : trie :=
  set_records t (delete r (records t)).

Definition acquire_key (key : word) (t : trie) : trie :=
  if isAtom key then PL_register_atom key t else t.
Definition release_key (key : word) (t : trie) : trie :=
  if isAtom key then PL_unregister_atom key t else t.
Definition release_value (value : word) (t : trie) : trie :=
  if isAtom value then PL_unregister_atom value t
  else if isRecord value then PL_erase value t
  else t.

(** ** The node store and the children representation *)

(** get_child.  [None] stands for a dereference of a pointer that is not a
    live node; [Some None] is the NULL result. *)
Definition get_child (t : trie) (n : node_id) (key : word) : option (option node_id) :=
  nd ← nodes t !! n;
  match tn_children nd with
  | NoChildren => Some None
  | TN_KEY k child => if k =? key then Some (Some child) else Some None
  | TN_HASHED table => Some (lookupHTable table key)
  end.

(** new_trie_node: NULL (resource error table_space) when the pool is
    full, else the counter is incremented and the key acquired *)
Definition new_trie_node (t : trie) (key : word) : option node_id * trie :=
  let charged :=
    match alloc_pool t with
    | Some p =>
        if pool_size p + sizeof_trie_node <=? pool_limit p
        then Some (set_alloc_pool t (Some (mkPool (pool_size p + sizeof_trie_node) (pool_limit p))))
        else None
    | None => Some t
    end in
  match charged with
  | None => (None, t)
  | Some t1 =>
      let n := next_node t1 in
      let t2 := set_next_node t1 (S n) in
      let t3 := set_node_count t2 (uint_wrap (node_count t2 + 1)) in
      let t4 := acquire_key key t3 in
      (Some n, update_node t4 n (mkNode 0 key None NoChildren))
  end.

Definition dealloc_node (t : trie) (n : node_id) : trie :=
  let t1 := set_node_count t (uint_wrap (node_count t - 1)) in
  let t2 := match alloc_pool t1 with
            | Some p => set_alloc_pool t1 (Some (mkPool (pool_size p - sizeof_trie_node) (pool_limit p)))
            | None => t1
            end in
  PL_free_node t2 n.

(** clear_node.  The keys and values are released first; the counter is
    decremented and the node freed only inside the branch taken when the
    node has children. *)
Fixpoint clear_node (fuel : nat) (t : trie) (n : node_id) (dealloc : bool) : option trie :=
  match fuel with
  | O => None
  | S fuel' =>
      nd ← nodes t !! n;
      let children := tn_children nd in
      let t1 := release_key (tn_key nd) t in
      let t2 := if tn_value nd =? 0 then t1 else release_value (tn_value nd) t1 in
      match children with
      | NoChildren => Some t2
      | TN_KEY _ child =>
          let t3 := update_node t2 n (set_children nd NoChildren) in
          let t4 := if dealloc then dealloc_node t3 n else t3 in
          clear_node fuel' t4 child true
      | TN_HASHED table =>
          let t3 := update_node t2 n (set_children nd NoChildren) in
          let t4 := if dealloc then dealloc_node t3 n else t3 in
          foldl (fun acc e => t' ← acc; clear_node fuel' t' (snd e) true) (Some t4) table
      end
  end.

Definition destroy_node (fuel : nat) (t : trie) (n : node_id) : option trie :=
  clear_node fuel t n true.

(** prune_node: the loop runs while [empty] holds and the node has a
    parent. *)
Fixpoint prune_node (fuel : nat) (t : trie) (n : node_id) : option trie :=
  match fuel with
  | O => None
  | S fuel' =>
      nd ← nodes t !! n;
      match tn_parent nd with
      | None => Some t
      | Some p =>
          pd ← nodes t !! p;
          match tn_children pd with
          | NoChildren =>
              t' ← destroy_node (S fuel') t n;
              prune_node fuel' t' p
          | TN_KEY _ _ =>
              let t1 := update_node t p (set_children pd NoChildren) in
              t' ← destroy_node (S fuel') t1 n;
              prune_node fuel' t' p
          | TN_HASHED table =>
              let table' := deleteHTable table (tn_key nd) in
              let t1 := update_node t p (set_children pd (TN_HASHED table')) in
              t' ← destroy_node (S fuel') t1 n;
              if (length table' =? 0)%nat then prune_node fuel' t' p else Some t'
          end
      end
  end.

(** insert_child *)
Definition insert_child (t : trie) (n : node_id) (key : word) : option (option node_id * trie) :=
  nd ← nodes t !! n;
  let children := tn_children nd in
  match new_trie_node t key with
  | (None, t1) => Some (None, t1)
  | (Some new, t1) =>
      match children with
      | TN_KEY k child =>
          if k =? key then Some (Some child, t1)
          else
            let hnode := snd (addHTable (snd (addHTable newHTable k child)) key new) in
            let t2 := update_node t1 n (set_children nd (TN_HASHED hnode)) in
            newd ← nodes t2 !! new;
            Some (Some new, update_node t2 new (set_parent newd (Some n)))
      | TN_HASHED table =>
          let '(old, table') := addHTable table key new in
          let t2 := update_node t1 n (set_children nd (TN_HASHED table')) in
          if (new =? old)%nat then
            newd ← nodes t2 !! new;
            Some (Some old, update_node t2 new (set_parent newd (Some n)))
          else
            t3 ← destroy_node 1 t2 new;
            Some (Some old, t3)
      | NoChildren =>
          let t2 := update_node t1 n (set_children nd (TN_KEY key new)) in
          newd ← nodes t2 !! new;
          Some (Some new, update_node t2 new (set_parent newd (Some n)))
      end
  end.

(** follow_node *)
Definition follow_node (t : trie) (n : node_id) (value : word) (add : bool)
  : option (option node_id * trie) :=
  child ← get_child t n value;
  match child with
  | Some c => Some (Some c, t)
  | None => if add then insert_child t n value else Some (None, t)
  end.

(** ** Values of nodes *)

(** equal_value; [variantRecords] compares the recorded blobs *)
Definition variantRecords (t : trie) (r1 r2 : word) : bool :=
  match records t !! r1, records t !! r2 with
  | Some b1, Some b2 => bool_decide (b1 = b2)
  | _, _ => false
  end.

Definition equal_value (t : trie) (v1 v2 : word) : bool :=
  if v1 =? v2 then true
  else if isRecord v1 && isRecord v2 then variantRecords t v1 v2
  else false.

(** set_trie_value_word *)
Definition set_trie_value_word (t : trie) (node : node_id) (val : word) : option (bool * trie) :=
  nd ← nodes t !! node;
  if tn_value nd =? 0 then
    let t1 := acquire_key val t in
    let t2 := update_node t1 node (set_value nd val) in
    Some (true, set_value_count t2 (uint_wrap (value_count t2 + 1)))
  else if negb (equal_value t (tn_value nd) val) then
    let old := tn_value nd in
    let t1 := acquire_key val t in
    let t2 := update_node t1 node (set_value nd val) in
    Some (true, release_value old t2)
  else Some (false, t).

(** trie_delete *)
Definition trie_delete (fuel : nat) (t : trie) (node : node_id) (prune : bool) : option trie :=
  nd ← nodes t !! node;
  if tn_value nd =? 0 then Some t
  else
    t1 ← (if prune then prune_node fuel t node
          else Some (release_value (tn_value nd) (update_node t node (set_value nd 0))));
    Some (set_value_count t1 (uint_wrap (value_count t1 - 1))).

(** ** Terms in memory and the term agendas (pl-termwalk.c is not part of
       the sources) *)

(** The stacks: cell index to word.  A compound word points to the
    functor cell, which is followed by the argument cells. *)
Abbreviation mem := (gmap Z word).

Fixpoint deRef (fuel : nat) (m : mem) (p : Z) : option Z :=
  match fuel with
  | O => None
  | S fuel' =>
      w ← m !! p;
      if isRef w then deRef fuel' m (unRef w) else Some p
  end.

Record aNode := mkANode { a_location : Z; a_size : nat }.
Record term_agenda := mkAgenda { work : aNode; stack : list aNode }.

Inductive agenda_item :=
| AC_NULL                 (* the agenda is exhausted *)
| AC_TERM_POP             (* the arguments of a compound are consumed *)
| AC_CELL (p : Z).

Definition initTermAgenda (argc : nat) (p : Z) : term_agenda :=
  mkAgenda (mkANode p argc) [].

(** Modelled from the spec: the walk with pop markers; a compound
    schedules its arguments and a pop is emitted after the last argument
    is consumed. *)
Definition nextTermAgenda_P (fuel : nat) (m : mem) (a : term_agenda)
  : option (agenda_item * term_agenda) :=
  match a_size (work a) with
  | S k =>
      p ← deRef fuel m (a_location (work a));
      Some (AC_CELL p, mkAgenda (mkANode (a_location (work a) + 1) k) (stack a))
  | O =>
      match stack a with
      | w :: s => Some (AC_TERM_POP, mkAgenda w s)
      | [] => Some (AC_NULL, a)
      end
  end.

Definition pushWorkAgenda_P (a : term_agenda) (amount : nat) (start : Z) : term_agenda :=
  mkAgenda (mkANode start amount) (work a :: stack a).

(** Modelled from the spec: the plain walk used by [clear_vars]; work is
    pushed only when some of it is left, so a popped frame is never
    empty. *)
Definition nextTermAgenda (fuel : nat) (m : mem) (a : term_agenda)
  : option (agenda_item * term_agenda) :=
  match a_size (work a) with
  | S k =>
      p ← deRef fuel m (a_location (work a));
      Some (AC_CELL p, mkAgenda (mkANode (a_location (work a) + 1) k) (stack a))
  | O =>
      match stack a with
      | w :: s =>
          match a_size w with
          | S k =>
              p ← deRef fuel m (a_location w);
              Some (AC_CELL p, mkAgenda (mkANode (a_location w + 1) k) s)
          | O => None
          end
      | [] => Some (AC_NULL, a)
      end
  end.

Definition pushWorkAgenda (a : term_agenda) (amount : nat) (start : Z) : term_agenda :=
  match a_size (work a) with
  | S _ => mkAgenda (mkANode start amount) (work a :: stack a)
  | O => mkAgenda (mkANode start amount) (stack a)
  end.

(** Modelled from the spec: [is_acyclic] (pl-prims.c), the check of a
    value for acyclicity: no chain of argument positions from the cell is
    longer than the number of cells. *)
Fixpoint acyclic_upto (d : nat) (m : mem) (p : Z) : bool :=
  match d with
  | O => false
  | S d' =>
      match deRef (S (size m)) m p with
      | None => false
      | Some q =>
          match m !! q with
          | Some w =>
              if isTerm w then
                match m !! valPtr w with
                | Some f =>
                    forallb (fun i => acyclic_upto d' m (valPtr w + 1 + Z.of_nat i))
                            (seq 0 (arityFunctor f))
                | None => false
                end
              else true
          | None => false
          end
      end
  end.

Definition is_acyclic (m : mem) (p : Z) : bool := acyclic_upto (S (size m)) m p.

(** ** The indirect table *)

(** Modelled from the spec: [intern(table, value, insert) -> Token?]; the
    value of an indirect word is the cell it points to, the surrogate of
    entry i is the word with index i+1 and the tag of the value. *)
Fixpoint index_of (c : Z * word) (tbl : list (Z * word)) (i : Z) : option Z :=
  match tbl with
  | [] => None
  | e :: tbl' => if bool_decide (e = c) then Some i else index_of c tbl' (i + 1)
  end.

Definition indirect_surrogate (tg : Z) (i : Z) : word :=
  consPtr (i + 1) (Z.lor tg STG_GLOBAL).

Definition intern_indirect (tbl : indirect_table) (m : mem) (w : word) (add : bool)
  : option (word * indirect_table) :=
  c ← m !! valPtr w;
  match index_of (tag w, c) tbl 0 with
  | Some i => Some (indirect_surrogate (tag w) i, tbl)
  | None =>
      if add
      then Some (indirect_surrogate (tag w) (Z.of_nat (length tbl)), tbl ++ [(tag w, c)])
      else Some (0, tbl)
  end.

Definition new_indirect_table : indirect_table := [].

(** trie_intern_indirect: the table is made on first use, whatever [add]
    is *)
Definition trie_intern_indirect (t : trie) (m : mem) (w : word) (add : bool)
  : option (word * trie) :=
  let tbl := match indirects t with
             | Some tbl => tbl
             | None => new_indirect_table
             end in
  '(i, tbl') ← intern_indirect tbl m w add;
  Some (i, set_indirects t (Some tbl')).

(** ** trie_lookup *)

Definition TRUE : Z := 1.
Definition FALSE : Z := 0.
Definition TRIE_LOOKUP_CONTAINS_ATTVAR : Z := -10.
Definition TRIE_LOOKUP_CYCLIC : Z := -11.

(** prune_error: a new child is added below [node] and the pruning starts
    from it *)
Definition prune_error (fuel : nat) (t : trie) (node : node_id) : option trie :=
  '(n, t1) ← follow_node t node TRIE_ERROR_VAL true;
  n' ← n;
  prune_node fuel t1 n'.

(** The variables of the loop of trie_lookup *)
Record lookup_state := mkLookup {
  ls_agenda : term_agenda;
  ls_node : option node_id;
  ls_var_number : Z;
  ls_rc : Z;
  ls_compounds : Z;
  ls_trie : trie;
  ls_mem : mem
}.

Definition lookup_step (fuel : nat) (add : bool) (ls : lookup_state) (node : node_id)
    (a : term_agenda) (p : Z) : option lookup_state :=
  w ← ls_mem ls !! p;
  let tg := tag w in
  if tg =? TAG_VAR then
    let '(w', vn, m') :=
      if isVar w
      then (var_key (wrap (ls_var_number ls + 1)), wrap (ls_var_number ls + 1),
            <[p := var_key (wrap (ls_var_number ls + 1))]> (ls_mem ls))
      else (w, ls_var_number ls, ls_mem ls) in
    '(n, t') ← follow_node (ls_trie ls) node w' add;
    Some (mkLookup a n vn (ls_rc ls) (ls_compounds ls) t' m')
  else if tg =? TAG_ATTVAR then
    t' ← prune_error fuel (ls_trie ls) node;
    Some (mkLookup a None (ls_var_number ls) TRIE_LOOKUP_CONTAINS_ATTVAR
                   (ls_compounds ls) t' (ls_mem ls))
  else if tg =? TAG_COMPOUND then
    f ← ls_mem ls !! valPtr w;
    let arity := arityFunctor f in
    let compounds := if add then ls_compounds ls + 1 else ls_compounds ls in
    if add && (compounds =? 1000) && negb (is_acyclic (ls_mem ls) p) then
      t' ← prune_error fuel (ls_trie ls) node;
      Some (mkLookup a None (ls_var_number ls) TRIE_LOOKUP_CYCLIC compounds t' (ls_mem ls))
    else
      '(n, t') ← follow_node (ls_trie ls) node f add;
      Some (mkLookup (pushWorkAgenda_P a arity (valPtr w + 1)) n (ls_var_number ls)
                     (ls_rc ls) compounds t' (ls_mem ls))
  else if negb (isIndirect w) then
    '(n, t') ← follow_node (ls_trie ls) node w add;
    Some (mkLookup a n (ls_var_number ls) (ls_rc ls) (ls_compounds ls) t' (ls_mem ls))
  else
    '(i, t1) ← trie_intern_indirect (ls_trie ls) (ls_mem ls) w add;
    if i =? 0 then
      Some (mkLookup a None (ls_var_number ls) (ls_rc ls) (ls_compounds ls) t1 (ls_mem ls))
    else
      '(n, t') ← follow_node t1 node i add;
      Some (mkLookup a n (ls_var_number ls) (ls_rc ls) (ls_compounds ls) t' (ls_mem ls)).

Fixpoint trie_lookup_loop (fuel : nat) (add : bool) (ls : lookup_state) : option lookup_state :=
  match fuel with
  | O => None
  | S fuel' =>
      match ls_node ls with
      | None => Some ls
      | Some node =>
          '(item, a) ← nextTermAgenda_P (S fuel') (ls_mem ls) (ls_agenda ls);
          match item with
          | AC_NULL => Some ls
          | AC_TERM_POP =>
              '(n, t') ← follow_node (ls_trie ls) node TRIE_KEY_POP add;
              trie_lookup_loop fuel' add
                (mkLookup a n (ls_var_number ls) (ls_rc ls) (ls_compounds ls) t' (ls_mem ls))
          | AC_CELL p =>
              ls' ← lookup_step (S fuel') add ls node a p;
              trie_lookup_loop fuel' add ls'
          end
      end
  end.

(** clear_vars *)
Fixpoint clear_vars_loop (fuel : nat) (m : mem) (a : term_agenda) (var_number : Z)
  : option (mem * Z) :=
  match fuel with
  | O => None
  | S fuel' =>
      if var_number >? 0 then
        '(item, a') ← nextTermAgenda (S fuel') m a;
        match item with
        | AC_CELL p =>
            w ← m !! p;
            if tag w =? TAG_VAR then
              if negb (isVar w)
              then clear_vars_loop fuel' (<[p := 0]> m) a' (wrap (var_number - 1))
              else clear_vars_loop fuel' m a' var_number
            else if tag w =? TAG_COMPOUND then
              f ← m !! valPtr w;
              clear_vars_loop fuel' m (pushWorkAgenda a' (arityFunctor f) (valPtr w + 1)) var_number
            else clear_vars_loop fuel' m a' var_number
        | _ => Some (m, var_number)
        end
      else Some (m, var_number)
  end.

(** clear_vars; the assertion that all variables were found is part of
    the result *)
Definition clear_vars (fuel : nat) (m : mem) (k : Z) (var_number : Z) : option mem :=
  if var_number >? 0 then
    '(m', vn) ← clear_vars_loop fuel m (initTermAgenda 1 k) var_number;
    if vn =? 0 then Some m' else None
  else Some m.

(** trie_lookup: the return code, the node stored through [nodep], the
    trie and the stacks after the call *)
Definition trie_lookup (fuel : nat) (t : trie) (m : mem) (k : Z) (add : bool)
  : option (Z * option node_id * trie * mem) :=
  ls ← trie_lookup_loop fuel add
         (mkLookup (initTermAgenda 1 k) (Some root) 0 TRUE 0 t m);
  m' ← clear_vars fuel (ls_mem ls) k (ls_var_number ls);
  if ls_rc ls =? TRUE then
    match ls_node ls with
    | Some node => Some (TRUE, Some node, ls_trie ls, m')
    | None => Some (FALSE, None, ls_trie ls, m')
    end
  else Some (ls_rc ls, None, ls_trie ls, m').

(** ** Recorded values and insertion *)

(** Modelled from the spec: [PL_record] stores a value as an opaque blob
    whose equality is structural: the blob lists the words of the term in
    a depth-first walk, a variable by its rank of first occurrence. *)
Fixpoint var_rank (p : Z) (vars : list Z) (i : Z) : option Z :=
  match vars with
  | [] => None
  | q :: vars' => if q =? p then Some i else var_rank p vars' (i + 1)
  end.

Fixpoint compile_term (fuel : nat) (m : mem) (p : Z) (vars : list Z)
  : option (list word * list Z) :=
  match fuel with
  | O => None
  | S fuel' =>
      q ← deRef (S fuel') m p;
      w ← m !! q;
      if (tag w =? TAG_VAR) || (tag w =? TAG_ATTVAR) then
        match var_rank q vars 1 with
        | Some i => Some ([Z.lor (var_key i) (tag w)], vars)
        | None => Some ([Z.lor (var_key (Z.of_nat (length vars) + 1)) (tag w)], vars ++ [q])
        end
      else if tag w =? TAG_COMPOUND then
        f ← m !! valPtr w;
        foldl (fun acc i =>
                 '(code, vs) ← acc;
                 '(code', vs') ← compile_term fuel' m (valPtr w + 1 + Z.of_nat i) vs;
                 Some (code ++ code', vs'))
              (Some ([f], vars)) (seq 0 (arityFunctor f))
      else if isIndirect w then
        c ← m !! valPtr w;
        Some ([tagex w; c], vars)
      else Some ([w], vars)
  end.

Definition PL_record (fuel : nat) (t : trie) (m : mem) (p : Z) : option (word * trie) :=
  '(code, _) ← compile_term fuel m p [];
  let r := next_record t in
  Some (r, set_next_record (set_records t (<[r := code]> (records t))) (r + 8)).

(** intern_value *)
Definition intern_value (fuel : nat) (t : trie) (m : mem) (value : Z) : option (word * trie) :=
  vp ← deRef fuel m value;
  w ← m !! vp;
  if isAtom w || isTaggedInt w then Some (w, t)
  else PL_record fuel t m value.

Inductive error :=
| type_error_free_of_attvar
| type_error_acyclic_term
| permission_error_modify_trie_key.

(** trie_error *)
Definition trie_error (rc : Z) : Z * option error :=
  if rc =? TRIE_LOOKUP_CONTAINS_ATTVAR then (FALSE, Some type_error_free_of_attvar)
  else if rc =? TRIE_LOOKUP_CYCLIC then (FALSE, Some type_error_acyclic_term)
  else (FALSE, None).

(** The result of a predicate: its return code, the exception that the
    predicate raised (through trie_error or PL_permission_error), the
    node stored through [nodep], the trie and the stacks.  The resource
    error that new_trie_node leaves pending in the host when the pool
    refuses a node is not carried here: such a call shows as a return
    code FALSE without a node. *)
Record result := mkResult {
  r_rc : Z;
  r_exception : option error;
  r_node : option node_id;
  r_trie : trie;
  r_mem : mem
}.

(** trie_insert (the C function behind trie_insert/3,4 and trie_update/3) *)
Definition trie_insert (fuel : nat) (t : trie) (m : mem) (Key Value : Z) (update : bool)
  : option result :=
  '(rc, nodep, t1, m1) ← trie_lookup fuel t m Key true;
  if rc =? TRUE then
    node ← nodep;
    '(val, t2) ← intern_value fuel t1 m1 Value;
    nd ← nodes t2 !! node;
    if negb (tn_value nd =? 0) then
      if update then
        if negb (equal_value t2 (tn_value nd) val) then
          let old := tn_value nd in
          let t3 := acquire_key val t2 in
          let t4 := update_node t3 node (set_value nd val) in
          Some (mkResult TRUE None (Some node) (release_value old t4) m1)
        else if isRecord val then
          Some (mkResult TRUE None (Some node) (PL_erase val t2) m1)
        else Some (mkResult TRUE None (Some node) t2 m1)
      else
        let exc := if negb (equal_value t2 (tn_value nd) val)
                   then Some permission_error_modify_trie_key else None in
        let t3 := if isRecord val then PL_erase val t2 else t2 in
        Some (mkResult FALSE exc (Some node) t3 m1)
    else
      let t3 := acquire_key val t2 in
      let t4 := update_node t3 node (set_value nd val) in
      Some (mkResult TRUE None (Some node)
                     (set_value_count t4 (uint_wrap (value_count t4 + 1))) m1)
  else
    let '(rc', exc) := trie_error rc in
    Some (mkResult rc' exc None t1 m1).

(** ** The enumerator (trie_gen) *)

(** trie_choice; [ch_table] is the table enumerator, NULL for a choice
    made from a single-key node *)
Record trie_choice := mkChoice {
  ch_table : option TableEnum;
  ch_key : word;
  ch_child : node_id
}.

(** The choice points buffer is kept with its top element first. *)
Definition choicepoints := list trie_choice.

(** add_choice.  For a hashed node the result of [advanceTableEnum] is not
    looked at: on an empty table the key and the child are read from
    uninitialised locals, which has no defined result. *)
Definition add_choice (t : trie) (node : node_id) : option trie_choice :=
  nd ← nodes t !! node;
  match tn_children nd with
  | TN_KEY key child => Some (mkChoice None key child)
  | TN_HASHED table =>
      match advanceTableEnum (newTableEnum table) with
      | Some (k, v, e) => Some (mkChoice (Some e) k v)
      | None => None
      end
  | NoChildren => Some (mkChoice None 0 node)
  end.

(** descent_node: [ch] is the top of the buffer *)
Fixpoint descent_node (fuel : nat) (t : trie) (cps : choicepoints)
  : option (bool * choicepoints) :=
  match fuel with
  | O => None
  | S fuel' =>
      match cps with
      | [] => None
      | ch :: _ =>
          cd ← nodes t !! ch_child ch;
          match tn_children cd with
          | NoChildren => Some (negb (tn_value cd =? 0), cps)
          | _ =>
              ch' ← add_choice t (ch_child ch);
              descent_node fuel' t (ch' :: cps)
          end
      end
  end.

(** advance_node *)
Definition advance_node (ch : trie_choice) : option trie_choice :=
  match ch_table ch with
  | Some e =>
      match advanceTableEnum e with
      | Some (k, v, e') => Some (mkChoice (Some e') k v)
      | None => None
      end
  | None => None
  end.

(** next_choice: when the advance or the descent from the advanced choice
    fails, the choice and all that was pushed above it are dropped *)
Fixpoint next_choice (fuel : nat) (t : trie) (cps : choicepoints)
  : option (bool * choicepoints) :=
  match cps with
  | [] => Some (false, [] : choicepoints)
  | ch :: rest =>
      match advance_node ch with
      | Some ch' =>
          r ← descent_node fuel t (ch' :: rest);
          if (fst r : bool) then Some (true, snd r) else next_choice fuel t rest
      | None => next_choice fuel t rest
      end
  end.

(** What one solution of trie_gen shows: the keys of the path handed to
    [unify_key] from the base of the buffer to its top, the value of the
    node and the node. *)
Record solution := mkSolution {
  sol_keys : list word;
  sol_value : word;
  sol_node : node_id
}.

Definition unify_trie_path (t : trie) (cps : choicepoints) : option solution :=
  match cps with
  | [] => None
  | ch :: _ =>
      nd ← nodes t !! ch_child ch;
      Some (mkSolution (rev (map ch_key cps)) (tn_value nd) (ch_child ch))
  end.

(** The loop of trie_gen over its redo calls: [accept] tells whether the
    key and the value of a solution unify with the arguments of the
    call. *)
Fixpoint trie_gen_loop (fuel : nat) (accept : solution -> bool) (t : trie) (cps : choicepoints)
  : option (list solution) :=
  match fuel with
  | O => None
  | S fuel' =>
      match cps with
      | [] => Some []
      | _ =>
          sol ← unify_trie_path t cps;
          r ← next_choice (S fuel') t cps;
          if accept sol then
            if (fst r : bool) then sols ← trie_gen_loop fuel' accept t (snd r); Some (sol :: sols)
            else Some [sol]
          else trie_gen_loop fuel' accept t (snd r)
      end
  end.

(** trie_gen, run to exhaustion: the solutions in the order they are
    given *)
Definition trie_gen (fuel : nat) (accept : solution -> bool) (t : trie) : option (list solution) :=
  rd ← nodes t !! root;
  match tn_children rd with
  | NoChildren => Some []
  | _ =>
      ch ← add_choice t root;
      r ← descent_node fuel t [ch];
      if (fst r : bool) then trie_gen_loop fuel accept t (snd r)
      else
        r' ← next_choice fuel t (snd r);
        if (fst r' : bool) then trie_gen_loop fuel accept t (snd r') else Some []
  end.

(** ** Building a term from a path (unify_key, unify_trie_term) *)

Inductive unify_mode := uread | uwrite.

(** ukey_state; [us_vars] is the array [vars], an absent index holds
    NULL *)
Record ukey_state := mkUkey {
  us_ptr : Z;
  us_umode : unify_mode;
  us_max_var_seen : Z;
  us_vars : gmap Z Z
}.

(** Modelled from the spec: the host stacks seen by the term builder: the
    cells, the top and the limit of the global stack, the argument stack
    (top first) with the return cursor and the mode of each open
    compound, and the trail with its limit.  Cells that were allocated
    but not yet written are absent from [s_mem]. *)
Record stacks := mkStacks {
  s_mem : mem;
  gTop : Z;
  gMax : Z;
  aStack : list (Z * unify_mode);
  trail : list Z;
  tMax : Z
}.

Definition LOCAL_OVERFLOW : Z := -1.
Definition GLOBAL_OVERFLOW : Z := -2.
Definition TRAIL_OVERFLOW : Z := -3.
Definition BIND_GLOBAL_SPACE : Z := 7.
Definition BIND_TRAIL_SPACE : Z := 6.

Definition tTop (st : stacks) : Z := Z.of_nat (length (trail st)).

Definition write_cell (st : stacks) (p : Z) (w : word) : stacks :=
  mkStacks (<[p := w]> (s_mem st)) (gTop st) (gMax st) (aStack st) (trail st) (tMax st).
Definition pushArgumentStack (st : stacks) (e : Z * unify_mode) : stacks :=
  mkStacks (s_mem st) (gTop st) (gMax st) (e :: aStack st) (trail st) (tMax st).
Definition set_aStack (st : stacks) (a : list (Z * unify_mode)) : stacks :=
  mkStacks (s_mem st) (gTop st) (gMax st) a (trail st) (tMax st).

Definition allocGlobalNoShift (st : stacks) (n : Z) : option (Z * stacks) :=
  if gTop st + n <=? gMax st
  then Some (gTop st, mkStacks (s_mem st) (gTop st + n) (gMax st) (aStack st) (trail st) (tMax st))
  else None.

Definition hasGlobalSpace (st : stacks) (cells : Z) : bool :=
  (gTop st + cells + BIND_GLOBAL_SPACE <=? gMax st) && (tTop st + BIND_TRAIL_SPACE <=? tMax st).
Definition overflowCode (st : stacks) (n : Z) : Z :=
  if gTop st + n + BIND_GLOBAL_SPACE >? gMax st then GLOBAL_OVERFLOW else TRAIL_OVERFLOW.

(** Trail(p, w): the assignment is recorded on the trail *)
Definition Trail (st : stacks) (p : Z) (w : word) : stacks :=
  mkStacks (<[p := w]> (s_mem st)) (gTop st) (gMax st) (aStack st) (p :: trail st) (tMax st).

Definition canBind (w : word) : bool := tag w <=? TAG_ATTVAR.
Definition isAttVar (w : word) : bool := tag w =? TAG_ATTVAR.

(** Modelled from the spec: [materialize(table, token) -> Value]; the
    value is put on the global stack, 0 when there is no room. *)
Definition extern_indirect_no_shift (tbl : option indirect_table) (st : stacks) (key : word)
  : option (word * stacks) :=
  tb ← tbl;
  '(tg, c) ← tb !! Z.to_nat (valPtr key - 1);
  match allocGlobalNoShift st 1 with
  | Some (a, st1) => Some (consPtr a (Z.lor tg STG_GLOBAL), write_cell st1 a c)
  | None => Some (0, st)
  end.

Definition init_ukey_state (p : Z) : ukey_state := mkUkey p uread 0 ∅.

(** find_var: the slot of variable [index]; the assertion on the order of
    first occurrences is part of the result *)
Definition find_var (us : ukey_state) (index : Z) : option (option Z * ukey_state) :=
  if index >? us_max_var_seen us then
    if index =? us_max_var_seen us + 1
    then Some (None, mkUkey (us_ptr us) (us_umode us) index (delete index (us_vars us)))
    else None
  else Some (us_vars us !! index, us).

Definition set_var_slot (us : ukey_state) (index : Z) (a : Z) : ukey_state :=
  mkUkey (us_ptr us) (us_umode us) (us_max_var_seen us) (<[index := a]> (us_vars us)).
Definition set_ptr (us : ukey_state) (p : Z) : ukey_state :=
  mkUkey p (us_umode us) (us_max_var_seen us) (us_vars us).
Definition set_umode (us : ukey_state) (m : unify_mode) : ukey_state :=
  mkUkey (us_ptr us) m (us_max_var_seen us) (us_vars us).

Section Reconstruction.

(** The unifier and the wake-up of attributed variables are the host's
    (pl-prims.c, pl-attvar.c). *)
Variable unify_ptrs : stacks -> Z -> Z -> option (Z * stacks).
Variable assignAttVar : stacks -> Z -> word -> option stacks.

Fixpoint set_vars (st : stacks) (a : Z) (n : nat) : stacks :=
  match n with
  | O => st
  | S n' => set_vars (write_cell st a 0) (a + 1) n'
  end.

(** unify_key *)
Definition unify_key (fuel : nat) (tr : trie) (us : ukey_state) (st : stacks) (key : word)
  : option (Z * ukey_state * stacks) :=
  if key =? TRIE_KEY_POP then
    match aStack st with
    | (ptr, mode) :: rest => Some (TRUE, set_umode (set_ptr us ptr) mode, set_aStack st rest)
    | [] => None
    end
  else
    p ← match us_umode us with
        | uread => deRef fuel (s_mem st) (us_ptr us)
        | uwrite => Some (us_ptr us)
        end;
    if isFunctorKey key then
      let arity := Z.of_nat (arityFunctor key) in
      let st1 := pushArgumentStack st (us_ptr us + 1, us_umode us) in
      match us_umode us with
      | uwrite =>
          match allocGlobalNoShift st1 (arity + 1) with
          | Some (t, st2) =>
              let st3 := write_cell st2 t key in
              let st4 := write_cell st3 p (consPtr t (Z.lor TAG_COMPOUND STG_GLOBAL)) in
              Some (TRUE, set_ptr us (t + 1), st4)
          | None => Some (GLOBAL_OVERFLOW, us, st1)
          end
      | uread =>
          w ← s_mem st1 !! p;
          if canBind w then
            let us1 := set_umode us uwrite in
            if isAttVar w then
              match allocGlobalNoShift st1 (arity + 1) with
              | Some (t, st2) =>
                  if negb (hasGlobalSpace st2 0) then Some (overflowCode st2 0, us1, st2)
                  else
                    let st3 := write_cell st2 t key in
                    let st4 := set_vars st3 (t + 1) (arityFunctor key) in
                    st5 ← assignAttVar st4 p (consPtr t (Z.lor TAG_COMPOUND STG_GLOBAL));
                    Some (TRUE, set_ptr us1 (t + 1), st5)
              | None => Some (GLOBAL_OVERFLOW, us1, st1)
              end
            else
              match allocGlobalNoShift st1 (arity + 1) with
              | Some (t, st2) =>
                  if tTop st2 + 1 >=? tMax st2 then Some (TRAIL_OVERFLOW, us1, st2)
                  else
                    let st3 := write_cell st2 t key in
                    let st4 := Trail st3 p (consPtr t (Z.lor TAG_COMPOUND STG_GLOBAL)) in
                    Some (TRUE, set_ptr us1 (t + 1), st4)
              | None => Some (GLOBAL_OVERFLOW, us1, st1)
              end
          else if isTerm w then
            f ← s_mem st1 !! valPtr w;
            if f =? key then Some (TRUE, set_ptr us (valPtr w + 1), st1)
            else Some (FALSE, us, st1)
          else Some (FALSE, us, st1)
      end
    else if tag key =? TAG_VAR then
      let index := Z.shiftr key LMASK_BITS in
      '(v, us1) ← find_var us index;
      match us_umode us1, v with
      | uwrite, None =>
          Some (TRUE, set_ptr (set_var_slot us1 index (us_ptr us1)) (us_ptr us1 + 1),
                write_cell st (us_ptr us1) 0)
      | uwrite, Some a =>
          Some (TRUE, set_ptr us1 (us_ptr us1 + 1), write_cell st (us_ptr us1) (makeRefG a))
      | uread, None =>
          Some (TRUE, set_ptr (set_var_slot us1 index (us_ptr us1)) (us_ptr us1 + 1), st)
      | uread, Some a =>
          '(rc, st1) ← unify_ptrs st (us_ptr us1) a;
          if rc =? TRUE then Some (TRUE, set_ptr us1 (us_ptr us1 + 1), st1)
          else Some (rc, us1, st1)
      end
    else
      '(w, st1) ← (if isIndirect key
                   then extern_indirect_no_shift (indirects tr) st key
                   else Some (key, st));
      if isIndirect key && (w =? 0) then Some (GLOBAL_OVERFLOW, us, st1)
      else
        match us_umode us with
        | uwrite => Some (TRUE, set_ptr us (us_ptr us + 1), write_cell st1 p w)
        | uread =>
            c ← s_mem st1 !! p;
            if canBind c then
              if hasGlobalSpace st1 0 then
                st2 ← (if isVar c then Some (Trail st1 p w) else assignAttVar st1 p w);
                Some (TRUE, set_ptr us (us_ptr us + 1), st2)
              else Some (overflowCode st1 0, us, st1)
            else if negb (c =? w) then Some (FALSE, us, st1)
            else Some (TRUE, set_ptr us (us_ptr us + 1), st1)
        end.

(** The keys of a node, from the node up to the root (the array [keys]) *)
Fixpoint collect_keys (fuel : nat) (tr : trie) (node : node_id) : option (list word) :=
  match fuel with
  | O => None
  | S fuel' =>
      nd ← nodes tr !! node;
      match tn_parent nd with
      | None => Some []
      | Some p => ks ← collect_keys fuel' tr p; Some (tn_key nd :: ks)
      end
  end.

(** The replay [for(i=kc; i-- > 0; )] of the keys, root first *)
Fixpoint replay_keys (fuel : nat) (tr : trie) (us : ukey_state) (st : stacks) (keys : list word)
  : option (Z * ukey_state * stacks) :=
  match keys with
  | [] => Some (TRUE, us, st)
  | key :: rest =>
      '(rc, us', st') ← unify_key fuel tr us st key;
      if rc =? TRUE then replay_keys fuel tr us' st' rest else Some (rc, us', st')
  end.

(** PL_rewind_foreign_frame: the assignments on the trail are undone and
    the global stack is cut back to the mark *)
Definition PL_rewind_foreign_frame (mark st : stacks) : stacks :=
  mkStacks (s_mem mark) (gTop mark) (gMax st) (aStack st) (trail mark) (tMax st).

(** Modelled from the spec: growing the output area after an overflow *)
Definition makeMoreStackSpace (rc : Z) (st : stacks) : stacks :=
  if rc =? TRAIL_OVERFLOW
  then mkStacks (s_mem st) (gTop st) (gMax st) (aStack st) (trail st) (2 * tMax st + 8)
  else mkStacks (s_mem st) (gTop st) (2 * gMax st + 8) (aStack st) (trail st) (tMax st).

Fixpoint unify_trie_term_loop (fuel : nat) (tr : trie) (mark st : stacks)
    (keys : list word) (term : Z) : option (Z * stacks) :=
  match fuel with
  | O => None
  | S fuel' =>
      '(rc, _, st') ← replay_keys (S fuel') tr (init_ukey_state term) st keys;
      if rc =? TRUE then Some (TRUE, st')
      else if rc =? FALSE then Some (FALSE, st')
      else
        unify_trie_term_loop fuel' tr mark
          (makeMoreStackSpace rc (PL_rewind_foreign_frame mark st')) keys term
  end.

(** unify_trie_term *)
Definition unify_trie_term (fuel : nat) (tr : trie) (st : stacks) (node : node_id) (term : Z)
  : option (Z * stacks) :=
  keys ← collect_keys fuel tr node;
  unify_trie_term_loop fuel tr st st (rev keys) term.

End Reconstruction.

(** * Properties *)

(** ** Sample terms and tries *)

Definition atom (i : Z) : word := Z.lor (Z.shiftl i LMASK_BITS) TAG_ATOM.
Definition compound_at (a : Z) : word := consPtr a (Z.lor TAG_COMPOUND STG_GLOBAL).

(** Six atoms: the keys a, b, c in cells 100..102 and the values v1, v2,
    v3 in cells 110..112 *)
Definition atoms_mem : mem :=
  {[ 100 := atom 1; 101 := atom 2; 102 := atom 3;
     110 := atom 11; 111 := atom 12; 112 := atom 13 ]}.

(** The trie after a call of trie_insert/3 (an undefined call leaves the
    trie as it is) *)
Definition inserted (t : trie) (m : mem) (Key Value : Z) : trie :=
  match trie_insert 10 t m Key Value false with
  | Some r => r_trie r
  | None => t
  end.

(** The trie holding a under the value v1 *)
Definition trie_a : trie := inserted trie_create atoms_mem 100 110.

(** The trie holding a, b and c under v1, v2 and v3 *)
Definition trie_abc : trie :=
  inserted (inserted trie_a atoms_mem 101 111) atoms_mem 102 112.

(** The cyclic term X = f(X): cell 10 holds X *)
Definition cyclic_mem : mem :=
  {[ 10 := compound_at 20; 20 := MK_FUNCTOR 1 1; 21 := compound_at 20 ]}.

(** A big integer in cell 10 (its value in cell 20), an attributed
    variable in cell 11 *)
Definition indirect_mem : mem :=
  {[ 10 := consPtr 20 (Z.lor TAG_INTEGER STG_GLOBAL); 20 := 12345; 11 := TAG_ATTVAR ]}.

(** f(a) in cell 10, the value v1 in cell 110 *)
Definition fa_mem : mem :=
  {[ 10 := compound_at 20; 20 := MK_FUNCTOR 1 1; 21 := atom 1; 110 := atom 11 ]}.

(** The trie after trie_delete (an undefined call leaves the trie as it
    is) *)
Definition deleted (t : trie) (node : node_id) (prune : bool) : trie :=
  default t (trie_delete 10 t node prune).

(** a, b and c were inserted; the values of a and b were then deleted
    without pruning: their nodes stay as leaves without value *)
Definition trie_c_left : trie := deleted (deleted trie_abc 1%nat false) 2%nat false.

(** a, b and c were inserted and then all deleted with pruning: the root
    keeps its (empty) hash table *)
Definition trie_abc_pruned : trie :=
  deleted (deleted (deleted trie_abc 1%nat true) 2%nat true) 3%nat true.

(** f(a) was inserted under v1 (nodes 1: f/1, 2: a, 3: pop), then
    set_trie_value_word gave the inner node 2 the value v2 *)
Definition trie_fa : trie := inserted trie_create fa_mem 10 110.
Definition trie_fa_inner : trie :=
  match set_trie_value_word trie_fa 2%nat (atom 12) with
  | Some (_, t) => t
  | None => trie_fa
  end.

(** ** Frames *)

(** The trie [t'] is [t], except that an absent indirect table may have
    been made (empty). *)
Definition same_but_indirects (t t' : trie) : Prop :=
  t' = t \/ (indirects t = None /\ t' = set_indirects t (Some new_indirect_table)).

(** ** The shape of a trie and the extent of a pruning *)

(** The child a node has under a key, as get_child reads it *)
Definition child_of (nd : trie_node) (k : word) : option node_id :=
  match tn_children nd with
  | NoChildren => None
  | TN_KEY k' c => if k' =? k then Some c else None
  | TN_HASHED table => lookupHTable table k
  end.

(** A node has children other than the one under key [k] *)
Definition other_children (pd : trie_node) (k : word) : bool :=
  match tn_children pd with
  | NoChildren => false
  | TN_KEY k' _ => negb (k' =? k)
  | TN_HASHED table => negb (length (deleteHTable table k) =? 0)%nat
  end.

(** The children of a node once the child under key [k] is detached *)
Definition detach (c : trie_children) (k : word) : trie_children :=
  match c with
  | NoChildren => NoChildren
  | TN_KEY _ _ => NoChildren
  | TN_HASHED table => TN_HASHED (deleteHTable table k)
  end.

(** The extent of a pruning that starts at [n], read off the trie: the
    nodes removed, bottom-up, and the ancestor at which the pruning
    stops, which is the first ancestor that has other children, or the
    root. *)
Fixpoint prune_chain (fuel : nat) (t : trie) (n : node_id) : option (list node_id * node_id) :=
  match fuel with
  | O => None
  | S fuel' =>
      nd ← nodes t !! n;
      match tn_parent nd with
      | None => Some ([], n)
      | Some p =>
          pd ← nodes t !! p;
          if other_children pd (tn_key nd) then Some ([n], p)
          else r ← prune_chain fuel' t p; Some (n :: fst r, snd r)
      end
  end.

(** f(a) and f(b) in cells 10 and 11, the values v1 and v2 in cells 110
    and 111 *)
Definition fab_mem : mem :=
  {[ 10 := compound_at 20; 20 := MK_FUNCTOR 1 1; 21 := atom 1;
     11 := compound_at 30; 30 := MK_FUNCTOR 1 1; 31 := atom 2;
     110 := atom 11; 111 := atom 12 ]}.

(** The trie of f(a) and f(b): nodes 1: f/1, 2: a, 3: pop, 4: b, 5: pop *)
Definition trie_fb : trie := inserted (inserted trie_create fab_mem 10 110) fab_mem 11 111.

(** f(X, a, g(X, Y)) in cell 10; cell 5 holds an unbound variable and
    cell 6 the value v1 *)
Definition term_mem : mem :=
  {[ 5 := 0; 6 := atom 11; 10 := compound_at 20;
     20 := MK_FUNCTOR 1 3; 21 := 0; 22 := atom 2; 23 := compound_at 30;
     30 := MK_FUNCTOR 2 2; 31 := makeRefG 21; 32 := 0 ]}.

(** ** The variables of a walk *)

(** Two memories with the same skeleton: they differ only in cells that
    hold a variable word in both. *)
Definition same_skeleton (m1 m2 : mem) : Prop :=
  forall a, m1 !! a = m2 !! a
    \/ exists w1 w2, m1 !! a = Some w1 /\ m2 !! a = Some w2
                     /\ tag w1 = TAG_VAR /\ tag w2 = TAG_VAR.

(** The stacks hold well-formed terms: a variable word is the unbound
    variable, and a compound word points to a functor cell, which does
    not hold a variable word. *)
Definition wf_mem (m : mem) : Prop :=
  (forall a w, m !! a = Some w -> tag w = TAG_VAR -> w = 0)
  /\ (forall a w f, m !! a = Some w -> tag w = TAG_COMPOUND ->
        m !! valPtr w = Some f -> tag f <> TAG_VAR).

(** [m'] is [m0] with the unbound cells of [D] rewritten to markers. *)
Definition marked (m0 : mem) (D : gset Z) (m' : mem) : Prop :=
  (forall a, a ∈ D -> m0 !! a = Some 0
                      /\ exists w, m' !! a = Some w /\ w <> 0 /\ tag w = TAG_VAR)
  /\ (forall a, a ∉ D -> m' !! a = m0 !! a).

Fixpoint nonempty_frames (l : list aNode) : list aNode :=
  match l with
  | [] => []
  | f :: r =>
      match a_size f with
      | O => nonempty_frames r
      | S _ => f :: nonempty_frames r
      end
  end.

(** The agenda of the walk with pops and the agenda of the plain walk
    hold the same work. *)
Definition agenda_rel (A C : term_agenda) : Prop :=
  nonempty_frames (work A :: stack A) = nonempty_frames (work C :: stack C)
  /\ nonempty_frames (stack C) = stack C.

(** The memory of the clearing walk: the final memory of the lookup walk
    with the cells of [D] restored. *)
Definition restored (m0 MF : mem) (D : gset Z) (cm : mem) : Prop :=
  (forall a, a ∈ D -> cm !! a = Some 0) /\ (forall a, a ∉ D -> cm !! a = MF !! a).

Definition wf_cell_b (m : mem) (w : word) : bool :=
  (if tag w =? TAG_VAR then w =? 0 else true)
  && (if tag w =? TAG_COMPOUND
      then match m !! valPtr w with
           | Some f => negb (tag f =? TAG_VAR)
           | None => true
           end
      else true).
Definition wf_mem_b (m : mem) : bool :=
  forallb (fun e => wf_cell_b m (snd e)) (map_to_list m).
(** * The round trip: definitions

    A term in memory is described by its shape; [enc] gives the keys
    that the walk of trie_lookup follows for a shape, and the term
    builder is followed along these keys. *)

(** The keys on the way from the root to a node, root first *)
Inductive path (t : trie) : node_id -> list word -> Prop :=
| path_root n nd :
    nodes t !! n = Some nd -> tn_parent nd = None -> path t n []
| path_step n nd p ks :
    nodes t !! n = Some nd -> tn_parent nd = Some p -> path t p ks ->
    path t n (ks ++ [tn_key nd]).

(** The children of every node point to nodes that name it as their
    parent under the same key; the root is there; the allocator hands
    out nodes that are not in use. *)
Definition wf_links (t : trie) : Prop :=
  (exists rd, nodes t !! root = Some rd /\ tn_parent rd = None)
  /\ (forall p pd k c, nodes t !! p = Some pd -> child_of pd k = Some c ->
        exists cd, nodes t !! c = Some cd /\ tn_parent cd = Some p /\ tn_key cd = k)
  /\ (forall x, is_Some (nodes t !! x) -> (x < next_node t)%nat).

(** A term as a tree: a variable (named by its cell), an atomic word, an
    indirect datum (its tag and its content) or a compound. *)
Inductive shape_t :=
| SVar (a : Z)
| SAtomic (w : word)
| SIndirect (tg : Z) (c : word)
| SCompound (f : word) (args : shape_l)
with shape_l :=
| SNil
| SCons (s : shape_t) (l : shape_l).

Scheme shape_t_mut := Induction for shape_t Sort Prop
  with shape_l_mut := Induction for shape_l Sort Prop.

Fixpoint slen (l : shape_l) : nat :=
  match l with
  | SNil => O
  | SCons _ r => S (slen r)
  end.

(** [derefs m p q]: the reference chain from cell [p] ends in cell [q]
    (the relation computed by [deRef]). *)
Inductive derefs (m : mem) : Z -> Z -> Prop :=
| derefs_here p w : m !! p = Some w -> isRef w = false -> derefs m p p
| derefs_ref p w q : m !! p = Some w -> isRef w = true -> derefs m (unRef w) q -> derefs m p q.

(** The words that trie_lookup sends to the trie as they are *)
Definition atomic_word (w : word) : Prop :=
  (tag w =? TAG_VAR) = false /\ (tag w =? TAG_ATTVAR) = false
  /\ (tag w =? TAG_COMPOUND) = false /\ isIndirect w = false /\ isFunctorKey w = false.

(** [shape m p s]: cell [p] of [m] holds the term [s]; such a term is
    finite (so acyclic) and has no attributed variable. *)
Fixpoint shape (m : mem) (p : Z) (s : shape_t) {struct s} : Prop :=
  exists q w, derefs m p q /\ m !! q = Some w /\
    match s with
    | SVar a => a = q /\ w = 0
    | SAtomic v => v = w /\ atomic_word w
    | SIndirect tg c =>
        isIndirect w = true /\ tag w = tg /\ m !! valPtr w = Some c /\ tag c <> TAG_VAR
    | SCompound f args =>
        tag w = TAG_COMPOUND /\ m !! valPtr w = Some f /\ isFunctorKey f = true
        /\ arityFunctor f = slen args /\ shape_args m (valPtr w + 1) args
    end
with shape_args (m : mem) (p : Z) (l : shape_l) {struct l} : Prop :=
  match l with
  | SNil => True
  | SCons s r => shape m p s /\ shape_args m (p + 1) r
  end.

(** The rank of first occurrence of a variable *)
Fixpoint index_nat (a : Z) (l : list Z) : option nat :=
  match l with
  | [] => None
  | b :: r => if b =? a then Some O else S <$> index_nat a r
  end.

(** The keys of a term in the order of the walk of trie_lookup, given the
    variables met so far and the table of indirect data; a variable gives
    the key of its rank, a compound its functor, the keys of its arguments
    and TRIE_KEY_POP. *)
Fixpoint enc (vs : list Z) (tbl : indirect_table) (s : shape_t)
  : list word * list Z * indirect_table :=
  match s with
  | SVar a =>
      match index_nat a vs with
      | Some i => ([var_key (Z.of_nat i + 1)], vs, tbl)
      | None => ([var_key (Z.of_nat (length vs) + 1)], vs ++ [a], tbl)
      end
  | SAtomic w => ([w], vs, tbl)
  | SIndirect tg c =>
      match index_of (tg, c) tbl 0 with
      | Some i => ([indirect_surrogate tg i], vs, tbl)
      | None => ([indirect_surrogate tg (Z.of_nat (length tbl))], vs, tbl ++ [(tg, c)])
      end
  | SCompound f args =>
      let '(ks, vs', tbl') := enc_l vs tbl args in
      (f :: ks ++ [TRIE_KEY_POP], vs', tbl')
  end
with enc_l (vs : list Z) (tbl : indirect_table) (l : shape_l)
  : list word * list Z * indirect_table :=
  match l with
  | SNil => ([], vs, tbl)
  | SCons s r =>
      let '(k1, vs1, tbl1) := enc vs tbl s in
      let '(k2, vs2, tbl2) := enc_l vs1 tbl1 r in
      (k1 ++ k2, vs2, tbl2)
  end.

(** The stacks during the walk: the variables met so far hold their
    markers, every other cell is as before. *)
Definition marks (m0 : mem) (vs : list Z) (E : mem) : Prop :=
  NoDup vs
  /\ (forall i a, vs !! i = Some a ->
        m0 !! a = Some 0 /\ E !! a = Some (var_key (Z.of_nat i + 1)))
  /\ (forall a, a ∉ vs -> E !! a = m0 !! a).

(** The walk ended with TRUE on a node. *)
Definition success (ls : lookup_state) : Prop :=
  ls_rc ls = TRUE /\ is_Some (ls_node ls).

(** The state of the walk after the keys [ks]: the cursor is the node at
    the end of the path [ks]. *)
Definition walk_inv (m0 : mem) (ls : lookup_state) (n : node_id) (vs : list Z)
    (tbl : indirect_table) (ks : list word) : Prop :=
  ls_node ls = Some n /\ ls_rc ls = TRUE
  /\ marks m0 vs (ls_mem ls)
  /\ ls_var_number ls = Z.of_nat (length vs)
  /\ wf_links (ls_trie ls) /\ path (ls_trie ls) n ks
  /\ default [] (indirects (ls_trie ls)) = tbl.

(** What the walk of trie_lookup does on one term (on a list of argument
    terms): a successful run passes through the state in which the term
    is consumed and its keys are followed. *)
Definition walk_t (m0 : mem) (s : shape_t) : Prop :=
  forall loc fe ls lsF stk k n vs tbl ks keys vs' tbl',
    shape m0 loc s ->
    ls_agenda ls = mkAgenda (mkANode loc (S k)) stk ->
    walk_inv m0 ls n vs tbl ks ->
    trie_lookup_loop fe true ls = Some lsF -> success lsF ->
    enc vs tbl s = (keys, vs', tbl') ->
    exists fe' ls' n',
      trie_lookup_loop fe' true ls' = Some lsF
      /\ ls_agenda ls' = mkAgenda (mkANode (loc + 1) k) stk
      /\ walk_inv m0 ls' n' vs' tbl' (ks ++ keys).

(** The same for a list of arguments *)
Definition walk_l (m0 : mem) (l : shape_l) : Prop :=
  forall loc fe ls lsF stk k n vs tbl ks keys vs' tbl',
    shape_args m0 loc l ->
    ls_agenda ls = mkAgenda (mkANode loc (slen l + k)) stk ->
    walk_inv m0 ls n vs tbl ks ->
    trie_lookup_loop fe true ls = Some lsF -> success lsF ->
    enc_l vs tbl l = (keys, vs', tbl') ->
    exists fe' ls' n',
      trie_lookup_loop fe' true ls' = Some lsF
      /\ ls_agenda ls' = mkAgenda (mkANode (loc + Z.of_nat (slen l)) k) stk
      /\ walk_inv m0 ls' n' vs' tbl' (ks ++ keys).

(** The cell that stands for a variable in the term built from the path *)
Definition var_image (vs rs : list Z) (a : Z) : Z :=
  default a (i ← index_nat a vs; rs !! i).

(** A term under a renaming of its variables *)
Fixpoint rename (r : Z -> Z) (s : shape_t) : shape_t :=
  match s with
  | SVar a => SVar (r a)
  | SAtomic w => SAtomic w
  | SIndirect tg c => SIndirect tg c
  | SCompound f args => SCompound f (rename_l r args)
  end
with rename_l (r : Z -> Z) (l : shape_l) : shape_l :=
  match l with
  | SNil => SNil
  | SCons s t => SCons (rename r s) (rename_l r t)
  end.

(** The variables of a term, in the order of the walk *)
Fixpoint vars_of (s : shape_t) : list Z :=
  match s with
  | SVar a => [a]
  | SAtomic _ => []
  | SIndirect _ _ => []
  | SCompound _ args => vars_of_l args
  end
with vars_of_l (l : shape_l) : list Z :=
  match l with
  | SNil => []
  | SCons s t => vars_of s ++ vars_of_l t
  end.

(** Two terms are variants: one is the other under a renaming of its
    variables that keeps distinct variables distinct. *)
Definition variant (s s' : shape_t) : Prop :=
  exists r : Z -> Z,
    (forall a b, a ∈ vars_of s -> b ∈ vars_of s -> r a = r b -> a = b)
    /\ s' = rename r s.

(** The cells of the global stack that building a term takes *)
Fixpoint cells (s : shape_t) : Z :=
  match s with
  | SVar _ => 0
  | SAtomic _ => 0
  | SIndirect _ _ => 1
  | SCompound _ args => Z.of_nat (slen args) + 1 + cells_l args
  end
with cells_l (l : shape_l) : Z :=
  match l with
  | SNil => 0
  | SCons s t => cells s + cells_l t
  end.

(** The tags of indirect data *)
Definition indirect_tag_ok (tg : Z) : Prop :=
  tg = TAG_FLOAT \/ tg = TAG_INTEGER \/ tg = TAG_STRING.

(** What [shape] says of a term whatever the memory is *)
Fixpoint good (s : shape_t) : Prop :=
  match s with
  | SVar _ => True
  | SAtomic w => atomic_word w /\ isRef w = false
  | SIndirect tg c => indirect_tag_ok tg /\ tag c <> TAG_VAR
  | SCompound f args => isFunctorKey f = true /\ arityFunctor f = slen args /\ good_l args
  end
with good_l (l : shape_l) : Prop :=
  match l with
  | SNil => True
  | SCons s t => good s /\ good_l t
  end.

(** The global stack while a term is built: nothing is stored at or above
    its top. *)
Definition dec_inv (st : stacks) : Prop :=
  0 <= gTop st /\ gTop st <= gMax st /\ gMax st <= 2 ^ 57
  /\ (forall a, gTop st <= a -> s_mem st !! a = None).

(** The variables met so far: variable [i + 1] of the path stands for
    the unbound cell [rs !! i]. *)
Definition var_inv (us : ukey_state) (st : stacks) (rs : list Z) : Prop :=
  us_max_var_seen us = Z.of_nat (length rs)
  /\ NoDup rs
  /\ (forall i a, rs !! i = Some a ->
        us_vars us !! (Z.of_nat i + 1) = Some a /\ s_mem st !! a = Some 0 /\ 0 <= a < 2 ^ 57).

(** What writing [n] argument cells from [p] on leaves behind, [c] cells
    of the global stack being taken. *)
Definition dec_step (st : stacks) (rs : list Z) (p n c : Z) (vs' : list Z)
    (us' : ukey_state) (st' : stacks) (rs' : list Z) : Prop :=
  us_umode us' = uwrite /\ us_ptr us' = p + n
  /\ dec_inv st' /\ gTop st' = gTop st + c /\ gMax st' = gMax st
  /\ aStack st' = aStack st /\ trail st' = trail st /\ tMax st' = tMax st
  /\ var_inv us' st' rs' /\ rs `prefix_of` rs' /\ length rs' = length vs'
  /\ (forall a, a < p \/ p + n <= a -> a < gTop st -> s_mem st' !! a = s_mem st !! a).

(** What building the term against the unbound cell [term] leaves behind *)
Definition top_post (m : mem) (term gtop : Z) (s : shape_t) (vs' : list Z)
    (st' : stacks) (rs' : list Z) : Prop :=
  length rs' = length vs' /\ NoDup rs'
  /\ (forall a, a <> term -> a < gtop -> s_mem st' !! a = m !! a)
  /\ shape (s_mem st') term (rename (var_image vs' rs') s).

Section DecodeSpec.

Variable U : stacks -> Z -> Z -> option (Z * stacks).
Variable A : stacks -> Z -> word -> option stacks.

(** A term is written into the argument cell [p] of a compound under
    construction. *)
Definition dec_t (tr : trie) (s : shape_t) : Prop :=
  forall fuel vs tbl keys vs' tbl' rest us st rs p,
    enc vs tbl s = (keys, vs', tbl') ->
    good s ->
    tbl' `prefix_of` default [] (indirects tr) ->
    Z.of_nat (length tbl') < 2 ^ 56 ->
    Z.of_nat (length vs') < 2 ^ 56 ->
    length rs = length vs ->
    us_umode us = uwrite -> us_ptr us = p ->
    dec_inv st -> var_inv us st rs ->
    s_mem st !! p = None -> 0 <= p < gTop st ->
    gTop st + cells s <= gMax st ->
    exists us' st' rs',
      replay_keys U A fuel tr us st (keys ++ rest) = replay_keys U A fuel tr us' st' rest
      /\ dec_step st rs p 1 (cells s) vs' us' st' rs'
      /\ shape (s_mem st') p (rename (var_image vs' rs') s).

(** A list of arguments is written into the cells from [p] on. *)
Definition dec_l (tr : trie) (l : shape_l) : Prop :=
  forall fuel vs tbl keys vs' tbl' rest us st rs p,
    enc_l vs tbl l = (keys, vs', tbl') ->
    good_l l ->
    tbl' `prefix_of` default [] (indirects tr) ->
    Z.of_nat (length tbl') < 2 ^ 56 ->
    Z.of_nat (length vs') < 2 ^ 56 ->
    length rs = length vs ->
    us_umode us = uwrite -> us_ptr us = p ->
    dec_inv st -> var_inv us st rs ->
    (forall j, 0 <= j < Z.of_nat (slen l) -> s_mem st !! (p + j) = None) ->
    0 <= p -> p + Z.of_nat (slen l) <= gTop st ->
    gTop st + cells_l l <= gMax st ->
    exists us' st' rs',
      replay_keys U A fuel tr us st (keys ++ rest) = replay_keys U A fuel tr us' st' rest
      /\ dec_step st rs p (Z.of_nat (slen l)) (cells_l l) vs' us' st' rs'
      /\ shape_args (s_mem st') p (rename_l (var_image vs' rs') l).

(** The keys of a term are read against the unbound cell [term]: the
    first key binds [term], the arguments of a compound are written. *)
Definition dec_top_t (tr : trie) (s : shape_t) : Prop :=
  forall fuel tbl keys vs' tbl' m term gtop gmax tmax,
    enc [] tbl s = (keys, vs', tbl') ->
    good s ->
    tbl' `prefix_of` default [] (indirects tr) ->
    Z.of_nat (length tbl') < 2 ^ 56 ->
    Z.of_nat (length vs') < 2 ^ 56 ->
    m !! term = Some 0 -> 0 <= term < gtop ->
    (forall a, gtop <= a -> m !! a = None) ->
    gtop + cells s + BIND_GLOBAL_SPACE <= gmax -> gmax <= 2 ^ 57 ->
    BIND_TRAIL_SPACE <= tmax ->
    exists us' st' rs',
      replay_keys U A (S fuel) tr (init_ukey_state term) (mkStacks m gtop gmax [] [] tmax) keys
      = Some (TRUE, us', st')
      /\ top_post m term gtop s vs' st' rs'.

End DecodeSpec.

(** f(X, a, g(X, Y)), the term of [term_mem] at cell 10, and the trie that
    holds it *)
Definition term_shape : shape_t :=
  SCompound (MK_FUNCTOR 1 3)
    (SCons (SVar 21) (SCons (SAtomic (atom 2))
       (SCons (SCompound (MK_FUNCTOR 2 2) (SCons (SVar 21) (SCons (SVar 32) SNil))) SNil))).

Definition trie_term : trie :=
  match trie_lookup 100 trie_create term_mem 10 true with
  | Some (_, _, t', _) => t'
  | None => trie_create
  end.

(** f(12345678901234567890, X) in cell 10: the big integer is an indirect
    datum whose content is in cell 40 *)
Definition big_mem : mem :=
  {[ 5 := 0; 10 := compound_at 20; 20 := MK_FUNCTOR 1 2;
     21 := consPtr 40 (Z.lor TAG_INTEGER STG_GLOBAL); 22 := 0;
     40 := 12345678901234567890 ]}.

Definition trie_big : trie :=
  match trie_lookup 100 trie_create big_mem 10 true with
  | Some (_, _, t', _) => t'
  | None => trie_create
  end.


(** * Further properties: accounting, lookups after additions, enumeration *)

(** The node counter and the charge of the allocation pool follow the
    node store: the counter is the number of nodes that were allocated
    and not freed (the root, embedded in the trie, is not counted), the
    pool is charged for each of them; the ids in use lie below the next
    id of the allocator. *)
Definition accounted (base : Z) (t : trie) : Prop :=
  (forall x, is_Some (nodes t !! x) -> (x < next_node t)%nat)
  /\ node_count t = uint_wrap (Z.of_nat (size (nodes t)) - 1)
  /\ match alloc_pool t with
     | Some p => pool_size p = base + sizeof_trie_node * Z.of_nat (size (nodes t))
     | None => True
     end.

(** The part of a trie that the accounting looks at *)
Definition same_store (t t' : trie) : Prop :=
  nodes t' = nodes t /\ next_node t' = next_node t /\ node_count t' = node_count t
  /\ alloc_pool t' = alloc_pool t.

(** A decision procedure for [accounted] *)
Definition accounted_b (base : Z) (t : trie) : bool :=
  forallb (fun e => (fst e <? next_node t)%nat) (map_to_list (nodes t))
  && (node_count t =? uint_wrap (Z.of_nat (size (nodes t)) - 1))
  && match alloc_pool t with
     | Some p => pool_size p =? base + sizeof_trie_node * Z.of_nat (size (nodes t))
     | None => true
     end.

(** A trie whose nodes are charged to a pool of 100 nodes, and that trie
    after f(X, a, g(X, Y)) was added *)
Definition trie_pooled : trie :=
  set_alloc_pool trie_create (Some (mkPool sizeof_trie_node (100 * sizeof_trie_node))).

Definition trie_pooled_lookup : trie :=
  match trie_lookup 100 trie_pooled term_mem 10 true with
  | Some (_, _, t', _) => t'
  | None => trie_pooled
  end.

Definition trie_pooled_term : trie :=
  match trie_insert 100 trie_pooled term_mem 10 6 false with
  | Some r => r_trie r
  | None => trie_pooled
  end.

(** The ids of the nodes in use lie below the next id of the allocator *)
Definition fresh_ids (t : trie) : Prop :=
  forall x, is_Some (nodes t !! x) -> (x < next_node t)%nat.

(** [t'] has every child that [t] has, under the same key, and every
    entry of the indirect table of [t] at the same index. *)
Definition grows (t t' : trie) : Prop :=
  (forall n nd k c, nodes t !! n = Some nd -> child_of nd k = Some c ->
     exists nd', nodes t' !! n = Some nd' /\ child_of nd' k = Some c)
  /\ match indirects t with
     | Some tb => exists tb', indirects t' = Some tb' /\ tb `prefix_of` tb'
     | None => True
     end.

(** The record store of a trie *)
Definition same_records (t t' : trie) : Prop :=
  records t' = records t /\ next_record t' = next_record t.

(** The state of the walk with another trie and another count of
    compounds *)
Definition retrie (ls : lookup_state) (c : Z) (t : trie) : lookup_state :=
  mkLookup (ls_agenda ls) (ls_node ls) (ls_var_number ls) (ls_rc ls) c t (ls_mem ls).

Definition fresh_ids_b (t : trie) : bool :=
  forallb (fun e => (fst e <? next_node t)%nat) (map_to_list (nodes t)).

(** The trie that holds f(X, a, g(X, Y)) and f(12345678901234567890, X) *)
Definition trie_two : trie :=
  match trie_lookup 100 trie_term big_mem 10 true with
  | Some (_, _, t', _) => t'
  | None => trie_term
  end.

(** The handles of the records in use are multiples of four below the
    next handle, and the null handle is not given out. *)
Definition records_ok (t : trie) : Prop :=
  0 < next_record t /\ Z.land (next_record t) 3 = 0
  /\ forall r, is_Some (records t !! r) -> r < next_record t.

(** What a caller can see of a trie apart from the allocator of record
    handles *)
Definition same_content (t t' : trie) : Prop :=
  nodes t' = nodes t /\ node_count t' = node_count t /\ value_count t' = value_count t
  /\ indirects t' = indirects t /\ atom_refs t' = atom_refs t /\ records t' = records t.

(** The number of references that the trie holds on an atom *)
Definition refs (t : trie) (a : word) : Z := default 0 (atom_refs t !! a).

(** The result of inserting the key a with the value v1 into the empty
    trie *)
Definition result_a : result :=
  default (mkResult FALSE None None trie_create atoms_mem)
          (trie_insert 10 trie_create atoms_mem 100 110 false).

(** is_ground_trie_node: no key on the way up to the root is a variable *)
Fixpoint is_ground_trie_node (fuel : nat) (t : trie) (node : node_id) : option bool :=
  match fuel with
  | O => None
  | S fuel' =>
      nd ← nodes t !! node;
      match tn_parent nd with
      | None => Some true
      | Some p =>
          if (tag (tn_key nd) =? TAG_VAR) && negb (tn_key nd =? TRIE_KEY_POP)
          then Some false
          else is_ground_trie_node fuel' t p
      end
  end.

(** The keys that stand for a variable *)
Definition is_var_key (k : word) : bool := (tag k =? TAG_VAR) && negb (k =? TRIE_KEY_POP).

(** The leaves below a node that hold a value, in depth-first order and
    with the tables in the order of their enumeration; [F] bounds the
    depth and [prefix] is the list of the keys down to the node. *)
Fixpoint leaves (F : nat) (t : trie) (n : node_id) (prefix : list word) : list solution :=
  match F with
  | O => []
  | S f =>
      match nodes t !! n with
      | None => []
      | Some nd =>
          match tn_children nd with
          | NoChildren =>
              if tn_value nd =? 0 then [] else [mkSolution prefix (tn_value nd) n]
          | TN_KEY k c => leaves f t c (prefix ++ [k])
          | TN_HASHED tbl =>
              flat_map (fun e => leaves f t (snd e) (prefix ++ [fst e])) tbl
          end
      end
  end.

(** Below the node, within depth [F]: every node is there, every leaf
    holds a value and no table is empty. *)
Fixpoint full (F : nat) (t : trie) (n : node_id) : bool :=
  match F with
  | O => false
  | S f =>
      match nodes t !! n with
      | None => false
      | Some nd =>
          match tn_children nd with
          | NoChildren => negb (tn_value nd =? 0)
          | TN_KEY k c => full f t c
          | TN_HASHED tbl =>
              negb (length tbl =? 0)%nat && forallb (fun e => full f t (snd e)) tbl
          end
      end
  end.

(** What the entries left in an enumerator have below them *)
Definition rest_enum (F : nat) (t : trie) (e : option TableEnum) (prefix : list word)
  : list solution :=
  match e with
  | Some e => flat_map (fun x => leaves F t (snd x) (prefix ++ [fst x])) e
  | None => []
  end.

(** What the choice points still have to give *)
Fixpoint pending (F : nat) (t : trie) (cps : choicepoints) : list solution :=
  match cps with
  | [] => []
  | ch :: below => rest_enum F t (ch_table ch) (rev (map ch_key below)) ++ pending F t below
  end.

Definition enum_full (F : nat) (t : trie) (cps : choicepoints) : Prop :=
  forall ch e x, ch ∈ cps -> ch_table ch = Some e -> x ∈ e -> full F t (snd x) = true.

(** The node has the child [c] as an entry under the key [k] *)
Definition entry_of (nd : trie_node) (k : word) (c : node_id) : Prop :=
  match tn_children nd with
  | NoChildren => False
  | TN_KEY k' c' => k' = k /\ c' = c
  | TN_HASHED tbl => (k, c) ∈ tbl
  end.

(** [down t n ks n']: the keys [ks] lead from [n] down to [n'] *)
Inductive down (t : trie) : node_id -> list word -> node_id -> Prop :=
| down_nil n : down t n [] n
| down_cons n nd k c ks n' :
    nodes t !! n = Some nd -> entry_of nd k c -> down t c ks n' -> down t n (k :: ks) n'.

(** The node a choice was made from: the child of the choice below it,
    the root for the first one *)
Definition choice_parent (below : choicepoints) : node_id :=
  match below with
  | [] => root
  | b :: _ => ch_child b
  end.

(** Every choice of the buffer is an entry of the node it was made
    from, and so is every entry left in its enumerator. *)
Fixpoint chain (t : trie) (cps : choicepoints) : Prop :=
  match cps with
  | [] => True
  | ch :: below =>
      (exists pd, nodes t !! choice_parent below = Some pd
         /\ entry_of pd (ch_key ch) (ch_child ch)
         /\ forall e x, ch_table ch = Some e -> x ∈ e -> entry_of pd (fst x) (snd x))
      /\ chain t below
  end.

(** A solution is a stored pair: its node is a leaf that holds the
    value, at the end of the keys. *)
Definition stored (t : trie) (sol : solution) : Prop :=
  down t root (sol_keys sol) (sol_node sol)
  /\ exists nd, nodes t !! sol_node sol = Some nd
       /\ tn_children nd = NoChildren
       /\ tn_value nd <> 0
       /\ sol_value sol = tn_value nd.

(** The top of the buffer is a leaf with a value. *)
Definition at_leaf (t : trie) (cps : choicepoints) : Prop :=
  match cps with
  | [] => True
  | ch :: _ => exists nd, nodes t !! ch_child ch = Some nd
                 /\ tn_children nd = NoChildren /\ tn_value nd <> 0
  end.

(** The shape that clear_node relies on: the entries of every live node
    point to live nodes that name it as their parent and lie below it
    (for the rank [dep]), and no child is entered twice in a table. *)
Definition tree_ok (dep : node_id -> nat) (t : trie) : Prop :=
  forall p pd, nodes t !! p = Some pd ->
    (forall k c, entry_of pd k c ->
       exists cd, nodes t !! c = Some cd /\ tn_parent cd = Some p /\ (dep p < dep c)%nat)
    /\ match tn_children pd with
       | TN_HASHED tbl => NoDup (map snd tbl)
       | _ => True
       end.

(** No live node has [n] as an entry. *)
Definition unreferenced (t : trie) (n : node_id) : Prop :=
  forall p pd k, nodes t !! p = Some pd -> ~ entry_of pd k n.

(** Every node of [t'] is a node of [t], as it was or without its
    children. *)
Definition shrinks (t t' : trie) : Prop :=
  forall x xd', nodes t' !! x = Some xd' ->
    exists xd, nodes t !! x = Some xd /\ (xd' = xd \/ xd' = set_children xd NoChildren).

(** What clear_node leaves of the node it is called on *)
Definition cleared_node (dealloc : bool) (nd : trie_node) : option trie_node :=
  match tn_children nd with
  | NoChildren => Some nd
  | _ => if dealloc then None else Some (set_children nd NoChildren)
  end.

(** What a call of clear_node on an unreferenced node of a tree gives *)
Definition clear_spec (dep : node_id -> nat) (H : nat) (fuel : nat) : Prop :=
  forall t n d nd,
    tree_ok dep t -> (forall x, is_Some (nodes t !! x) -> (dep x < H)%nat) ->
    nodes t !! n = Some nd -> unreferenced t n -> (H < fuel + dep n)%nat ->
    exists t', clear_node fuel t n d = Some t'
      /\ tree_ok dep t' /\ shrinks t t'
      /\ (forall x, (forall ks, ~ down t n ks x) -> nodes t' !! x = nodes t !! x)
      /\ nodes t' !! n = cleared_node d nd
      /\ indirects t' = indirects t.

(** ** The life cycle of a trie *)
Definition TRIE_MAGIC : Z := 1271648135.    (* 0x4bcbcf87 *)

Definition TRIE_CMAGIC : Z := 1271648136.   (* 0x4bcbcf88 *)

(** struct trie as the life cycle sees it: the magic number and the
    access count beside the content *)
Record trie_object := mkObject {
  magic : Z;
  references : Z;
  content : trie
}.

(** The range of [int] *)
Definition int_wrap (z : Z) : Z := (z + 2 ^ 31) mod 2 ^ 32 - 2 ^ 31.

(** trie_create with the fields of the life cycle: the memory is zeroed
    and the magic number set *)
Definition trie_create_object : trie_object := mkObject TRIE_MAGIC 0 trie_create.

(** trie_empty: the trie is marked; when nobody accesses it the nodes
    below the root are cleared and the indirect table is destroyed.
    clear_node does not assign the table, so the COMPARE_AND_SWAP finds
    the table that was read before it. *)
Definition trie_empty (fuel : nat) (o : trie_object) : option trie_object :=
  if references o =? 0 then
    let it := indirects (content o) in
    t1 ← clear_node fuel (content o) root false;
    let t2 := match it with
              | Some _ => set_indirects t1 None
              | None => t1
              end in
    Some (mkObject TRIE_CMAGIC (references o) t2)
  else Some (mkObject TRIE_CMAGIC (references o) (content o)).

(** trie_clean *)
Definition trie_clean (fuel : nat) (o : trie_object) : option trie_object :=
  if magic o =? TRIE_CMAGIC then trie_empty fuel o else Some o.

(** acquire_trie and release_trie (pl-trie.h) *)
Definition acquire_trie (o : trie_object) : trie_object :=
  mkObject (magic o) (int_wrap (references o + 1)) (content o).

Definition release_trie (fuel : nat) (o : trie_object) : option trie_object :=
  let o' := mkObject (magic o) (int_wrap (references o - 1)) (content o) in
  if references o' =? 0 then trie_clean fuel o' else Some o'.

Inductive handle_error :=
| existence_error_trie
| type_error_trie.

(** get_trie: the argument is a trie blob ([Some]) or something else;
    the trie is handed out only while it has the magic number of a live
    trie *)
Definition get_trie (a : option trie_object) : option trie_object * option handle_error :=
  match a with
  | Some o =>
      if magic o =? TRIE_MAGIC then (Some o, None) else (None, Some existence_error_trie)
  | None => (None, Some type_error_trie)
  end.

(** is_trie/1 *)
Definition is_trie (a : option trie_object) : bool :=
  match a with
  | Some o => magic o =? TRIE_MAGIC
  | None => false
  end.

(** trie_destroy/1: the return code, the exception and the object
    behind the argument after the call *)
Definition trie_destroy_1 (fuel : nat) (a : option trie_object)
  : option (Z * option handle_error * option trie_object) :=
  match get_trie a with
  | (Some o, _) => o' ← trie_empty fuel o; Some (TRUE, None, Some o')
  | (None, e) => Some (FALSE, e, a)
  end.

(** A decidable form of [tree_ok] for the rank that is the node number *)
Definition child_ok (t : trie) (p c : node_id) : bool :=
  match nodes t !! c with
  | Some cd => bool_decide (tn_parent cd = Some p) && (p <? c)%nat
  | None => false
  end.

Definition tree_ok_b (t : trie) : bool :=
  forallb (fun e =>
             match tn_children (snd e) with
             | NoChildren => true
             | TN_KEY _ c => child_ok t (fst e) c
             | TN_HASHED tbl =>
                 forallb (fun x => child_ok t (fst e) (snd x)) tbl
                 && bool_decide (NoDup (map snd tbl))
             end)
          (map_to_list (nodes t)).

(** [hangs t n anc]: the node [n] hangs in the trie below [anc], its
    ancestors from its parent upwards: the parent pointers lead from [n]
    through [anc] to a node without parent, and every node on the way is
    the child that its parent has under the node's own key. *)
Inductive hangs (t : trie) : node_id -> list node_id -> Prop :=
| hangs_top n nd :
    nodes t !! n = Some nd -> tn_parent nd = None -> hangs t n []
| hangs_step n nd p pd anc :
    nodes t !! n = Some nd -> tn_parent nd = Some p ->
    nodes t !! p = Some pd -> child_of pd (tn_key nd) = Some n ->
    hangs t p anc -> hangs t n (p :: anc).

(** The ancestors of a node, read off the parent pointers; [None] when a
    node on the way is not the child of its parent *)
Fixpoint hangs_b (fuel : nat) (t : trie) (n : node_id) : option (list node_id) :=
  match fuel with
  | O => None
  | S fuel' =>
      nd ← nodes t !! n;
      match tn_parent nd with
      | None => Some []
      | Some p =>
          pd ← nodes t !! p;
          if bool_decide (child_of pd (tn_key nd) = Some n)
          then anc ← hangs_b fuel' t p; Some (p :: anc)
          else None
      end
  end.

(** The trie of f(a) and f(b) after f(b) was deleted with pruning: the
    nodes 4 and 5 of f(b) are taken out of the children of node 1 *)
Definition trie_fb_pruned : trie := default trie_fb (trie_delete 10 trie_fb 5%nat true).

(** The node reached from [n] by following the keys [ks] with get_child *)
Fixpoint descend (t : trie) (n : node_id) (ks : list word) : option node_id :=
  match ks with
  | [] => Some n
  | k :: r =>
      match get_child t n k with
      | Some (Some c) => descend t c r
      | _ => None
      end
  end.

(** The state of a walk that adds nothing, in the trie [T]: the cursor
    is [n], the variables [vs] hold their markers. *)
Definition find_inv (m0 : mem) (T : trie) (ls : lookup_state) (n : node_id) (vs : list Z)
  : Prop :=
  ls_node ls = Some n /\ ls_rc ls = TRUE
  /\ marks m0 vs (ls_mem ls)
  /\ ls_var_number ls = Z.of_nat (length vs)
  /\ ls_trie ls = T.

(** What the walk without additions does on one term whose keys are in
    the trie: after [N] steps, given [R] more for the reference chains,
    the term is consumed and the cursor is at the end of its keys. *)
Definition find_t (m0 : mem) (T : trie) (tbl : indirect_table) (s : shape_t) : Prop :=
  forall loc ls stk k n vs keys vs' n',
    shape m0 loc s ->
    ls_agenda ls = mkAgenda (mkANode loc (S k)) stk ->
    find_inv m0 T ls n vs ->
    enc vs tbl s = (keys, vs', tbl) ->
    descend T n keys = Some n' ->
    exists N R ls',
      (forall rest, (R <= rest)%nat ->
         trie_lookup_loop (N + rest) false ls = trie_lookup_loop rest false ls')
      /\ ls_agenda ls' = mkAgenda (mkANode (loc + 1) k) stk
      /\ find_inv m0 T ls' n' vs'.

Definition find_l (m0 : mem) (T : trie) (tbl : indirect_table) (l : shape_l) : Prop :=
  forall loc ls stk k n vs keys vs' n',
    shape_args m0 loc l ->
    ls_agenda ls = mkAgenda (mkANode loc (slen l + k)) stk ->
    find_inv m0 T ls n vs ->
    enc_l vs tbl l = (keys, vs', tbl) ->
    descend T n keys = Some n' ->
    exists N R ls',
      (forall rest, (R <= rest)%nat ->
         trie_lookup_loop (N + rest) false ls = trie_lookup_loop rest false ls')
      /\ ls_agenda ls' = mkAgenda (mkANode (loc + Z.of_nat (slen l)) k) stk
      /\ find_inv m0 T ls' n' vs'.

(** One key of the walk without additions: whatever get_child gives for
    the key is the cursor after the step. *)
Definition step_t (m0 : mem) (T : trie) (tbl : indirect_table) (s : shape_t) : Prop :=
  forall loc ls stk k n vs key vs' r,
    shape m0 loc s ->
    ls_agenda ls = mkAgenda (mkANode loc (S k)) stk ->
    find_inv m0 T ls n vs ->
    enc vs tbl s = ([key], vs', tbl) ->
    get_child T n key = Some r ->
    exists R ls',
      (forall rest, (R <= rest)%nat ->
         trie_lookup_loop (1 + rest) false ls = trie_lookup_loop rest false ls')
      /\ ls_agenda ls' = mkAgenda (mkANode (loc + 1) k) stk
      /\ ls_node ls' = r /\ ls_rc ls' = TRUE
      /\ marks m0 vs' (ls_mem ls')
      /\ ls_var_number ls' = Z.of_nat (length vs')
      /\ ls_trie ls' = T.

(** f(A, a, g(A, B)) in cell 50: another copy of the term of [term_mem],
    with its first variable in cell 70 and reached through references *)
Definition variant_mem : mem :=
  {[ 50 := compound_at 60; 60 := MK_FUNCTOR 1 3; 61 := makeRefG 70; 62 := atom 2;
     63 := compound_at 80; 70 := 0; 80 := MK_FUNCTOR 2 2; 81 := makeRefG 70; 82 := 0 ]}.

Definition variant_shape : shape_t :=
  SCompound (MK_FUNCTOR 1 3)
    (SCons (SVar 70) (SCons (SAtomic (atom 2))
       (SCons (SCompound (MK_FUNCTOR 2 2) (SCons (SVar 70) (SCons (SVar 82) SNil))) SNil))).

(** The keys lead from [n] to a node that has no child under the next
    key. *)
Definition miss (T : trie) (n : node_id) (keys : list word) : Prop :=
  exists pre k post x,
    keys = pre ++ k :: post /\ descend T n pre = Some x /\ get_child T x k = Some None.

(** What the walk without additions does on a term whose keys are not
    all in the trie: it stops without a node and without an error. *)
Definition fail_t (m0 : mem) (T : trie) (tbl : indirect_table) (s : shape_t) : Prop :=
  forall loc ls stk k n vs keys vs',
    shape m0 loc s ->
    ls_agenda ls = mkAgenda (mkANode loc (S k)) stk ->
    find_inv m0 T ls n vs ->
    enc vs tbl s = (keys, vs', tbl) ->
    miss T n keys ->
    exists N lsF,
      (forall fuel, (N <= fuel)%nat -> trie_lookup_loop fuel false ls = Some lsF)
      /\ ls_node lsF = None /\ ls_rc lsF = TRUE /\ ls_trie lsF = T.

Definition fail_l (m0 : mem) (T : trie) (tbl : indirect_table) (l : shape_l) : Prop :=
  forall loc ls stk k n vs keys vs',
    shape_args m0 loc l ->
    ls_agenda ls = mkAgenda (mkANode loc (slen l + k)) stk ->
    find_inv m0 T ls n vs ->
    enc_l vs tbl l = (keys, vs', tbl) ->
    miss T n keys ->
    exists N lsF,
      (forall fuel, (N <= fuel)%nat -> trie_lookup_loop fuel false ls = Some lsF)
      /\ ls_node lsF = None /\ ls_rc lsF = TRUE /\ ls_trie lsF = T.

(** The links of a node: its key, its parent and its children *)
Definition node_links (nd : trie_node) : word * option node_id * trie_children :=
  (tn_key nd, tn_parent nd, tn_children nd).

(** Two tries with the same links and the same indirect table (the
    values, the counters and the records may differ) *)
Definition same_links (t t' : trie) : Prop :=
  indirects t' = indirects t
  /\ forall x, node_links <$> (nodes t' !! x) = node_links <$> (nodes t !! x).

(** The children of a node name it as their parent, under their key. *)
Definition child_links (t : trie) : Prop :=
  forall p pd k c, nodes t !! p = Some pd -> child_of pd k = Some c ->
    exists cd, nodes t !! c = Some cd /\ tn_parent cd = Some p /\ tn_key cd = k.

(** A decidable form of [wf_links] *)
Definition link_ok (t : trie) (p : node_id) (k : word) (c : node_id) : bool :=
  match nodes t !! c with
  | Some cd => bool_decide (tn_parent cd = Some p) && (tn_key cd =? k)
  | None => false
  end.

Definition wf_links_b (t : trie) : bool :=
  match nodes t !! root with
  | Some rd => bool_decide (tn_parent rd = None)
  | None => false
  end
  && forallb (fun e =>
                match tn_children (snd e) with
                | NoChildren => true
                | TN_KEY k c => link_ok t (fst e) k c
                | TN_HASHED tbl =>
                    forallb (fun x => match lookupHTable tbl (fst x) with
                                      | Some c => link_ok t (fst e) (fst x) c
                                      | None => true
                                      end) tbl
                end)
             (map_to_list (nodes t))
  && fresh_ids_b t.

(** The result of inserting f(X, a, g(X, Y)) with the value v1 into the
    empty trie *)
Definition result_term_v : result :=
  default (mkResult FALSE None None trie_create term_mem)
          (trie_insert 100 trie_create term_mem 10 6 false).

(** The result of inserting f(X, a, g(X, Y)) with the value v1 into the
    trie of f(a) from which f(b) was pruned away: the term is at node
    13 *)
Definition result_term_p : result :=
  default (mkResult FALSE None None trie_create term_mem)
          (trie_insert 100 trie_fb_pruned term_mem 10 6 false).

(** get_trie_form_node: the walk up to the node without parent, which is
    the root embedded in a trie; the trie is handed out when that node is
    the root of this trie and the trie has the magic number of a live
    trie (the assertion). *)
Fixpoint root_of_node (fuel : nat) (t : trie) (node : node_id) : option node_id :=
  match fuel with
  | O => None
  | S fuel' =>
      nd ← nodes t !! node;
      match tn_parent nd with
      | None => Some node
      | Some p => root_of_node fuel' t p
      end
  end.

Definition get_trie_form_node (fuel : nat) (o : trie_object) (node : node_id)
  : option trie_object :=
  r ← root_of_node fuel (content o) node;
  if (r =? root)%nat && (magic o =? TRIE_MAGIC) then Some o else None.

(** The kind of a key: 0 for the key of a variable, 1 for an atomic
    word, 2 for the surrogate of an indirect datum, 3 for a functor *)
Definition key_kind (k : word) : nat :=
  if isFunctorKey k then 3%nat
  else if tag k =? TAG_VAR then 0%nat
  else if isIndirect k then 2%nat
  else 1%nat.

Definition shape_kind (s : shape_t) : nat :=
  match s with
  | SVar _ => 0%nat
  | SAtomic _ => 1%nat
  | SIndirect _ _ => 2%nat
  | SCompound _ _ => 3%nat
  end.

(** The keys of a term determine the term up to the names of its
    variables, also when other keys follow. *)
Definition inj_t (T : indirect_table) (s1 : shape_t) : Prop :=
  forall s2 vsA vsB k1 k2 r1 r2 vsA' vsB',
    good s1 -> good s2 ->
    enc vsA T s1 = (k1, vsA', T) -> enc vsB T s2 = (k2, vsB', T) ->
    k1 ++ r1 = k2 ++ r2 ->
    length vsA = length vsB ->
    Z.of_nat (length vsA') < 2 ^ 56 -> Z.of_nat (length vsB') < 2 ^ 56 ->
    k1 = k2 /\ r1 = r2 /\ length vsA' = length vsB'
    /\ s2 = rename (var_image vsA' vsB') s1.

Definition inj_l (T : indirect_table) (l1 : shape_l) : Prop :=
  forall l2 vsA vsB k1 k2 r1 r2 vsA' vsB',
    good_l l1 -> good_l l2 -> slen l1 = slen l2 ->
    enc_l vsA T l1 = (k1, vsA', T) -> enc_l vsB T l2 = (k2, vsB', T) ->
    k1 ++ r1 = k2 ++ r2 ->
    length vsA = length vsB ->
    Z.of_nat (length vsA') < 2 ^ 56 -> Z.of_nat (length vsB') < 2 ^ 56 ->
    k1 = k2 /\ r1 = r2 /\ length vsA' = length vsB'
    /\ l2 = rename_l (var_image vsA' vsB') l1.

(** ** Deleting the value of a node without value *)

(** C10: for a node that holds no value, trie_delete changes nothing,
    whatever the prune flag: the trie after the call is the trie before
    it (counters, node store, children of every node). *)
Theorem trie_delete_without_value (fuel : nat) (t : trie) (node : node_id) (prune : bool)
    (nd : trie_node) :
  nodes t !! node = Some nd ->
  tn_value nd = 0 ->
  trie_delete fuel t node prune = Some t.
Proof.
  intros Hn Hv. unfold trie_delete. rewrite Hn. simpl. rewrite Hv. reflexivity.
Qed.

Lemma trie_delete_without_value_witness :
  trie_delete 3 trie_create root true = Some trie_create.
Proof.
  apply (trie_delete_without_value 3 trie_create root true (mkNode 0 0 None NoChildren));
    reflexivity.
Defined.

(** ** The speculative node of insert_child *)

Lemma nodes_acquire_key key t : nodes (acquire_key key t) = nodes t.
Proof. unfold acquire_key. destruct (isAtom key); reflexivity. Qed.

Lemma node_count_acquire_key key t : node_count (acquire_key key t) = node_count t.
Proof. unfold acquire_key. destruct (isAtom key); reflexivity. Qed.

Lemma alloc_pool_acquire_key key t : alloc_pool (acquire_key key t) = alloc_pool t.
Proof. unfold acquire_key. destruct (isAtom key); reflexivity. Qed.

Lemma uint_wrap_small z : 0 <= z < 2 ^ 32 -> uint_wrap z = z.
Proof. intros H. unfold uint_wrap. apply Z.mod_small. exact H. Qed.

(** C3: on a node whose children are Single with key k, insert_child
    returns the existing child, yet the node allocated at the top of the
    loop is not destroyed on that path: it stays in the node store, the
    node count is one higher and the allocation pool stays charged. *)
Theorem insert_child_single_same_key (t : trie) (n : node_id) (nd : trie_node)
    (k : word) (c : node_id) :
  nodes t !! n = Some nd ->
  tn_children nd = TN_KEY k c ->
  0 <= node_count t < 2 ^ 32 - 1 ->
  match alloc_pool t with
  | Some p => pool_size p + sizeof_trie_node <= pool_limit p
  | None => True
  end ->
  exists t',
    insert_child t n k = Some (Some c, t')
    /\ node_count t' = node_count t + 1
    /\ nodes t' !! next_node t = Some (mkNode 0 k None NoChildren)
    /\ alloc_pool t' =
         match alloc_pool t with
         | Some p => Some (mkPool (pool_size p + sizeof_trie_node) (pool_limit p))
         | None => None
         end.
Proof.
  intros Hn Hc Hcount Hpool.
  unfold insert_child. rewrite Hn. simpl. rewrite Hc.
  unfold new_trie_node.
  destruct (alloc_pool t) as [p|] eqn:Hp.
  - assert (Hle : (pool_size p + sizeof_trie_node <=? pool_limit p) = true)
      by (apply Z.leb_le; exact Hpool).
    rewrite Hle. rewrite Z.eqb_refl.
    eexists. split; [reflexivity|].
    unfold update_node; simpl.
    rewrite node_count_acquire_key, nodes_acquire_key, alloc_pool_acquire_key. simpl.
    repeat split.
    + apply uint_wrap_small. lia.
    + apply lookup_insert_eq.
  - rewrite Z.eqb_refl.
    eexists. split; [reflexivity|].
    unfold update_node; simpl.
    rewrite node_count_acquire_key, nodes_acquire_key, alloc_pool_acquire_key. simpl.
    repeat split.
    + apply uint_wrap_small. lia.
    + apply lookup_insert_eq.
    + exact Hp.
Qed.

Lemma insert_child_single_same_key_witness :
  exists t',
    insert_child trie_a root (atom 1) = Some (Some 1%nat, t')
    /\ node_count t' = node_count trie_a + 1
    /\ nodes t' !! next_node trie_a = Some (mkNode 0 (atom 1) None NoChildren)
    /\ alloc_pool t' = None.
Proof.
  apply (insert_child_single_same_key trie_a root
           (mkNode 0 0 None (TN_KEY (atom 1) 1%nat)) (atom 1) 1%nat).
  - reflexivity.
  - reflexivity.
  - vm_compute. split; [discriminate | reflexivity].
  - exact I.
Defined.

(** ** Destroying a node without children *)

Lemma nodes_release_key key t : nodes (release_key key t) = nodes t.
Proof. unfold release_key. destruct (isAtom key); reflexivity. Qed.

Lemma nodes_release_value v t : nodes (release_value v t) = nodes t.
Proof.
  unfold release_value. destruct (isAtom v); [reflexivity|].
  destruct (isRecord v); reflexivity.
Qed.

Lemma node_count_release_key key t : node_count (release_key key t) = node_count t.
Proof. unfold release_key. destruct (isAtom key); reflexivity. Qed.

Lemma node_count_release_value v t : node_count (release_value v t) = node_count t.
Proof.
  unfold release_value. destruct (isAtom v); [reflexivity|].
  destruct (isRecord v); reflexivity.
Qed.

(** The counter is decremented and the node freed only in the branch of
    clear_node that is taken when the node has children. *)
Lemma clear_node_childless fuel t n nd dealloc :
  nodes t !! n = Some nd ->
  tn_children nd = NoChildren ->
  exists t', clear_node (S fuel) t n dealloc = Some t'
             /\ nodes t' = nodes t /\ node_count t' = node_count t.
Proof.
  intros Hn Hc. simpl. rewrite Hn. simpl. rewrite Hc.
  eexists. split; [reflexivity|].
  destruct (tn_value nd =? 0).
  - rewrite nodes_release_key, node_count_release_key. split; reflexivity.
  - rewrite nodes_release_value, node_count_release_value,
      nodes_release_key, node_count_release_key. split; reflexivity.
Qed.

(** C2: the key a is inserted into the empty trie (node count 0 before, 1
    after) and deleted with pruning: the value count is back to zero and
    the node is detached from the root, but the node count is still 1
    and the node is still in the node store. *)
Theorem prune_keeps_node_count :
  node_count trie_create = 0
  /\ node_count trie_a = 1
  /\ value_count trie_a = 1
  /\ match trie_delete 10 trie_a 1%nat true with
     | Some t' =>
         value_count t' = 0
         /\ get_child t' root (atom 1) = Some None
         /\ node_count t' = 1
         /\ is_Some (nodes t' !! 1%nat)
     | None => False
     end.
Proof.
  vm_compute. repeat split; eauto.
Qed.

(** ** A cyclic term *)

(** C5: inserting the cyclic term X = f(X) into the empty trie ends with
    TRIE_LOOKUP_CYCLIC when the 1000th compound is met and the path is
    detached from the root again, but the node count has gone from 0 to
    1000: 999 nodes of the path and the node added by prune_error were
    counted and none was subtracted. *)
Theorem cyclic_insert_keeps_node_count :
  node_count trie_create = 0
  /\ match trie_lookup 2100 trie_create cyclic_mem 10 true with
     | Some (rc, nodep, t', m') =>
         rc = TRIE_LOOKUP_CYCLIC
         /\ nodep = None
         /\ get_child t' root (MK_FUNCTOR 1 1) = Some None
         /\ node_count t' = 1000
         /\ m' = cyclic_mem
     | None => False
     end.
Proof.
  vm_compute. repeat split; reflexivity.
Qed.

(** ** Enumeration *)

(** C7: in the trie where a and b are leaves without value and c holds
    v3, the enumeration gives no solution at all: the descent from the
    advanced choice b fails and next_choice drops the choice of the root
    together with the remaining entry c.  In the trie whose root is left
    with an empty hash table after pruning, add_choice reads the key and
    the child from an exhausted enumerator and the enumeration has no
    defined result. *)
Theorem trie_gen_misses_stored_pair :
  nodes trie_c_left !! 3%nat = Some (mkNode (atom 13) (atom 3) (Some root) NoChildren)
  /\ get_child trie_c_left root (atom 3) = Some (Some 3%nat)
  /\ trie_gen 10 (fun _ => true) trie_c_left = Some []
  /\ (nodes trie_abc_pruned !! root = Some (mkNode 0 0 None (TN_HASHED []))
      /\ trie_gen 10 (fun _ => true) trie_abc_pruned = None).
Proof.
  vm_compute. repeat split; reflexivity.
Qed.

(** The same trie before the two values were deleted is enumerated in
    full. *)
Example trie_gen_abc :
  trie_gen 10 (fun _ => true) trie_abc
  = Some [mkSolution [atom 1] (atom 11) 1%nat;
          mkSolution [atom 2] (atom 12) 2%nat;
          mkSolution [atom 3] (atom 13) 3%nat].
Proof. vm_compute. reflexivity. Qed.

(** ** Lookup without adding *)

(** C4, counterexample: a lookup (add = false) of a big integer in the
    empty trie leaves the trie with an indirect table; a lookup of an
    attributed variable runs prune_error, which adds a node below the
    root and prunes it: the node count goes from 0 to 1. *)
Lemma lookup_changes_trie :
  indirects trie_create = None
  /\ node_count trie_create = 0
  /\ match trie_lookup 10 trie_create indirect_mem 10 false with
     | Some (rc, nodep, t', m') => rc = FALSE /\ indirects t' = Some []
     | None => False
     end
  /\ match trie_lookup 10 trie_create indirect_mem 11 false with
     | Some (rc, nodep, t', m') =>
         rc = TRIE_LOOKUP_CONTAINS_ATTVAR /\ node_count t' = 1
         /\ is_Some (nodes t' !! 1%nat)
     | None => False
     end.
Proof.
  vm_compute. repeat split; eauto.
Qed.

(** ** Pruning *)


(** With add = false the walk only reads the children. *)
Lemma follow_node_no_add t n w r t' :
  follow_node t n w false = Some (r, t') -> t' = t.
Proof.
  unfold follow_node. destruct (get_child t n w) as [[c|]|]; simpl; congruence.
Qed.

Lemma intern_indirect_no_add tbl m w i tbl' :
  intern_indirect tbl m w false = Some (i, tbl') -> tbl' = tbl.
Proof.
  unfold intern_indirect. destruct (m !! valPtr w); simpl; [|discriminate].
  destruct (index_of _ _ _); congruence.
Qed.

Lemma set_indirects_same t tbl : indirects t = Some tbl -> set_indirects t (Some tbl) = t.
Proof. destruct t; simpl; intros ->; reflexivity. Qed.

Lemma lookup_loop_no_add_frame t0 fuel : forall ls ls',
  trie_lookup_loop fuel false ls = Some ls' ->
  same_but_indirects t0 (ls_trie ls) ->
  ls_rc ls' = TRIE_LOOKUP_CONTAINS_ATTVAR
  \/ (ls_rc ls' = ls_rc ls /\ same_but_indirects t0 (ls_trie ls')).
Proof.
  induction fuel as [|fuel IH]; intros ls ls' Hrun Hinv; [discriminate|].
  simpl in Hrun.
  destruct (ls_node ls) as [node|]; [|injection Hrun as <-; right; split; [reflexivity|exact Hinv]].
  destruct (nextTermAgenda_P (S fuel) (ls_mem ls) (ls_agenda ls)) as [[item a]|];
    [|discriminate].
  simpl in Hrun.
  destruct item as [| |p].
  - injection Hrun as <-. right. split; [reflexivity|exact Hinv].
  - destruct (follow_node (ls_trie ls) node TRIE_KEY_POP false) as [[n t']|] eqn:Hf;
      [|discriminate].
    simpl in Hrun. apply follow_node_no_add in Hf. subst t'.
    apply IH in Hrun; [exact Hrun|exact Hinv].
  - destruct (lookup_step (S fuel) false ls node a p) as [ls1|] eqn:Hstep; [|discriminate].
    simpl in Hrun.
    unfold lookup_step in Hstep.
    destruct (ls_mem ls !! p) as [w|]; [|discriminate]. simpl in Hstep.
    destruct (tag w =? TAG_VAR).
    { destruct (isVar w).
      - destruct (follow_node _ _ _ _) as [[n t']|] eqn:Hf; [|discriminate].
        simpl in Hstep. injection Hstep as <-.
        apply follow_node_no_add in Hf. subst t'.
        apply IH in Hrun; [exact Hrun|exact Hinv].
      - destruct (follow_node _ _ _ _) as [[n t']|] eqn:Hf; [|discriminate].
        simpl in Hstep. injection Hstep as <-.
        apply follow_node_no_add in Hf. subst t'.
        apply IH in Hrun; [exact Hrun|exact Hinv]. }
    destruct (tag w =? TAG_ATTVAR).
    { destruct (prune_error _ _ _) as [t'|]; [|discriminate].
      simpl in Hstep. injection Hstep as <-.
      destruct fuel as [|fuel']; [discriminate|].
      simpl in Hrun. injection Hrun as <-. left. reflexivity. }
    destruct (tag w =? TAG_COMPOUND).
    { destruct (ls_mem ls !! valPtr w) as [f|]; [|discriminate]. simpl in Hstep.
      destruct (follow_node _ _ _ _) as [[n t']|] eqn:Hf; [|discriminate].
      simpl in Hstep. injection Hstep as <-.
      apply follow_node_no_add in Hf. subst t'.
      apply IH in Hrun; [exact Hrun|exact Hinv]. }
    destruct (negb (isIndirect w)).
    { destruct (follow_node _ _ _ _) as [[n t']|] eqn:Hf; [|discriminate].
      simpl in Hstep. injection Hstep as <-.
      apply follow_node_no_add in Hf. subst t'.
      apply IH in Hrun; [exact Hrun|exact Hinv]. }
    unfold trie_intern_indirect in Hstep.
    destruct (intern_indirect _ _ _ _) as [[i tbl']|] eqn:Hi; [|discriminate].
    apply intern_indirect_no_add in Hi. subst tbl'.
    simpl in Hstep.
    assert (Hinv' : same_but_indirects t0
              (set_indirects (ls_trie ls)
                 (Some match indirects (ls_trie ls) with
                       | Some tbl => tbl
                       | None => new_indirect_table
                       end))).
    { destruct (indirects (ls_trie ls)) as [tbl|] eqn:Hind.
      - rewrite set_indirects_same by exact Hind. exact Hinv.
      - destruct Hinv as [Heq|[Hnone Heq]]; rewrite Heq in Hind |- *.
        + right. split; [exact Hind|reflexivity].
        + simpl in Hind. discriminate. }
    destruct (i =? 0).
    + injection Hstep as <-.
      apply IH in Hrun; [exact Hrun|exact Hinv'].
    + destruct (follow_node _ _ _ _) as [[n t']|] eqn:Hf; [|discriminate].
      simpl in Hstep. injection Hstep as <-.
      apply follow_node_no_add in Hf. subst t'.
      apply IH in Hrun; [exact Hrun|exact Hinv'].
Qed.

(** C4, amended: when the walk of a lookup (add = false) does not stop at
    an attributed variable, the trie after the call is the trie before
    it (no node created or removed, node count, value count and the
    children of every node unchanged), except that a trie without
    indirect table has an empty one afterwards when the walk met an
    indirect value. *)
Theorem lookup_no_add_frame (fuel : nat) (t : trie) (m : mem) (k : Z)
    (rc : Z) (nodep : option node_id) (t' : trie) (m' : mem) :
  trie_lookup fuel t m k false = Some (rc, nodep, t', m') ->
  rc <> TRIE_LOOKUP_CONTAINS_ATTVAR ->
  same_but_indirects t t'.
Proof.
  intros Hrun Hrc. unfold trie_lookup in Hrun.
  destruct (trie_lookup_loop fuel false _) as [ls|] eqn:Hloop; [|discriminate].
  simpl in Hrun.
  destruct (clear_vars fuel (ls_mem ls) k (ls_var_number ls)) as [m1|]; [|discriminate].
  simpl in Hrun.
  apply (lookup_loop_no_add_frame t) in Hloop; [|left; reflexivity].
  simpl in Hloop.
  destruct Hloop as [Hatt|[Hrc' Hinv]].
  - rewrite Hatt in Hrun. simpl in Hrun. injection Hrun as <- _ _ _.
    exfalso. apply Hrc. reflexivity.
  - rewrite Hrc' in Hrun. simpl in Hrun.
    destruct (ls_node ls); injection Hrun as _ _ <- _; exact Hinv.
Qed.

Lemma lookup_no_add_frame_witness :
  same_but_indirects trie_abc trie_abc.
Proof.
  apply (lookup_no_add_frame 10 trie_abc atoms_mem 101 TRUE (Some 2%nat) trie_abc atoms_mem).
  - vm_compute. reflexivity.
  - vm_compute. discriminate.
Defined.

(** ** The extent of pruning *)

Lemma length_zero_nil {A} (l : list A) : (length l =? 0)%nat = true -> l = [].
Proof. destruct l; simpl; [reflexivity|discriminate]. Qed.

(** Destroying a node that has no child left touches no other node. *)
Lemma destroy_node_childless fuel t n nd :
  nodes t !! n = Some nd ->
  tn_children nd = NoChildren \/ tn_children nd = TN_HASHED [] ->
  exists t', destroy_node (S fuel) t n = Some t'
             /\ forall x, x <> n -> nodes t' !! x = nodes t !! x.
Proof.
  intros Hn [Hc|Hc]; unfold destroy_node; simpl; rewrite Hn; simpl; rewrite Hc.
  - eexists. split; [reflexivity|]. intros x _.
    destruct (tn_value nd =? 0);
      rewrite ?nodes_release_value, ?nodes_release_key; reflexivity.
  - simpl. eexists. split; [reflexivity|]. intros x Hx.
    unfold dealloc_node, PL_free_node, update_node.
    destruct (alloc_pool _); simpl;
      rewrite lookup_delete_ne, lookup_insert_ne by congruence;
      destruct (tn_value nd =? 0);
      rewrite ?nodes_release_value, ?nodes_release_key; reflexivity.
Qed.

Lemma prune_node_unfold fuel t n :
  prune_node (S fuel) t n =
    nd ← nodes t !! n;
    match tn_parent nd with
    | None => Some t
    | Some p =>
        pd ← nodes t !! p;
        match tn_children pd with
        | NoChildren =>
            t' ← destroy_node (S fuel) t n;
            prune_node fuel t' p
        | TN_KEY _ _ =>
            let t1 := update_node t p (set_children pd NoChildren) in
            t' ← destroy_node (S fuel) t1 n;
            prune_node fuel t' p
        | TN_HASHED table =>
            let table' := deleteHTable table (tn_key nd) in
            let t1 := update_node t p (set_children pd (TN_HASHED table')) in
            t' ← destroy_node (S fuel) t1 n;
            if (length table' =? 0)%nat then prune_node fuel t' p else Some t'
        end
    end.
Proof. reflexivity. Qed.


(** In the trie of f(a) and f(b) the pruning from the leaf of f(b)
    removes the pop node and the node of b and stops at the node of f/1,
    which keeps its child a. *)
Example prune_chain_fb : prune_chain 10 trie_fb 5%nat = Some ([5; 4]%nat, 1%nat).
Proof. vm_compute. reflexivity. Qed.

(** ** Restoring the variables after a walk *)

Lemma tag_mod w : tag w = w mod 8.
Proof. unfold tag, TAG_MASK. change 7 with (Z.ones 3). rewrite Z.land_ones by lia. reflexivity. Qed.

Lemma var_key_eq n : var_key n = (n * 128) mod 2 ^ 64.
Proof.
  unfold var_key, TAG_VAR, wrap, word_bits, LMASK_BITS.
  rewrite Z.lor_0_r, Z.shiftl_mul_pow2 by lia. reflexivity.
Qed.

Lemma tag_var_key n : tag (var_key n) = TAG_VAR.
Proof.
  rewrite tag_mod, var_key_eq. unfold TAG_VAR.
  rewrite Z.mod_mod_divide by (exists (2 ^ 61); reflexivity).
  change 128 with (16 * 8). rewrite Z.mul_assoc. apply Z.mod_mul. lia.
Qed.

Lemma var_key_nonzero n : 0 < n < 2 ^ 57 -> var_key n <> 0.
Proof.
  intros H. rewrite var_key_eq. rewrite Z.mod_small; lia.
Qed.

Lemma wrap_small z : 0 <= z < 2 ^ 64 -> wrap z = z.
Proof. intros H. unfold wrap, word_bits. apply Z.mod_small. exact H. Qed.

Lemma deRef_mono m : forall f f' p q, deRef f m p = Some q -> (f <= f')%nat -> deRef f' m p = Some q.
Proof.
  induction f as [|f IH]; intros f' p q H Hle; [discriminate|].
  destruct f' as [|f']; [lia|]. simpl in *.
  destruct (m !! p) as [w|]; [|discriminate]. simpl in *.
  destruct (isRef w); [|exact H]. apply IH with (f' := f') in H; [exact H|lia].
Qed.

Lemma isRef_var w : tag w = TAG_VAR -> isRef w = false.
Proof. unfold isRef. intros ->. reflexivity. Qed.

Lemma deRef_skeleton m1 m2 : same_skeleton m1 m2 ->
  forall f p, deRef f m1 p = deRef f m2 p.
Proof.
  intros Hsk. induction f as [|f IH]; intros p; [reflexivity|]. simpl.
  destruct (Hsk p) as [Heq|(w1 & w2 & H1 & H2 & T1 & T2)].
  - rewrite Heq. destruct (m2 !! p) as [w|]; [|reflexivity]. simpl.
    destruct (isRef w); [apply IH|reflexivity].
  - rewrite H1, H2. simpl. rewrite (isRef_var _ T1), (isRef_var _ T2). reflexivity.
Qed.

Lemma marked_unique m0 D1 D2 m : marked m0 D1 m -> marked m0 D2 m -> D1 = D2.
Proof.
  intros [H1 H1'] [H2 H2']. apply set_eq. intros a. split; intros Ha.
  - destruct (decide (a ∈ D2)) as [|Hn]; [assumption|].
    destruct (H1 a Ha) as (H0 & w & Hw & Hnz & _).
    pose proof (H2' a Hn) as He. congruence.
  - destruct (decide (a ∈ D1)) as [|Hn]; [assumption|].
    destruct (H2 a Ha) as (H0 & w & Hw & Hnz & _).
    pose proof (H1' a Hn) as He. congruence.
Qed.

Lemma marked_dom m0 D m : marked m0 D m -> D ⊆ dom m0.
Proof.
  intros [H _] a Ha. apply elem_of_dom. destruct (H a Ha) as [H0 _]. eauto.
Qed.

Lemma marked_size m0 D m : marked m0 D m -> (size D <= size m0)%nat.
Proof.
  intros H. rewrite <- size_dom. apply subseteq_size. eapply marked_dom; eauto.
Qed.

Lemma lookup_step_cases f add ls node a p ls' :
  lookup_step f add ls node a p = Some ls' ->
  exists w, ls_mem ls !! p = Some w /\
    ( (w = 0
       /\ ls_mem ls' = <[p := var_key (wrap (ls_var_number ls + 1))]> (ls_mem ls)
       /\ ls_var_number ls' = wrap (ls_var_number ls + 1)
       /\ ls_agenda ls' = a)
    \/ (tag w = TAG_VAR /\ w <> 0
        /\ ls_mem ls' = ls_mem ls /\ ls_var_number ls' = ls_var_number ls
        /\ ls_agenda ls' = a)
    \/ (tag w <> TAG_VAR /\ tag w <> TAG_COMPOUND
        /\ ls_mem ls' = ls_mem ls /\ ls_var_number ls' = ls_var_number ls
        /\ ls_agenda ls' = a)
    \/ (tag w = TAG_COMPOUND /\ ls_node ls' = None
        /\ ls_mem ls' = ls_mem ls /\ ls_var_number ls' = ls_var_number ls)
    \/ (tag w = TAG_COMPOUND
        /\ exists fn, ls_mem ls !! valPtr w = Some fn
           /\ ls_agenda ls' = pushWorkAgenda_P a (arityFunctor fn) (valPtr w + 1)
           /\ ls_mem ls' = ls_mem ls /\ ls_var_number ls' = ls_var_number ls) ).
Proof.
  unfold lookup_step. intros H.
  destruct (ls_mem ls !! p) as [w|]; [|discriminate]. simpl in H.
  exists w. split; [reflexivity|].
  destruct (tag w =? TAG_VAR) eqn:Tv.
  { apply Z.eqb_eq in Tv. unfold isVar in H.
    destruct (w =? 0) eqn:Hw.
    - apply Z.eqb_eq in Hw.
      destruct (follow_node _ _ _ _) as [[n t']|]; [|discriminate]. simpl in H.
      injection H as <-. left. simpl. auto.
    - apply Z.eqb_neq in Hw.
      destruct (follow_node _ _ _ _) as [[n t']|]; [|discriminate]. simpl in H.
      injection H as <-. right. left. simpl. auto. }
  apply Z.eqb_neq in Tv.
  destruct (tag w =? TAG_ATTVAR) eqn:Ta.
  { apply Z.eqb_eq in Ta.
    destruct (prune_error _ _ _) as [t'|]; [|discriminate]. simpl in H.
    injection H as <-. right. right. left. simpl.
    repeat split; auto. rewrite Ta. discriminate. }
  destruct (tag w =? TAG_COMPOUND) eqn:Tc.
  { apply Z.eqb_eq in Tc.
    destruct (ls_mem ls !! valPtr w) as [fn|] eqn:Hf; [|discriminate]. simpl in H.
    destruct (add && _ && _).
    - destruct (prune_error _ _ _) as [t'|]; [|discriminate]. simpl in H.
      injection H as <-. right. right. right. left. simpl. auto.
    - destruct (follow_node _ _ _ _) as [[n t']|]; [|discriminate]. simpl in H.
      injection H as <-. right. right. right. right. simpl.
      split; [exact Tc|]. exists fn. auto. }
  apply Z.eqb_neq in Tc.
  right. right. left.
  destruct (negb (isIndirect w)).
  - destruct (follow_node _ _ _ _) as [[n t']|]; [|discriminate]. simpl in H.
    injection H as <-. simpl. auto.
  - destruct (trie_intern_indirect _ _ _ _) as [[i t1]|]; [|discriminate]. simpl in H.
    destruct (i =? 0).
    + injection H as <-. simpl. auto.
    + destruct (follow_node _ _ _ _) as [[n t']|]; [|discriminate]. simpl in H.
      injection H as <-. simpl. auto.
Qed.

Lemma trie_lookup_loop_unfold fuel add ls :
  trie_lookup_loop (S fuel) add ls =
    match ls_node ls with
    | None => Some ls
    | Some node =>
        '(item, a) ← nextTermAgenda_P (S fuel) (ls_mem ls) (ls_agenda ls);
        match item with
        | AC_NULL => Some ls
        | AC_TERM_POP =>
            '(n, t') ← follow_node (ls_trie ls) node TRIE_KEY_POP add;
            trie_lookup_loop fuel add
              (mkLookup a n (ls_var_number ls) (ls_rc ls) (ls_compounds ls) t' (ls_mem ls))
        | AC_CELL p =>
            ls' ← lookup_step (S fuel) add ls node a p;
            trie_lookup_loop fuel add ls'
        end
    end.
Proof. reflexivity. Qed.

Lemma tag_zero : tag 0 = TAG_VAR.
Proof. reflexivity. Qed.

(** The walk rewrites unbound cells only, one per variable counted. *)
Lemma lookup_loop_marks m0 :
  Z.of_nat (size m0) < 2 ^ 57 ->
  forall fuel add ls lsF D,
    trie_lookup_loop fuel add ls = Some lsF ->
    marked m0 D (ls_mem ls) ->
    ls_var_number ls = Z.of_nat (size D) ->
    exists DF, D ⊆ DF /\ marked m0 DF (ls_mem lsF)
               /\ ls_var_number lsF = Z.of_nat (size DF).
Proof.
  intros Hsize. induction fuel as [|fuel IH]; intros add ls lsF D Hrun Hm Hvn; [discriminate|].
  rewrite trie_lookup_loop_unfold in Hrun.
  destruct (ls_node ls) as [node|]; [|injection Hrun as <-; exists D; auto].
  destruct (nextTermAgenda_P _ _ _) as [[item a]|]; [|discriminate]. simpl in Hrun.
  destruct item as [| |p].
  - injection Hrun as <-. exists D. auto.
  - destruct (follow_node _ _ _ _) as [[n t']|]; [|discriminate]. simpl in Hrun.
    apply (IH _ _ _ D) in Hrun; auto.
  - destruct (lookup_step _ _ _ _ _ _) as [ls'|] eqn:Hstep; [|discriminate]. simpl in Hrun.
    destruct (lookup_step_cases _ _ _ _ _ _ _ Hstep) as (w & Hw & Hcases).
    destruct Hcases as [(H0 & Hmem & Hv & _)|[(_ & _ & Hmem & Hv & _)|[(_ & _ & Hmem & Hv & _)|
                        [(_ & _ & Hmem & Hv)|(_ & fn & _ & _ & Hmem & Hv)]]]];
      try (apply (IH _ _ _ D) in Hrun; [exact Hrun|rewrite Hmem; exact Hm|rewrite Hv; exact Hvn]).
    subst w.
    assert (HpD : p ∉ D).
    { intros Hin. destruct Hm as [Hm _]. destruct (Hm p Hin) as (_ & w & Hw' & Hnz & _).
      rewrite Hw in Hw'. congruence. }
    assert (Hp0 : m0 !! p = Some 0).
    { destruct Hm as [_ Hm]. rewrite <- (Hm p HpD). exact Hw. }
    assert (Hm' : marked m0 ({[p]} ∪ D) (<[p := var_key (ls_var_number ls + 1)]> (ls_mem ls))
                  /\ 0 < ls_var_number ls + 1 < 2 ^ 57).
    { assert (Hsz : size ({[p]} ∪ D) = S (size D)).
      { rewrite size_union by set_solver. rewrite size_singleton. reflexivity. }
      assert (Hb : 0 < ls_var_number ls + 1 < 2 ^ 57).
      { assert (Hle : (size ({[p]} ∪ D) <= size m0)%nat).
        { rewrite <- size_dom. apply subseteq_size. intros x Hx.
          apply elem_of_dom. apply elem_of_union in Hx as [Hx|Hx].
          - apply elem_of_singleton in Hx. subst x. eauto.
          - destruct Hm as [Hm _]. destruct (Hm x Hx) as [H0 _]. eauto. }
        rewrite Hsz in Hle. lia. }
      split; [|exact Hb].
      split.
      - intros x Hx. apply elem_of_union in Hx as [Hx|Hx].
        + apply elem_of_singleton in Hx. subst x. split; [exact Hp0|].
          eexists. split; [apply lookup_insert_eq|].
          split; [apply var_key_nonzero; exact Hb|apply tag_var_key].
        + destruct Hm as [Hm _]. destruct (Hm x Hx) as (H0 & w & Hw' & Hnz & Ht).
          split; [exact H0|]. exists w.
          rewrite lookup_insert_ne by (intros ->; contradiction). auto.
      - intros x Hx. rewrite lookup_insert_ne by set_solver.
        destruct Hm as [_ Hm]. apply Hm. set_solver. }
    destruct Hm' as [Hm' Hb].
    rewrite wrap_small in Hmem, Hv by lia.
    apply (IH _ _ _ ({[p]} ∪ D)) in Hrun.
    + destruct Hrun as (DF & Hsub & Hrest). exists DF. split; [set_solver|exact Hrest].
    + rewrite Hmem. exact Hm'.
    + rewrite Hv, Hvn, size_union by set_solver. rewrite size_singleton. lia.
Qed.

Lemma loop_node_none fuel add ls lsF :
  ls_node ls = None -> trie_lookup_loop fuel add ls = Some lsF -> lsF = ls.
Proof.
  intros Hn Hrun. destruct fuel as [|fuel]; [discriminate|].
  rewrite trie_lookup_loop_unfold, Hn in Hrun. congruence.
Qed.

Lemma agenda_rel_push A C n s :
  agenda_rel A C -> agenda_rel (pushWorkAgenda_P A n s) (pushWorkAgenda C n s).
Proof.
  intros [Hw Hs]. unfold pushWorkAgenda_P, pushWorkAgenda, agenda_rel.
  simpl in *. destruct n as [|n]; simpl.
  - destruct (a_size (work C)) eqn:HC; simpl; rewrite ?HC; rewrite Hw; auto.
    rewrite Hs. auto.
  - destruct (a_size (work C)) eqn:HC; simpl; rewrite ?HC; rewrite Hw; auto.
    rewrite Hs. auto.
Qed.

Lemma agenda_rel_pop f m A A' C :
  nextTermAgenda_P f m A = Some (AC_TERM_POP, A') -> agenda_rel A C -> agenda_rel A' C.
Proof.
  unfold nextTermAgenda_P, agenda_rel. intros H [Hw Hs].
  destruct (a_size (work A)) eqn:HA.
  - destruct (stack A) as [|w s] eqn:HsA; [discriminate|].
    injection H as <-. simpl in *. rewrite HA in Hw. auto.
  - destruct (deRef _ _ _); discriminate.
Qed.

Lemma agenda_rel_null f m A C :
  nextTermAgenda_P f m A = Some (AC_NULL, A) -> agenda_rel A C ->
  a_size (work C) = 0%nat /\ stack C = [].
Proof.
  unfold nextTermAgenda_P, agenda_rel. intros H [Hw Hs].
  destruct (a_size (work A)) eqn:HA.
  - destruct (stack A) as [|w s] eqn:HsA; [|discriminate].
    simpl in Hw. rewrite HA in Hw.
    destruct (a_size (work C)) eqn:HC; [|discriminate].
    rewrite Hs in Hw. auto.
  - destruct (deRef _ _ _); discriminate.
Qed.

Lemma agenda_rel_cell fe fc E cm A A' C p :
  nextTermAgenda_P fe E A = Some (AC_CELL p, A') ->
  agenda_rel A C -> same_skeleton E cm -> (fe <= fc)%nat ->
  exists C', nextTermAgenda fc cm C = Some (AC_CELL p, C') /\ agenda_rel A' C'.
Proof.
  unfold nextTermAgenda_P, nextTermAgenda, agenda_rel. intros H [Hw Hs] Hsk Hle.
  destruct (a_size (work A)) as [|k] eqn:HA.
  { destruct (stack A); discriminate. }
  destruct (deRef fe E (a_location (work A))) as [q|] eqn:Hd; [|discriminate].
  simpl in H. injection H as -> <-.
  apply (deRef_mono _ _ fc) in Hd; [|exact Hle].
  rewrite (deRef_skeleton _ _ Hsk) in Hd.
  simpl in Hw. rewrite HA in Hw.
  destruct (a_size (work C)) as [|k'] eqn:HC.
  - rewrite Hs in Hw. destruct (stack C) as [|w s] eqn:HsC; [discriminate|].
    injection Hw as <- Hrest.
    rewrite HA, Hd. simpl. eexists. split; [reflexivity|].
    simpl. simpl in Hs. rewrite HA in Hs. injection Hs as Hs.
    split; [|exact Hs].
    destruct k; [rewrite Hrest, Hs; reflexivity|rewrite Hrest, Hs; reflexivity].
  - injection Hw as Hwork Hrest. rewrite <- Hwork, Hd. simpl.
    eexists. split; [reflexivity|]. simpl.
    assert (k' = k) by (rewrite <- Hwork in HC; congruence). subst k'.
    split; [|exact Hs].
    destruct k; rewrite Hrest; reflexivity.
Qed.

Lemma clear_vars_loop_unfold fuel m a vn :
  clear_vars_loop (S fuel) m a vn =
    if vn >? 0 then
      '(item, a') ← nextTermAgenda (S fuel) m a;
      match item with
      | AC_CELL p =>
          w ← m !! p;
          if tag w =? TAG_VAR then
            if negb (isVar w)
            then clear_vars_loop fuel (<[p := 0]> m) a' (wrap (vn - 1))
            else clear_vars_loop fuel m a' vn
          else if tag w =? TAG_COMPOUND then
            f ← m !! valPtr w;
            clear_vars_loop fuel m (pushWorkAgenda a' (arityFunctor f) (valPtr w + 1)) vn
          else clear_vars_loop fuel m a' vn
      | _ => Some (m, vn)
      end
    else Some (m, vn).
Proof. reflexivity. Qed.

Lemma skeleton_of_marks m0 MF DF D E cm :
  marked m0 DF MF -> marked m0 D E -> restored m0 MF D cm -> same_skeleton E cm.
Proof.
  intros [HF HF'] [HD HD'] [HR HR'] a.
  destruct (decide (a ∈ D)) as [Ha|Ha].
  - right. destruct (HD a Ha) as (_ & w & Hw & _ & Ht).
    exists w, 0. rewrite (HR a Ha). auto using tag_zero.
  - rewrite (HD' a Ha), (HR' a Ha).
    destruct (decide (a ∈ DF)) as [Hf|Hf].
    + right. destruct (HF a Hf) as (H0 & w & Hw & _ & Ht).
      exists 0, w. auto using tag_zero.
    + left. rewrite (HF' a Hf). reflexivity.
Qed.

Lemma clear_follows_lookup m0 MF DF :
  wf_mem m0 ->
  Z.of_nat (size m0) < 2 ^ 57 ->
  marked m0 DF MF ->
  forall fe add ls lsF,
    trie_lookup_loop fe add ls = Some lsF ->
    ls_mem lsF = MF ->
    forall D C cm fc,
      marked m0 D (ls_mem ls) ->
      ls_var_number ls = Z.of_nat (size D) ->
      restored m0 MF D cm ->
      agenda_rel (ls_agenda ls) C ->
      (fe <= fc)%nat ->
      clear_vars_loop fc cm C (Z.of_nat (size (DF ∖ D))) = Some (m0, 0).
Proof.
  intros [Hvalid Hfun] Hsize HMF.
  induction fe as [|fe IH]; intros add ls lsF Hrun HlsF D C cm fc HD Hvn HR Hag Hle;
    [discriminate|].
  assert (HDF : D ⊆ DF).
  { destruct (lookup_loop_marks m0 Hsize _ _ _ _ D Hrun HD Hvn) as (DF' & Hsub & HDF' & _).
    rewrite HlsF in HDF'. rewrite (marked_unique _ _ _ _ HMF HDF'). exact Hsub. }
  destruct fc as [|fc]; [lia|].
  destruct (size (DF ∖ D)) as [|cn] eqn:Hcn.
  { (* all the markers are restored *)
    rewrite clear_vars_loop_unfold.
    simpl. f_equal. f_equal.
    apply size_empty_inv in Hcn. apply leibniz_equiv in Hcn.
    assert (HDeq : DF = D).
    { apply set_eq. intros x. split; intros Hx; [|apply HDF; exact Hx].
      destruct (decide (x ∈ D)) as [|Hn]; [assumption|].
      assert (Hin : x ∈ DF ∖ D) by (apply elem_of_difference; auto).
      rewrite Hcn in Hin. apply elem_of_empty in Hin. contradiction. }
    apply map_eq. intros a. destruct HR as [HR HR']. destruct HMF as [HF HF'].
    destruct (decide (a ∈ D)) as [Ha|Ha].
    - rewrite (HR a Ha). rewrite <- HDeq in Ha. destruct (HF a Ha) as [H0 _]. congruence.
    - rewrite (HR' a Ha). rewrite <- HDeq in Ha. apply HF'. exact Ha. }
  assert (Hpos : (Z.of_nat (S cn) >? 0) = true) by (apply Z.gtb_lt; lia).
  assert (Hnotend : ls_mem ls <> MF).
  { intros Heq. rewrite Heq in HD.
    rewrite (marked_unique _ _ _ _ HMF HD) in Hcn.
    rewrite difference_diag_L, size_empty in Hcn. discriminate. }
  rewrite trie_lookup_loop_unfold in Hrun.
  destruct (ls_node ls) as [node|];
    [|injection Hrun as <-; exfalso; apply Hnotend; exact HlsF].
  destruct (nextTermAgenda_P (S fe) (ls_mem ls) (ls_agenda ls)) as [[item a]|] eqn:Hnext;
    [|discriminate].
  simpl in Hrun.
  destruct item as [| |p].
  - injection Hrun as <-. exfalso; apply Hnotend; exact HlsF.
  - destruct (follow_node _ _ _ _) as [[n t']|]; [|discriminate]. simpl in Hrun.
    rewrite <- Hcn.
    apply (IH _ _ _ Hrun HlsF D C cm (S fc)); simpl; auto.
    + eapply agenda_rel_pop; eauto.
    + lia.
  - destruct (lookup_step _ _ _ _ _ _) as [ls'|] eqn:Hstep; [|discriminate]. simpl in Hrun.
    assert (Hsk : same_skeleton (ls_mem ls) cm)
      by exact (skeleton_of_marks m0 MF DF D _ cm HMF HD HR).
    destruct (agenda_rel_cell _ (S fc) _ cm _ _ C _ Hnext Hag Hsk) as (C' & HnextC & Hag');
      [lia|].
    rewrite clear_vars_loop_unfold, Hpos, HnextC. simpl.
    destruct (lookup_step_cases _ _ _ _ _ _ _ Hstep) as (w & Hw & Hcases).
    destruct HD as [HDin HDout]. destruct HR as [HRin HRout].
    destruct (decide (p ∈ D)) as [HpD|HpD].
    { (* a variable met before: restored already *)
      destruct (HDin p HpD) as (_ & w' & Hw' & Hnz & Ht).
      rewrite Hw in Hw'. injection Hw' as <-.
      rewrite (HRin p HpD). simpl.
      destruct Hcases as [(H0 & _)|[(_ & _ & Hmem & Hv & Ha)|[(Hnv & _)|
                          [(Hc & _)|(Hc & _)]]]];
        try congruence; try (rewrite Ht in Hc; discriminate).
      rewrite <- Hcn.
      apply (IH _ _ _ Hrun HlsF D C' cm fc);
        [rewrite Hmem; split; assumption | rewrite Hv; exact Hvn | split; assumption
        | rewrite Ha; exact Hag' | lia]. }
    rewrite (HRout p HpD).
    destruct Hcases as [(H0 & Hmem & Hv & Ha)|[(Ht & Hnz & _)|[(Hnv & Hnc & Hmem & Hv & Ha)|
                        [(Hc & Hnone & Hmem & Hv)|(Hc & fn & Hfn & Ha & Hmem & Hv)]]]].
    + (* a new variable: marked by the lookup, restored here *)
      subst w.
      assert (Hp0 : m0 !! p = Some 0) by (rewrite <- (HDout p HpD); exact Hw).
      assert (Hb : 0 < ls_var_number ls + 1 < 2 ^ 57).
      { assert (Hle' : (size ({[p]} ∪ D) <= size m0)%nat).
        { rewrite <- size_dom. apply subseteq_size. intros x Hx.
          apply elem_of_dom. apply elem_of_union in Hx as [Hx|Hx].
          - apply elem_of_singleton in Hx. subst x. eauto.
          - destruct (HDin x Hx) as [H0 _]. eauto. }
        rewrite size_union, size_singleton in Hle' by set_solver. lia. }
      rewrite wrap_small in Hmem, Hv by lia.
      assert (HD' : marked m0 ({[p]} ∪ D) (ls_mem ls')).
      { rewrite Hmem. split.
        - intros x Hx. apply elem_of_union in Hx as [Hx|Hx].
          + apply elem_of_singleton in Hx. subst x. split; [exact Hp0|].
            eexists. split; [apply lookup_insert_eq|].
            split; [apply var_key_nonzero; exact Hb|apply tag_var_key].
          + destruct (HDin x Hx) as (H0 & w & Hw' & Hnz & Ht).
            split; [exact H0|]. exists w.
            rewrite lookup_insert_ne by (intros ->; contradiction). auto.
        - intros x Hx. rewrite lookup_insert_ne by set_solver.
          apply HDout. set_solver. }
      assert (Hvn' : ls_var_number ls' = Z.of_nat (size ({[p]} ∪ D))).
      { rewrite Hv, Hvn, size_union by set_solver. rewrite size_singleton. lia. }
      assert (HpDF : p ∈ DF).
      { destruct (lookup_loop_marks m0 Hsize _ _ _ _ _ Hrun HD' Hvn') as (DF' & Hsub & HDF' & _).
        rewrite HlsF in HDF'. rewrite (marked_unique _ _ _ _ HMF HDF'). set_solver. }
      destruct HMF as [HF HF'].
      destruct (HF p HpDF) as (_ & wF & HwF & HnzF & HtF).
      rewrite HwF. simpl. rewrite HtF. simpl.
      unfold isVar. destruct (wF =? 0) eqn:HwF0; [apply Z.eqb_eq in HwF0; contradiction|].
      simpl.
      assert (Hcn' : size (DF ∖ ({[p]} ∪ D)) = cn).
      { assert (Hsplit : DF ∖ D = {[p]} ∪ DF ∖ ({[p]} ∪ D)).
        { apply set_eq. intros x. destruct (decide (x = p)); set_solver. }
        rewrite Hsplit in Hcn. rewrite size_union, size_singleton in Hcn by set_solver.
        lia. }
      assert (Hwrap : wrap (Z.of_nat (S cn) - 1) = Z.of_nat cn).
      { assert (Hcnle : (size (DF ∖ D) <= size m0)%nat).
        { rewrite <- size_dom. apply subseteq_size. intros x Hx.
          apply elem_of_dom. apply elem_of_difference in Hx as [Hx _].
          destruct (HF x Hx) as [H0 _]. eauto. }
        rewrite Hcn in Hcnle. rewrite wrap_small by lia. lia. }
      rewrite Hwrap, <- Hcn'.
      apply (IH _ _ _ Hrun HlsF ({[p]} ∪ D) C' (<[p := 0]> cm) fc);
        [exact HD' | exact Hvn' | | rewrite Ha; exact Hag' | lia].
      split.
      * intros x Hx. apply elem_of_union in Hx as [Hx|Hx].
        -- apply elem_of_singleton in Hx. subst x. apply lookup_insert_eq.
        -- rewrite lookup_insert_ne by (intros ->; contradiction). apply HRin. exact Hx.
      * intros x Hx. rewrite lookup_insert_ne by set_solver. apply HRout. set_solver.
    + (* a marker outside of D: there is none *)
      exfalso. rewrite (HDout p HpD) in Hw. apply Hnz. eapply Hvalid; eauto.
    + (* neither variable nor compound *)
      assert (HpDF : p ∉ DF).
      { intros Hin. destruct HMF as [HF _]. destruct (HF p Hin) as (H0 & _).
        rewrite (HDout p HpD), H0 in Hw. injection Hw as <-. apply Hnv. apply tag_zero. }
      destruct HMF as [HF HF']. rewrite (HF' p HpDF), <- (HDout p HpD), Hw. simpl.
      destruct (tag w =? TAG_VAR) eqn:E1; [apply Z.eqb_eq in E1; contradiction|].
      destruct (tag w =? TAG_COMPOUND) eqn:E2; [apply Z.eqb_eq in E2; contradiction|].
      rewrite <- Hcn.
      apply (IH _ _ _ Hrun HlsF D C' cm fc);
        [rewrite Hmem; split; assumption | rewrite Hv; exact Hvn | split; assumption
        | rewrite Ha; exact Hag' | lia].
    + (* the walk was stopped at a compound *)
      exfalso. apply Hnotend.
      apply loop_node_none in Hrun; [|exact Hnone]. subst lsF. rewrite <- Hmem. exact HlsF.
    + (* a compound: both walks schedule its arguments *)
      assert (HpDF : p ∉ DF).
      { intros Hin. destruct HMF as [HF _]. destruct (HF p Hin) as (H0 & _).
        rewrite (HDout p HpD), H0 in Hw. injection Hw as <-. rewrite tag_zero in Hc. discriminate. }
      assert (Hw0 : m0 !! p = Some w) by (rewrite <- (HDout p HpD); exact Hw).
      assert (Hq : forall S m', marked m0 S m' -> is_Some (m' !! valPtr w) ->
                                m' !! valPtr w = m0 !! valPtr w).
      { intros S m' [HSin HSout] [x Hx].
        destruct (decide (valPtr w ∈ S)) as [Hin|Hout]; [|apply HSout; exact Hout].
        exfalso. destruct (HSin _ Hin) as (H0 & _).
        apply (Hfun p w 0 Hw0 Hc H0). apply tag_zero. }
      assert (Hfn0 : m0 !! valPtr w = Some fn).
      { rewrite <- (Hq D (ls_mem ls)); [exact Hfn|split; assumption|eauto]. }
      assert (HfnF : MF !! valPtr w = Some fn).
      { destruct (decide (valPtr w ∈ DF)) as [Hin|Hout].
        - exfalso. destruct HMF as [HF _]. destruct (HF _ Hin) as (H0 & _).
          apply (Hfun p w 0 Hw0 Hc H0). apply tag_zero.
        - destruct HMF as [_ HF']. rewrite (HF' _ Hout). exact Hfn0. }
      assert (Hfnc : cm !! valPtr w = Some fn).
      { destruct (decide (valPtr w ∈ D)) as [Hin|Hout].
        - exfalso. destruct (HDin _ Hin) as (H0 & _).
          apply (Hfun p w 0 Hw0 Hc H0). apply tag_zero.
        - rewrite (HRout _ Hout). exact HfnF. }
      destruct HMF as [HF HF']. rewrite (HF' p HpDF), Hw0. simpl.
      destruct (tag w =? TAG_VAR) eqn:E1; [apply Z.eqb_eq in E1; rewrite E1 in Hc; discriminate|].
      rewrite Hc. simpl. rewrite Hfnc. simpl.
      rewrite <- Hcn.
      apply (IH _ _ _ Hrun HlsF D _ cm fc);
        [rewrite Hmem; split; assumption | rewrite Hv; exact Hvn | split; assumption
        | rewrite Ha; apply agenda_rel_push; exact Hag' | lia].
Qed.

Lemma wf_mem_b_sound m : wf_mem_b m = true -> wf_mem m.
Proof.
  unfold wf_mem_b. rewrite forallb_forall. intros H.
  assert (Hc : forall a w, m !! a = Some w -> wf_cell_b m w = true).
  { intros a w Hw. apply (H (a, w)). apply list_elem_of_In, elem_of_map_to_list. exact Hw. }
  split.
  - intros a w Hw Ht. apply Hc in Hw. unfold wf_cell_b in Hw.
    apply andb_true_iff in Hw as [Hw _]. rewrite Ht in Hw. simpl in Hw.
    apply Z.eqb_eq. exact Hw.
  - intros a w f Hw Ht Hf. apply Hc in Hw. unfold wf_cell_b in Hw.
    apply andb_true_iff in Hw as [_ Hw]. rewrite Ht, Hf in Hw. simpl in Hw.
    apply negb_true_iff, Z.eqb_neq in Hw. exact Hw.
Qed.

Lemma marked_empty m : marked m ∅ m.
Proof. split; [intros a Ha; apply elem_of_empty in Ha; contradiction|reflexivity]. Qed.

(** The second walk undoes the first: whatever the walk of [trie_lookup]
    left behind, [clear_vars] gives back the stacks of before the call. *)
Lemma lookup_loop_cleared (fuel : nat) (t : trie) (m : mem) (k : Z) (add : bool)
    (ls : lookup_state) :
  wf_mem m ->
  Z.of_nat (size m) < 2 ^ 57 ->
  trie_lookup_loop fuel add (mkLookup (initTermAgenda 1 k) (Some root) 0 TRUE 0 t m) = Some ls ->
  clear_vars fuel (ls_mem ls) k (ls_var_number ls) = Some m.
Proof.
  intros Hwf Hsize Hloop.
  destruct (lookup_loop_marks m Hsize _ _ _ _ ∅ Hloop (marked_empty m) eq_refl)
    as (DF & _ & HDF & HvF).
  unfold clear_vars. destruct (ls_var_number ls >? 0) eqn:Hpos.
  - rewrite HvF. rewrite <- (difference_empty_L DF) at 1.
    rewrite (clear_follows_lookup m (ls_mem ls) DF Hwf Hsize HDF fuel add _ ls Hloop eq_refl
               ∅ (initTermAgenda 1 k) (ls_mem ls) fuel).
    + reflexivity.
    + apply marked_empty.
    + reflexivity.
    + split; [intros a Ha; apply elem_of_empty in Ha; contradiction|reflexivity].
    + split; reflexivity.
    + lia.
  - f_equal. rewrite Z.gtb_ltb in Hpos. apply Z.ltb_ge in Hpos.
    assert (Hs : size DF = 0%nat) by lia.
    apply size_empty_inv, leibniz_equiv in Hs. subst DF.
    apply map_eq. intros a. destruct HDF as [_ HDF]. apply HDF. apply not_elem_of_empty.
Qed.

(** C9: when trie_lookup returns (with any return code, so in particular
    after a successful call) on stacks that hold well-formed terms, the
    stacks are what they were before the call: every variable that the
    walk rewrote to an ordinal marker is an unbound variable again and no
    other cell was touched. *)
Theorem trie_lookup_restores_variables (fuel : nat) (t : trie) (m : mem) (k : Z) (add : bool)
    (rc : Z) (nodep : option node_id) (t' : trie) (m' : mem) :
  wf_mem m ->
  Z.of_nat (size m) < 2 ^ 57 ->
  trie_lookup fuel t m k add = Some (rc, nodep, t', m') ->
  m' = m.
Proof.
  intros Hwf Hsize Hrun. unfold trie_lookup in Hrun.
  destruct (trie_lookup_loop fuel add _) as [ls|] eqn:Hloop; [|discriminate].
  simpl in Hrun.
  rewrite (lookup_loop_cleared fuel t m k add ls Hwf Hsize Hloop) in Hrun. simpl in Hrun.
  destruct (ls_rc ls =? TRUE); [destruct (ls_node ls)|]; congruence.
Qed.


Lemma trie_lookup_restores_variables_witness :
  match trie_lookup 100 trie_create term_mem 10 true with
  | Some (rc, nodep, t', m') => m' = term_mem
  | None => False
  end.
Proof.
  destruct (trie_lookup 100 trie_create term_mem 10 true) as [[[[rc nodep] t'] m']|] eqn:Hrun.
  - apply (trie_lookup_restores_variables 100 trie_create term_mem 10 true rc nodep t' m').
    + apply wf_mem_b_sound. vm_compute. reflexivity.
    + vm_compute. reflexivity.
    + exact Hrun.
  - vm_compute in Hrun. discriminate Hrun.
Defined.

(** The walk of f(X, a, g(X, Y)) does rewrite the two variables: the keys
    of the path hold the markers of X and Y. *)
Example term_mem_keys :
  match trie_lookup 100 trie_create term_mem 10 true with
  | Some (rc, Some n, t', m') =>
      collect_keys 100 t' n
      = Some [TRIE_KEY_POP; TRIE_KEY_POP; var_key 2; var_key 1; MK_FUNCTOR 2 2;
              atom 2; var_key 1; MK_FUNCTOR 1 3]
  | _ => False
  end.
Proof. vm_compute. reflexivity. Qed.
(** * The round trip: proofs *)

Lemma lor_shift_add a ts : 0 <= ts < 128 -> Z.lor (Z.shiftl a 7) ts = a * 128 + ts.
Proof.
  intros H. rewrite Z.shiftl_mul_pow2 by lia. change (2 ^ 7) with 128.
  rewrite <- Z.lxor_lor, <- Z.add_nocarry_lxor; try reflexivity.
  - apply Z.bits_inj'. intros n Hn. rewrite Z.land_spec, Z.bits_0.
    destruct (Z.lt_ge_cases n 7).
    + change 128 with (2 ^ 7). rewrite Z.mul_pow2_bits_low by lia. reflexivity.
    + rewrite (Z.bits_above_log2 ts n); [apply andb_false_r|lia|].
      destruct (Z.eq_dec ts 0) as [->|]; [simpl; lia|].
      apply Z.log2_lt_pow2; [lia|]. apply Z.lt_le_trans with (2 ^ 7); [simpl; lia|].
      apply Z.pow_le_mono_r; lia.
  - apply Z.bits_inj'. intros n Hn. rewrite Z.land_spec, Z.bits_0.
    destruct (Z.lt_ge_cases n 7).
    + change 128 with (2 ^ 7). rewrite Z.mul_pow2_bits_low by lia. reflexivity.
    + rewrite (Z.bits_above_log2 ts n); [apply andb_false_r|lia|].
      destruct (Z.eq_dec ts 0) as [->|]; [simpl; lia|].
      apply Z.log2_lt_pow2; [lia|]. apply Z.lt_le_trans with (2 ^ 7); [simpl; lia|].
      apply Z.pow_le_mono_r; lia.
Qed.

Lemma consPtr_eq a ts : 0 <= a < 2 ^ 57 -> 0 <= ts < 128 -> consPtr a ts = a * 128 + ts.
Proof.
  intros Ha Hts. unfold consPtr, LMASK_BITS. rewrite lor_shift_add by lia.
  unfold wrap, word_bits. apply Z.mod_small. lia.
Qed.

Lemma valPtr_consPtr a ts : 0 <= a < 2 ^ 57 -> 0 <= ts < 128 -> valPtr (consPtr a ts) = a.
Proof.
  intros Ha Hts. rewrite consPtr_eq by lia. unfold valPtr, LMASK_BITS.
  rewrite Z.shiftr_div_pow2 by lia. change (2 ^ 7) with 128.
  rewrite Z.div_add_l by lia. rewrite Z.div_small by lia. lia.
Qed.

Lemma tag_consPtr a ts : 0 <= a < 2 ^ 57 -> 0 <= ts < 128 -> tag (consPtr a ts) = ts mod 8.
Proof.
  intros Ha Hts. rewrite consPtr_eq by lia. rewrite tag_mod.
  change 128 with (16 * 8). rewrite Z.mul_assoc, Z.add_comm, Z.mod_add by lia. reflexivity.
Qed.

Lemma land_mod32 w : Z.land w 31 = w mod 32.
Proof. change 31 with (Z.ones 5). rewrite Z.land_ones by lia. reflexivity. Qed.

Lemma tagex_mod w : tagex w = w mod 32.
Proof. unfold tagex. change (Z.lor TAG_MASK STG_MASK) with 31. apply land_mod32. Qed.

Lemma storage_consPtr a ts : 0 <= a < 2 ^ 57 -> 0 <= ts < 128 ->
  tagex (consPtr a ts) = ts mod 32.
Proof.
  intros Ha Hts. rewrite consPtr_eq by lia. rewrite tagex_mod.
  change 128 with (4 * 32). rewrite Z.mul_assoc, Z.add_comm, Z.mod_add by lia. reflexivity.
Qed.

Lemma shiftr_var_key i : 0 <= i < 2 ^ 57 -> Z.shiftr (var_key i) LMASK_BITS = i.
Proof.
  intros H. rewrite var_key_eq. rewrite Z.mod_small by lia.
  unfold LMASK_BITS. rewrite Z.shiftr_div_pow2 by lia. change (2 ^ 7) with 128.
  apply Z.div_mul. lia.
Qed.

Lemma tagex_var_key i : tagex (var_key i) = 0.
Proof.
  rewrite tagex_mod, var_key_eq.
  rewrite Z.mod_mod_divide by (exists (2 ^ 59); reflexivity).
  change 128 with (4 * 32). rewrite Z.mul_assoc. apply Z.mod_mul. lia.
Qed.

Lemma var_key_pop i : 0 <= i < 2 ^ 56 -> var_key i <> TRIE_KEY_POP.
Proof.
  intros H. rewrite var_key_eq. rewrite Z.mod_small by lia.
  change TRIE_KEY_POP with 18446744073709551360. lia.
Qed.

Lemma var_key_inj i j : 0 <= i < 2 ^ 57 -> 0 <= j < 2 ^ 57 -> var_key i = var_key j -> i = j.
Proof.
  intros Hi Hj. rewrite !var_key_eq. rewrite !Z.mod_small by lia. lia.
Qed.

Lemma path_frame t t' :
  (forall x nd, nodes t !! x = Some nd ->
     exists nd', nodes t' !! x = Some nd' /\ tn_parent nd' = tn_parent nd
                 /\ tn_key nd' = tn_key nd) ->
  forall n ks, path t n ks -> path t' n ks.
Proof.
  intros H n ks Hp. induction Hp as [n nd Hn Hpar|n nd p ks Hn Hpar Hp IH].
  - destruct (H n nd Hn) as (nd' & Hn' & Hpar' & _).
    apply (path_root t' n nd' Hn'). congruence.
  - destruct (H n nd Hn) as (nd' & Hn' & Hpar' & Hkey').
    rewrite <- Hkey'. apply (path_step t' n nd' p ks Hn'); [congruence|exact IH].
Qed.

Lemma lookupHTable_app tbl k v k' :
  lookupHTable (tbl ++ [(k, v)]) k' =
    match lookupHTable tbl k' with
    | Some c => Some c
    | None => if k =? k' then Some v else None
    end.
Proof.
  induction tbl as [|[k0 v0] tbl IH]; simpl; [reflexivity|].
  destruct (k0 =? k'); [reflexivity|exact IH].
Qed.

Lemma get_child_child_of t n nd key :
  nodes t !! n = Some nd -> get_child t n key = Some (child_of nd key).
Proof.
  intros Hn. unfold get_child, child_of. rewrite Hn. simpl.
  destruct (tn_children nd) as [|k c|tbl]; [reflexivity| |reflexivity].
  destruct (k =? key); reflexivity.
Qed.

Lemma path_node t n ks : path t n ks -> is_Some (nodes t !! n).
Proof. intros H. destruct H; eauto. Qed.

Lemma follow_node_path t n ks key n' t' :
  wf_links t -> path t n ks ->
  follow_node t n key true = Some (Some n', t') ->
  wf_links t' /\ path t' n' (ks ++ [key]) /\ indirects t' = indirects t.
Proof.
  intros (Hroot & Hch & Hfresh) Hpath Hf.
  destruct (path_node _ _ _ Hpath) as [nd Hn].
  unfold follow_node in Hf. rewrite (get_child_child_of _ _ _ _ Hn) in Hf. simpl in Hf.
  destruct (child_of nd key) as [c|] eqn:Hc.
  { injection Hf as <- <-. split; [repeat split; assumption|]. split; [|reflexivity].
    destruct (Hch n nd key c Hn Hc) as (cd & Hcd & Hpar & Hkey).
    rewrite <- Hkey. eapply path_step; eauto. }
  unfold insert_child in Hf. rewrite Hn in Hf. simpl in Hf.
  unfold new_trie_node in Hf. cbv zeta in Hf.
  match type of Hf with
  | context [match ?c with Some _ => _ | None => (None, t) end] =>
      destruct c as [t0|] eqn:Hcharge
  end; [|discriminate].
  assert (Ht0 : nodes t0 = nodes t /\ next_node t0 = next_node t
                /\ indirects t0 = indirects t).
  { destruct (alloc_pool t) as [pl|];
      [destruct (pool_size pl + sizeof_trie_node <=? pool_limit pl); [|discriminate]|];
      injection Hcharge as <-; auto. }
  destruct Ht0 as (N0 & X0 & I0). rewrite X0 in Hf.
  set (new := next_node t) in *.
  set (t4 := acquire_key key (set_node_count (set_next_node t0 (S new))
                 (uint_wrap (node_count (set_next_node t0 (S new)) + 1)))) in *.
  assert (Hnodes4 : nodes t4 = nodes t)
    by (unfold t4; rewrite nodes_acquire_key; exact N0).
  assert (Hnew_fresh : nodes t !! new = None).
  { destruct (nodes t !! new) eqn:E; [|reflexivity].
    assert (new < new)%nat by (apply Hfresh; eauto). lia. }
  assert (Hnn : n <> new) by (intros ->; congruence).
  assert (Hind4 : indirects t4 = indirects t).
  { unfold t4, acquire_key. destruct (isAtom key); exact I0. }
  assert (Hnext4 : next_node t4 = S new).
  { unfold t4, acquire_key. destruct (isAtom key); reflexivity. }
  (* the three ways of publishing the new node give the same links *)
  assert (Hgo : forall c',
    child_of (set_children nd c') key = Some new ->
    (forall k', k' <> key -> child_of (set_children nd c') k' = child_of nd k') ->
    let t' := update_node
                (update_node (update_node t4 new (mkNode 0 key None NoChildren)) n
                   (set_children nd c'))
                new (set_parent (mkNode 0 key None NoChildren) (Some n)) in
    wf_links t' /\ path t' new (ks ++ [key]) /\ indirects t' = indirects t).
  { intros c' Hcnew Hcold t1.
    assert (Hl_new : nodes t1 !! new = Some (mkNode 0 key (Some n) NoChildren)).
    { unfold t1, update_node; simpl. apply lookup_insert_eq. }
    assert (Hl_n : nodes t1 !! n = Some (set_children nd c')).
    { unfold t1, update_node; simpl. rewrite lookup_insert_ne by congruence.
      apply lookup_insert_eq. }
    assert (Hl_other : forall x, x <> new -> x <> n -> nodes t1 !! x = nodes t !! x).
    { intros x Hx1 Hx2. unfold t1, update_node; simpl.
      rewrite !lookup_insert_ne by congruence. rewrite Hnodes4. reflexivity. }
    assert (Hframe : forall x xd, nodes t !! x = Some xd ->
              exists xd', nodes t1 !! x = Some xd' /\ tn_parent xd' = tn_parent xd
                          /\ tn_key xd' = tn_key xd).
    { intros x xd Hx. destruct (decide (x = n)) as [->|Hxn].
      - rewrite Hn in Hx. injection Hx as <-. exists (set_children nd c'). auto.
      - exists xd. rewrite Hl_other; [auto|congruence|exact Hxn]. }
    split; [|split].
    - split; [|split].
      + destruct Hroot as (rd & Hrd & Hrp). destruct (Hframe _ _ Hrd) as (rd' & ? & ? & _).
        exists rd'. split; [assumption|congruence].
      + intros p pd k c Hp Hck.
        destruct (decide (p = new)) as [->|Hpnew].
        { rewrite Hl_new in Hp. injection Hp as <-. discriminate. }
        destruct (decide (p = n)) as [->|Hpn].
        * rewrite Hl_n in Hp. injection Hp as <-.
          destruct (decide (k = key)) as [->|Hk].
          -- rewrite Hcnew in Hck. injection Hck as <-. eexists. split; [exact Hl_new|auto].
          -- rewrite Hcold in Hck by exact Hk.
             destruct (Hch n nd k c Hn Hck) as (cd & Hcd & Hpar & Hkey).
             destruct (Hframe _ _ Hcd) as (cd' & ? & ? & ?).
             exists cd'. split; [assumption|]. split; congruence.
        * rewrite Hl_other in Hp by assumption.
          destruct (Hch p pd k c Hp Hck) as (cd & Hcd & Hpar & Hkey).
          destruct (Hframe _ _ Hcd) as (cd' & ? & ? & ?).
          exists cd'. split; [assumption|]. split; congruence.
      + intros x [xd Hx]. unfold t1, update_node; simpl. rewrite Hnext4.
        destruct (decide (x = new)) as [->|Hxnew]; [lia|].
        destruct (decide (x = n)) as [->|Hxn].
        * assert (n < new)%nat by (apply Hfresh; eauto). lia.
        * rewrite Hl_other in Hx by assumption.
          assert (x < new)%nat by (apply Hfresh; eauto). lia.
    - apply (path_step t1 new (mkNode 0 key (Some n) NoChildren) n ks Hl_new eq_refl).
      eapply path_frame; [exact Hframe|exact Hpath].
    - unfold t1, update_node; simpl. exact Hind4. }
  assert (Hl4new : nodes (update_node t4 new (mkNode 0 key None NoChildren)) !! new
                   = Some (mkNode 0 key None NoChildren)).
  { unfold update_node; simpl. apply lookup_insert_eq. }
  unfold child_of in Hc.
  destruct (tn_children nd) as [|k c|tbl] eqn:Hcn.
  - unfold update_node in Hf at 1. simpl in Hf.
    rewrite lookup_insert_ne in Hf by congruence.
    unfold update_node in Hf at 1. simpl in Hf. rewrite lookup_insert_eq in Hf. simpl in Hf.
    injection Hf as <- <-.
    apply (Hgo (TN_KEY key new)).
    + unfold child_of; simpl. rewrite Z.eqb_refl. reflexivity.
    + intros k' Hk'. unfold child_of; simpl. rewrite Hcn.
      destruct (key =? k') eqn:E; [apply Z.eqb_eq in E; congruence|reflexivity].
  - destruct (k =? key) eqn:Hk; [discriminate|].
    simpl in Hf.
    unfold update_node in Hf at 1. simpl in Hf.
    rewrite lookup_insert_ne in Hf by congruence.
    unfold update_node in Hf at 1. simpl in Hf. rewrite lookup_insert_eq in Hf. simpl in Hf.
    unfold addHTable in Hf. simpl in Hf. rewrite Hk in Hf. simpl in Hf.
    injection Hf as <- <-.
    apply (Hgo (TN_HASHED [(k, c); (key, new)])).
    + unfold child_of; simpl. rewrite Hk, Z.eqb_refl. reflexivity.
    + intros k' Hk'. unfold child_of; simpl. rewrite Hcn.
      destruct (k =? k'); [reflexivity|].
      destruct (key =? k') eqn:E; [apply Z.eqb_eq in E; congruence|reflexivity].
  - unfold addHTable in Hf. rewrite Hc in Hf. simpl in Hf.
    rewrite Nat.eqb_refl in Hf.
    unfold update_node in Hf at 1. simpl in Hf.
    rewrite lookup_insert_ne in Hf by congruence.
    unfold update_node in Hf at 1. simpl in Hf. rewrite lookup_insert_eq in Hf. simpl in Hf.
    injection Hf as <- <-.
    apply (Hgo (TN_HASHED (tbl ++ [(key, new)]))).
    + unfold child_of; simpl. rewrite lookupHTable_app, Hc, Z.eqb_refl. reflexivity.
    + intros k' Hk'. unfold child_of; simpl. rewrite Hcn, lookupHTable_app.
      destruct (lookupHTable tbl k'); [reflexivity|].
      destruct (key =? k') eqn:E; [apply Z.eqb_eq in E; congruence|reflexivity].
Qed.

Lemma path_collect t n ks :
  path t n ks -> forall fuel, (length ks < fuel)%nat -> collect_keys fuel t n = Some (rev ks).
Proof.
  induction 1 as [n nd Hn Hpar|n nd p ks Hn Hpar Hp IH]; intros fuel Hf.
  - destruct fuel; [simpl in Hf; lia|]. simpl. rewrite Hn. simpl. rewrite Hpar. reflexivity.
  - destruct fuel; [lia|]. simpl. rewrite Hn. simpl. rewrite Hpar.
    rewrite length_app in Hf. simpl in Hf.
    rewrite IH by lia. simpl. rewrite rev_app_distr. reflexivity.
Qed.

Lemma derefs_deRef m p q : derefs m p q -> forall f q', deRef f m p = Some q' -> q' = q.
Proof.
  induction 1 as [p w Hw Hr|p w q Hw Hr Hd IH]; intros f q' H.
  - destruct f; [discriminate|]. simpl in H. rewrite Hw in H. simpl in H. rewrite Hr in H.
    congruence.
  - destruct f; [discriminate|]. simpl in H. rewrite Hw in H. simpl in H. rewrite Hr in H.
    eapply IH; eauto.
Qed.

Lemma index_nat_lookup a l i : index_nat a l = Some i -> l !! i = Some a.
Proof.
  revert i. induction l as [|b r IH]; intros i H; [discriminate|]. simpl in H.
  destruct (b =? a) eqn:E.
  - apply Z.eqb_eq in E. injection H as <-. subst. reflexivity.
  - destruct (index_nat a r) as [j|]; [|discriminate]. injection H as <-. simpl. auto.
Qed.

Lemma index_nat_none a l : index_nat a l = None -> a ∉ l.
Proof.
  induction l as [|b r IH]; intros H; [apply not_elem_of_nil|]. simpl in H.
  destruct (b =? a) eqn:E; [discriminate|]. apply Z.eqb_neq in E.
  destruct (index_nat a r); [discriminate|].
  apply not_elem_of_cons. split; [congruence|auto].
Qed.

Lemma marks_skeleton m0 vs E : marks m0 vs E -> same_skeleton m0 E.
Proof.
  intros (_ & Hin & Hout) a.
  destruct (decide (a ∈ vs)) as [Ha|Ha].
  - apply list_elem_of_lookup in Ha as [i Hi]. destruct (Hin i a Hi) as [H0 HE].
    right. exists 0, (var_key (Z.of_nat i + 1)). auto using tag_zero, tag_var_key.
  - left. symmetry. apply Hout. exact Ha.
Qed.

Lemma marks_length m0 vs E : marks m0 vs E -> (length vs <= size m0)%nat.
Proof.
  intros (Hnd & Hin & _).
  rewrite <- size_dom. unfold size, set_size. simpl.
  apply submseteq_length. apply NoDup_submseteq; [exact Hnd|].
  intros a Ha. apply elem_of_elements, elem_of_dom.
  apply list_elem_of_lookup in Ha as [i Hi]. destruct (Hin i a Hi) as [H0 _]. eauto.
Qed.

Lemma marks_nonvar m0 vs E q w :
  marks m0 vs E -> m0 !! q = Some w -> (tag w =? TAG_VAR) = false -> E !! q = Some w.
Proof.
  intros (_ & Hin & Hout) Hw Ht. rewrite Hout; [exact Hw|].
  intros Hq. apply list_elem_of_lookup in Hq as [i Hi]. destruct (Hin i q Hi) as [H0 _].
  rewrite H0 in Hw. injection Hw as <-. vm_compute in Ht. discriminate.
Qed.

Lemma tag_of_tagex w : tag w = tagex w mod 8.
Proof.
  rewrite tag_mod, tagex_mod. symmetry. apply Z.mod_mod_divide. exists 4. reflexivity.
Qed.

Lemma functor_key_tag f : isFunctorKey f = true -> tag f = TAG_ATOM.
Proof.
  unfold isFunctorKey. intros H. apply Z.eqb_eq in H. rewrite tag_of_tagex, H. reflexivity.
Qed.

Lemma indirect_tag w : isIndirect w = true ->
  (tag w =? TAG_VAR) = false /\ (tag w =? TAG_ATTVAR) = false
  /\ (tag w =? TAG_COMPOUND) = false.
Proof.
  unfold isIndirect. intros H. apply andb_true_iff in H as [_ H].
  apply orb_true_iff in H as [H|H]; [apply orb_true_iff in H as [H|H]|];
    apply Z.eqb_eq in H; rewrite H; repeat split; reflexivity.
Qed.

Lemma wf_links_set_indirects t i : wf_links t -> wf_links (set_indirects t i).
Proof. intros H. exact H. Qed.

Lemma path_set_indirects t i n ks : path t n ks -> path (set_indirects t i) n ks.
Proof.
  intros H. eapply path_frame; [|exact H]. intros x nd Hx. exists nd. auto.
Qed.

Lemma next_P_cell f m loc k stk :
  nextTermAgenda_P f m (mkAgenda (mkANode loc (S k)) stk)
  = p ← deRef f m loc; Some (AC_CELL p, mkAgenda (mkANode (loc + 1) k) stk).
Proof. reflexivity. Qed.

Lemma next_P_pop f m loc w stk :
  nextTermAgenda_P f m (mkAgenda (mkANode loc O) (w :: stk)) = Some (AC_TERM_POP, mkAgenda w stk).
Proof. reflexivity. Qed.

Lemma loop_cell m0 fe ls lsF loc k stk n vs q :
  trie_lookup_loop fe true ls = Some lsF ->
  ls_node ls = Some n ->
  ls_agenda ls = mkAgenda (mkANode loc (S k)) stk ->
  marks m0 vs (ls_mem ls) ->
  derefs m0 loc q ->
  exists fe' ls',
    lookup_step (S fe') true ls n (mkAgenda (mkANode (loc + 1) k) stk) q = Some ls'
    /\ trie_lookup_loop fe' true ls' = Some lsF.
Proof.
  intros Hrun Hn Hag Hm Hd. destruct fe as [|fe]; [discriminate|].
  rewrite trie_lookup_loop_unfold, Hn in Hrun.
  rewrite Hag, next_P_cell in Hrun.
  destruct (deRef (S fe) (ls_mem ls) loc) as [q'|] eqn:Hq; [|discriminate].
  rewrite <- (deRef_skeleton _ _ (marks_skeleton _ _ _ Hm)) in Hq.
  apply (derefs_deRef _ _ _ Hd) in Hq. subst q'. simpl mbind in Hrun. cbv beta iota in Hrun.
  destruct (lookup_step _ _ _ _ _ _) as [ls'|] eqn:Hstep; [|discriminate].
  simpl mbind in Hrun. eauto.
Qed.

Lemma loop_failed fe ls lsF :
  trie_lookup_loop fe true ls = Some lsF -> ls_node ls = None -> success lsF -> False.
Proof.
  intros Hrun Hn [_ [x Hx]]. apply loop_node_none in Hrun; [|exact Hn]. subst lsF. congruence.
Qed.

Lemma follow_step m0 ls n vs tbl ks key r t' :
  walk_inv m0 ls n vs tbl ks ->
  follow_node (ls_trie ls) n key true = Some (r, t') ->
  forall a E' vn' comp,
    marks m0 vs E' -> vn' = Z.of_nat (length vs) ->
    match r with
    | Some n' => walk_inv m0 (mkLookup a r vn' (ls_rc ls) comp t' E') n' vs tbl (ks ++ [key])
    | None => True
    end.
Proof.
  intros (Hn & Hrc & Hm & Hvn & Hwf & Hp & Htbl) Hf a E' vn' comp Hm' Hvn'.
  destruct r as [n'|]; [|exact I].
  destruct (follow_node_path _ _ _ _ _ _ Hwf Hp Hf) as (Hwf' & Hp' & Hind).
  unfold walk_inv; simpl. rewrite Hind. auto 10.
Qed.

Lemma walk_var m0 a : Z.of_nat (size m0) < 2 ^ 56 -> walk_t m0 (SVar a).
Proof.
  intros Hsize loc fe ls lsF stk k n vs tbl ks keys vs' tbl' Hsh Hag Hinv Hrun Hsucc Henc.
  destruct Hsh as (q & w & Hd & Hw & -> & ->).
  pose proof Hinv as (Hn & Hrc & Hm & Hvn & Hwf & Hp & Htbl).
  destruct (loop_cell _ _ _ _ _ _ _ _ _ _ Hrun Hn Hag Hm Hd) as (fe' & ls' & Hstep & Hrun').
  pose proof (marks_length _ _ _ Hm) as Hlen.
  unfold lookup_step in Hstep. simpl in Henc.
  destruct (index_nat q vs) as [i|] eqn:Hidx.
  - (* met before *)
    injection Henc as <- <- <-.
    apply index_nat_lookup in Hidx as Hi.
    destruct Hm as (Hnd & Hin & Hout). destruct (Hin i q Hi) as [_ HE].
    assert (Hib : (i < length vs)%nat) by (eapply lookup_lt_Some; eauto).
    rewrite HE in Hstep. simpl mbind in Hstep. rewrite tag_var_key in Hstep.
    change (TAG_VAR =? TAG_VAR) with true in Hstep. cbv iota in Hstep.
    unfold isVar in Hstep.
    destruct (var_key (Z.of_nat i + 1) =? 0) eqn:E0.
    { apply Z.eqb_eq in E0. exfalso. revert E0. apply var_key_nonzero. lia. }
    destruct (follow_node _ _ _ _) as [[r t']|] eqn:Hf; [|discriminate].
    simpl mbind in Hstep. injection Hstep as <-.
    destruct r as [n'|]; [|exfalso; eapply loop_failed; eauto].
    exists fe'. eexists. exists n'. split; [exact Hrun'|]. split; [reflexivity|].
    apply (follow_step m0 ls n vs tbl ks _ (Some n') t' Hinv Hf); [|exact Hvn].
    exact (conj Hnd (conj Hin Hout)).
  - (* first occurrence *)
    injection Henc as <- <- <-.
    apply index_nat_none in Hidx.
    destruct Hm as (Hnd & Hin & Hout).
    assert (HE : ls_mem ls !! q = Some 0) by (rewrite Hout by exact Hidx; exact Hw).
    rewrite HE in Hstep. simpl mbind in Hstep.
    change (tag 0 =? TAG_VAR) with true in Hstep. cbv iota in Hstep.
    change (isVar 0) with true in Hstep. cbv iota in Hstep.
    assert (Hm' : marks m0 (vs ++ [q]) (<[q := var_key (Z.of_nat (length vs) + 1)]> (ls_mem ls))).
    { split; [|split].
      - apply NoDup_app. split; [exact Hnd|]. split; [|apply NoDup_singleton].
        intros x Hx Hx'. apply list_elem_of_singleton in Hx'. subst x. contradiction.
      - intros i x Hi. destruct (decide (i < length vs)%nat) as [Hlt|Hge].
        + rewrite lookup_app_l in Hi by exact Hlt. destruct (Hin i x Hi) as [H0 HEx].
          split; [exact H0|]. rewrite lookup_insert_ne; [exact HEx|].
          intros ->. apply Hidx. eapply list_elem_of_lookup_2; eauto.
        + rewrite lookup_app_r in Hi by lia.
          destruct (i - length vs)%nat as [|j] eqn:Ej; [|destruct j; discriminate].
          injection Hi as <-. split; [exact Hw|].
          assert (i = length vs) by lia. subst i. apply lookup_insert_eq.
      - intros x Hx. rewrite lookup_insert_ne.
        + apply Hout. intros Hin'. apply Hx. apply elem_of_app. left. exact Hin'.
        + intros ->. apply Hx. apply elem_of_app. right. apply list_elem_of_singleton. reflexivity. }
    pose proof (marks_length _ _ _ Hm') as Hlen'. rewrite length_app in Hlen'. simpl in Hlen'.
    rewrite Hvn in Hstep. rewrite wrap_small in Hstep by lia.
    destruct (follow_node _ _ _ _) as [[r t']|] eqn:Hf; [|discriminate].
    simpl mbind in Hstep. injection Hstep as <-.
    destruct r as [n'|]; [|exfalso; eapply loop_failed; eauto].
    exists fe'. eexists. exists n'. split; [exact Hrun'|]. split; [reflexivity|].
    assert (Hvn' : Z.of_nat (length vs) + 1 = Z.of_nat (length (vs ++ [q]))).
    { rewrite length_app. simpl. lia. }
    pose proof (follow_node_path _ _ _ _ _ _ Hwf Hp Hf) as (Hwf' & Hp' & Hind).
    unfold walk_inv; simpl. rewrite Hind.
    split; [reflexivity|]. split; [exact Hrc|]. split; [exact Hm'|].
    split; [exact Hvn'|]. split; [exact Hwf'|]. split; [exact Hp'|exact Htbl].
Qed.

Lemma walk_atomic m0 w : walk_t m0 (SAtomic w).
Proof.
  intros loc fe ls lsF stk k n vs tbl ks keys vs' tbl' Hsh Hag Hinv Hrun Hsucc Henc.
  destruct Hsh as (q & w' & Hd & Hw & -> & (Tv & Ta & Tc & Ti & Tf)).
  pose proof Hinv as (Hn & Hrc & Hm & Hvn & Hwf & Hp & Htbl).
  destruct (loop_cell _ _ _ _ _ _ _ _ _ _ Hrun Hn Hag Hm Hd) as (fe' & ls' & Hstep & Hrun').
  unfold lookup_step in Hstep. simpl in Henc. injection Henc as <- <- <-.
  rewrite (marks_nonvar _ _ _ _ _ Hm Hw Tv) in Hstep. simpl mbind in Hstep.
  rewrite Tv, Ta, Tc, Ti in Hstep. simpl negb in Hstep. cbv iota in Hstep.
  destruct (follow_node _ _ _ _) as [[r t']|] eqn:Hf; [|discriminate].
  simpl mbind in Hstep. injection Hstep as <-.
  destruct r as [n'|]; [|exfalso; eapply loop_failed; eauto].
  exists fe'. eexists. exists n'. split; [exact Hrun'|]. split; [reflexivity|].
  apply (follow_step m0 ls n vs tbl ks _ (Some n') t' Hinv Hf); [exact Hm|exact Hvn].
Qed.

Lemma walk_indirect m0 tg c : walk_t m0 (SIndirect tg c).
Proof.
  intros loc fe ls lsF stk k n vs tbl ks keys vs' tbl' Hsh Hag Hinv Hrun Hsucc Henc.
  destruct Hsh as (q & w & Hd & Hw & Hi & Htg & Hc & Hct).
  pose proof Hinv as (Hn & Hrc & Hm & Hvn & Hwf & Hp & Htbl).
  destruct (loop_cell _ _ _ _ _ _ _ _ _ _ Hrun Hn Hag Hm Hd) as (fe' & ls' & Hstep & Hrun').
  destruct (indirect_tag _ Hi) as (Tv & Ta & Tc).
  unfold lookup_step in Hstep.
  rewrite (marks_nonvar _ _ _ _ _ Hm Hw Tv) in Hstep. simpl mbind in Hstep.
  rewrite Tv, Ta, Tc, Hi in Hstep. simpl negb in Hstep. cbv iota in Hstep.
  assert (HcE : ls_mem ls !! valPtr w = Some c).
  { apply (marks_nonvar _ _ _ _ _ Hm Hc). apply Z.eqb_neq. exact Hct. }
  unfold trie_intern_indirect, intern_indirect in Hstep. rewrite HcE in Hstep.
  simpl mbind in Hstep.
  assert (Htb : match indirects (ls_trie ls) with
                | Some tb => tb
                | None => new_indirect_table
                end = tbl).
  { rewrite <- Htbl. destruct (indirects (ls_trie ls)); reflexivity. }
  rewrite Htb, Htg in Hstep. simpl in Henc.
  assert (Hgo : forall i tb' key,
    (if i =? 0
     then Some (mkLookup (mkAgenda (mkANode (loc + 1) k) stk) None (ls_var_number ls)
                  (ls_rc ls) (ls_compounds ls) (set_indirects (ls_trie ls) (Some tb'))
                  (ls_mem ls))
     else follow_node (set_indirects (ls_trie ls) (Some tb')) n i true
          ≫= λ '(n0, t'), Some (mkLookup (mkAgenda (mkANode (loc + 1) k) stk) n0
                                   (ls_var_number ls) (ls_rc ls) (ls_compounds ls) t'
                                   (ls_mem ls))) = Some ls' ->
    key = i ->
    exists fe'0 ls'0 n', trie_lookup_loop fe'0 true ls'0 = Some lsF
      /\ ls_agenda ls'0 = mkAgenda (mkANode (loc + 1) k) stk
      /\ walk_inv m0 ls'0 n' vs tb' (ks ++ [key])).
  { intros i tb' key H ->. destruct (i =? 0).
    { injection H as <-. exfalso. eapply loop_failed; eauto. }
    destruct (follow_node _ _ _ _) as [[r t']|] eqn:Hf; [|discriminate].
    simpl mbind in H. injection H as <-.
    destruct r as [n'|]; [|exfalso; eapply loop_failed; eauto].
    exists fe'. eexists. exists n'. split; [exact Hrun'|]. split; [reflexivity|].
    assert (Hwf1 : wf_links (set_indirects (ls_trie ls) (Some tb'))) by exact Hwf.
    assert (Hp1 : path (set_indirects (ls_trie ls) (Some tb')) n ks)
      by (apply path_set_indirects; exact Hp).
    destruct (follow_node_path _ _ _ _ _ _ Hwf1 Hp1 Hf) as (Hwf' & Hp' & Hind).
    unfold walk_inv; simpl. rewrite Hind. simpl.
    split; [reflexivity|]. split; [exact Hrc|]. split; [exact Hm|].
    split; [exact Hvn|]. split; [exact Hwf'|]. split; [exact Hp'|reflexivity]. }
  destruct (index_of (tg, c) tbl 0) as [i|] eqn:Hidx.
  - injection Henc as <- <- <-. simpl in Hstep. eapply Hgo; [exact Hstep|reflexivity].
  - injection Henc as <- <- <-. simpl in Hstep. eapply Hgo; [exact Hstep|reflexivity].
Qed.

Lemma walk_nil m0 : walk_l m0 SNil.
Proof.
  intros loc fe ls lsF stk k n vs tbl ks keys vs' tbl' Hsh Hag Hinv Hrun Hsucc Henc.
  simpl in Henc. injection Henc as <- <- <-.
  exists fe, ls, n. split; [exact Hrun|]. split.
  - rewrite Hag. simpl. rewrite Z.add_0_r. reflexivity.
  - rewrite app_nil_r. exact Hinv.
Qed.

Lemma walk_cons m0 s l : walk_t m0 s -> walk_l m0 l -> walk_l m0 (SCons s l).
Proof.
  intros IHs IHl loc fe ls lsF stk k n vs tbl ks keys vs' tbl' Hsh Hag Hinv Hrun Hsucc Henc.
  destruct Hsh as [Hs Hl]. simpl in Henc.
  destruct (enc vs tbl s) as [[k1 vs1] tbl1] eqn:E1.
  destruct (enc_l vs1 tbl1 l) as [[k2 vs2] tbl2] eqn:E2.
  injection Henc as <- <- <-.
  destruct (IHs loc fe ls lsF stk (slen l + k)%nat n vs tbl ks k1 vs1 tbl1 Hs Hag Hinv Hrun Hsucc E1)
    as (fe1 & ls1 & n1 & Hrun1 & Hag1 & Hinv1).
  destruct (IHl (loc + 1) fe1 ls1 lsF stk k n1 vs1 tbl1 (ks ++ k1) k2 vs2 tbl2 Hl Hag1 Hinv1
              Hrun1 Hsucc E2) as (fe2 & ls2 & n2 & Hrun2 & Hag2 & Hinv2).
  exists fe2, ls2, n2. split; [exact Hrun2|]. split.
  - rewrite Hag2. simpl slen. f_equal. f_equal. lia.
  - rewrite app_assoc. exact Hinv2.
Qed.

Lemma walk_compound m0 f args : walk_l m0 args -> walk_t m0 (SCompound f args).
Proof.
  intros IHl loc fe ls lsF stk k n vs tbl ks keys vs' tbl' Hsh Hag Hinv Hrun Hsucc Henc.
  destruct Hsh as (q & w & Hd & Hw & Htc & Hf & Hfk & Har & Hargs).
  pose proof Hinv as (Hn & Hrc & Hm & Hvn & Hwf & Hp & Htbl).
  destruct (loop_cell _ _ _ _ _ _ _ _ _ _ Hrun Hn Hag Hm Hd) as (fe' & ls' & Hstep & Hrun').
  simpl in Henc. destruct (enc_l vs tbl args) as [[k1 vs1] tbl1] eqn:E1.
  injection Henc as <- <- <-.
  assert (Tv : (tag w =? TAG_VAR) = false) by (rewrite Htc; reflexivity).
  assert (Tfv : (tag f =? TAG_VAR) = false) by (rewrite (functor_key_tag _ Hfk); reflexivity).
  unfold lookup_step in Hstep.
  rewrite (marks_nonvar _ _ _ _ _ Hm Hw Tv) in Hstep. simpl mbind in Hstep.
  rewrite Htc in Hstep.
  change (TAG_COMPOUND =? TAG_VAR) with false in Hstep.
  change (TAG_COMPOUND =? TAG_ATTVAR) with false in Hstep.
  change (TAG_COMPOUND =? TAG_COMPOUND) with true in Hstep. cbv iota in Hstep.
  rewrite (marks_nonvar _ _ _ _ _ Hm Hf Tfv) in Hstep. simpl mbind in Hstep.
  cbv beta iota zeta in Hstep. simpl andb in Hstep.
  destruct ((ls_compounds ls + 1 =? 1000) && negb (is_acyclic (ls_mem ls) q)).
  { destruct (prune_error _ _ _) as [t'|]; [|discriminate].
    simpl mbind in Hstep. injection Hstep as <-.
    exfalso. eapply loop_failed; eauto. }
  destruct (follow_node _ _ _ _) as [[r t']|] eqn:Hfol; [|discriminate].
  simpl mbind in Hstep. injection Hstep as <-.
  destruct r as [n1|]; [|exfalso; eapply loop_failed; eauto].
  pose proof (follow_step m0 ls n vs tbl ks f (Some n1) t' Hinv Hfol
                (pushWorkAgenda_P (mkAgenda (mkANode (loc + 1) k) stk) (arityFunctor f)
                   (valPtr w + 1))
                (ls_mem ls) (ls_var_number ls) (ls_compounds ls + 1) Hm Hvn) as Hinv1.
  cbv iota in Hinv1.
  match type of Hrun' with trie_lookup_loop _ _ ?st = _ => set (ls1 := st) in * end.
  assert (Hag1 : ls_agenda ls1
                 = mkAgenda (mkANode (valPtr w + 1) (slen args + 0))
                     (mkANode (loc + 1) k :: stk)).
  { unfold ls1, pushWorkAgenda_P; simpl. rewrite Har, Nat.add_0_r. reflexivity. }
  destruct (IHl (valPtr w + 1) fe' ls1 lsF (mkANode (loc + 1) k :: stk) O n1 vs tbl
              (ks ++ [f]) k1 vs1 tbl1 Hargs Hag1 Hinv1 Hrun' Hsucc E1)
    as (fe2 & ls2 & n2 & Hrun2 & Hag2 & Hinv2).
  (* the pop *)
  pose proof Hinv2 as (Hn2 & Hrc2 & Hm2 & Hvn2 & Hwf2 & Hp2 & Htbl2).
  destruct fe2 as [|fe2]; [discriminate|].
  rewrite trie_lookup_loop_unfold, Hn2, Hag2, next_P_pop in Hrun2.
  simpl mbind in Hrun2. cbv beta iota in Hrun2.
  destruct (follow_node (ls_trie ls2) n2 TRIE_KEY_POP true) as [[r3 t3]|] eqn:Hfol3;
    [|discriminate].
  simpl mbind in Hrun2.
  destruct r3 as [n3|]; [|exfalso; eapply loop_failed; eauto].
  exists fe2. eexists. exists n3. split; [exact Hrun2|]. split; [reflexivity|].
  pose proof (follow_step m0 ls2 n2 vs1 tbl1 _ _ (Some n3) t3 Hinv2 Hfol3
                (mkAgenda (mkANode (loc + 1) k) stk) (ls_mem ls2) (ls_var_number ls2)
                (ls_compounds ls2) Hm2 Hvn2) as Hinv3.
  cbv iota in Hinv3.
  replace (ks ++ f :: k1 ++ [TRIE_KEY_POP]) with (((ks ++ [f]) ++ k1) ++ [TRIE_KEY_POP]).
  - exact Hinv3.
  - rewrite <- !app_assoc. reflexivity.
Qed.

Theorem walk_all m0 : Z.of_nat (size m0) < 2 ^ 56 ->
  (forall s, walk_t m0 s) /\ (forall l, walk_l m0 l).
Proof.
  intros Hsize.
  assert (Ht : forall s, walk_t m0 s).
  { apply (shape_t_mut (walk_t m0) (walk_l m0)).
    - intros a. apply walk_var. exact Hsize.
    - apply walk_atomic.
    - apply walk_indirect.
    - intros f args IH. apply walk_compound. exact IH.
    - apply walk_nil.
    - intros s IHs l IHl. apply walk_cons; assumption. }
  split; [exact Ht|].
  apply (shape_l_mut (walk_t m0) (walk_l m0)).
  - intros a. apply walk_var. exact Hsize.
  - apply walk_atomic.
  - apply walk_indirect.
  - intros f args IH. apply walk_compound. exact IH.
  - apply walk_nil.
  - intros s IHs l IHl. apply walk_cons; assumption.
Qed.

Lemma derefs_mono m m' p q : m ⊆ m' -> derefs m p q -> derefs m' p q.
Proof.
  intros Hsub H. induction H as [p w Hw Hr|p w q Hw Hr Hd IH].
  - eapply derefs_here; [eapply lookup_weaken; eauto|exact Hr].
  - eapply derefs_ref; [eapply lookup_weaken; eauto|exact Hr|exact IH].
Qed.

Lemma shape_mono_all m m' : m ⊆ m' ->
  (forall s p, shape m p s -> shape m' p s)
  /\ (forall l p, shape_args m p l -> shape_args m' p l).
Proof.
  intros Hsub.
  assert (Ht : forall s, (fun s => forall p, shape m p s -> shape m' p s) s).
  { apply (shape_t_mut (fun s => forall p, shape m p s -> shape m' p s)
                       (fun l => forall p, shape_args m p l -> shape_args m' p l)).
    - intros a p (q & w & Hd & Hw & H). exists q, w.
      split; [eapply derefs_mono; eauto|]. split; [eapply lookup_weaken; eauto|exact H].
    - intros v p (q & w & Hd & Hw & H). exists q, w.
      split; [eapply derefs_mono; eauto|]. split; [eapply lookup_weaken; eauto|exact H].
    - intros tg c p (q & w & Hd & Hw & Hi & Htg & Hc & Hct). exists q, w.
      split; [eapply derefs_mono; eauto|]. split; [eapply lookup_weaken; eauto|].
      split; [exact Hi|]. split; [exact Htg|]. split; [eapply lookup_weaken; eauto|exact Hct].
    - intros f args IH p (q & w & Hd & Hw & Ht & Hf & Hfk & Har & Hargs). exists q, w.
      split; [eapply derefs_mono; eauto|]. split; [eapply lookup_weaken; eauto|].
      split; [exact Ht|]. split; [eapply lookup_weaken; eauto|].
      split; [exact Hfk|]. split; [exact Har|]. apply IH. exact Hargs.
    - intros p _. exact I.
    - intros s IHs l IHl p [Hs Hl]. split; [apply IHs; exact Hs|apply IHl; exact Hl]. }
  split; [exact Ht|].
  induction l as [|s l IH]; intros p H; [exact I|].
  destruct H as [Hs Hl]. split; [apply Ht; exact Hs|apply IH; exact Hl].
Qed.

Lemma derefs_end m p q : derefs m p q -> exists w, m !! q = Some w /\ isRef w = false.
Proof. induction 1 as [p w Hw Hr|p w q Hw Hr Hd IH]; [eauto|exact IH]. Qed.

Lemma shape_good_all m :
  (forall s p, shape m p s -> good s) /\ (forall l p, shape_args m p l -> good_l l).
Proof.
  assert (Ht : forall s, (fun s => forall p, shape m p s -> good s) s).
  { apply (shape_t_mut (fun s => forall p, shape m p s -> good s)
                       (fun l => forall p, shape_args m p l -> good_l l)).
    - intros; exact I.
    - intros v p (q & w & Hd & Hw & -> & H). split; [exact H|].
      destruct (derefs_end _ _ _ Hd) as (w' & Hw' & Hr). congruence.
    - intros tg c p (q & w & Hd & Hw & Hi & Htg & Hc & Hct). split; [|exact Hct].
      unfold isIndirect in Hi. apply andb_true_iff in Hi as [_ Hi]. subst tg.
      apply orb_true_iff in Hi as [Hi|Hi]; [apply orb_true_iff in Hi as [Hi|Hi]|];
        apply Z.eqb_eq in Hi; unfold indirect_tag_ok; auto.
    - intros f args IH p (q & w & Hd & Hw & Ht & Hf & Hfk & Har & Hargs).
      split; [exact Hfk|]. split; [exact Har|]. eapply IH; eauto.
    - intros; exact I.
    - intros s IHs l IHl p [Hs Hl]. split; [eapply IHs; eauto|eapply IHl; eauto]. }
  split; [exact Ht|].
  induction l as [|s l IH]; intros p H; [exact I|].
  destruct H as [Hs Hl]. split; [eapply Ht; eauto|eapply IH; eauto].
Qed.

Lemma index_nat_app a l b :
  index_nat a (l ++ [b]) =
    match index_nat a l with
    | Some i => Some i
    | None => if b =? a then Some (length l) else None
    end.
Proof.
  induction l as [|c r IH]; simpl.
  - destruct (b =? a); reflexivity.
  - destruct (c =? a); [reflexivity|]. rewrite IH.
    destruct (index_nat a r); [reflexivity|]. destruct (b =? a); reflexivity.
Qed.

Lemma index_nat_prefix a l1 l2 i :
  l1 `prefix_of` l2 -> index_nat a l1 = Some i -> index_nat a l2 = Some i.
Proof.
  intros [k ->]. revert i. induction l1 as [|c r IH]; intros i H; [discriminate|].
  simpl in *. destruct (c =? a); [exact H|].
  destruct (index_nat a r) as [j|]; [|discriminate]. rewrite (IH j eq_refl). exact H.
Qed.

Lemma index_nat_elem a l : a ∈ l -> is_Some (index_nat a l).
Proof.
  intros H. destruct (index_nat a l) eqn:E; [eauto|].
  apply index_nat_none in E. contradiction.
Qed.

Lemma enc_facts_all :
  (forall s vs tbl keys vs' tbl', enc vs tbl s = (keys, vs', tbl') ->
     vs `prefix_of` vs' /\ tbl `prefix_of` tbl'
     /\ (forall a, a ∈ vars_of s -> a ∈ vs')
     /\ (NoDup vs -> NoDup vs'))
  /\ (forall l vs tbl keys vs' tbl', enc_l vs tbl l = (keys, vs', tbl') ->
     vs `prefix_of` vs' /\ tbl `prefix_of` tbl'
     /\ (forall a, a ∈ vars_of_l l -> a ∈ vs')
     /\ (NoDup vs -> NoDup vs')).
Proof.
  set (P := fun s => forall vs tbl keys vs' tbl', enc vs tbl s = (keys, vs', tbl') ->
     vs `prefix_of` vs' /\ tbl `prefix_of` tbl'
     /\ (forall a, a ∈ vars_of s -> a ∈ vs')
     /\ (NoDup vs -> NoDup vs')).
  set (P0 := fun l => forall vs tbl keys vs' tbl', enc_l vs tbl l = (keys, vs', tbl') ->
     vs `prefix_of` vs' /\ tbl `prefix_of` tbl'
     /\ (forall a, a ∈ vars_of_l l -> a ∈ vs')
     /\ (NoDup vs -> NoDup vs')).
  assert (Hvar : forall a, P (SVar a)).
  { intros a vs tbl keys vs' tbl' H. simpl in H.
    destruct (index_nat a vs) as [i|] eqn:E; injection H as <- <- <-.
    - split; [reflexivity|]. split; [reflexivity|]. split; [|auto].
      intros x Hx. apply list_elem_of_singleton in Hx. subst x.
      eapply list_elem_of_lookup_2. apply index_nat_lookup. exact E.
    - split; [apply prefix_app_r; reflexivity|]. split; [reflexivity|]. split.
      + intros x Hx. apply list_elem_of_singleton in Hx. subst x.
        apply elem_of_app. right. apply list_elem_of_singleton. reflexivity.
      + intros Hnd. apply NoDup_app. split; [exact Hnd|]. split; [|apply NoDup_singleton].
        intros x Hx Hx'. apply list_elem_of_singleton in Hx'. subst x.
        apply index_nat_none in E. contradiction. }
  assert (Hat : forall w, P (SAtomic w)).
  { intros w vs tbl keys vs' tbl' H. simpl in H. injection H as <- <- <-.
    split; [reflexivity|]. split; [reflexivity|]. split; [|auto].
    intros x Hx. apply elem_of_nil in Hx. contradiction. }
  assert (Hin : forall tg c, P (SIndirect tg c)).
  { intros tg c vs tbl keys vs' tbl' H. simpl in H.
    destruct (index_of (tg, c) tbl 0); injection H as <- <- <-.
    - split; [reflexivity|]. split; [reflexivity|]. split; [|auto].
      intros x Hx. apply elem_of_nil in Hx. contradiction.
    - split; [reflexivity|]. split; [apply prefix_app_r; reflexivity|]. split; [|auto].
      intros x Hx. apply elem_of_nil in Hx. contradiction. }
  assert (Hcmp : forall f args, P0 args -> P (SCompound f args)).
  { intros f args IH vs tbl keys vs' tbl' H. simpl in H.
    destruct (enc_l vs tbl args) as [[k1 vs1] tbl1] eqn:E. injection H as <- <- <-.
    exact (IH _ _ _ _ _ E). }
  assert (Hnil : P0 SNil).
  { intros vs tbl keys vs' tbl' H. simpl in H. injection H as <- <- <-.
    split; [reflexivity|]. split; [reflexivity|]. split; [|auto].
    intros x Hx. apply elem_of_nil in Hx. contradiction. }
  assert (Hcons : forall s, P s -> forall l, P0 l -> P0 (SCons s l)).
  { intros s IHs l IHl vs tbl keys vs' tbl' H. simpl in H.
    destruct (enc vs tbl s) as [[k1 vs1] tbl1] eqn:E1.
    destruct (enc_l vs1 tbl1 l) as [[k2 vs2] tbl2] eqn:E2. injection H as <- <- <-.
    destruct (IHs _ _ _ _ _ E1) as (Hp1 & Ht1 & Hv1 & Hn1).
    destruct (IHl _ _ _ _ _ E2) as (Hp2 & Ht2 & Hv2 & Hn2).
    split; [etransitivity; eauto|]. split; [etransitivity; eauto|]. split; [|auto].
    intros x Hx. simpl in Hx. apply elem_of_app in Hx as [Hx|Hx].
    - destruct Hp2 as [k ->]. apply elem_of_app. left. auto.
    - auto. }
  split.
  - apply (shape_t_mut P P0); assumption.
  - apply (shape_l_mut P P0); assumption.
Qed.

Lemma var_image_ext vs1 rs1 vs2 rs2 a :
  vs1 `prefix_of` vs2 -> rs1 `prefix_of` rs2 -> length rs1 = length vs1 -> a ∈ vs1 ->
  var_image vs2 rs2 a = var_image vs1 rs1 a.
Proof.
  intros Hv Hr Hlen Ha. unfold var_image.
  destruct (index_nat_elem _ _ Ha) as [i Hi].
  rewrite Hi, (index_nat_prefix _ _ _ _ Hv Hi). simpl.
  apply index_nat_lookup in Hi. apply lookup_lt_Some in Hi.
  destruct Hr as [k ->]. rewrite lookup_app_l by lia. reflexivity.
Qed.

Lemma rename_ext_all r1 r2 :
  (forall s, (forall a, a ∈ vars_of s -> r1 a = r2 a) -> rename r1 s = rename r2 s)
  /\ (forall l, (forall a, a ∈ vars_of_l l -> r1 a = r2 a) -> rename_l r1 l = rename_l r2 l).
Proof.
  set (P := fun s => (forall a, a ∈ vars_of s -> r1 a = r2 a) -> rename r1 s = rename r2 s).
  set (P0 := fun l => (forall a, a ∈ vars_of_l l -> r1 a = r2 a)
                      -> rename_l r1 l = rename_l r2 l).
  assert (H1 : forall a, P (SVar a)).
  { intros a H. simpl. f_equal. apply H. simpl. apply list_elem_of_singleton. reflexivity. }
  assert (H2 : forall w, P (SAtomic w)) by (intros w H; reflexivity).
  assert (H3 : forall tg c, P (SIndirect tg c)) by (intros tg c H; reflexivity).
  assert (H4 : forall f args, P0 args -> P (SCompound f args)).
  { intros f args IH H. simpl. f_equal. apply IH. exact H. }
  assert (H5 : P0 SNil) by (intros H; reflexivity).
  assert (H6 : forall s, P s -> forall l, P0 l -> P0 (SCons s l)).
  { intros s IHs l IHl H. simpl. f_equal.
    - apply IHs. intros a Ha. apply H. simpl. apply elem_of_app. auto.
    - apply IHl. intros a Ha. apply H. simpl. apply elem_of_app. auto. }
  split.
  - apply (shape_t_mut P P0); assumption.
  - apply (shape_l_mut P P0); assumption.
Qed.

Lemma index_of_lookup (c : Z * word) tbl : forall i0 i,
  index_of c tbl i0 = Some i ->
  i0 <= i < i0 + Z.of_nat (length tbl) /\ tbl !! Z.to_nat (i - i0) = Some c.
Proof.
  induction tbl as [|e r IH]; intros i0 i H; [discriminate|]. simpl in H.
  destruct (bool_decide (e = c)) eqn:E.
  - apply bool_decide_eq_true in E. injection H as <-. subst e.
    rewrite Z.sub_diag. simpl. split; [lia|reflexivity].
  - apply IH in H as [Hr Hl]. split; [simpl; lia|].
    replace (Z.to_nat (i - i0)) with (S (Z.to_nat (i - (i0 + 1)))) by lia. exact Hl.
Qed.

Lemma storage_of_tagex w : storage w = Z.land (tagex w) 24.
Proof.
  unfold storage, tagex. change (Z.lor TAG_MASK STG_MASK) with 31. change STG_MASK with 24.
  rewrite <- Z.land_assoc. reflexivity.
Qed.

Lemma pop_not_functor : isFunctorKey TRIE_KEY_POP = false.
Proof. reflexivity. Qed.

Lemma functor_not_pop f : isFunctorKey f = true -> (f =? TRIE_KEY_POP) = false.
Proof.
  intros H. apply Z.eqb_neq. intros ->. rewrite pop_not_functor in H. discriminate.
Qed.

Lemma var_key_not_functor i : isFunctorKey (var_key i) = false.
Proof. unfold isFunctorKey. rewrite tagex_var_key. reflexivity. Qed.

Lemma tag_not_pop w : (tag w =? TAG_VAR) = false -> (w =? TRIE_KEY_POP) = false.
Proof. intros H. apply Z.eqb_neq. intros ->. vm_compute in H. discriminate. Qed.

Lemma surrogate_facts tg i : indirect_tag_ok tg -> 0 <= i < 2 ^ 56 ->
  let key := indirect_surrogate tg i in
  (key =? TRIE_KEY_POP) = false /\ isFunctorKey key = false
  /\ (tag key =? TAG_VAR) = false /\ isIndirect key = true /\ valPtr key - 1 = i.
Proof.
  intros Htg Hi key. subst key. unfold indirect_surrogate.
  assert (Hts : 0 <= Z.lor tg STG_GLOBAL < 128 /\ Z.lor tg STG_GLOBAL mod 32 = tg + 8
                /\ Z.lor tg STG_GLOBAL mod 8 = tg /\ 2 <= tg <= 4).
  { destruct Htg as [-> | [-> | ->]]; vm_compute; repeat split; congruence. }
  destruct Hts as (Hr & H32 & H8 & Hb).
  assert (Htag : tag (consPtr (i + 1) (Z.lor tg STG_GLOBAL)) = tg).
  { rewrite tag_consPtr by lia. exact H8. }
  assert (Htx : tagex (consPtr (i + 1) (Z.lor tg STG_GLOBAL)) = tg + 8).
  { rewrite storage_consPtr by lia. exact H32. }
  assert (Hnv : (tag (consPtr (i + 1) (Z.lor tg STG_GLOBAL)) =? TAG_VAR) = false).
  { rewrite Htag. apply Z.eqb_neq. unfold TAG_VAR. lia. }
  split; [apply tag_not_pop; exact Hnv|].
  split; [unfold isFunctorKey; rewrite Htx; apply Z.eqb_neq;
          change (Z.lor TAG_ATOM STG_GLOBAL) with 13; lia|].
  split; [exact Hnv|].
  split.
  - unfold isIndirect. rewrite storage_of_tagex, Htx, Htag.
    destruct Htg as [-> | [-> | ->]]; reflexivity.
  - rewrite valPtr_consPtr by lia. lia.
Qed.

Lemma global_word_facts a tg : indirect_tag_ok tg -> 0 <= a < 2 ^ 57 ->
  let w := consPtr a (Z.lor tg STG_GLOBAL) in
  (w =? 0) = false /\ isRef w = false /\ isIndirect w = true /\ tag w = tg /\ valPtr w = a.
Proof.
  intros Htg Ha w. subst w.
  assert (Hts : 0 <= Z.lor tg STG_GLOBAL < 128 /\ Z.lor tg STG_GLOBAL mod 32 = tg + 8
                /\ Z.lor tg STG_GLOBAL mod 8 = tg /\ 2 <= tg <= 4).
  { destruct Htg as [-> | [-> | ->]]; vm_compute; repeat split; congruence. }
  destruct Hts as (Hr & H32 & H8 & Hb).
  assert (Htag : tag (consPtr a (Z.lor tg STG_GLOBAL)) = tg).
  { rewrite tag_consPtr by lia. exact H8. }
  assert (Htx : tagex (consPtr a (Z.lor tg STG_GLOBAL)) = tg + 8).
  { rewrite storage_consPtr by lia. exact H32. }
  split; [apply Z.eqb_neq; intros H0; rewrite H0 in Htag; vm_compute in Htag; lia|].
  split; [unfold isRef; rewrite Htag; apply Z.eqb_neq; unfold TAG_REFERENCE; lia|].
  split.
  - unfold isIndirect. rewrite storage_of_tagex, Htx, Htag.
    destruct Htg as [-> | [-> | ->]]; reflexivity.
  - split; [exact Htag|]. apply valPtr_consPtr; lia.
Qed.

Lemma small_tags :
  0 <= Z.lor TAG_COMPOUND STG_GLOBAL < 128 /\ 0 <= Z.lor TAG_REFERENCE STG_GLOBAL < 128.
Proof. vm_compute. repeat split; congruence. Qed.

Lemma compound_word_facts t : 0 <= t < 2 ^ 57 ->
  let w := consPtr t (Z.lor TAG_COMPOUND STG_GLOBAL) in
  isRef w = false /\ tag w = TAG_COMPOUND /\ valPtr w = t.
Proof.
  intros Ht w. subst w. destruct small_tags as [Hc _].
  assert (Htag : tag (consPtr t (Z.lor TAG_COMPOUND STG_GLOBAL)) = TAG_COMPOUND).
  { rewrite tag_consPtr by assumption. reflexivity. }
  split; [unfold isRef; rewrite Htag; reflexivity|].
  split; [exact Htag|]. apply valPtr_consPtr; assumption.
Qed.

Lemma ref_word_facts a : 0 <= a < 2 ^ 57 ->
  isRef (makeRefG a) = true /\ unRef (makeRefG a) = a.
Proof.
  intros Ha. unfold makeRefG, unRef. destruct small_tags as [_ Hr].
  split.
  - unfold isRef. rewrite tag_consPtr by assumption. reflexivity.
  - apply valPtr_consPtr; assumption.
Qed.

Lemma cells_nonneg_all : (forall s, 0 <= cells s) /\ (forall l, 0 <= cells_l l).
Proof.
  assert (Ht : forall s, 0 <= cells s).
  { apply (shape_t_mut (fun s => 0 <= cells s) (fun l => 0 <= cells_l l)); simpl; intros; lia. }
  split; [exact Ht|]. induction l as [|s l IH]; simpl; [lia|]. specialize (Ht s). lia.
Qed.

Lemma dec_inv_write st p w : dec_inv st -> p < gTop st -> dec_inv (write_cell st p w).
Proof.
  intros (H0 & H1 & H2 & H3) Hp. split; [exact H0|]. split; [exact H1|]. split; [exact H2|].
  intros a Ha. simpl in *. rewrite lookup_insert_ne by lia. apply H3. exact Ha.
Qed.

Lemma var_inv_write us st rs p w :
  var_inv us st rs -> s_mem st !! p = None -> var_inv us (write_cell st p w) rs.
Proof.
  intros (H0 & H1 & H2) Hp. split; [exact H0|]. split; [exact H1|].
  intros i a Hi. destruct (H2 i a Hi) as (Hv & Hm & Hb). split; [exact Hv|]. split; [|exact Hb].
  simpl. rewrite lookup_insert_ne; [exact Hm|]. intros ->. congruence.
Qed.

Lemma var_inv_us us us' st rs :
  us_max_var_seen us' = us_max_var_seen us -> us_vars us' = us_vars us ->
  var_inv us st rs -> var_inv us' st rs.
Proof.
  intros Hm Hv (H0 & H1 & H2). split; [congruence|]. split; [exact H1|].
  intros i a Hi. rewrite Hv. exact (H2 i a Hi).
Qed.

Lemma var_inv_mem us st st' rs :
  (forall a, s_mem st !! a = Some 0 -> s_mem st' !! a = Some 0) ->
  var_inv us st rs -> var_inv us st' rs.
Proof.
  intros Hm (H0 & H1 & H2). split; [exact H0|]. split; [exact H1|].
  intros i a Hi. destruct (H2 i a Hi) as (Hv & Hc & Hb). auto.
Qed.

Lemma dec_step_sub st rs p n c vs' us' st' rs' :
  dec_step st rs p n c vs' us' st' rs' -> dec_inv st ->
  (forall j, 0 <= j < n -> s_mem st !! (p + j) = None) ->
  s_mem st ⊆ s_mem st'.
Proof.
  intros (_ & _ & _ & _ & _ & _ & _ & _ & _ & _ & _ & Hfr) (_ & _ & _ & Hfree) Hnone.
  apply map_subseteq_spec. intros a w Hw.
  destruct (Z_lt_dec a (gTop st)) as [Hlt|Hge].
  - rewrite Hfr; [exact Hw| |exact Hlt].
    destruct (Z_lt_dec a p) as [|Hp]; [left; assumption|].
    destruct (Z_le_dec (p + n) a) as [|Hq]; [right; assumption|].
    exfalso. assert (Hn : s_mem st !! (p + (a - p)) = None) by (apply Hnone; lia).
    replace (p + (a - p)) with a in Hn by lia. congruence.
  - rewrite Hfree in Hw by lia. discriminate.
Qed.

Lemma find_var_first us n :
  us_max_var_seen us = Z.of_nat n ->
  find_var us (Z.of_nat n + 1)
  = Some (None, mkUkey (us_ptr us) (us_umode us) (Z.of_nat n + 1)
                       (delete (Z.of_nat n + 1) (us_vars us))).
Proof.
  intros H. unfold find_var. rewrite H.
  replace (Z.of_nat n + 1 >? Z.of_nat n) with true by (symmetry; apply Z.gtb_lt; lia).
  rewrite Z.eqb_refl. reflexivity.
Qed.

Lemma find_var_seen us st rs i a :
  var_inv us st rs -> rs !! i = Some a ->
  find_var us (Z.of_nat i + 1) = Some (Some a, us).
Proof.
  intros (H0 & _ & H2) Hi. unfold find_var. rewrite H0.
  apply lookup_lt_Some in Hi as Hlt.
  replace (Z.of_nat i + 1 >? Z.of_nat (length rs)) with false
    by (symmetry; rewrite Z.gtb_ltb; apply Z.ltb_ge; lia).
  destruct (H2 i a Hi) as [-> _]. reflexivity.
Qed.

Lemma var_image_new vs rs a p :
  index_nat a vs = None -> length rs = length vs ->
  var_image (vs ++ [a]) (rs ++ [p]) a = p.
Proof.
  intros Hi Hl. unfold var_image. rewrite index_nat_app, Hi, Z.eqb_refl. simpl.
  rewrite <- Hl. rewrite lookup_app_r by lia. rewrite Nat.sub_diag. reflexivity.
Qed.

Lemma var_image_old vs rs a i a' :
  index_nat a vs = Some i -> rs !! i = Some a' -> var_image vs rs a = a'.
Proof. intros Hi Hr. unfold var_image. rewrite Hi. simpl. rewrite Hr. reflexivity. Qed.

Lemma shape_var m p : m !! p = Some 0 -> shape m p (SVar p).
Proof.
  intros H. exists p, 0. split; [|auto]. apply (derefs_here m p 0 H). reflexivity.
Qed.

Lemma shape_var_ref m p a :
  0 <= a < 2 ^ 57 -> m !! p = Some (makeRefG a) -> m !! a = Some 0 -> shape m p (SVar a).
Proof.
  intros Ha Hp H0. destruct (ref_word_facts a Ha) as [Hr Hu].
  exists a, 0. split; [|auto].
  apply (derefs_ref m p _ a Hp Hr). rewrite Hu. apply (derefs_here m a 0 H0). reflexivity.
Qed.

Section Decode.

Variable U : stacks -> Z -> Z -> option (Z * stacks).

Variable A : stacks -> Z -> word -> option stacks.

Lemma replay_cons fuel tr us st key rest us' st' :
  unify_key U A fuel tr us st key = Some (TRUE, us', st') ->
  replay_keys U A fuel tr us st (key :: rest) = replay_keys U A fuel tr us' st' rest.
Proof. intros H. cbn [replay_keys]. rewrite H. reflexivity. Qed.

Lemma ukey_var fuel tr us st i :
  0 <= i < 2 ^ 56 -> us_umode us = uwrite ->
  unify_key U A fuel tr us st (var_key i)
  = '(v, us1) ← find_var us i;
    match v with
    | None => Some (TRUE, set_ptr (set_var_slot us1 i (us_ptr us1)) (us_ptr us1 + 1),
                    write_cell st (us_ptr us1) 0)
    | Some a => Some (TRUE, set_ptr us1 (us_ptr us1 + 1),
                      write_cell st (us_ptr us1) (makeRefG a))
    end.
Proof.
  intros Hi Hm. unfold unify_key.
  replace (var_key i =? TRIE_KEY_POP) with false
    by (symmetry; apply Z.eqb_neq, var_key_pop; exact Hi).
  rewrite Hm. simpl mbind. rewrite var_key_not_functor, tag_var_key.
  change (TAG_VAR =? TAG_VAR) with true. cbv iota.
  rewrite shiftr_var_key by lia.
  unfold find_var.
  destruct (i >? us_max_var_seen us); [destruct (i =? us_max_var_seen us + 1)|];
    simpl; try rewrite Hm; try reflexivity.
Qed.

Lemma dec_var tr a : dec_t U A tr (SVar a).
Proof.
  intros fuel vs tbl keys vs' tbl' rest us st rs p Henc Hg Htbl Hlt Hlv Hlen Hmode Hptr
         Hdi Hvi Hnone Hp Hroom.
  simpl in Henc. destruct (index_nat a vs) as [i|] eqn:Hidx; injection Henc as <- <- <-.
  - apply index_nat_lookup in Hidx as Hi. apply lookup_lt_Some in Hi as Hib.
    destruct (lookup_lt_is_Some_2 rs i) as [a' Ha']; [lia|].
    pose proof Hvi as (Hmax & Hnd & Hall). destruct (Hall i a' Ha') as (Hva & Hma & Hba).
    exists (set_ptr us (p + 1)), (write_cell st p (makeRefG a')), rs.
    split; [|split].
    + simpl app. apply replay_cons. rewrite ukey_var by (try assumption; lia).
      rewrite (find_var_seen us st rs i a' Hvi Ha'). simpl. rewrite Hptr. reflexivity.
    + split; [exact Hmode|]. split; [reflexivity|].
      split; [apply dec_inv_write; [exact Hdi|lia]|].
      split; [simpl; lia|]. split; [reflexivity|]. split; [reflexivity|].
      split; [reflexivity|]. split; [reflexivity|].
      split; [apply var_inv_write; [|exact Hnone];
              apply (var_inv_us us); [reflexivity|reflexivity|exact Hvi]|].
      split; [reflexivity|]. split; [exact Hlen|].
      intros x Hx _. simpl. apply lookup_insert_ne. lia.
    + simpl rename. rewrite (var_image_old _ _ _ _ _ Hidx Ha').
      apply shape_var_ref; [exact Hba|simpl; apply lookup_insert_eq|].
      simpl. rewrite lookup_insert_ne; [exact Hma|]. intros <-. congruence.
  - pose proof Hvi as (Hmax & Hnd & Hall).
    rewrite length_app in Hlv. simpl in Hlv.
    set (idx := Z.of_nat (length vs) + 1).
    exists (set_ptr (set_var_slot (mkUkey p uwrite idx (delete idx (us_vars us))) idx p) (p + 1)),
           (write_cell st p 0), (rs ++ [p]).
    split; [|split].
    + subst idx. simpl app. apply replay_cons. rewrite ukey_var by (try assumption; lia).
      rewrite <- Hlen. rewrite (find_var_first us (length rs) Hmax). simpl.
      rewrite Hptr, Hmode. reflexivity.
    + split; [reflexivity|]. split; [reflexivity|].
      split; [apply dec_inv_write; [exact Hdi|lia]|].
      split; [simpl; lia|]. split; [reflexivity|]. split; [reflexivity|].
      split; [reflexivity|]. split; [reflexivity|].
      split.
      { split; [simpl; rewrite length_app; simpl; subst idx; lia|].
        split.
        - apply NoDup_app. split; [exact Hnd|]. split; [|apply NoDup_singleton].
          intros x Hx Hx'. apply list_elem_of_singleton in Hx'. subst x.
          apply list_elem_of_lookup in Hx as [j Hj]. destruct (Hall j p Hj) as (_ & Hc & _).
          congruence.
        - intros j x Hj. simpl.
          destruct (decide (j < length rs)%nat) as [Hlt'|Hge].
          + rewrite lookup_app_l in Hj by lia. destruct (Hall j x Hj) as (Hv & Hc & Hb).
            split; [|split; [|exact Hb]].
            * rewrite lookup_insert_ne by (subst idx; lia).
              rewrite lookup_delete_ne by (subst idx; lia). exact Hv.
            * rewrite lookup_insert_ne; [exact Hc|]. intros <-. congruence.
          + rewrite lookup_app_r in Hj by lia.
            destruct (j - length rs)%nat as [|k] eqn:Hk; [|destruct k; discriminate].
            simpl in Hj. injection Hj as <-.
            assert (j = length rs) by lia. subst j.
            split; [|split].
            * subst idx. rewrite Hlen. apply lookup_insert_eq.
            * apply lookup_insert_eq.
            * destruct Hdi as (? & ? & ? & _). lia. }
      split; [apply prefix_app_r; reflexivity|].
      split; [rewrite !length_app; simpl; lia|].
      intros x Hx _. simpl. apply lookup_insert_ne. lia.
    + simpl rename. rewrite (var_image_new _ _ _ _ Hidx Hlen).
      apply shape_var. simpl. apply lookup_insert_eq.
Qed.

Lemma ukey_plain fuel tr us st key :
  (key =? TRIE_KEY_POP) = false -> isFunctorKey key = false -> (tag key =? TAG_VAR) = false ->
  us_umode us = uwrite ->
  unify_key U A fuel tr us st key
  = '(w, st1) ← (if isIndirect key
                 then extern_indirect_no_shift (indirects tr) st key
                 else Some (key, st));
    if isIndirect key && (w =? 0) then Some (GLOBAL_OVERFLOW, us, st1)
    else Some (TRUE, set_ptr us (us_ptr us + 1), write_cell st1 (us_ptr us) w).
Proof.
  intros Hp Hf Hv Hm. unfold unify_key. rewrite Hp, Hm. simpl mbind. rewrite Hf, Hv.
  reflexivity.
Qed.

Lemma ukey_functor fuel tr us st f :
  isFunctorKey f = true -> us_umode us = uwrite ->
  unify_key U A fuel tr us st f
  = match allocGlobalNoShift (pushArgumentStack st (us_ptr us + 1, uwrite))
                             (Z.of_nat (arityFunctor f) + 1) with
    | Some (t, st2) =>
        Some (TRUE, set_ptr us (t + 1),
              write_cell (write_cell st2 t f) (us_ptr us)
                         (consPtr t (Z.lor TAG_COMPOUND STG_GLOBAL)))
    | None => Some (GLOBAL_OVERFLOW, us, pushArgumentStack st (us_ptr us + 1, uwrite))
    end.
Proof.
  intros Hf Hm. unfold unify_key. rewrite (functor_not_pop f Hf), Hm. simpl mbind.
  rewrite Hf. reflexivity.
Qed.

Lemma ukey_pop fuel tr us st ptr mode rest :
  aStack st = (ptr, mode) :: rest ->
  unify_key U A fuel tr us st TRIE_KEY_POP
  = Some (TRUE, set_umode (set_ptr us ptr) mode, set_aStack st rest).
Proof. intros H. unfold unify_key. rewrite Z.eqb_refl, H. reflexivity. Qed.

Lemma dec_atomic tr w : dec_t U A tr (SAtomic w).
Proof.
  intros fuel vs tbl keys vs' tbl' rest us st rs p Henc Hg Htbl Hlt Hlv Hlen Hmode Hptr
         Hdi Hvi Hnone Hp Hroom.
  simpl in Henc. injection Henc as <- <- <-.
  destruct Hg as [(Tv & Ta & Tc & Ti & Tf) Hr].
  exists (set_ptr us (p + 1)), (write_cell st p w), rs.
  split; [|split].
  - simpl app. apply replay_cons.
    rewrite ukey_plain by (try assumption; apply tag_not_pop; assumption).
    rewrite Ti. simpl. rewrite Hptr. reflexivity.
  - split; [exact Hmode|]. split; [reflexivity|].
    split; [apply dec_inv_write; [exact Hdi|lia]|].
    split; [simpl; lia|]. split; [reflexivity|]. split; [reflexivity|].
    split; [reflexivity|]. split; [reflexivity|].
    split; [apply var_inv_write; [|exact Hnone];
            apply (var_inv_us us); [reflexivity|reflexivity|exact Hvi]|].
    split; [reflexivity|]. split; [exact Hlen|].
    intros x Hx _. simpl. apply lookup_insert_ne. lia.
  - simpl rename. exists p, w.
    assert (Hw : s_mem (write_cell st p w) !! p = Some w) by (simpl; apply lookup_insert_eq).
    split; [apply (derefs_here _ p w Hw Hr)|]. split; [exact Hw|].
    split; [reflexivity|]. repeat split; assumption.
Qed.

Lemma table_lookup tr tbl' i e :
  tbl' `prefix_of` default [] (indirects tr) -> tbl' !! i = Some e ->
  exists tb, indirects tr = Some tb /\ tb !! i = Some e.
Proof.
  intros [k Hk] Hi. destruct (indirects tr) as [tb|]; simpl in Hk.
  - exists tb. split; [reflexivity|]. rewrite Hk. apply lookup_app_l_Some. exact Hi.
  - symmetry in Hk. apply app_eq_nil in Hk as [-> _]. discriminate.
Qed.

Lemma dec_indirect tr tg c : dec_t U A tr (SIndirect tg c).
Proof.
  intros fuel vs tbl keys vs' tbl' rest us st rs p Henc Hg Htbl Hlt Hlv Hlen Hmode Hptr
         Hdi Hvi Hnone Hp Hroom.
  destruct Hg as [Htg Hct]. simpl in Hroom.
  assert (Hkey : exists i, keys = [indirect_surrogate tg (Z.of_nat i)] /\ vs' = vs
                           /\ tbl' !! i = Some (tg, c)).
  { simpl in Henc. destruct (index_of (tg, c) tbl 0) as [i|] eqn:Hidx; injection Henc as <- <- <-.
    - apply index_of_lookup in Hidx as [Hr Hl]. exists (Z.to_nat i).
      rewrite Z2Nat.id by lia. rewrite Z.sub_0_r in Hl. auto.
    - exists (length tbl). split; [reflexivity|]. split; [reflexivity|].
      apply list_lookup_middle. reflexivity. }
  destruct Hkey as (i & -> & -> & Hi).
  apply lookup_lt_Some in Hi as Hib.
  destruct (table_lookup _ _ _ _ Htbl Hi) as (tb & Htb & Htbi).
  destruct (surrogate_facts tg (Z.of_nat i) Htg) as (Kp & Kf & Kv & Ki & Kval); [lia|].
  pose proof Hdi as (G0 & G1 & G2 & Gfree).
  destruct (global_word_facts (gTop st) tg Htg) as (W0 & Wr & Wi & Wt & Wv); [lia|].
  set (w := consPtr (gTop st) (Z.lor tg STG_GLOBAL)) in *.
  set (st1 := mkStacks (s_mem st) (gTop st + 1) (gMax st) (aStack st) (trail st) (tMax st)).
  exists (set_ptr us (p + 1)), (write_cell (write_cell st1 (gTop st) c) p w), rs.
  split; [|split].
  - simpl app. apply replay_cons. rewrite ukey_plain by assumption.
    rewrite Ki. unfold extern_indirect_no_shift. rewrite Htb. simpl mbind.
    rewrite Kval, Nat2Z.id, Htbi. simpl mbind. unfold allocGlobalNoShift.
    replace (gTop st + 1 <=? gMax st) with true by (symmetry; apply Z.leb_le; lia).
    cbv beta iota zeta. simpl mbind. fold st1. fold w. rewrite W0. rewrite Hptr. reflexivity.
  - split; [exact Hmode|]. split; [reflexivity|].
    split.
    { split; [simpl; lia|]. split; [simpl; lia|]. split; [exact G2|].
      intros a Ha. simpl in *. rewrite !lookup_insert_ne by lia. apply Gfree. lia. }
    split; [reflexivity|]. split; [reflexivity|]. split; [reflexivity|].
    split; [reflexivity|]. split; [reflexivity|].
    split.
    { apply (var_inv_us us); [reflexivity|reflexivity|].
      apply (var_inv_mem us st); [|exact Hvi].
      intros a Ha. simpl. rewrite !lookup_insert_ne; [exact Ha| |].
      - intros <-. rewrite Gfree in Ha by lia. discriminate.
      - intros <-. congruence. }
    split; [reflexivity|]. split; [exact Hlen|].
    intros x Hx Hx'. simpl. rewrite !lookup_insert_ne by lia. reflexivity.
  - simpl rename. exists p, w.
    assert (Hw : s_mem (write_cell (write_cell st1 (gTop st) c) p w) !! p = Some w)
      by (simpl; apply lookup_insert_eq).
    split; [apply (derefs_here _ p w Hw Wr)|]. split; [exact Hw|].
    split; [exact Wi|]. split; [exact Wt|]. split; [|exact Hct].
    rewrite Wv. simpl. rewrite lookup_insert_ne by lia. apply lookup_insert_eq.
Qed.

Lemma slen_rename r l : slen (rename_l r l) = slen l.
Proof. induction l as [|s l IH]; simpl; congruence. Qed.

Lemma dec_nil tr : dec_l U A tr SNil.
Proof.
  intros fuel vs tbl keys vs' tbl' rest us st rs p Henc Hg Htbl Hlt Hlv Hlen Hmode Hptr
         Hdi Hvi Hnone Hp Hpn Hroom.
  simpl in Henc. injection Henc as <- <- <-.
  exists us, st, rs. split; [reflexivity|]. split; [|exact I].
  split; [exact Hmode|]. split; [simpl; lia|]. split; [exact Hdi|].
  split; [simpl; lia|]. split; [reflexivity|]. split; [reflexivity|].
  split; [reflexivity|]. split; [reflexivity|]. split; [exact Hvi|].
  split; [reflexivity|]. split; [exact Hlen|]. reflexivity.
Qed.

Lemma dec_cons tr s l : dec_t U A tr s -> dec_l U A tr l -> dec_l U A tr (SCons s l).
Proof.
  intros IHs IHl fuel vs tbl keys vs' tbl' rest us st rs p Henc Hg Htbl Hlt Hlv Hlen Hmode Hptr
         Hdi Hvi Hnone Hp Hpn Hroom.
  simpl in Henc.
  destruct (enc vs tbl s) as [[k1 vs1] tbl1] eqn:E1.
  destruct (enc_l vs1 tbl1 l) as [[k2 vs2] tbl2] eqn:E2. injection Henc as <- <- <-.
  destruct Hg as [Hgs Hgl]. simpl in Hroom, Hpn, Hnone.
  destruct enc_facts_all as [Fs Fl].
  destruct (Fs _ _ _ _ _ _ E1) as (Pv1 & Pt1 & Vin1 & _).
  destruct (Fl _ _ _ _ _ _ E2) as (Pv2 & Pt2 & _ & _).
  destruct cells_nonneg_all as [Cs Cl]. specialize (Cs s). specialize (Cl l).
  apply prefix_length in Pv2 as Lv2. apply prefix_length in Pt2 as Lt2.
  destruct (IHs fuel vs tbl k1 vs1 tbl1 (k2 ++ rest) us st rs p E1 Hgs) as
    (us1 & st1 & rs1 & Hrun1 & Hst1 & Hsh1);
    [etransitivity; eassumption|lia|lia|exact Hlen|exact Hmode|exact Hptr|exact Hdi|exact Hvi
    | |lia|lia|].
  { rewrite <- (Z.add_0_r p). apply Hnone. lia. }
  pose proof Hst1 as (M1 & P1 & D1 & GT1 & GM1 & AS1 & TR1 & TM1 & V1 & PR1 & L1 & FR1).
  destruct (IHl fuel vs1 tbl1 k2 vs2 tbl2 rest us1 st1 rs1 (p + 1) E2 Hgl) as
    (us2 & st2 & rs2 & Hrun2 & Hst2 & Hsh2);
    [exact Htbl|exact Hlt|exact Hlv|exact L1|exact M1|exact P1|exact D1|exact V1
    | |lia|lia|lia|].
  { intros j Hj. rewrite FR1 by lia. replace (p + 1 + j) with (p + (1 + j)) by lia.
    apply Hnone. lia. }
  pose proof Hst2 as (M2 & P2 & D2 & GT2 & GM2 & AS2 & TR2 & TM2 & V2 & PR2 & L2 & FR2).
  exists us2, st2, rs2. split; [|split].
  - rewrite <- app_assoc. rewrite Hrun1. exact Hrun2.
  - split; [exact M2|]. split; [rewrite P2; simpl slen; lia|]. split; [exact D2|].
    split; [simpl; lia|]. split; [congruence|]. split; [congruence|].
    split; [congruence|]. split; [congruence|]. split; [exact V2|].
    split; [etransitivity; eassumption|]. split; [exact L2|].
    intros a Ha Hlt'. simpl slen in Ha. rewrite FR2 by lia. apply FR1; lia.
  - simpl rename_l. split; [|exact Hsh2].
    assert (Hsub : s_mem st1 ⊆ s_mem st2).
    { apply (dec_step_sub _ _ _ _ _ _ _ _ _ Hst2 D1).
      intros j Hj. rewrite FR1 by lia. replace (p + 1 + j) with (p + (1 + j)) by lia.
      apply Hnone. lia. }
    destruct (shape_mono_all _ _ Hsub) as [Hmono _].
    destruct (rename_ext_all (var_image vs2 rs2) (var_image vs1 rs1)) as [Hren _].
    rewrite Hren; [apply Hmono; exact Hsh1|].
    intros a Ha. apply var_image_ext; auto.
Qed.

Lemma dec_compound tr f args : dec_l U A tr args -> dec_t U A tr (SCompound f args).
Proof.
  intros IH fuel vs tbl keys vs' tbl' rest us st rs p Henc Hg Htbl Hlt Hlv Hlen Hmode Hptr
         Hdi Hvi Hnone Hp Hroom.
  simpl in Henc. destruct (enc_l vs tbl args) as [[ks vs1] tbl1] eqn:E. injection Henc as <- <- <-.
  destruct Hg as (Hf & Har & Hga). simpl in Hroom.
  destruct cells_nonneg_all as [_ Cl]. specialize (Cl args).
  pose proof Hdi as (G0 & G1 & G2 & Gfree).
  set (t := gTop st) in *.
  set (n := Z.of_nat (slen args)) in *.
  assert (Hn : 0 <= n) by (subst n; lia).
  destruct (compound_word_facts t) as (Wr & Wt & Wv); [lia|].
  set (w := consPtr t (Z.lor TAG_COMPOUND STG_GLOBAL)) in *.
  set (st2 := mkStacks (s_mem st) (t + (n + 1)) (gMax st) ((p + 1, uwrite) :: aStack st)
                       (trail st) (tMax st)).
  set (st4 := write_cell (write_cell st2 t f) p w).
  assert (Hkey : unify_key U A fuel tr us st f = Some (TRUE, set_ptr us (t + 1), st4)).
  { rewrite ukey_functor by assumption. rewrite Har. fold n. unfold allocGlobalNoShift.
    simpl gTop. simpl gMax. fold t.
    replace (t + (n + 1) <=? gMax st) with true by (symmetry; apply Z.leb_le; lia).
    rewrite Hptr. reflexivity. }
  assert (D4 : dec_inv st4).
  { split; [simpl; lia|]. split; [simpl; lia|]. split; [exact G2|].
    intros a Ha. simpl in *. rewrite !lookup_insert_ne by lia. apply Gfree. lia. }
  assert (V4 : var_inv (set_ptr us (t + 1)) st4 rs).
  { apply (var_inv_us us); [reflexivity|reflexivity|].
    apply (var_inv_mem us st); [|exact Hvi].
    intros a Ha. simpl. rewrite !lookup_insert_ne; [exact Ha| |].
    - intros <-. rewrite Gfree in Ha by lia. discriminate.
    - intros <-. congruence. }
  assert (N4 : forall j, 0 <= j < n -> s_mem st4 !! (t + 1 + j) = None).
  { intros j Hj. simpl. rewrite !lookup_insert_ne by lia. apply Gfree. lia. }
  destruct (IH fuel vs tbl ks vs1 tbl1 (TRIE_KEY_POP :: rest) (set_ptr us (t + 1)) st4 rs (t + 1)
               E Hga Htbl Hlt Hlv Hlen) as (us5 & st5 & rs5 & Hrun5 & Hst5 & Hsh5);
    [exact Hmode|reflexivity|exact D4|exact V4|exact N4|lia|simpl; fold n; lia|simpl; fold n; lia|].
  pose proof Hst5 as (M5 & P5 & D5 & GT5 & GM5 & AS5 & TR5 & TM5 & V5 & PR5 & L5 & FR5).
  exists (set_umode (set_ptr us5 (p + 1)) uwrite), (set_aStack st5 (aStack st)), rs5.
  split; [|split].
  - simpl app. rewrite (replay_cons _ _ _ _ _ _ _ _ Hkey).
    rewrite <- app_assoc. simpl app. rewrite Hrun5.
    apply replay_cons. apply ukey_pop. rewrite AS5. reflexivity.
  - split; [reflexivity|]. split; [reflexivity|].
    split; [exact D5|].
    split; [simpl; rewrite GT5; simpl; fold n; lia|]. split; [simpl; rewrite GM5; reflexivity|].
    split; [reflexivity|]. split; [simpl; rewrite TR5; reflexivity|].
    split; [simpl; rewrite TM5; reflexivity|].
    split; [apply (var_inv_us us5); [reflexivity|reflexivity|exact V5]|].
    split; [exact PR5|]. split; [exact L5|].
    intros a Ha Hlt'. simpl. rewrite FR5 by (simpl; fold t; lia).
    simpl. rewrite !lookup_insert_ne by (fold t in Hlt'; lia). reflexivity.
  - simpl rename. exists p, w.
    assert (Hw : s_mem (set_aStack st5 (aStack st)) !! p = Some w).
    { simpl. rewrite FR5 by (simpl; lia). simpl. apply lookup_insert_eq. }
    split; [apply (derefs_here _ p w Hw Wr)|]. split; [exact Hw|].
    split; [exact Wt|]. rewrite Wv.
    split.
    { simpl. rewrite FR5 by (simpl; lia). simpl. rewrite lookup_insert_ne by lia.
      apply lookup_insert_eq. }
    split; [exact Hf|]. split; [rewrite slen_rename; exact Har|]. exact Hsh5.
Qed.

Theorem dec_all tr : (forall s, dec_t U A tr s) /\ (forall l, dec_l U A tr l).
Proof.
  assert (Ht : forall s, dec_t U A tr s).
  { apply (shape_t_mut (dec_t U A tr) (dec_l U A tr)).
    - apply dec_var.
    - apply dec_atomic.
    - apply dec_indirect.
    - apply dec_compound.
    - apply dec_nil.
    - intros s Hs l Hl. apply dec_cons; assumption. }
  split; [exact Ht|]. induction l as [|s l IH]; [apply dec_nil|apply dec_cons; auto].
Qed.

Lemma replay_one fuel tr us st key us' st' :
  unify_key U A fuel tr us st key = Some (TRUE, us', st') ->
  replay_keys U A fuel tr us st [key] = Some (TRUE, us', st').
Proof. intros H. rewrite (replay_cons _ _ _ _ _ _ _ _ H). reflexivity. Qed.

Lemma deRef_unbound f m p : m !! p = Some 0 -> deRef (S f) m p = Some p.
Proof. intros H. simpl. rewrite H. reflexivity. Qed.

Lemma dec_top_var tr a : dec_top_t U A tr (SVar a).
Proof.
  intros fuel tbl keys vs' tbl' m term gtop gmax tmax Henc Hg Htbl Hlt Hlv Hm Ht Hfree
         Hroom Hmax Htr.
  simpl in Henc. injection Henc as <- <- <-.
  set (st := mkStacks m gtop gmax [] [] tmax).
  exists (set_ptr (set_var_slot (mkUkey term uread 1 (delete 1 ∅)) 1 term) (term + 1)), st, [term].
  split.
  - apply replay_one. unfold unify_key.
    change (var_key (Z.of_nat (length []) + 1) =? TRIE_KEY_POP) with false. cbv iota.
    change (us_umode (init_ukey_state term)) with uread. cbv iota.
    change (us_ptr (init_ukey_state term)) with term.
    rewrite (deRef_unbound fuel (s_mem st) term Hm). reflexivity.
  - split; [reflexivity|]. split; [apply NoDup_singleton|]. split; [reflexivity|].
    simpl rename. change (var_image [a] [term] a) with (default a (i ← index_nat a [a]; [term] !! i)).
    simpl index_nat. rewrite Z.eqb_refl. simpl. apply shape_var. exact Hm.
Qed.

Lemma hasGlobalSpace_true st n :
  gTop st + n + BIND_GLOBAL_SPACE <= gMax st -> tTop st + BIND_TRAIL_SPACE <= tMax st ->
  hasGlobalSpace st n = true.
Proof.
  intros H1 H2. unfold hasGlobalSpace. apply andb_true_iff. split; apply Z.leb_le; assumption.
Qed.

Lemma dec_top_atomic tr w : dec_top_t U A tr (SAtomic w).
Proof.
  intros fuel tbl keys vs' tbl' m term gtop gmax tmax Henc Hg Htbl Hlt Hlv Hm Ht Hfree
         Hroom Hmax Htr.
  simpl in Henc. injection Henc as <- <- <-.
  destruct Hg as [(Tv & Ta & Tc & Ti & Tf) Hr]. simpl in Hroom.
  set (st := mkStacks m gtop gmax [] [] tmax).
  exists (set_ptr (init_ukey_state term) (term + 1)), (Trail st term w), [].
  split.
  - apply replay_one. unfold unify_key. rewrite (tag_not_pop w Tv).
    change (us_umode (init_ukey_state term)) with uread. cbv iota.
    change (us_ptr (init_ukey_state term)) with term.
    rewrite (deRef_unbound fuel (s_mem st) term Hm). simpl mbind.
    rewrite Tf, Tv, Ti. simpl mbind. cbv beta iota zeta. simpl andb. cbv iota.
    change (s_mem st !! term) with (m !! term). rewrite Hm. simpl mbind.
    change (canBind 0) with true. cbv iota.
    rewrite hasGlobalSpace_true by (simpl; unfold tTop; simpl; lia).
    reflexivity.
  - split; [reflexivity|]. split; [apply NoDup_nil; exact I|].
    split; [intros a Ha _; simpl; apply lookup_insert_ne; congruence|].
    simpl rename. exists term, w.
    assert (Hw : s_mem (Trail st term w) !! term = Some w) by (simpl; apply lookup_insert_eq).
    split; [apply (derefs_here _ term w Hw Hr)|]. split; [exact Hw|].
    split; [reflexivity|]. repeat split; assumption.
Qed.

Lemma dec_top_indirect tr tg c : dec_top_t U A tr (SIndirect tg c).
Proof.
  intros fuel tbl keys vs' tbl' m term gtop gmax tmax Henc Hg Htbl Hlt Hlv Hm Ht Hfree
         Hroom Hmax Htr.
  destruct Hg as [Htg Hct]. simpl in Hroom. unfold BIND_GLOBAL_SPACE in Hroom.
  assert (Hkey : exists i, keys = [indirect_surrogate tg (Z.of_nat i)] /\ vs' = []
                           /\ tbl' !! i = Some (tg, c)).
  { simpl in Henc. destruct (index_of (tg, c) tbl 0) as [i|] eqn:Hidx; injection Henc as <- <- <-.
    - apply index_of_lookup in Hidx as [Hr Hl]. exists (Z.to_nat i).
      rewrite Z2Nat.id by lia. rewrite Z.sub_0_r in Hl. auto.
    - exists (length tbl). split; [reflexivity|]. split; [reflexivity|].
      apply list_lookup_middle. reflexivity. }
  destruct Hkey as (i & -> & -> & Hi).
  apply lookup_lt_Some in Hi as Hib.
  destruct (table_lookup _ _ _ _ Htbl Hi) as (tb & Htb & Htbi).
  destruct (surrogate_facts tg (Z.of_nat i) Htg) as (Kp & Kf & Kv & Ki & Kval); [lia|].
  destruct (global_word_facts gtop tg Htg) as (W0 & Wr & Wi & Wt & Wv); [lia|].
  set (w := consPtr gtop (Z.lor tg STG_GLOBAL)) in *.
  set (st := mkStacks m gtop gmax [] [] tmax).
  set (st1 := write_cell (mkStacks m (gtop + 1) gmax [] [] tmax) gtop c).
  exists (set_ptr (init_ukey_state term) (term + 1)), (Trail st1 term w), [].
  split.
  - apply replay_one. unfold unify_key. rewrite Kp.
    change (us_umode (init_ukey_state term)) with uread. cbv iota.
    change (us_ptr (init_ukey_state term)) with term.
    rewrite (deRef_unbound fuel (s_mem st) term Hm). simpl mbind.
    rewrite Kf, Kv, Ki. unfold extern_indirect_no_shift. rewrite Htb. simpl mbind.
    rewrite Kval, Nat2Z.id, Htbi. simpl mbind. unfold allocGlobalNoShift.
    change (gTop st) with gtop. change (gMax st) with gmax.
    replace (gtop + 1 <=? gmax) with true by (symmetry; apply Z.leb_le; lia).
    cbv beta iota zeta. simpl mbind. fold w. rewrite W0. simpl andb. cbv iota.
    change (write_cell _ gtop c) with st1.
    replace (s_mem st1 !! term) with (Some 0)
      by (symmetry; simpl; rewrite lookup_insert_ne by lia; exact Hm).
    simpl mbind. change (canBind 0) with true. cbv iota.
    rewrite hasGlobalSpace_true by (simpl; unfold tTop, BIND_GLOBAL_SPACE; simpl; lia).
    reflexivity.
  - split; [reflexivity|]. split; [apply NoDup_nil; exact I|].
    split; [intros a Ha Hlt'; simpl; rewrite !lookup_insert_ne by lia; reflexivity|].
    simpl rename. exists term, w.
    assert (Hw : s_mem (Trail st1 term w) !! term = Some w) by (simpl; apply lookup_insert_eq).
    split; [apply (derefs_here _ term w Hw Wr)|]. split; [exact Hw|].
    split; [exact Wi|]. split; [exact Wt|]. split; [|exact Hct].
    rewrite Wv. simpl. rewrite lookup_insert_ne by lia. apply lookup_insert_eq.
Qed.

Lemma dec_top_compound tr f args : dec_top_t U A tr (SCompound f args).
Proof.
  intros fuel tbl keys vs' tbl' m term gtop gmax tmax Henc Hg Htbl Hlt Hlv Hm Ht Hfree
         Hroom Hmax Htr.
  simpl in Henc. destruct (enc_l [] tbl args) as [[ks vs1] tbl1] eqn:E. injection Henc as <- <- <-.
  destruct Hg as (Hf & Har & Hga). simpl in Hroom.
  unfold BIND_GLOBAL_SPACE in Hroom. unfold BIND_TRAIL_SPACE in Htr.
  destruct cells_nonneg_all as [_ Cl]. specialize (Cl args).
  set (n := Z.of_nat (slen args)) in *.
  assert (Hn : 0 <= n) by (subst n; lia).
  destruct (compound_word_facts gtop) as (Wr & Wt & Wv); [lia|].
  set (w := consPtr gtop (Z.lor TAG_COMPOUND STG_GLOBAL)) in *.
  set (st := mkStacks m gtop gmax [] [] tmax).
  set (st2 := mkStacks m (gtop + (n + 1)) gmax [(term + 1, uread)] [] tmax).
  set (st4 := Trail (write_cell st2 gtop f) term w).
  set (us4 := set_ptr (set_umode (init_ukey_state term) uwrite) (gtop + 1)).
  assert (Hkey : unify_key U A (S fuel) tr (init_ukey_state term) st f = Some (TRUE, us4, st4)).
  { unfold unify_key. rewrite (functor_not_pop f Hf).
    change (us_umode (init_ukey_state term)) with uread. cbv iota.
    change (us_ptr (init_ukey_state term)) with term.
    rewrite (deRef_unbound fuel (s_mem st) term Hm). simpl mbind. rewrite Hf.
    cbv beta iota zeta.
    change (s_mem (pushArgumentStack st (term + 1, uread)) !! term) with (m !! term).
    rewrite Hm. simpl mbind. change (canBind 0) with true. change (isAttVar 0) with false.
    cbv iota. rewrite Har. fold n. unfold allocGlobalNoShift.
    change (gTop (pushArgumentStack st (term + 1, uread))) with gtop.
    change (gMax (pushArgumentStack st (term + 1, uread))) with gmax.
    replace (gtop + (n + 1) <=? gmax) with true by (symmetry; apply Z.leb_le; lia).
    cbv beta iota zeta. unfold tTop. simpl trail. simpl tMax. simpl length.
    replace (Z.of_nat 0 + 1 >=? tmax) with false
      by (symmetry; rewrite Z.geb_leb; apply Z.leb_gt; lia).
    reflexivity. }
  assert (D4 : dec_inv st4).
  { split; [simpl; lia|]. split; [simpl; lia|]. split; [exact Hmax|].
    intros a Ha. simpl in *. rewrite !lookup_insert_ne by lia. apply Hfree. lia. }
  assert (V4 : var_inv us4 st4 []).
  { split; [reflexivity|]. split; [apply NoDup_nil; exact I|]. intros i a Hi. discriminate. }
  assert (N4 : forall j, 0 <= j < n -> s_mem st4 !! (gtop + 1 + j) = None).
  { intros j Hj. simpl. rewrite !lookup_insert_ne by lia. apply Hfree. lia. }
  destruct (dec_all tr) as [_ Hdl].
  destruct (Hdl args (S fuel) [] tbl ks vs1 tbl1 [TRIE_KEY_POP] us4 st4 [] (gtop + 1)
               E Hga Htbl Hlt Hlv eq_refl) as (us5 & st5 & rs5 & Hrun5 & Hst5 & Hsh5);
    [reflexivity|reflexivity|exact D4|exact V4|exact N4|lia|simpl; fold n; lia|simpl; fold n; lia|].
  pose proof Hst5 as (M5 & P5 & D5 & GT5 & GM5 & AS5 & TR5 & TM5 & V5 & PR5 & L5 & FR5).
  exists (set_umode (set_ptr us5 (term + 1)) uread), (set_aStack st5 []), rs5.
  split.
  - rewrite (replay_cons _ _ _ _ _ _ _ _ Hkey). rewrite Hrun5.
    apply replay_one. apply ukey_pop. rewrite AS5. reflexivity.
  - split; [exact L5|]. split; [destruct V5 as (_ & Hnd & _); exact Hnd|].
    split.
    { intros a Ha Hlt'. simpl. rewrite FR5 by (simpl; lia).
      simpl. rewrite !lookup_insert_ne by lia. reflexivity. }
    simpl rename. exists term, w.
    assert (Hw : s_mem (set_aStack st5 []) !! term = Some w).
    { simpl. rewrite FR5 by (simpl; lia). simpl. apply lookup_insert_eq. }
    split; [apply (derefs_here _ term w Hw Wr)|]. split; [exact Hw|].
    split; [exact Wt|]. rewrite Wv.
    split.
    { simpl. rewrite FR5 by (simpl; lia). simpl. rewrite lookup_insert_ne by lia.
      apply lookup_insert_eq. }
    split; [exact Hf|]. split; [rewrite slen_rename; exact Har|]. exact Hsh5.
Qed.

Theorem dec_top_all tr s : dec_top_t U A tr s.
Proof.
  destruct s as [a|w|tg c|f args].
  - apply dec_top_var.
  - apply dec_top_atomic.
  - apply dec_top_indirect.
  - apply dec_top_compound.
Qed.

End Decode.

Lemma derefs_delete m x p q :
  m !! x = Some 0 -> derefs m p q -> q <> x -> derefs (delete x m) p q.
Proof.
  intros Hx Hd. induction Hd as [p w Hw Hr|p w q Hw Hr Hd IH]; intros Hq.
  - apply (derefs_here _ p w); [|exact Hr]. rewrite lookup_delete_ne by congruence. exact Hw.
  - apply (derefs_ref _ p w q); [|exact Hr|exact (IH Hq)].
    rewrite lookup_delete_ne; [exact Hw|]. intros <-. rewrite Hx in Hw. injection Hw as <-.
    discriminate.
Qed.

(** A term that does not mention the variable [x] does not depend on the
    cell of [x]. *)
Lemma shape_delete_all m x : m !! x = Some 0 ->
  (forall s p, shape m p s -> x ∉ vars_of s -> shape (delete x m) p s)
  /\ (forall l p, shape_args m p l -> x ∉ vars_of_l l -> shape_args (delete x m) p l).
Proof.
  intros Hx.
  assert (Hne : forall a w, m !! a = Some w -> w <> 0 -> a <> x).
  { intros a w Hw Hw0 ->. rewrite Hx in Hw. congruence. }
  assert (Ht : forall s, (fun s => forall p, shape m p s -> x ∉ vars_of s
                                   -> shape (delete x m) p s) s).
  { apply (shape_t_mut (fun s => forall p, shape m p s -> x ∉ vars_of s
                                   -> shape (delete x m) p s)
                       (fun l => forall p, shape_args m p l -> x ∉ vars_of_l l
                                   -> shape_args (delete x m) p l)).
    - intros a p (q & w & Hd & Hw & -> & ->) Hv. simpl in Hv.
      assert (Hq : q <> x) by (intros ->; apply Hv, list_elem_of_singleton; reflexivity).
      exists q, 0. split; [apply derefs_delete; assumption|].
      split; [rewrite lookup_delete_ne by congruence; exact Hw|auto].
    - intros v p (q & w & Hd & Hw & -> & Ha) _.
      assert (Hq : q <> x).
      { apply (Hne q w Hw). intros ->. destruct Ha as [Ha _]. discriminate. }
      exists q, w. split; [apply derefs_delete; assumption|].
      split; [rewrite lookup_delete_ne by congruence; exact Hw|auto].
    - intros tg c p (q & w & Hd & Hw & Hi & Htg & Hc & Hct) _.
      assert (Hq : q <> x) by (apply (Hne q w Hw); intros ->; discriminate).
      assert (Hv : valPtr w <> x) by (apply (Hne _ c Hc); intros ->; apply Hct; reflexivity).
      exists q, w. split; [apply derefs_delete; assumption|].
      split; [rewrite lookup_delete_ne by congruence; exact Hw|].
      split; [exact Hi|]. split; [exact Htg|]. split; [|exact Hct].
      rewrite lookup_delete_ne by congruence. exact Hc.
    - intros f args IH p (q & w & Hd & Hw & Ht & Hf & Hfk & Har & Hargs) Hv.
      assert (Hq : q <> x) by (apply (Hne q w Hw); intros ->; discriminate).
      assert (Hvp : valPtr w <> x) by (apply (Hne _ f Hf); intros ->; discriminate).
      exists q, w. split; [apply derefs_delete; assumption|].
      split; [rewrite lookup_delete_ne by congruence; exact Hw|].
      split; [exact Ht|]. split; [rewrite lookup_delete_ne by congruence; exact Hf|].
      split; [exact Hfk|]. split; [exact Har|]. apply IH; assumption.
    - intros; exact I.
    - intros s IHs l IHl p [Hs Hl] Hv. simpl in Hv. rewrite elem_of_app in Hv.
      split; [apply IHs|apply IHl]; auto. }
  split; [exact Ht|].
  induction l as [|s l IH]; intros p H Hv; [exact I|].
  destruct H as [Hs Hl]. simpl in Hv. rewrite elem_of_app in Hv.
  split; [apply Ht|apply IH]; auto.
Qed.

Lemma var_image_inj vs rs a b :
  NoDup rs -> length rs = length vs -> a ∈ vs -> b ∈ vs ->
  var_image vs rs a = var_image vs rs b -> a = b.
Proof.
  intros Hnd Hlen Ha Hb Heq.
  destruct (index_nat_elem _ _ Ha) as [i Hi]. destruct (index_nat_elem _ _ Hb) as [j Hj].
  apply index_nat_lookup in Hi as Hvi. apply index_nat_lookup in Hj as Hvj.
  destruct (lookup_lt_is_Some_2 rs i) as [x Hx]; [apply lookup_lt_Some in Hvi; lia|].
  destruct (lookup_lt_is_Some_2 rs j) as [y Hy]; [apply lookup_lt_Some in Hvj; lia|].
  rewrite (var_image_old _ _ _ _ _ Hi Hx), (var_image_old _ _ _ _ _ Hj Hy) in Heq. subst y.
  assert (i = j) by (eapply NoDup_lookup; eauto). subst j. congruence.
Qed.

Lemma loop_done fe add ls lsF loc :
  trie_lookup_loop fe add ls = Some lsF ->
  ls_agenda ls = mkAgenda (mkANode loc O) [] -> lsF = ls.
Proof.
  intros Hrun Hag. destruct fe as [|fe]; [discriminate|].
  rewrite trie_lookup_loop_unfold in Hrun. destruct (ls_node ls); [|congruence].
  rewrite Hag in Hrun. simpl in Hrun. congruence.
Qed.

Lemma wf_links_create : wf_links trie_create.
Proof.
  split; [exists (mkNode 0 0 None NoChildren); split; reflexivity|].
  split.
  - intros p pd k c Hp Hc. unfold trie_create in Hp. simpl in Hp.
    apply lookup_singleton_Some in Hp as [_ <-]. discriminate.
  - intros x [nd Hx]. unfold trie_create in Hx. simpl in Hx.
    apply lookup_singleton_Some in Hx as [<- _]. simpl. unfold root. lia.
Qed.

Section RoundTrip.

Variable unify_ptrs : stacks -> Z -> Z -> option (Z * stacks).

Variable assignAttVar : stacks -> Z -> word -> option stacks.

(** C1: in a well-linked trie and on well-formed stacks, a term [s]
    (finite, so acyclic, and free of attributed variables) stands at [k];
    trie_lookup with add = true succeeds on it and returns node [n].
    Then unify_trie_term on [n], against an unbound variable [term] that
    does not occur in [s] and with room on the stacks to build the term
    in one go, succeeds (given fuel for the length of the path), and
    afterwards [term] holds a term [s'] that is [s] under a renaming of
    its variables which keeps distinct variables distinct, while [k]
    still holds [s]. *)
Theorem lookup_unify_round_trip (fuel : nat) (t : trie) (m : mem) (k : Z) (s : shape_t)
    (term gtop gmax tmax : Z) (n : node_id) (t' : trie) (m' : mem) :
  wf_links t ->
  wf_mem m ->
  Z.of_nat (size m) < 2 ^ 56 ->
  map_Forall (fun a _ => 0 <= a < gtop) m ->
  shape m k s ->
  m !! term = Some 0 ->
  term ∉ vars_of s ->
  gtop + cells s + BIND_GLOBAL_SPACE <= gmax ->
  gmax <= 2 ^ 57 ->
  BIND_TRAIL_SPACE <= tmax ->
  trie_lookup fuel t m k true = Some (TRUE, Some n, t', m') ->
  Z.of_nat (length (default [] (indirects t'))) < 2 ^ 56 ->
  exists N, forall fuel', (N <= fuel')%nat ->
    exists st' s',
      unify_trie_term unify_ptrs assignAttVar fuel' t' (mkStacks m' gtop gmax [] [] tmax) n term
      = Some (TRUE, st')
      /\ shape (s_mem st') term s'
      /\ shape (s_mem st') k s
      /\ variant s s'.
Proof.
  intros Hwf Hwm Hsize Hbelow Hshape Hterm Hfresh Hroom Hmax Htr Hrun Htab.
  assert (Hfree : forall a, gtop <= a -> m !! a = None).
  { intros a Ha. destruct (m !! a) as [w|] eqn:Hw; [|reflexivity].
    apply (map_Forall_lookup_1 _ _ _ _ Hbelow) in Hw. lia. }
  assert (Htb : 0 <= term < gtop) by (apply (map_Forall_lookup_1 _ _ _ _ Hbelow Hterm)).
  unfold trie_lookup in Hrun.
  destruct (trie_lookup_loop fuel true _) as [ls|] eqn:Hloop; [|discriminate].
  simpl in Hrun.
  rewrite (lookup_loop_cleared fuel t m k true ls Hwm) in Hrun by (exact Hloop || lia).
  simpl in Hrun.
  destruct (ls_rc ls =? TRUE) eqn:Hrc; [|congruence].
  destruct (ls_node ls) as [node|] eqn:Hnode; [|congruence].
  injection Hrun as -> <- <-. apply Z.eqb_eq in Hrc.
  set (tbl0 := default [] (indirects t)).
  destruct (enc [] tbl0 s) as [[keys vs'] tbl'] eqn:Henc.
  destruct (walk_all m Hsize) as [Hwalk _].
  destruct Hwf as (Hroot & Hwf'). pose proof Hroot as (rd & Hrd & Hrp).
  destruct (Hwalk s k fuel (mkLookup (initTermAgenda 1 k) (Some root) 0 TRUE 0 t m)
                   ls [] O root [] tbl0 [] keys vs' tbl' Hshape eq_refl)
    as (fe' & ls' & n' & Hrun' & Hag' & Hinv'); [| exact Hloop | split; eauto | exact Henc |].
  { split; [reflexivity|]. split; [reflexivity|].
    split; [split; [apply NoDup_nil; exact I|split; [intros i a Hi; discriminate|reflexivity]]|].
    split; [reflexivity|]. split; [split; assumption|].
    split; [exact (path_root t root rd Hrd Hrp)|reflexivity]. }
  apply loop_done with (loc := k + 1) in Hrun'; [|exact Hag']. subst ls'.
  destruct Hinv' as (Hn' & _ & Hmarks & Hvn & Hwft & Hpath & Htbl').
  rewrite Hnode in Hn'. injection Hn' as <-. simpl app in Hpath.
  destruct (shape_good_all m) as [Hgood _].
  destruct enc_facts_all as [Hfacts _].
  destruct (Hfacts _ _ _ _ _ _ Henc) as (_ & _ & Hvars & Hnd). specialize (Hnd (NoDup_nil_2 (A:=Z))).
  apply marks_length in Hmarks as Hlv.
  exists (S (length keys)). intros fuel' Hfuel.
  destruct fuel' as [|f']; [lia|].
  destruct (dec_top_all unify_ptrs assignAttVar (ls_trie ls) s f' tbl0 keys vs' tbl' m term
              gtop gmax tmax Henc (Hgood s k Hshape))
    as (us' & st' & rs' & Hreplay & Hlen & Hndr & Hframe & Hsh);
    try assumption; [rewrite Htbl'; reflexivity|rewrite <- Htbl'; exact Htab|lia|].
  exists st', (rename (var_image vs' rs') s).
  split; [|split; [exact Hsh|split]].
  - unfold unify_trie_term. rewrite (path_collect _ _ _ Hpath) by lia. simpl mbind.
    rewrite rev_involutive. cbn [unify_trie_term_loop]. rewrite Hreplay. reflexivity.
  - destruct (shape_delete_all m term Hterm) as [Hdel _].
    assert (Hsub : delete term m ⊆ s_mem st').
    { apply map_subseteq_spec. intros a w Hw. apply lookup_delete_Some in Hw as [Hne Hw].
      rewrite Hframe; [exact Hw|congruence|].
      apply (map_Forall_lookup_1 _ _ _ _ Hbelow) in Hw. lia. }
    destruct (shape_mono_all _ _ Hsub) as [Hmono _]. apply Hmono, Hdel; assumption.
  - exists (var_image vs' rs'). split; [|reflexivity].
    intros a b Ha Hb. apply (var_image_inj vs' rs'); auto.
Qed.

End RoundTrip.

Ltac derefs_tac :=
  first [ eapply derefs_here; [vm_compute; reflexivity|reflexivity]
        | eapply derefs_ref; [vm_compute; reflexivity|reflexivity|derefs_tac] ].

Ltac shape_tac :=
  repeat first
    [ exact I
    | match goal with
      | |- shape _ _ _ => eexists; eexists; split; [derefs_tac|split; [vm_compute; reflexivity|]]
      | |- shape_args _ _ _ => split
      | |- atomic_word _ => repeat split; reflexivity
      | |- _ /\ _ => split
      | |- _ = _ => vm_compute; reflexivity
      end ].

Lemma term_shape_ok : shape term_mem 10 term_shape.
Proof. unfold term_shape. shape_tac. Qed.

Lemma lookup_unify_round_trip_witness :
  exists N, forall fuel', (N <= fuel')%nat ->
    exists st' s',
      unify_trie_term (fun _ _ _ => None) (fun _ _ _ => None) fuel' trie_term
        (mkStacks term_mem 100 1000 [] [] 100) 8%nat 5 = Some (TRUE, st')
      /\ shape (s_mem st') 5 s' /\ shape (s_mem st') 10 term_shape /\ variant term_shape s'.
Proof.
  apply (lookup_unify_round_trip (fun _ _ _ => None) (fun _ _ _ => None) 100 trie_create
           term_mem 10 term_shape 5 100 1000 100 8%nat trie_term term_mem).
  - exact wf_links_create.
  - apply wf_mem_b_sound. vm_compute. reflexivity.
  - vm_compute. reflexivity.
  - apply (bool_decide_unpack _). vm_compute. exact I.
  - exact term_shape_ok.
  - reflexivity.
  - apply (bool_decide_unpack _). vm_compute. exact I.
  - vm_compute. discriminate.
  - vm_compute. discriminate.
  - vm_compute. discriminate.
  - vm_compute. reflexivity.
  - vm_compute. reflexivity.
Defined.

(** The round trip run on f(X, a, g(X, Y)): the term is built in the
    cells 100 to 106, the second X is a reference to the first. *)
Example round_trip_term_mem :
  match unify_trie_term (fun _ _ _ => None) (fun _ _ _ => None) 100 trie_term
          (mkStacks term_mem 100 1000 [] [] 100) 8%nat 5 with
  | Some (rc, st) =>
      rc = TRUE /\ gTop st = 107 /\ trail st = [5]
      /\ s_mem st !! 5 = Some (compound_at 100)
      /\ s_mem st !! 100 = Some (MK_FUNCTOR 1 3)
      /\ s_mem st !! 101 = Some 0
      /\ s_mem st !! 102 = Some (atom 2)
      /\ s_mem st !! 103 = Some (compound_at 104)
      /\ s_mem st !! 104 = Some (MK_FUNCTOR 2 2)
      /\ s_mem st !! 105 = Some (makeRefG 101)
      /\ s_mem st !! 106 = Some 0
  | None => False
  end.
Proof. vm_compute. repeat split; reflexivity. Qed.

(** The round trip run on a term with an indirect datum: the trie keeps
    the content in its table and the term builder puts a copy on the
    global stack. *)
Example round_trip_big_mem :
  trie_lookup 100 trie_create big_mem 10 true = Some (TRUE, Some 4%nat, trie_big, big_mem)
  /\ indirects trie_big = Some [(TAG_INTEGER, 12345678901234567890)]
  /\ match unify_trie_term (fun _ _ _ => None) (fun _ _ _ => None) 100 trie_big
             (mkStacks big_mem 100 1000 [] [] 100) 4%nat 5 with
     | Some (rc, st) =>
         rc = TRUE /\ gTop st = 104
         /\ s_mem st !! 5 = Some (compound_at 100)
         /\ s_mem st !! 100 = Some (MK_FUNCTOR 1 2)
         /\ s_mem st !! 101 = Some (consPtr 103 (Z.lor TAG_INTEGER STG_GLOBAL))
         /\ s_mem st !! 102 = Some 0
         /\ s_mem st !! 103 = Some 12345678901234567890
     | None => False
     end.
Proof. vm_compute. repeat split; reflexivity. Qed.

Lemma accounted_same base t t' : same_store t t' -> accounted base t -> accounted base t'.
Proof.
  intros (Hn & Hx & Hc & Hp) (H1 & H2 & H3). unfold accounted.
  rewrite Hn, Hx, Hc, Hp. auto.
Qed.

Lemma same_store_refl t : same_store t t.
Proof. repeat split. Qed.

Lemma same_store_trans t1 t2 t3 : same_store t1 t2 -> same_store t2 t3 -> same_store t1 t3.
Proof.
  intros (A1 & A2 & A3 & A4) (B1 & B2 & B3 & B4). repeat split; congruence.
Qed.

Lemma same_store_acquire_key k t : same_store t (acquire_key k t).
Proof. unfold acquire_key. destruct (isAtom k); repeat split. Qed.

Lemma same_store_release_key k t : same_store t (release_key k t).
Proof. unfold release_key. destruct (isAtom k); repeat split. Qed.

Lemma same_store_release_value v t : same_store t (release_value v t).
Proof. unfold release_value. destruct (isAtom v); [|destruct (isRecord v)]; repeat split. Qed.

Lemma uint_wrap_succ a : uint_wrap (uint_wrap a + 1) = uint_wrap (a + 1).
Proof. unfold uint_wrap. apply Zplus_mod_idemp_l. Qed.

Lemma uint_wrap_pred a : uint_wrap (uint_wrap a - 1) = uint_wrap (a - 1).
Proof. unfold uint_wrap. apply Zminus_mod_idemp_l. Qed.

Lemma accounted_update base t n nd :
  is_Some (nodes t !! n) -> accounted base t -> accounted base (update_node t n nd).
Proof.
  intros [old Hn] (H1 & H2 & H3). unfold accounted, update_node. simpl.
  assert (Hsize : size (<[n := nd]> (nodes t)) = size (nodes t)).
  { rewrite <- (insert_delete_id _ _ _ Hn) at 2. rewrite <- insert_delete_eq.
    rewrite !map_size_insert_None by apply lookup_delete_eq. reflexivity. }
  rewrite Hsize. split; [|auto].
  intros x Hx. apply H1. destruct (decide (x = n)) as [->|Hne]; [eauto|].
  rewrite lookup_insert_ne in Hx by congruence. exact Hx.
Qed.

Lemma accounted_new base t key n t' :
  accounted base t -> new_trie_node t key = (Some n, t') ->
  accounted base t' /\ nodes t !! n = None /\ nodes t' = <[n := mkNode 0 key None NoChildren]> (nodes t).
Proof.
  intros (H1 & H2 & H3) Hnew. unfold new_trie_node in Hnew.
  assert (Hfresh : nodes t !! next_node t = None).
  { destruct (nodes t !! next_node t) eqn:E; [|reflexivity].
    assert (next_node t < next_node t)%nat by (apply H1; eauto). lia. }
  assert (Hsz : size (<[next_node t := mkNode 0 key None NoChildren]> (nodes t))
                = S (size (nodes t))) by (apply map_size_insert_None; exact Hfresh).
  destruct (alloc_pool t) as [p|] eqn:Hp.
  - destruct (pool_size p + sizeof_trie_node <=? pool_limit p); [|discriminate].
    injection Hnew as <- <-. simpl.
    rewrite nodes_acquire_key. simpl. split; [|auto].
    unfold accounted, update_node. simpl.
    rewrite nodes_acquire_key, node_count_acquire_key, alloc_pool_acquire_key. simpl.
    rewrite Hsz. split; [|split].
    + intros x Hx. replace (next_node (acquire_key key _)) with (S (next_node t))
        by (unfold acquire_key; destruct (isAtom key); reflexivity).
      destruct (decide (x = next_node t)) as [->|Hne]; [lia|].
      rewrite lookup_insert_ne in Hx by congruence. specialize (H1 x Hx). lia.
    + rewrite H2, uint_wrap_succ. f_equal. lia.
    + rewrite H3. lia.
  - injection Hnew as <- <-. simpl.
    rewrite nodes_acquire_key. simpl. split; [|auto].
    unfold accounted, update_node. simpl.
    rewrite nodes_acquire_key, node_count_acquire_key, alloc_pool_acquire_key. simpl.
    rewrite Hsz, Hp. split; [|split; [|exact I]].
    + intros x Hx. replace (next_node (acquire_key key _)) with (S (next_node t))
        by (unfold acquire_key; destruct (isAtom key); reflexivity).
      destruct (decide (x = next_node t)) as [->|Hne]; [lia|].
      rewrite lookup_insert_ne in Hx by congruence. specialize (H1 x Hx). lia.
    + rewrite H2, uint_wrap_succ. f_equal. lia.
Qed.

Lemma accounted_dealloc base t n :
  is_Some (nodes t !! n) -> accounted base t -> accounted base (dealloc_node t n).
Proof.
  intros [old Hn] (H1 & H2 & H3). unfold accounted, dealloc_node, PL_free_node.
  assert (Hsz : Z.of_nat (size (delete n (nodes t))) = Z.of_nat (size (nodes t)) - 1).
  { rewrite map_size_delete_Some by eauto.
    assert (size (nodes t) <> 0)%nat.
    { intros H0. apply map_size_empty_inv in H0. rewrite H0 in Hn. discriminate. }
    lia. }
  simpl. destruct (alloc_pool t) as [p|] eqn:Hp; simpl; rewrite Hsz.
  - split; [|split].
    + intros x Hx. apply H1. destruct (decide (x = n)) as [->|Hne]; [eauto|].
      rewrite lookup_delete_ne in Hx by congruence. exact Hx.
    + rewrite H2, uint_wrap_pred. reflexivity.
    + rewrite H3. lia.
  - split; [|split; [|rewrite ?Hp; exact I]].
    + intros x Hx. apply H1. destruct (decide (x = n)) as [->|Hne]; [eauto|].
      rewrite lookup_delete_ne in Hx by congruence. exact Hx.
    + rewrite H2, uint_wrap_pred. reflexivity.
Qed.

Lemma accounted_clear_node base : forall fuel t n dealloc t',
  accounted base t -> clear_node fuel t n dealloc = Some t' -> accounted base t'.
Proof.
  induction fuel as [|fuel IH]; intros t n dealloc t' Hacc Hrun; [discriminate|].
  simpl in Hrun. destruct (nodes t !! n) as [nd|] eqn:Hn; [|discriminate]. simpl in Hrun.
  set (t2 := if tn_value nd =? 0 then release_key (tn_key nd) t
             else release_value (tn_value nd) (release_key (tn_key nd) t)) in *.
  assert (Hsame : same_store t t2).
  { unfold t2. destruct (tn_value nd =? 0); [apply same_store_release_key|].
    eapply same_store_trans; [apply same_store_release_key|apply same_store_release_value]. }
  assert (Hacc2 : accounted base t2) by (eapply accounted_same; eauto).
  assert (Hn2 : is_Some (nodes t2 !! n)) by (destruct Hsame as [-> _]; eauto).
  set (t3 := update_node t2 n (set_children nd NoChildren)) in *.
  assert (Hacc3 : accounted base t3) by (apply accounted_update; assumption).
  assert (Hn3 : is_Some (nodes t3 !! n)).
  { unfold t3, update_node. simpl. rewrite lookup_insert_eq. eauto. }
  assert (Hacc4 : accounted base (if dealloc then dealloc_node t3 n else t3)).
  { destruct dealloc; [apply accounted_dealloc; assumption|assumption]. }
  destruct (tn_children nd) as [|k c|table].
  - injection Hrun as <-. exact Hacc2.
  - eapply IH; eauto.
  - revert Hrun Hacc4. generalize (if dealloc then dealloc_node t3 n else t3).
    induction table as [|e table IHt]; intros t0 Hrun Hacc0.
    + simpl in Hrun. injection Hrun as <-. exact Hacc0.
    + simpl in Hrun. destruct (clear_node fuel t0 (snd e) true) as [t5|] eqn:E.
      * eapply IHt; [exact Hrun|]. eapply IH; eauto.
      * exfalso. clear -Hrun. induction table as [|e' table IHt']; [discriminate|].
        simpl in Hrun. auto.
Qed.

Lemma accounted_prune_node base : forall fuel t n t',
  accounted base t -> prune_node fuel t n = Some t' -> accounted base t'.
Proof.
  induction fuel as [|fuel IH]; intros t n t' Hacc Hrun; [discriminate|].
  simpl in Hrun. destruct (nodes t !! n) as [nd|] eqn:Hn; [|discriminate]. simpl in Hrun.
  destruct (tn_parent nd) as [p|]; [|injection Hrun as <-; exact Hacc].
  destruct (nodes t !! p) as [pd|] eqn:Hp; [|discriminate]. simpl in Hrun.
  unfold destroy_node in Hrun.
  destruct (tn_children pd) as [|k c|table].
  - destruct (clear_node (S fuel) t n true) as [t1|] eqn:E; [|discriminate]. simpl in Hrun.
    eapply IH; [|exact Hrun]. eapply accounted_clear_node; eauto.
  - destruct (clear_node (S fuel) _ n true) as [t1|] eqn:E; [|discriminate]. simpl in Hrun.
    eapply IH; [|exact Hrun]. eapply accounted_clear_node; [|exact E].
    apply accounted_update; eauto.
  - destruct (clear_node (S fuel) _ n true) as [t1|] eqn:E; [|discriminate]. simpl in Hrun.
    assert (Hacc1 : accounted base t1).
    { eapply accounted_clear_node; [|exact E]. apply accounted_update; eauto. }
    destruct (length (deleteHTable table (tn_key nd)) =? 0)%nat.
    + eapply IH; eauto.
    + injection Hrun as <-. exact Hacc1.
Qed.

Lemma accounted_insert_child base t n key r t' :
  accounted base t -> insert_child t n key = Some (r, t') -> accounted base t'.
Proof.
  intros Hacc Hrun. unfold insert_child in Hrun.
  destruct (nodes t !! n) as [nd|] eqn:Hn; [|discriminate]. simpl in Hrun.
  destruct (new_trie_node t key) as [[new|] t1] eqn:Hnew.
  - destruct (accounted_new _ _ _ _ _ Hacc Hnew) as (Hacc1 & Hfresh & Hnodes1).
    assert (Hne : n <> new) by (intros ->; congruence).
    assert (Hn1 : is_Some (nodes t1 !! n)).
    { rewrite Hnodes1, lookup_insert_ne by congruence. eauto. }
    assert (Hnew1 : nodes t1 !! new = Some (mkNode 0 key None NoChildren)).
    { rewrite Hnodes1. apply lookup_insert_eq. }
    assert (Hgo : forall c r0 t0,
      (newd ← nodes (update_node t1 n (set_children nd c)) !! new;
       Some (r0, update_node (update_node t1 n (set_children nd c)) new
                              (set_parent newd (Some n)))) = Some (r, t0) ->
      accounted base t0).
    { intros c r0 t0 H.
      destruct (nodes (update_node t1 n (set_children nd c)) !! new) as [newd|] eqn:E;
        [|discriminate].
      simpl in H. injection H as _ <-.
      apply accounted_update; [eauto|]. apply accounted_update; assumption. }
    destruct (tn_children nd) as [|k c|table].
    + eapply Hgo. exact Hrun.
    + destruct (k =? key).
      * injection Hrun as _ <-. exact Hacc1.
      * eapply Hgo. exact Hrun.
    + destruct (addHTable table key new) as [old table'] eqn:Hadd.
      destruct (new =? old)%nat.
      * eapply Hgo. exact Hrun.
      * unfold destroy_node in Hrun.
        destruct (clear_node 1 _ new true) as [t3|] eqn:E; [|discriminate].
        simpl in Hrun. injection Hrun as _ <-.
        eapply accounted_clear_node; [|exact E]. apply accounted_update; assumption.
  - injection Hrun as _ <-.
    unfold new_trie_node in Hnew.
    destruct (alloc_pool t) as [p|];
      [destruct (pool_size p + sizeof_trie_node <=? pool_limit p)|]; try discriminate.
    injection Hnew as <-. exact Hacc.
Qed.

Lemma accounted_follow_node base t n key add r t' :
  accounted base t -> follow_node t n key add = Some (r, t') -> accounted base t'.
Proof.
  intros Hacc Hrun. unfold follow_node in Hrun.
  destruct (get_child t n key) as [[c|]|]; simpl in Hrun; [| |discriminate].
  - injection Hrun as _ <-. exact Hacc.
  - destruct add; [eapply accounted_insert_child; eauto|]. injection Hrun as _ <-. exact Hacc.
Qed.

Lemma accounted_prune_error base fuel t n t' :
  accounted base t -> prune_error fuel t n = Some t' -> accounted base t'.
Proof.
  intros Hacc Hrun. unfold prune_error in Hrun.
  destruct (follow_node t n TRIE_ERROR_VAL true) as [[r t1]|] eqn:E; [|discriminate].
  simpl in Hrun. destruct r as [n'|]; [|discriminate]. simpl in Hrun.
  eapply accounted_prune_node; [|exact Hrun]. eapply accounted_follow_node; eauto.
Qed.

Lemma accounted_intern base t m w add i t' :
  accounted base t -> trie_intern_indirect t m w add = Some (i, t') -> accounted base t'.
Proof.
  intros Hacc Hrun. unfold trie_intern_indirect in Hrun.
  destruct (intern_indirect _ m w add) as [[i' tbl']|]; [|discriminate].
  simpl in Hrun. injection Hrun as _ <-. exact Hacc.
Qed.

Lemma accounted_lookup_step base fuel add ls node a p ls' :
  accounted base (ls_trie ls) -> lookup_step fuel add ls node a p = Some ls' ->
  accounted base (ls_trie ls').
Proof.
  intros Hacc Hrun. unfold lookup_step in Hrun.
  destruct (ls_mem ls !! p) as [w|]; [|discriminate]. simpl in Hrun.
  destruct (tag w =? TAG_VAR).
  { destruct (isVar w);
      (destruct (follow_node (ls_trie ls) node _ add) as [[n t']|] eqn:E; [|discriminate]);
      simpl in Hrun; injection Hrun as <-; simpl; eapply accounted_follow_node; eauto. }
  destruct (tag w =? TAG_ATTVAR).
  { destruct (prune_error fuel (ls_trie ls) node) as [t'|] eqn:E; [|discriminate].
    simpl in Hrun. injection Hrun as <-. simpl. eapply accounted_prune_error; eauto. }
  destruct (tag w =? TAG_COMPOUND).
  { destruct (ls_mem ls !! valPtr w) as [f|]; [|discriminate]. simpl in Hrun.
    destruct (add && _ && _).
    - destruct (prune_error fuel (ls_trie ls) node) as [t'|] eqn:E; [|discriminate].
      simpl in Hrun. injection Hrun as <-. simpl. eapply accounted_prune_error; eauto.
    - destruct (follow_node (ls_trie ls) node f add) as [[n t']|] eqn:E; [|discriminate].
      simpl in Hrun. injection Hrun as <-. simpl. eapply accounted_follow_node; eauto. }
  destruct (negb (isIndirect w)).
  { destruct (follow_node (ls_trie ls) node w add) as [[n t']|] eqn:E; [|discriminate].
    simpl in Hrun. injection Hrun as <-. simpl. eapply accounted_follow_node; eauto. }
  destruct (trie_intern_indirect (ls_trie ls) (ls_mem ls) w add) as [[i t1]|] eqn:E;
    [|discriminate].
  simpl in Hrun. apply accounted_intern with (base := base) in E; [|exact Hacc].
  destruct (i =? 0).
  - injection Hrun as <-. exact E.
  - destruct (follow_node t1 node i add) as [[n t']|] eqn:E'; [|discriminate].
    simpl in Hrun. injection Hrun as <-. simpl. eapply accounted_follow_node; eauto.
Qed.

Lemma accounted_lookup_loop base add : forall fuel ls lsF,
  accounted base (ls_trie ls) -> trie_lookup_loop fuel add ls = Some lsF ->
  accounted base (ls_trie lsF).
Proof.
  induction fuel as [|fuel IH]; intros ls lsF Hacc Hrun; [discriminate|].
  rewrite trie_lookup_loop_unfold in Hrun.
  destruct (ls_node ls) as [node|]; [|injection Hrun as <-; exact Hacc].
  destruct (nextTermAgenda_P (S fuel) (ls_mem ls) (ls_agenda ls)) as [[item a]|];
    [|discriminate].
  simpl in Hrun. destruct item as [| |p].
  - injection Hrun as <-. exact Hacc.
  - destruct (follow_node (ls_trie ls) node TRIE_KEY_POP add) as [[n t']|] eqn:E;
      [|discriminate].
    simpl in Hrun. eapply IH; [|exact Hrun]. simpl. eapply accounted_follow_node; eauto.
  - destruct (lookup_step (S fuel) add ls node a p) as [ls'|] eqn:E; [|discriminate].
    simpl in Hrun. eapply IH; [|exact Hrun]. eapply accounted_lookup_step; eauto.
Qed.

Lemma lookup_accounted (base : Z) (fuel : nat) (t : trie) (m : mem) (k : Z) (add : bool)
    (rc : Z) (nodep : option node_id) (t' : trie) (m' : mem) :
  accounted base t ->
  trie_lookup fuel t m k add = Some (rc, nodep, t', m') ->
  accounted base t'.
Proof.
  intros Hacc Hrun. unfold trie_lookup in Hrun.
  destruct (trie_lookup_loop fuel add _) as [ls|] eqn:Hloop; [|discriminate].
  simpl in Hrun. apply accounted_lookup_loop with (base := base) in Hloop; [|exact Hacc].
  destruct (clear_vars fuel (ls_mem ls) k (ls_var_number ls)); [|discriminate].
  simpl in Hrun.
  destruct (ls_rc ls =? TRUE); [destruct (ls_node ls)|]; injection Hrun as _ _ <- _;
    exact Hloop.
Qed.

(** The accounting survives a lookup, with or without additions and
    whatever its return code: after trie_lookup the node counter is
    still the number of nodes allocated and not freed, and the pool is
    charged for exactly these. *)
Theorem trie_lookup_accounted (base : Z) (fuel : nat) (t : trie) (m : mem) (k : Z) (add : bool)
    (rc : Z) (nodep : option node_id) (t' : trie) (m' : mem) :
  accounted base t ->
  trie_lookup fuel t m k add = Some (rc, nodep, t', m') ->
  accounted base t'.
Proof. apply lookup_accounted. Qed.

(** The accounting survives trie_delete, with and without pruning. *)
Theorem trie_delete_accounted (base : Z) (fuel : nat) (t : trie) (node : node_id)
    (prune : bool) (t' : trie) :
  accounted base t ->
  trie_delete fuel t node prune = Some t' ->
  accounted base t'.
Proof.
  intros Hacc Hrun. unfold trie_delete in Hrun.
  destruct (nodes t !! node) as [nd|] eqn:Hn; [|discriminate]. simpl in Hrun.
  destruct (tn_value nd =? 0); [injection Hrun as <-; exact Hacc|].
  destruct prune.
  - destruct (prune_node fuel t node) as [t1|] eqn:E; [|discriminate].
    simpl in Hrun. injection Hrun as <-.
    apply accounted_prune_node with (base := base) in E; [|exact Hacc].
    exact E.
  - simpl in Hrun. injection Hrun as <-.
    eapply accounted_same; [|apply accounted_update; [eauto|exact Hacc]].
    eapply same_store_trans; [apply same_store_release_value|]. repeat split.
Qed.

(** The accounting survives trie_insert, whether the key is new, is
    already there, or is refused. *)
Theorem trie_insert_accounted (base : Z) (fuel : nat) (t : trie) (m : mem) (Key Value : Z)
    (update : bool) (r : result) :
  accounted base t ->
  trie_insert fuel t m Key Value update = Some r ->
  accounted base (r_trie r).
Proof.
  intros Hacc Hrun. unfold trie_insert in Hrun.
  destruct (trie_lookup fuel t m Key true) as [[[[rc nodep] t1] m1]|] eqn:Hlook;
    [|discriminate].
  simpl in Hrun. apply lookup_accounted with (base := base) in Hlook; [|exact Hacc].
  destruct (rc =? TRUE).
  2:{ destruct (trie_error rc) as [rc' exc]. injection Hrun as <-. exact Hlook. }
  destruct nodep as [node|]; [|discriminate]. simpl in Hrun.
  destruct (intern_value fuel t1 m1 Value) as [[val t2]|] eqn:Hval; [|discriminate].
  simpl in Hrun.
  assert (H2 : accounted base t2).
  { eapply accounted_same; [|exact Hlook]. unfold intern_value in Hval.
    destruct (deRef fuel m1 Value) as [vp|]; [|discriminate]. simpl in Hval.
    destruct (m1 !! vp) as [w|]; [|discriminate]. simpl in Hval.
    destruct (isAtom w || isTaggedInt w); [injection Hval as _ <-; apply same_store_refl|].
    unfold PL_record in Hval.
    repeat match type of Hval with
    | (match ?x with _ => _ end) = _ => destruct x; try discriminate
    | (mbind _ ?x) = _ => destruct x; try discriminate; simpl in Hval
    end.
    injection Hval as _ <-. repeat split. }
  destruct (nodes t2 !! node) as [nd|] eqn:Hnd; [|discriminate]. simpl in Hrun.
  assert (Hup : forall v, accounted base (update_node (acquire_key v t2) node (set_value nd v))).
  { intros v. apply accounted_update.
    - destruct (same_store_acquire_key v t2) as [-> _]. eauto.
    - eapply accounted_same; [apply same_store_acquire_key|exact H2]. }
  assert (Her : forall v, accounted base (PL_erase v t2)).
  { intros v. eapply accounted_same; [|exact H2]. repeat split. }
  destruct (tn_value nd =? 0); simpl in Hrun.
  - injection Hrun as <-. simpl.
    eapply accounted_same; [|apply (Hup val)]. repeat split.
  - destruct update.
    + destruct (equal_value t2 (tn_value nd) val); simpl in Hrun.
      * destruct (isRecord val); injection Hrun as <-; simpl; auto.
      * injection Hrun as <-. simpl.
        eapply accounted_same; [apply same_store_release_value|apply Hup].
    + injection Hrun as <-. simpl. destruct (isRecord val); auto.
Qed.

Lemma accounted_b_sound base t : accounted_b base t = true -> accounted base t.
Proof.
  unfold accounted_b. intros H. apply andb_true_iff in H as [H H3].
  apply andb_true_iff in H as [H1 H2]. rewrite forallb_forall in H1.
  split; [|split].
  - intros x [nd Hx]. apply Nat.ltb_lt.
    apply (H1 (x, nd)). apply list_elem_of_In, elem_of_map_to_list. exact Hx.
  - apply Z.eqb_eq. exact H2.
  - destruct (alloc_pool t); [apply Z.eqb_eq; exact H3|exact I].
Qed.

Lemma trie_lookup_accounted_witness : accounted 0 trie_pooled_lookup.
Proof.
  apply (trie_lookup_accounted 0 100 trie_pooled term_mem 10 true
           TRUE (Some 8%nat) trie_pooled_lookup term_mem).
  - apply accounted_b_sound. vm_compute. reflexivity.
  - vm_compute. reflexivity.
Defined.

Lemma trie_delete_accounted_witness :
  accounted 0 (deleted trie_pooled_term 8%nat true).
Proof.
  apply (trie_delete_accounted 0 10 trie_pooled_term 8%nat true).
  - apply accounted_b_sound. vm_compute. reflexivity.
  - vm_compute. reflexivity.
Defined.

Lemma trie_insert_accounted_witness : accounted 0 trie_pooled_term.
Proof.
  destruct (trie_insert 100 trie_pooled term_mem 10 6 false) as [r|] eqn:H.
  - replace trie_pooled_term with (r_trie r)
      by (unfold trie_pooled_term; rewrite H; reflexivity).
    apply (trie_insert_accounted 0 100 trie_pooled term_mem 10 6 false r).
    + apply accounted_b_sound. vm_compute. reflexivity.
    + exact H.
  - vm_compute in H. discriminate.
Defined.

(** After the addition of f(X, a, g(X, Y)) to the pooled trie and after
    its deletion with pruning the pool is charged for the root and eight
    nodes: pruning gives nothing back. *)
Example pooled_charge :
  (pool_size <$> alloc_pool trie_pooled_term) = Some (9 * sizeof_trie_node)
  /\ (pool_size <$> alloc_pool (deleted trie_pooled_term 8%nat true))
     = Some (9 * sizeof_trie_node)
  /\ node_count (deleted trie_pooled_term 8%nat true) = 8.
Proof. vm_compute. repeat split. Qed.

Lemma grows_refl t : grows t t.
Proof.
  split; [eauto|]. destruct (indirects t) as [tb|]; [|exact I]. exists tb. split; reflexivity.
Qed.

Lemma grows_trans t1 t2 t3 : grows t1 t2 -> grows t2 t3 -> grows t1 t3.
Proof.
  intros [A1 A2] [B1 B2]. split.
  - intros n nd k c Hn Hc. destruct (A1 n nd k c Hn Hc) as (nd' & Hn' & Hc'). eauto.
  - destruct (indirects t1) as [tb|]; [|exact I].
    destruct A2 as (tb' & Htb' & Hp). rewrite Htb' in B2.
    destruct B2 as (tb'' & Htb'' & Hp'). exists tb''. split; [exact Htb''|]. etransitivity; eauto.
Qed.

Lemma follow_node_add_facts t n key c t' :
  fresh_ids t ->
  follow_node t n key true = Some (Some c, t') ->
  get_child t' n key = Some (Some c)
  /\ (forall n' k', is_Some (nodes t !! n') -> (n' <> n \/ k' <> key) ->
        get_child t' n' k' = get_child t n' k')
  /\ fresh_ids t' /\ indirects t' = indirects t /\ same_records t t'.
Proof.
  intros Hfresh Hf. unfold follow_node in Hf.
  destruct (nodes t !! n) as [nd|] eqn:Hn;
    [|unfold get_child in Hf; rewrite Hn in Hf; discriminate].
  rewrite (get_child_child_of _ _ _ _ Hn) in Hf. simpl in Hf.
  destruct (child_of nd key) as [c0|] eqn:Hc.
  { injection Hf as <- <-. rewrite (get_child_child_of _ _ _ _ Hn), Hc.
    repeat split; auto. }
  unfold insert_child in Hf. rewrite Hn in Hf. simpl in Hf.
  unfold new_trie_node in Hf. cbv zeta in Hf.
  match type of Hf with
  | context [match ?x with Some _ => _ | None => (None, t) end] =>
      destruct x as [t0|] eqn:Hcharge
  end; [|discriminate].
  assert (Ht0 : nodes t0 = nodes t /\ next_node t0 = next_node t
                /\ indirects t0 = indirects t /\ same_records t t0).
  { destruct (alloc_pool t) as [pl|];
      [destruct (pool_size pl + sizeof_trie_node <=? pool_limit pl); [|discriminate]|];
      injection Hcharge as <-; repeat split. }
  destruct Ht0 as (N0 & X0 & I0 & R0). rewrite X0 in Hf.
  set (new := next_node t) in *.
  set (t4 := acquire_key key (set_node_count (set_next_node t0 (S new))
                 (uint_wrap (node_count (set_next_node t0 (S new)) + 1)))) in *.
  assert (Hnodes4 : nodes t4 = nodes t)
    by (unfold t4; rewrite nodes_acquire_key; exact N0).
  assert (Hnew_fresh : nodes t !! new = None).
  { destruct (nodes t !! new) eqn:E; [|reflexivity].
    assert (new < new)%nat by (apply Hfresh; eauto). lia. }
  assert (Hnn : n <> new) by (intros ->; congruence).
  assert (Hind4 : indirects t4 = indirects t).
  { unfold t4, acquire_key. destruct (isAtom key); exact I0. }
  assert (Hnext4 : next_node t4 = S new).
  { unfold t4, acquire_key. destruct (isAtom key); reflexivity. }
  assert (Hrec4 : same_records t t4).
  { unfold t4, acquire_key. destruct (isAtom key); exact R0. }
  assert (Hgo : forall c',
    child_of (set_children nd c') key = Some new ->
    (forall k', k' <> key -> child_of (set_children nd c') k' = child_of nd k') ->
    let t1 := update_node
                (update_node (update_node t4 new (mkNode 0 key None NoChildren)) n
                   (set_children nd c'))
                new (set_parent (mkNode 0 key None NoChildren) (Some n)) in
    get_child t1 n key = Some (Some new)
    /\ (forall n' k', is_Some (nodes t !! n') -> (n' <> n \/ k' <> key) ->
          get_child t1 n' k' = get_child t n' k')
    /\ fresh_ids t1 /\ indirects t1 = indirects t /\ same_records t t1).
  { intros c' Hcnew Hcold t1.
    assert (Hl_new : nodes t1 !! new = Some (mkNode 0 key (Some n) NoChildren)).
    { unfold t1, update_node; simpl. apply lookup_insert_eq. }
    assert (Hl_n : nodes t1 !! n = Some (set_children nd c')).
    { unfold t1, update_node; simpl. rewrite lookup_insert_ne by congruence.
      apply lookup_insert_eq. }
    assert (Hl_other : forall x, x <> new -> x <> n -> nodes t1 !! x = nodes t !! x).
    { intros x Hx1 Hx2. unfold t1, update_node; simpl.
      rewrite !lookup_insert_ne by congruence. rewrite Hnodes4. reflexivity. }
    split; [|split; [|split; [|split]]].
    - rewrite (get_child_child_of _ _ _ _ Hl_n), Hcnew. reflexivity.
    - intros n' k' [xd Hx] Hdiff.
      destruct (decide (n' = n)) as [->|Hne].
      + destruct Hdiff as [Hd|Hd]; [congruence|].
        rewrite (get_child_child_of _ _ _ _ Hl_n), (get_child_child_of _ _ _ _ Hn).
        rewrite Hcold by exact Hd. reflexivity.
      + assert (n' <> new) by (intros ->; congruence).
        unfold get_child. rewrite Hl_other by assumption. reflexivity.
    - intros x [xd Hx]. unfold t1, update_node; simpl. rewrite Hnext4.
      destruct (decide (x = new)) as [->|Hxnew]; [lia|].
      destruct (decide (x = n)) as [->|Hxn].
      + assert (n < new)%nat by (apply Hfresh; eauto). lia.
      + rewrite Hl_other in Hx by assumption.
        assert (x < new)%nat by (apply Hfresh; eauto). lia.
    - unfold t1, update_node; simpl. exact Hind4.
    - exact Hrec4. }
  unfold child_of in Hc.
  destruct (tn_children nd) as [|k c1|tbl] eqn:Hcn.
  - unfold update_node in Hf at 1. simpl in Hf.
    rewrite lookup_insert_ne in Hf by congruence.
    unfold update_node in Hf at 1. simpl in Hf. rewrite lookup_insert_eq in Hf. simpl in Hf.
    injection Hf as <- <-.
    apply (Hgo (TN_KEY key new)).
    + unfold child_of; simpl. rewrite Z.eqb_refl. reflexivity.
    + intros k' Hk'. unfold child_of; simpl. rewrite Hcn.
      destruct (key =? k') eqn:E; [apply Z.eqb_eq in E; congruence|reflexivity].
  - destruct (k =? key) eqn:Hk; [discriminate|].
    simpl in Hf.
    unfold update_node in Hf at 1. simpl in Hf.
    rewrite lookup_insert_ne in Hf by congruence.
    unfold update_node in Hf at 1. simpl in Hf. rewrite lookup_insert_eq in Hf. simpl in Hf.
    unfold addHTable in Hf. simpl in Hf. rewrite Hk in Hf. simpl in Hf.
    injection Hf as <- <-.
    apply (Hgo (TN_HASHED [(k, c1); (key, new)])).
    + unfold child_of; simpl. rewrite Hk, Z.eqb_refl. reflexivity.
    + intros k' Hk'. unfold child_of; simpl. rewrite Hcn.
      destruct (k =? k'); [reflexivity|].
      destruct (key =? k') eqn:E; [apply Z.eqb_eq in E; congruence|reflexivity].
  - unfold addHTable in Hf. rewrite Hc in Hf. simpl in Hf.
    rewrite Nat.eqb_refl in Hf.
    unfold update_node in Hf at 1. simpl in Hf.
    rewrite lookup_insert_ne in Hf by congruence.
    unfold update_node in Hf at 1. simpl in Hf. rewrite lookup_insert_eq in Hf. simpl in Hf.
    injection Hf as <- <-.
    apply (Hgo (TN_HASHED (tbl ++ [(key, new)]))).
    + unfold child_of; simpl. rewrite lookupHTable_app, Hc, Z.eqb_refl. reflexivity.
    + intros k' Hk'. unfold child_of; simpl. rewrite Hcn, lookupHTable_app.
      destruct (lookupHTable tbl k'); [reflexivity|].
      destruct (key =? k') eqn:E; [apply Z.eqb_eq in E; congruence|reflexivity].
Qed.

(** follow_node with add: the child it returns is the child of the node
    under the key afterwards; the other children of the node and the
    children of the other nodes are as before. *)
Theorem follow_node_add_child (t : trie) (n : node_id) (key : word) (c : node_id) (t' : trie) :
  fresh_ids t ->
  follow_node t n key true = Some (Some c, t') ->
  get_child t' n key = Some (Some c)
  /\ (forall n' k', is_Some (nodes t !! n') -> (n' <> n \/ k' <> key) ->
        get_child t' n' k' = get_child t n' k')
  /\ fresh_ids t' /\ indirects t' = indirects t.
Proof.
  intros Hfresh Hf.
  destruct (follow_node_add_facts t n key c t' Hfresh Hf) as (H1 & H2 & H3 & H4 & _). auto.
Qed.

Lemma get_child_inv t n k r :
  get_child t n k = Some r -> exists nd, nodes t !! n = Some nd /\ child_of nd k = r.
Proof.
  intros H. destruct (nodes t !! n) as [nd|] eqn:Hn.
  - exists nd. split; [reflexivity|]. rewrite (get_child_child_of _ _ _ _ Hn) in H. congruence.
  - unfold get_child in H. rewrite Hn in H. discriminate.
Qed.

Lemma follow_node_grows t n key c t' :
  fresh_ids t -> follow_node t n key true = Some (Some c, t') ->
  grows t t' /\ fresh_ids t' /\ same_records t t'.
Proof.
  intros Hfresh Hf.
  destruct (follow_node_add_facts t n key c t' Hfresh Hf) as (Hc & Hfr & Hfresh' & Hind & Hrec).
  split; [|split; [exact Hfresh'|exact Hrec]]. split.
  - intros n' nd k cc Hn' Hcc.
    destruct (decide (n' = n /\ k = key)) as [[-> ->]|Hne].
    + unfold follow_node in Hf. rewrite (get_child_child_of _ _ _ _ Hn'), Hcc in Hf.
      simpl in Hf. injection Hf as <- <-. eauto.
    + assert (Hg : get_child t' n' k = get_child t n' k).
      { apply Hfr; [eauto|]. destruct (decide (n' = n)); [|auto].
        destruct (decide (k = key)); [|auto]. exfalso. apply Hne. auto. }
      rewrite (get_child_child_of _ _ _ _ Hn'), Hcc in Hg.
      apply get_child_inv in Hg. exact Hg.
  - rewrite Hind. destruct (indirects t) as [tb|]; [|exact I]. exists tb. split; reflexivity.
Qed.

Lemma follow_again t n key c t' tF b :
  fresh_ids t -> follow_node t n key true = Some (Some c, t') -> grows t' tF ->
  follow_node tF n key b = Some (Some c, tF).
Proof.
  intros Hfresh Hf [Hg _].
  destruct (follow_node_add_facts t n key c t' Hfresh Hf) as (Hc & _).
  apply get_child_inv in Hc as (nd & Hn & Hcc).
  destruct (Hg n nd key c Hn Hcc) as (nd' & Hn' & Hcc').
  unfold follow_node. rewrite (get_child_child_of _ _ _ _ Hn'), Hcc'. reflexivity.
Qed.

Lemma index_of_app (e : Z * word) tbl ext : forall i0 i,
  index_of e tbl i0 = Some i -> index_of e (tbl ++ ext) i0 = Some i.
Proof.
  induction tbl as [|x r IH]; intros i0 i H; [discriminate|]. simpl in *.
  destruct (bool_decide (x = e)); [exact H|]. apply IH. exact H.
Qed.

Lemma index_of_last (e : Z * word) tbl : forall i0,
  index_of e tbl i0 = None -> index_of e (tbl ++ [e]) i0 = Some (i0 + Z.of_nat (length tbl)).
Proof.
  induction tbl as [|x r IH]; intros i0 H; simpl in *.
  - rewrite bool_decide_eq_true_2 by reflexivity. f_equal. lia.
  - destruct (bool_decide (x = e)); [discriminate|]. rewrite IH by exact H. f_equal. lia.
Qed.

Lemma set_indirects_id t tb : indirects t = Some tb -> set_indirects t (Some tb) = t.
Proof. destruct t. simpl. intros ->. reflexivity. Qed.

Lemma intern_grows t m w i t1 :
  trie_intern_indirect t m w true = Some (i, t1) ->
  grows t t1 /\ nodes t1 = nodes t /\ next_node t1 = next_node t /\ same_records t t1
  /\ forall tF b, grows t1 tF -> trie_intern_indirect tF m w b = Some (i, tF).
Proof.
  intros H. unfold trie_intern_indirect in H.
  set (tbl := match indirects t with Some tbl => tbl | None => new_indirect_table end) in *.
  unfold intern_indirect in H.
  destruct (m !! valPtr w) as [c|] eqn:Hc; [|discriminate]. simpl in H.
  assert (Hmain : exists tbl' i0, t1 = set_indirects t (Some tbl') /\ tbl `prefix_of` tbl'
            /\ index_of (tag w, c) tbl' 0 = Some i0 /\ i = indirect_surrogate (tag w) i0).
  { destruct (index_of (tag w, c) tbl 0) as [i0|] eqn:Hidx; simpl in H; injection H as <- <-.
    - exists tbl, i0. split; [reflexivity|]. split; [reflexivity|]. auto.
    - exists (tbl ++ [(tag w, c)]), (Z.of_nat (length tbl)).
      split; [reflexivity|]. split; [apply prefix_app_r; reflexivity|].
      split; [|reflexivity]. rewrite (index_of_last _ _ _ Hidx). f_equal. }
  destruct Hmain as (tbl' & i0 & -> & Hp & Hidx & ->).
  split; [|split; [reflexivity|split; [reflexivity|split; [split; reflexivity|]]]].
  - split; [eauto|]. simpl. destruct (indirects t) as [tb|]; [|exact I].
    exists tbl'. split; [reflexivity|exact Hp].
  - intros tF b [_ Hg]. simpl in Hg. destruct Hg as (tbF & HtbF & [ext ->]).
    unfold trie_intern_indirect. rewrite HtbF. unfold intern_indirect. rewrite Hc. simpl.
    rewrite (index_of_app _ _ _ _ _ Hidx). simpl.
    rewrite set_indirects_id by exact HtbF. reflexivity.
Qed.

Lemma loop_failed_none fe ls lsF :
  trie_lookup_loop fe true ls = Some lsF -> ls_node ls = None ->
  ls_rc lsF = TRUE /\ is_Some (ls_node lsF) -> False.
Proof.
  intros Hrun Hn [_ [x Hx]]. apply loop_node_none in Hrun; [|exact Hn]. subst lsF. congruence.
Qed.

Lemma lockstep b : forall fuel ls lsF,
  trie_lookup_loop fuel true ls = Some lsF ->
  ls_rc lsF = TRUE /\ is_Some (ls_node lsF) ->
  fresh_ids (ls_trie ls) ->
  (grows (ls_trie ls) (ls_trie lsF) /\ fresh_ids (ls_trie lsF)
   /\ same_records (ls_trie ls) (ls_trie lsF))
  /\ forall tF c2, grows (ls_trie lsF) tF -> (b = true -> c2 = ls_compounds ls) ->
       exists c2', trie_lookup_loop fuel b (retrie ls c2 tF) = Some (retrie lsF c2' tF).
Proof.
  induction fuel as [|fuel IH]; intros ls lsF Hrun Hsucc Hfresh; [discriminate|].
  rewrite trie_lookup_loop_unfold in Hrun.
  destruct (ls_node ls) as [node|] eqn:Hnode;
    [|exfalso; injection Hrun as <-; destruct Hsucc as [_ [x Hx]]; congruence].
  destruct (nextTermAgenda_P (S fuel) (ls_mem ls) (ls_agenda ls)) as [[item a]|] eqn:Hnext;
    [|discriminate].
  simpl in Hrun.
  (* what remains to do once the step of the first walk is known *)
  assert (Hstep : forall key t1 c t' vn' cm' m' a',
    follow_node t1 node key true = Some (Some c, t') -> fresh_ids t1 ->
    grows (ls_trie ls) t1 -> same_records (ls_trie ls) t1 ->
    trie_lookup_loop fuel true (mkLookup a' (Some c) vn' (ls_rc ls) cm' t' m') = Some lsF ->
    (grows (ls_trie ls) (ls_trie lsF) /\ fresh_ids (ls_trie lsF)
     /\ same_records (ls_trie ls) (ls_trie lsF))
    /\ grows t' (ls_trie lsF)
    /\ forall tF, grows (ls_trie lsF) tF ->
         follow_node tF node key b = Some (Some c, tF)
         /\ forall c2, (b = true -> c2 = cm') ->
              exists c2', trie_lookup_loop fuel b (mkLookup a' (Some c) vn' (ls_rc ls) c2 tF m')
                          = Some (retrie lsF c2' tF)).
  { intros key t1 c t' vn' cm' m' a' Hf Hfr1 Hg1 Hr1 Hrest.
    destruct (follow_node_grows _ _ _ _ _ Hfr1 Hf) as (Hg & Hfr' & Hr').
    destruct (IH _ _ Hrest Hsucc Hfr') as [(HgF & HfrF & HrF) Hrun2]. simpl in HgF, HrF.
    split; [split; [eapply grows_trans; [exact Hg1|]; eapply grows_trans; eauto|
                    split; [exact HfrF|]]|].
    { destruct Hr1 as [A1 A2], Hr' as [B1 B2], HrF as [C1 C2]. split; congruence. }
    split; [exact HgF|]. intros tF HtF.
    split; [exact (follow_again t1 node key c t' tF b Hfr1 Hf (grows_trans _ _ _ HgF HtF))|].
    intros c2 Hc2. exact (Hrun2 tF c2 HtF Hc2). }
  destruct item as [| |p].
  - (* the agenda is exhausted *)
    injection Hrun as <-. split; [split; [apply grows_refl|split; [exact Hfresh|split; reflexivity]]|].
    intros tF c2 _ _. exists c2. rewrite trie_lookup_loop_unfold. simpl.
    rewrite Hnode, Hnext. reflexivity.
  - (* pop *)
    destruct (follow_node (ls_trie ls) node TRIE_KEY_POP true) as [[[c|] t']|] eqn:Hf;
      [| |discriminate]; simpl in Hrun.
    2:{ exfalso. eapply loop_failed_none; eauto. }
    destruct (Hstep _ _ _ _ _ _ _ _ Hf Hfresh (grows_refl _) (conj eq_refl eq_refl) Hrun) as (HgF & _ & Hall).
    split; [exact HgF|]. intros tF c2 HtF Hc2. destruct (Hall tF HtF) as [Hf2 Hrun2].
    destruct (Hrun2 c2 Hc2) as [c2' Hr]. exists c2'.
    rewrite trie_lookup_loop_unfold. simpl. rewrite Hnode, Hnext. simpl.
    rewrite Hf2. simpl. exact Hr.
  - (* a cell *)
    destruct (lookup_step (S fuel) true ls node a p) as [ls'|] eqn:Hls; [|discriminate].
    simpl in Hrun. unfold lookup_step in Hls.
    destruct (ls_mem ls !! p) as [w|] eqn:Hw; [|discriminate]. simpl in Hls.
    assert (Hgoal : forall (P : Prop),
      (forall tF c2, grows (ls_trie lsF) tF -> (b = true -> c2 = ls_compounds ls) ->
         exists c2', (ls2 ← lookup_step (S fuel) b (retrie ls c2 tF) node a p;
                      trie_lookup_loop fuel b ls2) = Some (retrie lsF c2' tF)) ->
      forall tF c2, grows (ls_trie lsF) tF -> (b = true -> c2 = ls_compounds ls) ->
        exists c2', trie_lookup_loop (S fuel) b (retrie ls c2 tF) = Some (retrie lsF c2' tF)).
    { intros _ H tF c2 HtF Hc2. destruct (H tF c2 HtF Hc2) as [c2' Hr]. exists c2'.
      rewrite trie_lookup_loop_unfold. simpl. rewrite Hnode, Hnext. simpl. exact Hr. }
    destruct (tag w =? TAG_VAR) eqn:Tv.
    { destruct (isVar w) eqn:Hv;
        (destruct (follow_node (ls_trie ls) node _ true) as [[[c|] t']|] eqn:Hf;
         [| |discriminate]; simpl in Hls; injection Hls as <-;
         [|exfalso; eapply loop_failed_none; eauto]);
        destruct (Hstep _ _ _ _ _ _ _ _ Hf Hfresh (grows_refl _) (conj eq_refl eq_refl) Hrun) as (HgF & _ & Hall);
        (split; [exact HgF|]); apply (Hgoal True); intros tF c2 HtF Hc2;
        destruct (Hall tF HtF) as [Hf2 Hrun2];
        destruct (Hrun2 c2 Hc2) as [c2' Hr]; exists c2';
        unfold lookup_step; simpl; rewrite Hw; simpl; rewrite Tv, Hv; simpl;
        rewrite Hf2; simpl; exact Hr. }
    destruct (tag w =? TAG_ATTVAR) eqn:Ta.
    { exfalso. destruct (prune_error (S fuel) (ls_trie ls) node) as [t'|]; [|discriminate].
      simpl in Hls. injection Hls as <-. eapply loop_failed_none; eauto. }
    destruct (tag w =? TAG_COMPOUND) eqn:Tc.
    { destruct (ls_mem ls !! valPtr w) as [f|] eqn:Hfn; [|discriminate]. simpl in Hls.
      cbv beta iota zeta in Hls. simpl andb in Hls.
      destruct ((ls_compounds ls + 1 =? 1000) && negb (is_acyclic (ls_mem ls) p)) eqn:Hcyc.
      { exfalso. destruct (prune_error (S fuel) (ls_trie ls) node) as [t'|]; [|discriminate].
        simpl in Hls. injection Hls as <-. eapply loop_failed_none; eauto. }
      destruct (follow_node (ls_trie ls) node f true) as [[[c|] t']|] eqn:Hf;
        [| |discriminate]; simpl in Hls; injection Hls as <-;
        [|exfalso; eapply loop_failed_none; eauto].
      destruct (Hstep _ _ _ _ _ _ _ _ Hf Hfresh (grows_refl _) (conj eq_refl eq_refl) Hrun) as (HgF & _ & Hall).
      split; [exact HgF|]. apply (Hgoal True). intros tF c2 HtF Hc2.
      destruct (Hall tF HtF) as [Hf2 Hrun2].
      destruct b.
      - specialize (Hc2 eq_refl). subst c2.
        destruct (Hrun2 (ls_compounds ls + 1) (fun _ => eq_refl)) as [c2' Hr].
        exists c2'. unfold lookup_step; simpl. rewrite Hw; simpl. rewrite Tv, Ta, Tc.
        rewrite Hfn. simpl. cbv beta iota zeta. simpl andb. rewrite Hcyc.
        rewrite Hf2. simpl. exact Hr.
      - destruct (Hrun2 c2) as [c2' Hr]; [discriminate|].
        exists c2'. unfold lookup_step; simpl. rewrite Hw; simpl. rewrite Tv, Ta, Tc.
        rewrite Hfn. simpl. rewrite Hf2. simpl. exact Hr. }
    destruct (negb (isIndirect w)) eqn:Hi.
    { destruct (follow_node (ls_trie ls) node w true) as [[[c|] t']|] eqn:Hf;
        [| |discriminate]; simpl in Hls; injection Hls as <-;
        [|exfalso; eapply loop_failed_none; eauto].
      destruct (Hstep _ _ _ _ _ _ _ _ Hf Hfresh (grows_refl _) (conj eq_refl eq_refl) Hrun) as (HgF & _ & Hall).
      split; [exact HgF|]. apply (Hgoal True). intros tF c2 HtF Hc2.
      destruct (Hall tF HtF) as [Hf2 Hrun2].
      destruct (Hrun2 c2 Hc2) as [c2' Hr]. exists c2'.
      unfold lookup_step; simpl. rewrite Hw; simpl. rewrite Tv, Ta, Tc, Hi.
      rewrite Hf2. simpl. exact Hr. }
    destruct (trie_intern_indirect (ls_trie ls) (ls_mem ls) w true) as [[i t1]|] eqn:Hin;
      [|discriminate].
    simpl in Hls.
    destruct (intern_grows _ _ _ _ _ Hin) as (Hg1 & Hn1 & Hx1 & Hrc1 & Hagain).
    assert (Hfr1 : fresh_ids t1).
    { intros x Hx. rewrite Hn1 in Hx. rewrite Hx1. apply Hfresh. exact Hx. }
    destruct (i =? 0) eqn:Hi0.
    { exfalso. injection Hls as <-. eapply loop_failed_none; eauto. }
    destruct (follow_node t1 node i true) as [[[c|] t']|] eqn:Hf;
      [| |discriminate]; simpl in Hls; injection Hls as <-;
      [|exfalso; eapply loop_failed_none; eauto].
    destruct (Hstep _ _ _ _ _ _ _ _ Hf Hfr1 Hg1 Hrc1 Hrun) as (HgF & HgF' & Hall).
    split; [exact HgF|]. apply (Hgoal True). intros tF c2 HtF Hc2.
    destruct (Hall tF HtF) as [Hf2 Hrun2].
    destruct (Hrun2 c2 Hc2) as [c2' Hr]. exists c2'.
    unfold lookup_step; simpl. rewrite Hw; simpl. rewrite Tv, Ta, Tc, Hi.
    rewrite (Hagain tF b).
    2:{ destruct (follow_node_grows _ _ _ _ _ Hfr1 Hf) as [Hg _].
        eapply grows_trans; [exact Hg|]. eapply grows_trans; eauto. }
    simpl. rewrite Hi0. rewrite Hf2. simpl. exact Hr.
Qed.

(** After a lookup that added a term and returned node [n], a second
    lookup of the same term, with or without adding, returns [n] again
    and leaves the trie as it is. *)
Theorem lookup_after_insert (fuel : nat) (t : trie) (m : mem) (k : Z) (n : node_id)
    (t' : trie) (m' : mem) (b : bool) :
  fresh_ids t ->
  wf_mem m ->
  Z.of_nat (size m) < 2 ^ 57 ->
  trie_lookup fuel t m k true = Some (TRUE, Some n, t', m') ->
  trie_lookup fuel t' m' k b = Some (TRUE, Some n, t', m').
Proof.
  intros Hfresh Hwm Hsize Hrun. unfold trie_lookup in Hrun.
  destruct (trie_lookup_loop fuel true _) as [ls|] eqn:Hloop; [|discriminate].
  simpl in Hrun.
  pose proof (lookup_loop_cleared fuel t m k true ls Hwm Hsize Hloop) as Hclear.
  rewrite Hclear in Hrun. simpl in Hrun.
  destruct (ls_rc ls =? TRUE) eqn:Hrc; [|congruence].
  destruct (ls_node ls) as [node|] eqn:Hnode; [|congruence].
  injection Hrun as -> <- <-. apply Z.eqb_eq in Hrc.
  destruct (lockstep b fuel _ ls Hloop) as [_ Hrun2];
    [split; [exact Hrc|rewrite Hnode; eauto]|exact Hfresh|].
  destruct (Hrun2 (ls_trie ls) 0) as [c2' Hr]; [apply grows_refl|reflexivity|].
  unfold trie_lookup. unfold retrie in Hr. simpl in Hr. rewrite Hr. simpl.
  rewrite Hclear. simpl. rewrite Hrc, Hnode. reflexivity.
Qed.

Lemma fresh_ids_create : fresh_ids trie_create.
Proof.
  intros x [nd Hx]. unfold trie_create in Hx. simpl in Hx.
  apply lookup_singleton_Some in Hx as [<- _]. simpl. unfold root. lia.
Qed.

Lemma lookup_after_insert_witness :
  trie_lookup 100 trie_term term_mem 10 false = Some (TRUE, Some 8%nat, trie_term, term_mem).
Proof.
  apply (lookup_after_insert 100 trie_create term_mem 10 8%nat trie_term term_mem false).
  - exact fresh_ids_create.
  - apply wf_mem_b_sound. vm_compute. reflexivity.
  - vm_compute. reflexivity.
  - vm_compute. reflexivity.
Defined.

Lemma fresh_ids_b_sound t : fresh_ids_b t = true -> fresh_ids t.
Proof.
  unfold fresh_ids_b. rewrite forallb_forall. intros H x [nd Hx].
  apply Nat.ltb_lt. apply (H (x, nd)). apply list_elem_of_In, elem_of_map_to_list. exact Hx.
Qed.

Lemma follow_node_add_child_witness :
  match follow_node trie_a root (atom 2) true with
  | Some (Some c, t') =>
      get_child t' root (atom 2) = Some (Some c)
      /\ (forall n' k', is_Some (nodes trie_a !! n') -> (n' <> root \/ k' <> atom 2) ->
            get_child t' n' k' = get_child trie_a n' k')
      /\ fresh_ids t' /\ indirects t' = indirects trie_a
  | _ => False
  end.
Proof.
  destruct (follow_node trie_a root (atom 2) true) as [[[c|] t']|] eqn:H.
  - apply (follow_node_add_child trie_a root (atom 2) c t').
    + apply fresh_ids_b_sound. vm_compute. reflexivity.
    + exact H.
  - vm_compute in H. discriminate.
  - vm_compute in H. discriminate.
Defined.

(** A lookup that adds a term keeps what was there: every child and every
    entry of the indirect table stays where it was. *)
Lemma lookup_add_grows fuel t m k n t' m' :
  fresh_ids t ->
  trie_lookup fuel t m k true = Some (TRUE, Some n, t', m') ->
  grows t t' /\ fresh_ids t' /\ same_records t t'.
Proof.
  intros Hfresh Hrun. unfold trie_lookup in Hrun.
  destruct (trie_lookup_loop fuel true _) as [ls|] eqn:Hloop; [|discriminate].
  simpl in Hrun.
  destruct (clear_vars fuel (ls_mem ls) k (ls_var_number ls)) as [m1|]; [|discriminate].
  simpl in Hrun.
  destruct (ls_rc ls =? TRUE) eqn:Hrc; [|congruence].
  destruct (ls_node ls) as [node|] eqn:Hnode; [|congruence].
  injection Hrun as _ <- _. apply Z.eqb_eq in Hrc.
  destruct (lockstep true fuel _ ls Hloop) as [H _];
    [split; [exact Hrc|rewrite Hnode; eauto]|exact Hfresh|].
  exact H.
Qed.

(** A term that was added stays found: after the lookup that added the
    term at [k1] and returned [n1], and whatever was added to the trie
    afterwards, a lookup of the term returns [n1] and changes nothing. *)
Lemma lookup_in_grown fuel t m k n t' m' tF b :
  fresh_ids t ->
  trie_lookup fuel t m k true = Some (TRUE, Some n, t', m') ->
  grows t' tF ->
  trie_lookup fuel tF m k b = Some (TRUE, Some n, tF, m').
Proof.
  intros Hfresh Hrun HtF. unfold trie_lookup in Hrun.
  destruct (trie_lookup_loop fuel true _) as [ls|] eqn:Hloop; [|discriminate].
  simpl in Hrun.
  destruct (clear_vars fuel (ls_mem ls) k (ls_var_number ls)) as [m1|] eqn:Hclear;
    [|discriminate].
  simpl in Hrun.
  destruct (ls_rc ls =? TRUE) eqn:Hrc; [|congruence].
  destruct (ls_node ls) as [node|] eqn:Hnode; [|congruence].
  injection Hrun as <- <- <-. apply Z.eqb_eq in Hrc.
  destruct (lockstep b fuel _ ls Hloop) as [_ Hrun2];
    [split; [exact Hrc|rewrite Hnode; eauto]|exact Hfresh|].
  destruct (Hrun2 tF 0 HtF) as [c2' Hr]; [reflexivity|].
  unfold trie_lookup. unfold retrie in Hr. simpl in Hr. rewrite Hr. simpl.
  rewrite Hclear. simpl. rewrite Hrc, Hnode. reflexivity.
Qed.

(** Terms added earlier stay found after later additions: the term at
    [k1] was added and got node [n1], then the term at [k2] was added;
    a lookup of the first term in the resulting trie returns [n1] and
    leaves the trie as it is. *)
Theorem lookup_after_other_insert (fuel : nat) (t : trie) (m1 m2 : mem) (k1 k2 : Z)
    (n1 n2 : node_id) (t1 t2 : trie) (m1' m2' : mem) (b : bool) :
  fresh_ids t ->
  trie_lookup fuel t m1 k1 true = Some (TRUE, Some n1, t1, m1') ->
  trie_lookup fuel t1 m2 k2 true = Some (TRUE, Some n2, t2, m2') ->
  trie_lookup fuel t2 m1 k1 b = Some (TRUE, Some n1, t2, m1').
Proof.
  intros Hfresh H1 H2.
  destruct (lookup_add_grows _ _ _ _ _ _ _ Hfresh H1) as (_ & Hfresh1 & _).
  destruct (lookup_add_grows _ _ _ _ _ _ _ Hfresh1 H2) as [Hg2 _].
  exact (lookup_in_grown fuel t m1 k1 n1 t1 m1' t2 b Hfresh H1 Hg2).
Qed.

Lemma lookup_after_other_insert_witness :
  trie_lookup 100 trie_two term_mem 10 false = Some (TRUE, Some 8%nat, trie_two, term_mem).
Proof.
  apply (lookup_after_other_insert 100 trie_create term_mem big_mem 10 10 8%nat 12%nat
           trie_term trie_two term_mem big_mem false).
  - exact fresh_ids_create.
  - vm_compute. reflexivity.
  - vm_compute. reflexivity.
Defined.

Lemma land3_add8 r : Z.land r 3 = 0 -> Z.land (r + 8) 3 = 0.
Proof.
  change 3 with (Z.ones 2). rewrite !Z.land_ones by lia. change (2 ^ 2) with 4.
  intros H. replace (r + 8) with (r + 2 * 4) by lia. rewrite Z.mod_add by lia. exact H.
Qed.

Lemma isAtom_nonzero w : isAtom w = true -> w <> 0 /\ isRecord w = false.
Proof.
  unfold isAtom, isRecord. intros H. apply Z.eqb_eq in H. rewrite tagex_mod in H.
  change (Z.lor TAG_ATOM STG_STATIC) with 5 in H.
  split; [intros ->; discriminate|].
  apply Z.eqb_neq. change 3 with (Z.ones 2). rewrite Z.land_ones by lia. change (2 ^ 2) with 4.
  assert (w mod 4 = (w mod 32) mod 4)
    by (symmetry; apply Z.mod_mod_divide; exists 8; reflexivity).
  rewrite H0, H. discriminate.
Qed.

Lemma isTaggedInt_nonzero w : isTaggedInt w = true -> w <> 0 /\ isRecord w = false.
Proof.
  unfold isTaggedInt, isRecord. intros H. apply Z.eqb_eq in H. rewrite tagex_mod in H.
  change (Z.lor TAG_INTEGER STG_INLINE) with 3 in H.
  split; [intros ->; discriminate|].
  apply Z.eqb_neq. change 3 with (Z.ones 2). rewrite Z.land_ones by lia. change (2 ^ 2) with 4.
  assert (w mod 4 = (w mod 32) mod 4)
    by (symmetry; apply Z.mod_mod_divide; exists 8; reflexivity).
  rewrite H0, H. discriminate.
Qed.

Lemma lookup_mem_same fuel t m k add rc nodep t' m' :
  wf_mem m -> Z.of_nat (size m) < 2 ^ 57 ->
  trie_lookup fuel t m k add = Some (rc, nodep, t', m') -> m' = m.
Proof.
  intros Hwf Hsize Hrun. unfold trie_lookup in Hrun.
  destruct (trie_lookup_loop fuel add _) as [ls|] eqn:Hloop; [|discriminate].
  simpl in Hrun.
  rewrite (lookup_loop_cleared fuel t m k add ls Hwf Hsize Hloop) in Hrun. simpl in Hrun.
  destruct (ls_rc ls =? TRUE); [destruct (ls_node ls)|]; congruence.
Qed.

(** Giving a node a value keeps the children and the indirect table. *)
Lemma grows_set_value t n nd v vc k :
  nodes t !! n = Some nd ->
  grows t (set_value_count (update_node (acquire_key k t) n (set_value nd v)) vc).
Proof.
  intros Hn. split.
  - intros x xd key c Hx Hc. simpl. rewrite nodes_acquire_key.
    destruct (decide (x = n)) as [->|Hne].
    + rewrite lookup_insert_eq. rewrite Hn in Hx. injection Hx as <-. eauto.
    + rewrite lookup_insert_ne by congruence. eauto.
  - simpl. replace (indirects (acquire_key k t)) with (indirects t)
      by (unfold acquire_key; destruct (isAtom k); reflexivity).
    destruct (indirects t) as [tb|]; [|exact I]. exists tb. split; reflexivity.
Qed.

Lemma grows_records t rs nr : grows t (set_next_record (set_records t rs) nr).
Proof.
  split; [eauto|]. simpl. destruct (indirects t) as [tb|]; [|exact I].
  exists tb. split; reflexivity.
Qed.

(** Inserting the same key and value a second time: the call fails
    without an error in strict mode (trie_insert/3) and succeeds in update
    mode (trie_update/3); either way the trie holds what it held. *)
Theorem trie_insert_twice (fuel : nat) (t : trie) (m : mem) (Key Value : Z) (r1 : result)
    (update : bool) :
  fresh_ids t ->
  records_ok t ->
  wf_mem m ->
  Z.of_nat (size m) < 2 ^ 57 ->
  trie_insert fuel t m Key Value false = Some r1 ->
  r_rc r1 = TRUE ->
  exists r2,
    trie_insert fuel (r_trie r1) (r_mem r1) Key Value update = Some r2
    /\ r_rc r2 = (if update then TRUE else FALSE)
    /\ r_exception r2 = None
    /\ r_node r2 = r_node r1
    /\ r_mem r2 = r_mem r1
    /\ same_content (r_trie r1) (r_trie r2).
Proof.
  intros Hfresh (Hr0 & Hr4 & Hrlt) Hwm Hsize Hrun Hrc1. unfold trie_insert in Hrun.
  destruct (trie_lookup fuel t m Key true) as [[[[rc nodep] t1] m1]|] eqn:Hlook;
    [|discriminate].
  simpl in Hrun.
  assert (Hm1 : m1 = m) by (eapply lookup_mem_same; eauto). subst m1.
  destruct (rc =? TRUE) eqn:Erc.
  2:{ destruct (trie_error rc) as [rc' exc] eqn:Herr. injection Hrun as <-. simpl in Hrc1.
      unfold trie_error in Herr.
      destruct (rc =? TRIE_LOOKUP_CONTAINS_ATTVAR); [|destruct (rc =? TRIE_LOOKUP_CYCLIC)];
        injection Herr as <- _; discriminate. }
  apply Z.eqb_eq in Erc. subst rc.
  destruct nodep as [node|]; [|discriminate]. simpl in Hrun.
  destruct (intern_value fuel t1 m Value) as [[val t2]|] eqn:Hval; [|discriminate].
  simpl in Hrun.
  destruct (nodes t2 !! node) as [nd|] eqn:Hnd; [|discriminate]. simpl in Hrun.
  destruct (tn_value nd =? 0) eqn:Hv0; simpl in Hrun;
    [|injection Hrun as <-; discriminate].
  injection Hrun as <-. cbn [r_trie r_mem r_node r_rc r_exception].
  destruct (lookup_add_grows _ _ _ _ _ _ _ Hfresh Hlook) as (Hg1 & Hfresh1 & [Hrec1 Hnr1]).
  match goal with |- context [trie_insert _ ?T _ _ _ _] => set (T1 := T) end.
  assert (HgT1 : grows t2 T1) by (apply grows_set_value; exact Hnd).
  assert (Hnode1 : nodes T1 !! node = Some (set_value nd val)).
  { unfold T1. simpl. apply lookup_insert_eq. }
  assert (HrecT1 : records T1 = records t2 /\ next_record T1 = next_record t2).
  { unfold T1. simpl. unfold acquire_key. destruct (isAtom val); split; reflexivity. }
  destruct HrecT1 as [HrecT1 HnrT1].
  clearbody T1.
  (* the value, and what the second interning gives *)
  unfold intern_value in Hval.
  destruct (deRef fuel m Value) as [vp|] eqn:Hvp; [|discriminate]. simpl in Hval.
  destruct (m !! vp) as [w|] eqn:Hw; [|discriminate]. simpl in Hval.
  destruct (isAtom w || isTaggedInt w) eqn:Hat.
  - (* an atom or a small integer *)
    injection Hval as <- <-.
    assert (Hw0 : w <> 0 /\ isRecord w = false).
    { apply orb_true_iff in Hat as [H|H];
        [apply isAtom_nonzero|apply isTaggedInt_nonzero]; exact H. }
    destruct Hw0 as [Hw0 Hwr].
    assert (Hlook2 : trie_lookup fuel T1 m Key true = Some (TRUE, Some node, T1, m)).
    { apply (lookup_in_grown fuel t m Key node t1 m T1 true Hfresh Hlook). exact HgT1. }
    exists (mkResult (if update then TRUE else FALSE) None (Some node) T1 m). split.
    + unfold trie_insert. rewrite Hlook2. simpl.
      unfold intern_value. rewrite Hvp. simpl. rewrite Hw. simpl. rewrite Hat. simpl.
      rewrite Hnode1. simpl.
      replace (w =? 0) with false by (symmetry; apply Z.eqb_neq; exact Hw0). simpl.
      unfold equal_value. rewrite Z.eqb_refl. simpl. rewrite Hwr.
      destruct update; reflexivity.
    + destruct update; simpl; repeat split; reflexivity.
  - (* a recorded term *)
    unfold PL_record in Hval.
    destruct (compile_term fuel m Value []) as [[code vs]|] eqn:Hcode; [|discriminate].
    simpl in Hval. injection Hval as <- <-.
    assert (Hr : 0 < next_record t1 /\ Z.land (next_record t1) 3 = 0)
      by (rewrite Hnr1; auto).
    destruct Hr as [Hrpos Hrland].
    assert (Hrlt1 : forall x, is_Some (records t1 !! x) -> x < next_record t1)
      by (rewrite Hnr1, Hrec1; exact Hrlt).
    clear Hnr1 Hrec1.
    set (r := next_record t1) in *.
    set (t2 := set_next_record (set_records t1 (<[r := code]> (records t1))) (r + 8)) in *.
    assert (Hlook2 : trie_lookup fuel T1 m Key true = Some (TRUE, Some node, T1, m)).
    { apply (lookup_in_grown fuel t m Key node t1 m T1 true Hfresh Hlook).
      eapply grows_trans; [apply (grows_records t1 (<[r := code]> (records t1)) (r + 8))|].
      exact HgT1. }
    simpl in HrecT1, HnrT1.
    assert (Hfree : records T1 !! (r + 8) = None).
    { rewrite HrecT1. rewrite lookup_insert_ne by lia.
      destruct (records t1 !! (r + 8)) eqn:E; [|reflexivity].
      assert (r + 8 < r) by (apply Hrlt1; eauto). lia. }
    set (T2 := set_next_record (set_records T1 (<[r + 8 := code]> (records T1))) (r + 8 + 8)).
    assert (Hnode2 : nodes T2 !! node = Some (set_value nd r)) by exact Hnode1.
    assert (Heq : equal_value T2 r (r + 8) = true).
    { unfold equal_value.
      replace (r =? r + 8) with false by (symmetry; apply Z.eqb_neq; lia).
      unfold isRecord. rewrite Hrland, (land3_add8 r Hrland). simpl.
      unfold variantRecords, T2. simpl. rewrite HrecT1.
      rewrite lookup_insert_ne by lia. rewrite !lookup_insert_eq.
      apply bool_decide_eq_true_2. reflexivity. }
    assert (Hrec8 : isRecord (r + 8) = true).
    { unfold isRecord. rewrite (land3_add8 r Hrland). reflexivity. }
    exists (mkResult (if update then TRUE else FALSE) None (Some node) (PL_erase (r + 8) T2) m).
    split.
    + unfold trie_insert. rewrite Hlook2. simpl.
      unfold intern_value. rewrite Hvp. simpl. rewrite Hw. simpl. rewrite Hat.
      unfold PL_record. rewrite Hcode. simpl. rewrite HnrT1. fold T2.
      rewrite Hnode1. simpl.
      replace (r =? 0) with false by (symmetry; apply Z.eqb_neq; lia). simpl.
      rewrite Heq. simpl. rewrite Hrec8. destruct update; reflexivity.
    + split; [reflexivity|]. split; [reflexivity|]. split; [reflexivity|].
      split; [reflexivity|].
      unfold same_content, PL_erase, T2. simpl.
      repeat split; try reflexivity.
      rewrite delete_insert_eq. apply delete_id. exact Hfree.
Qed.

Lemma records_ok_create : records_ok trie_create.
Proof.
  split; [reflexivity|]. split; [reflexivity|].
  intros r [x Hx]. simpl in Hx. rewrite lookup_empty in Hx. discriminate.
Qed.

Lemma trie_insert_twice_witness :
  match trie_insert 100 trie_create term_mem 10 10 false with
  | Some r1 =>
      exists r2, trie_insert 100 (r_trie r1) (r_mem r1) 10 10 true = Some r2
        /\ r_rc r2 = TRUE /\ r_exception r2 = None /\ r_node r2 = r_node r1
        /\ r_mem r2 = r_mem r1 /\ same_content (r_trie r1) (r_trie r2)
  | None => False
  end.
Proof.
  destruct (trie_insert 100 trie_create term_mem 10 10 false) as [r1|] eqn:H.
  - apply (trie_insert_twice 100 trie_create term_mem 10 10 r1 true).
    + exact fresh_ids_create.
    + exact records_ok_create.
    + apply wf_mem_b_sound. vm_compute. reflexivity.
    + vm_compute. reflexivity.
    + exact H.
    + vm_compute in H. injection H as <-. reflexivity.
  - vm_compute in H. discriminate.
Defined.

(** A trie with the same nodes and the same indirect table has the same
    children. *)
Lemma grows_same t t' : nodes t' = nodes t -> indirects t' = indirects t -> grows t t'.
Proof.
  intros Hn Hi. split.
  - intros n nd k c Hx Hc. rewrite Hn. eauto.
  - rewrite Hi. destruct (indirects t) as [tb|]; [|exact I]. exists tb. split; reflexivity.
Qed.

Lemma grows_update_value t n nd v :
  nodes t !! n = Some nd -> grows t (update_node t n (set_value nd v)).
Proof.
  intros Hn. split.
  - intros x xd key c Hx Hc. simpl.
    destruct (decide (x = n)) as [->|Hne].
    + rewrite lookup_insert_eq. rewrite Hn in Hx. injection Hx as <-. eauto.
    + rewrite lookup_insert_ne by congruence. eauto.
  - simpl. destruct (indirects t) as [tb|]; [|exact I]. exists tb. split; reflexivity.
Qed.

Lemma intern_value_grows fuel t m Value val t' :
  intern_value fuel t m Value = Some (val, t') ->
  grows t t'
  /\ (forall vp w, deRef fuel m Value = Some vp -> m !! vp = Some w ->
        isAtom w || isTaggedInt w = true -> val = w /\ t' = t).
Proof.
  unfold intern_value. intros H.
  destruct (deRef fuel m Value) as [vp|] eqn:Hd; [|discriminate]. simpl in H.
  destruct (m !! vp) as [w|] eqn:Hm; [|discriminate]. simpl in H.
  destruct (isAtom w || isTaggedInt w) eqn:Hat.
  - injection H as <- <-. split; [apply grows_refl|].
    intros vp' w' Hvp Hw _. injection Hvp as <-. rewrite Hm in Hw. injection Hw as <-.
    split; reflexivity.
  - split.
    + unfold PL_record in H.
      repeat match type of H with
      | (match ?x with _ => _ end) = _ => destruct x; try discriminate
      | (mbind _ ?x) = _ => destruct x; try discriminate; simpl in H
      end.
      injection H as _ <-. apply grows_records.
    + intros vp' w' Hvp Hw Hat'. injection Hvp as <-. rewrite Hm in Hw. injection Hw as <-.
      congruence.
Qed.

(** What was inserted is found: after a successful trie_insert (or
    trie_update) a lookup of the key without additions returns the node
    of the insertion and changes nothing, and for an atom or a small
    integer as value that node holds the value. *)
Theorem trie_insert_then_lookup (fuel : nat) (t : trie) (m : mem) (Key Value : Z)
    (update : bool) (r : result) :
  fresh_ids t ->
  wf_mem m ->
  Z.of_nat (size m) < 2 ^ 57 ->
  trie_insert fuel t m Key Value update = Some r ->
  r_rc r = TRUE ->
  exists n nd,
    r_node r = Some n
    /\ r_mem r = m
    /\ trie_lookup fuel (r_trie r) m Key false = Some (TRUE, Some n, r_trie r, m)
    /\ nodes (r_trie r) !! n = Some nd
    /\ forall vp w, deRef fuel m Value = Some vp -> m !! vp = Some w ->
         isAtom w || isTaggedInt w = true -> tn_value nd = w.
Proof.
  intros Hfresh Hwm Hsize Hrun Hrc. unfold trie_insert in Hrun.
  destruct (trie_lookup fuel t m Key true) as [[[[rc nodep] t1] m1]|] eqn:Hlook;
    [|discriminate].
  simpl in Hrun.
  assert (Hm1 : m1 = m) by (eapply lookup_mem_same; eauto). subst m1.
  destruct (rc =? TRUE) eqn:Erc.
  2:{ destruct (trie_error rc) as [rc' exc] eqn:Herr. injection Hrun as <-. simpl in Hrc.
      unfold trie_error in Herr.
      destruct (rc =? TRIE_LOOKUP_CONTAINS_ATTVAR); [|destruct (rc =? TRIE_LOOKUP_CYCLIC)];
        injection Herr as <- _; discriminate. }
  apply Z.eqb_eq in Erc. subst rc.
  destruct nodep as [node|]; [|discriminate]. simpl in Hrun.
  destruct (intern_value fuel t1 m Value) as [[val t2]|] eqn:Hval; [|discriminate].
  simpl in Hrun.
  destruct (intern_value_grows _ _ _ _ _ _ Hval) as [Hg2 Hatomic].
  destruct (nodes t2 !! node) as [nd|] eqn:Hnd; [|discriminate]. simpl in Hrun.
  assert (Hfound : forall tF, grows t2 tF ->
            trie_lookup fuel tF m Key false = Some (TRUE, Some node, tF, m)).
  { intros tF HtF. apply (lookup_in_grown fuel t m Key node t1 m tF false Hfresh Hlook).
    eapply grows_trans; eauto. }
  assert (Hset : grows t2 (update_node (acquire_key val t2) node (set_value nd val))).
  { eapply grows_trans; [apply (grows_same t2 (acquire_key val t2))|].
    - apply nodes_acquire_key.
    - unfold acquire_key. destruct (isAtom val); reflexivity.
    - apply grows_update_value. rewrite nodes_acquire_key. exact Hnd. }
  assert (Hnv : forall vp w, deRef fuel m Value = Some vp -> m !! vp = Some w ->
            isAtom w || isTaggedInt w = true -> val = w /\ isRecord val = false).
  { intros vp w Hvp Hw Hat. destruct (Hatomic vp w Hvp Hw Hat) as [-> _].
    split; [reflexivity|]. apply orb_true_iff in Hat as [Hat|Hat].
    - apply isAtom_nonzero; exact Hat.
    - apply isTaggedInt_nonzero; exact Hat. }
  destruct (tn_value nd =? 0) eqn:Hv0; simpl in Hrun.
  - injection Hrun as <-. cbn [r_trie r_mem r_node r_rc r_exception] in *.
    exists node, (set_value nd val). split; [reflexivity|]. split; [reflexivity|].
    split; [|split].
    + apply Hfound. eapply grows_trans; [exact Hset|]. apply grows_same; reflexivity.
    + simpl. apply lookup_insert_eq.
    + intros vp w Hvp Hw Hat. apply (Hnv vp w Hvp Hw Hat).
  - destruct update; [|injection Hrun as <-; discriminate].
    destruct (equal_value t2 (tn_value nd) val) eqn:Heq; simpl in Hrun.
    + assert (Hold : forall vp w, deRef fuel m Value = Some vp -> m !! vp = Some w ->
                isAtom w || isTaggedInt w = true -> tn_value nd = w).
      { intros vp w Hvp Hw Hat. destruct (Hnv vp w Hvp Hw Hat) as [<- Hrec].
        unfold equal_value in Heq.
        destruct (tn_value nd =? val) eqn:E; [apply Z.eqb_eq; exact E|].
        rewrite Hrec, andb_false_r in Heq. discriminate. }
      destruct (isRecord val); injection Hrun as <-;
        cbn [r_trie r_mem r_node r_rc r_exception] in *;
        exists node, nd; (split; [reflexivity|]); (split; [reflexivity|]);
        (split; [|split; [|exact Hold]]).
      * apply Hfound. apply grows_same; reflexivity.
      * exact Hnd.
      * apply Hfound. apply grows_refl.
      * exact Hnd.
    + injection Hrun as <-. cbn [r_trie r_mem r_node r_rc r_exception] in *.
      exists node, (set_value nd val). split; [reflexivity|]. split; [reflexivity|].
      split; [|split].
      * apply Hfound. eapply grows_trans; [exact Hset|].
        apply grows_same; unfold release_value;
          destruct (isAtom (tn_value nd)); [| destruct (isRecord (tn_value nd)) | | destruct (isRecord (tn_value nd))];
          reflexivity.
      * replace (nodes (release_value (tn_value nd)
                   (update_node (acquire_key val t2) node (set_value nd val))))
          with (nodes (update_node (acquire_key val t2) node (set_value nd val)))
          by (unfold release_value; destruct (isAtom (tn_value nd));
              [|destruct (isRecord (tn_value nd))]; reflexivity).
        simpl. apply lookup_insert_eq.
      * intros vp w Hvp Hw Hat. apply (Hnv vp w Hvp Hw Hat).
Qed.

Lemma trie_insert_then_lookup_witness :
  match trie_insert 100 trie_create term_mem 10 6 false with
  | Some r =>
      exists n nd,
        r_node r = Some n /\ r_mem r = term_mem
        /\ trie_lookup 100 (r_trie r) term_mem 10 false
           = Some (TRUE, Some n, r_trie r, term_mem)
        /\ nodes (r_trie r) !! n = Some nd
        /\ forall vp w, deRef 100 term_mem 6 = Some vp -> term_mem !! vp = Some w ->
             isAtom w || isTaggedInt w = true -> tn_value nd = w
  | None => False
  end.
Proof.
  destruct (trie_insert 100 trie_create term_mem 10 6 false) as [r|] eqn:H.
  - apply (trie_insert_then_lookup 100 trie_create term_mem 10 6 false r).
    + exact fresh_ids_create.
    + apply wf_mem_b_sound. vm_compute. reflexivity.
    + vm_compute. reflexivity.
    + exact H.
    + vm_compute in H. injection H as <-. reflexivity.
  - vm_compute in H. discriminate.
Defined.

(** What interning a value gives: an atom or a small integer as it is,
    and the trie unchanged; or the handle of a new record, which was
    not in use. *)
Lemma intern_value_cases fuel t m v B t2 :
  records_ok t ->
  intern_value fuel t m v = Some (B, t2) ->
  (t2 = t /\ isRecord B = false /\ B <> 0)
  \/ (isAtom B = false /\ isRecord B = true /\ B = next_record t /\ records t !! B = None
      /\ exists code, t2 = set_next_record (set_records t (<[B := code]> (records t))) (B + 8)).
Proof.
  intros (Hr0 & Hr4 & Hrlt) H. unfold intern_value in H.
  destruct (deRef fuel m v) as [vp|]; [|discriminate]. simpl in H.
  destruct (m !! vp) as [w|]; [|discriminate]. simpl in H.
  destruct (isAtom w || isTaggedInt w) eqn:Hat.
  - injection H as <- <-. left. split; [reflexivity|].
    apply orb_true_iff in Hat as [Ha|Ha];
      [destruct (isAtom_nonzero _ Ha)|destruct (isTaggedInt_nonzero _ Ha)]; auto.
  - unfold PL_record in H.
    destruct (compile_term fuel m v []) as [[code vs]|]; [|discriminate].
    simpl in H. injection H as <- <-. right.
    assert (Hrec : isRecord (next_record t) = true).
    { unfold isRecord. rewrite Hr4. reflexivity. }
    split.
    { destruct (isAtom (next_record t)) eqn:E; [|reflexivity].
      destruct (isAtom_nonzero _ E) as [_ E']. congruence. }
    split; [exact Hrec|]. split; [reflexivity|]. split.
    { destruct (records t !! next_record t) eqn:E; [|reflexivity].
      assert (next_record t < next_record t) by (apply Hrlt; eauto). lia. }
    exists code. reflexivity.
Qed.

Lemma release_value_all v t :
  nodes (release_value v t) = nodes t /\ indirects (release_value v t) = indirects t.
Proof.
  unfold release_value. destruct (isAtom v); [|destruct (isRecord v)]; auto.
Qed.

Lemma records_ok_erase r t : records_ok t -> records_ok (PL_erase r t).
Proof.
  intros (H0 & H4 & Hlt). unfold records_ok, PL_erase. simpl.
  split; [exact H0|]. split; [exact H4|]. intros x [y Hx].
  apply lookup_delete_Some in Hx as [_ Hx]. apply Hlt. eauto.
Qed.

Lemma records_ok_release v t : records_ok t -> records_ok (release_value v t).
Proof.
  intros H. unfold release_value. destruct (isAtom v); [exact H|].
  destruct (isRecord v); [apply records_ok_erase; exact H|exact H].
Qed.

(** What a successful trie_insert (or trie_update) leaves behind: the
    lookup of the key that found or made the node, the trie of the
    result grown from the trie of that lookup, the node with its value,
    and the records in order. *)
Lemma insert_new_state fuel t m Key Value update r :
  fresh_ids t -> records_ok t -> wf_mem m -> Z.of_nat (size m) < 2 ^ 57 ->
  trie_insert fuel t m Key Value update = Some r -> r_rc r = TRUE ->
  exists n nd t1,
    trie_lookup fuel t m Key true = Some (TRUE, Some n, t1, m)
    /\ r_node r = Some n /\ r_mem r = m
    /\ grows t1 (r_trie r)
    /\ nodes (r_trie r) !! n = Some nd /\ tn_value nd <> 0
    /\ records_ok (r_trie r).
Proof.
  intros Hfresh Hrok Hwm Hsize Hrun Hrc. unfold trie_insert in Hrun.
  destruct (trie_lookup fuel t m Key true) as [[[[rc nodep] t1] m1]|] eqn:Hlook;
    [|discriminate].
  simpl in Hrun.
  assert (Hm1 : m1 = m) by (eapply lookup_mem_same; eauto). subst m1.
  destruct (rc =? TRUE) eqn:Erc.
  2:{ destruct (trie_error rc) as [rc' exc] eqn:Herr. injection Hrun as <-. simpl in Hrc.
      unfold trie_error in Herr.
      destruct (rc =? TRIE_LOOKUP_CONTAINS_ATTVAR); [|destruct (rc =? TRIE_LOOKUP_CYCLIC)];
        injection Herr as <- _; discriminate. }
  apply Z.eqb_eq in Erc. subst rc.
  destruct nodep as [node|]; [|discriminate]. simpl in Hrun.
  destruct (intern_value fuel t1 m Value) as [[val t2]|] eqn:Hval; [|discriminate].
  simpl in Hrun.
  destruct (lookup_add_grows _ _ _ _ _ _ _ Hfresh Hlook) as (_ & _ & [Hrec1 Hnr1]).
  assert (Hrok1 : records_ok t1).
  { destruct Hrok as (H0 & H4 & Hlt). unfold records_ok. rewrite Hnr1, Hrec1. auto. }
  destruct (intern_value_grows _ _ _ _ _ _ Hval) as [Hg2 _].
  assert (Hrok2 : records_ok t2 /\ val <> 0).
  { destruct (intern_value_cases _ _ _ _ _ _ Hrok1 Hval)
      as [(-> & _ & Hnz)|(_ & Hrec & -> & Hfree & code & ->)]; [auto|].
    destruct Hrok1 as (H0 & H4 & Hlt). split; [|lia].
    unfold records_ok. simpl. split; [lia|]. split; [apply land3_add8; exact H4|].
    intros x [y Hx]. destruct (decide (x = next_record t1)) as [->|Hne]; [lia|].
    rewrite lookup_insert_ne in Hx by congruence.
    assert (x < next_record t1) by (apply Hlt; eauto). lia. }
  destruct Hrok2 as [Hrok2 Hnz].
  destruct (nodes t2 !! node) as [nd|] eqn:Hnd; [|discriminate]. simpl in Hrun.
  assert (Hset : grows t2 (update_node (acquire_key val t2) node (set_value nd val))).
  { eapply grows_trans; [apply (grows_same t2 (acquire_key val t2))|].
    - apply nodes_acquire_key.
    - unfold acquire_key. destruct (isAtom val); reflexivity.
    - apply grows_update_value. rewrite nodes_acquire_key. exact Hnd. }
  assert (Hrok3 : records_ok (update_node (acquire_key val t2) node (set_value nd val))).
  { destruct Hrok2 as (H0 & H4 & Hlt). unfold records_ok. simpl.
    unfold acquire_key. destruct (isAtom val); simpl; auto. }
  destruct (tn_value nd =? 0) eqn:Hv0; simpl in Hrun.
  - injection Hrun as <-. cbn [r_trie r_mem r_node r_rc r_exception].
    exists node, (set_value nd val), t1.
    split; [reflexivity|]. split; [reflexivity|]. split; [reflexivity|].
    split; [eapply grows_trans; [exact Hg2|apply grows_set_value; exact Hnd]|].
    split; [simpl; apply lookup_insert_eq|]. split; [exact Hnz|]. exact Hrok3.
  - destruct update; [|injection Hrun as <-; discriminate].
    apply Z.eqb_neq in Hv0.
    destruct (equal_value t2 (tn_value nd) val) eqn:Heq; simpl in Hrun.
    + destruct (isRecord val); injection Hrun as <-;
        cbn [r_trie r_mem r_node r_rc r_exception];
        exists node, nd, t1;
        (split; [reflexivity|]); (split; [reflexivity|]); (split; [reflexivity|]).
      * split; [eapply grows_trans; [exact Hg2|apply grows_same; reflexivity]|].
        split; [exact Hnd|]. split; [exact Hv0|apply records_ok_erase; exact Hrok2].
      * split; [exact Hg2|]. split; [exact Hnd|]. split; [exact Hv0|exact Hrok2].
    + injection Hrun as <-. cbn [r_trie r_mem r_node r_rc r_exception].
      exists node, (set_value nd val), t1.
      split; [reflexivity|]. split; [reflexivity|]. split; [reflexivity|].
      destruct (release_value_all (tn_value nd)
                  (update_node (acquire_key val t2) node (set_value nd val)))
        as (RN & RI).
      split.
      { eapply grows_trans; [exact Hg2|]. eapply grows_trans; [exact Hset|].
        apply grows_same; assumption. }
      split; [rewrite RN; simpl; apply lookup_insert_eq|]. split; [exact Hnz|].
      apply records_ok_release. exact Hrok3.
Qed.

Lemma release_value_fields v t :
  nodes (release_value v t) = nodes t /\ node_count (release_value v t) = node_count t
  /\ value_count (release_value v t) = value_count t
  /\ indirects (release_value v t) = indirects t.
Proof.
  unfold release_value. destruct (isAtom v); [|destruct (isRecord v)]; auto.
Qed.

Lemma acquire_key_fields k t :
  node_count (acquire_key k t) = node_count t /\ value_count (acquire_key k t) = value_count t
  /\ indirects (acquire_key k t) = indirects t /\ records (acquire_key k t) = records t.
Proof. unfold acquire_key. destruct (isAtom k); auto. Qed.

(** C6: a key is stored with value A (a trie_insert or trie_update of
    the key succeeded, node n holds A), and a value is then inserted
    under the same key; B is the interned new value.  If B is structurally different from A: in
    strict mode the call fails with the permission error, n still holds
    A and the trie holds what it held; in update mode the call succeeds,
    n holds B, and A is released: the trie holds one reference less on
    A when A is an atom, and the record of A is erased when A is a
    record, while B is kept (one reference more on an atom, the record
    in place).  If B is structurally equal to A: in either mode no error
    is raised and the trie holds what it held before the call (nodes,
    counters, indirect table, atom references and records). *)
Theorem trie_insert_existing_key (fuel : nat) (t0 : trie) (m : mem) (Key ValA ValB : Z)
    (update0 : bool) (r0 : result) (B : word) (t2 : trie) :
  fresh_ids t0 ->
  records_ok t0 ->
  wf_mem m ->
  Z.of_nat (size m) < 2 ^ 57 ->
  trie_insert fuel t0 m Key ValA update0 = Some r0 ->
  r_rc r0 = TRUE ->
  intern_value fuel (r_trie r0) m ValB = Some (B, t2) ->
  exists n nd,
    r_node r0 = Some n /\ nodes (r_trie r0) !! n = Some nd /\ tn_value nd <> 0
    /\ (equal_value t2 (tn_value nd) B = false ->
          (exists r, trie_insert fuel (r_trie r0) m Key ValB false = Some r
             /\ r_rc r = FALSE
             /\ r_exception r = Some permission_error_modify_trie_key
             /\ nodes (r_trie r) !! n = Some nd
             /\ same_content (r_trie r0) (r_trie r))
          /\
          (exists r, trie_insert fuel (r_trie r0) m Key ValB true = Some r
             /\ r_rc r = TRUE
             /\ r_exception r = None
             /\ nodes (r_trie r) !! n = Some (set_value nd B)
             /\ (forall x, x <> n -> nodes (r_trie r) !! x = nodes (r_trie r0) !! x)
             /\ node_count (r_trie r) = node_count (r_trie r0)
             /\ value_count (r_trie r) = value_count (r_trie r0)
             /\ indirects (r_trie r) = indirects (r_trie r0)
             /\ (isAtom (tn_value nd) = true ->
                   refs (r_trie r) (tn_value nd) = refs (r_trie r0) (tn_value nd) - 1)
             /\ (isAtom (tn_value nd) = false -> isRecord (tn_value nd) = true ->
                   records (r_trie r) !! tn_value nd = None)
             /\ (isAtom B = true -> refs (r_trie r) B = refs (r_trie r0) B + 1)
             /\ (isAtom B = false -> isRecord B = true -> is_Some (records (r_trie r) !! B))
             /\ (forall a, a <> tn_value nd -> a <> B ->
                   atom_refs (r_trie r) !! a = atom_refs (r_trie r0) !! a)
             /\ (forall x, x <> tn_value nd -> x <> B ->
                   records (r_trie r) !! x = records (r_trie r0) !! x)))
    /\ (equal_value t2 (tn_value nd) B = true ->
          forall update, exists r,
            trie_insert fuel (r_trie r0) m Key ValB update = Some r
            /\ r_rc r = (if update then TRUE else FALSE)
            /\ r_exception r = None
            /\ r_node r = Some n
            /\ same_content (r_trie r0) (r_trie r)).
Proof.
  intros Hfresh Hrok Hwm Hsize Hrun Hrc Hint.
  destruct (insert_new_state _ _ _ _ _ _ _ Hfresh Hrok Hwm Hsize Hrun Hrc)
    as (n & nd & t1 & Hlook & Hnode & Hmem & Hgrow & Hnd & Hnz & HrokT).
  set (T := r_trie r0) in *.
  exists n, nd. split; [exact Hnode|]. split; [exact Hnd|]. split; [exact Hnz|].
  assert (Hlook2 : trie_lookup fuel T m Key true = Some (TRUE, Some n, T, m))
    by (apply (lookup_in_grown fuel t0 m Key n t1 m T true Hfresh Hlook Hgrow)).
  assert (Hv0 : (tn_value nd =? 0) = false) by (apply Z.eqb_neq; exact Hnz).
  assert (Hnodes2 : nodes t2 = nodes T).
  { destruct (intern_value_cases _ _ _ _ _ _ HrokT Hint) as [(-> & _)|(_ & _ & _ & _ & c & ->)];
      reflexivity. }
  assert (Hnd2 : nodes t2 !! n = Some nd) by (rewrite Hnodes2; exact Hnd).
  assert (Hstart : forall update,
            trie_insert fuel T m Key ValB update =
              (if update then
                 if negb (equal_value t2 (tn_value nd) B) then
                   Some (mkResult TRUE None (Some n)
                           (release_value (tn_value nd)
                              (update_node (acquire_key B t2) n (set_value nd B))) m)
                 else if isRecord B then Some (mkResult TRUE None (Some n) (PL_erase B t2) m)
                 else Some (mkResult TRUE None (Some n) t2 m)
               else
                 Some (mkResult FALSE
                         (if negb (equal_value t2 (tn_value nd) B)
                          then Some permission_error_modify_trie_key else None)
                         (Some n) (if isRecord B then PL_erase B t2 else t2) m))).
  { intros update. unfold trie_insert. rewrite Hlook2. simpl. rewrite Hint. simpl.
    rewrite Hnd2. simpl. rewrite Hv0. simpl. reflexivity. }
  (* the trie once the new value is dropped again *)
  assert (Hdrop : same_content T (if isRecord B then PL_erase B t2 else t2)).
  { destruct (intern_value_cases _ _ _ _ _ _ HrokT Hint)
      as [(-> & -> & _)|(_ & -> & _ & Hfree & code & ->)].
    - repeat split; reflexivity.
    - unfold same_content, PL_erase. simpl. repeat split; try reflexivity.
      rewrite delete_insert_eq. apply delete_id. exact Hfree. }
  split.
  - intros Hneq. split.
    + exists (mkResult FALSE (Some permission_error_modify_trie_key) (Some n)
                (if isRecord B then PL_erase B t2 else t2) m).
      split; [rewrite (Hstart false), Hneq; reflexivity|].
      split; [reflexivity|]. split; [reflexivity|]. simpl.
      split; [|exact Hdrop]. destruct Hdrop as [-> _]. exact Hnd.
    + set (A := tn_value nd) in *.
      assert (HAB : A <> B).
      { intros E. unfold equal_value in Hneq. rewrite E, Z.eqb_refl in Hneq. discriminate. }
      set (R := release_value A (update_node (acquire_key B t2) n (set_value nd B))).
      exists (mkResult TRUE None (Some n) R m).
      split; [rewrite (Hstart true), Hneq; reflexivity|].
      split; [reflexivity|]. split; [reflexivity|]. simpl.
      destruct (release_value_fields A (update_node (acquire_key B t2) n (set_value nd B)))
        as (RN & RNC & RVC & RI). fold R in RN, RNC, RVC, RI.
      destruct (acquire_key_fields B t2) as (ANC & AVC & AI & AR).
      assert (Hcnt : node_count t2 = node_count T /\ value_count t2 = value_count T
                     /\ indirects t2 = indirects T /\ atom_refs t2 = atom_refs T).
      { destruct (intern_value_cases _ _ _ _ _ _ HrokT Hint)
          as [(-> & _)|(_ & _ & _ & _ & c & ->)]; repeat split; reflexivity. }
      destruct Hcnt as (CN & CV & CI & CA).
      split; [rewrite RN; simpl; apply lookup_insert_eq|].
      split; [intros x Hx; rewrite RN; simpl; rewrite lookup_insert_ne by congruence;
              rewrite nodes_acquire_key, Hnodes2; reflexivity|].
      split; [rewrite RNC; simpl; congruence|].
      split; [rewrite RVC; simpl; congruence|].
      split; [rewrite RI; simpl; congruence|].
      (* the references on atoms *)
      assert (HrefsX : atom_refs (acquire_key B t2)
                       = if isAtom B then <[B := refs T B + 1]> (atom_refs T) else atom_refs T).
      { unfold acquire_key, PL_register_atom, refs. destruct (isAtom B); simpl; rewrite CA;
          reflexivity. }
      assert (HrefsR : atom_refs R
                       = if isAtom A
                         then <[A := default 0 (atom_refs (acquire_key B t2) !! A) - 1]>
                                (atom_refs (acquire_key B t2))
                         else atom_refs (acquire_key B t2)).
      { unfold R, release_value, PL_unregister_atom, PL_erase.
        destruct (isAtom A); [reflexivity|]. destruct (isRecord A); reflexivity. }
      assert (HrecR : records R
                      = if isAtom A then records t2
                        else if isRecord A then delete A (records t2) else records t2).
      { unfold R, release_value, PL_unregister_atom, PL_erase.
        destruct (isAtom A); [simpl; exact AR|].
        destruct (isRecord A); simpl; rewrite AR; reflexivity. }
      split.
      { intros HA. unfold refs at 1. rewrite HrefsR, HA, lookup_insert_eq. simpl.
        rewrite HrefsX. unfold refs.
        destruct (isAtom B); [rewrite lookup_insert_ne by congruence|]; reflexivity. }
      split.
      { intros HA HrA. rewrite HrecR, HA, HrA. apply lookup_delete_eq. }
      split.
      { intros HB. unfold refs at 1. rewrite HrefsR.
        assert (E : atom_refs (acquire_key B t2) !! B = Some (refs T B + 1))
          by (rewrite HrefsX, HB; apply lookup_insert_eq).
        destruct (isAtom A); [rewrite lookup_insert_ne by congruence|];
          rewrite E; reflexivity. }
      split.
      { intros HB HrB.
        destruct (intern_value_cases _ _ _ _ _ _ HrokT Hint)
          as [(_ & HrB' & _)|(_ & _ & _ & _ & c & Ht2)]; [congruence|].
        assert (E : records t2 !! B = Some c) by (rewrite Ht2; simpl; apply lookup_insert_eq).
        rewrite HrecR. destruct (isAtom A); [eauto|].
        destruct (isRecord A); [rewrite lookup_delete_ne by congruence|]; eauto. }
      split.
      { intros a Ha Hb. rewrite HrefsR.
        assert (E : atom_refs (acquire_key B t2) !! a = atom_refs T !! a).
        { rewrite HrefsX. destruct (isAtom B); [rewrite lookup_insert_ne by congruence|];
            reflexivity. }
        destruct (isAtom A); [rewrite lookup_insert_ne by congruence|]; exact E. }
      { intros x Hx Hb.
        assert (E : records t2 !! x = records T !! x).
        { destruct (intern_value_cases _ _ _ _ _ _ HrokT Hint)
            as [(-> & _)|(_ & _ & _ & _ & c & ->)]; [reflexivity|].
          simpl. apply lookup_insert_ne. congruence. }
        rewrite HrecR. destruct (isAtom A); [exact E|].
        destruct (isRecord A); [rewrite lookup_delete_ne by congruence|]; exact E. }
  - intros Heq update. rewrite (Hstart update), Heq. simpl.
    destruct update.
    + destruct (isRecord B); eexists; (split; [reflexivity|]); simpl;
        (split; [reflexivity|]); (split; [reflexivity|]); (split; [reflexivity|]);
        exact Hdrop.
    + eexists. split; [reflexivity|]. simpl.
      split; [reflexivity|]. split; [reflexivity|]. split; [reflexivity|]. exact Hdrop.
Qed.

Lemma trie_insert_existing_key_witness :
  exists rs ru,
    trie_insert 10 (r_trie result_a) atoms_mem 100 111 false = Some rs
    /\ r_rc rs = FALSE
    /\ r_exception rs = Some permission_error_modify_trie_key
    /\ nodes (r_trie rs) !! 1%nat = nodes (r_trie result_a) !! 1%nat
    /\ same_content (r_trie result_a) (r_trie rs)
    /\ trie_insert 10 (r_trie result_a) atoms_mem 100 111 true = Some ru
    /\ r_rc ru = TRUE
    /\ r_exception ru = None
    /\ (tn_value <$> nodes (r_trie ru) !! 1%nat) = Some (atom 12)
    /\ refs (r_trie ru) (atom 11) = refs (r_trie result_a) (atom 11) - 1
    /\ refs (r_trie ru) (atom 12) = refs (r_trie result_a) (atom 12) + 1.
Proof.
  destruct (trie_insert_existing_key 10 trie_create atoms_mem 100 110 111 false result_a (atom 12)
              (r_trie result_a))
    as (n & nd & Hnode & Hnd & Hnz & Hdiff & _).
  - exact fresh_ids_create.
  - exact records_ok_create.
  - apply wf_mem_b_sound. vm_compute. reflexivity.
  - vm_compute. reflexivity.
  - vm_compute. reflexivity.
  - vm_compute. reflexivity.
  - vm_compute. reflexivity.
  - vm_compute in Hnode. injection Hnode as <-.
    assert (Hval : tn_value nd = atom 11).
    { vm_compute in Hnd. injection Hnd as <-. reflexivity. }
    destruct Hdiff
      as [(rs & Hs1 & Hs2 & Hs3 & Hs4 & Hs5)
          (ru & Hu1 & Hu2 & Hu3 & Hu4 & _ & _ & _ & _ & HuA & _ & HuB & _)].
    { rewrite Hval. vm_compute. reflexivity. }
    exists rs, ru. rewrite Hval in HuA.
    split; [exact Hs1|]. split; [exact Hs2|]. split; [exact Hs3|].
    split; [rewrite Hs4, Hnd; reflexivity|]. split; [exact Hs5|].
    split; [exact Hu1|]. split; [exact Hu2|]. split; [exact Hu3|].
    split; [rewrite Hu4; reflexivity|].
    split; [apply HuA; reflexivity|apply HuB; reflexivity].
Defined.

(** Run: the key a holds v1 (one reference on the atom v1).  Inserting
    v2 in strict mode fails with the permission error and a still holds
    v1; in update mode a holds v2, the reference on v1 is given up and
    one on v2 is taken; inserting v1 again changes nothing. *)
Example insert_existing_runs :
  refs (r_trie result_a) (atom 11) = 1
  /\ match trie_insert 10 (r_trie result_a) atoms_mem 100 111 false with
     | Some r => r_rc r = FALSE
                 /\ r_exception r = Some permission_error_modify_trie_key
                 /\ r_trie r = r_trie result_a
     | None => False
     end
  /\ match trie_insert 10 (r_trie result_a) atoms_mem 100 111 true with
     | Some r => r_rc r = TRUE
                 /\ (tn_value <$> nodes (r_trie r) !! 1%nat) = Some (atom 12)
                 /\ refs (r_trie r) (atom 11) = 0 /\ refs (r_trie r) (atom 12) = 1
     | None => False
     end
  /\ match trie_insert 10 (r_trie result_a) atoms_mem 100 110 true with
     | Some r => r_rc r = TRUE /\ r_trie r = r_trie result_a
     | None => False
     end.
Proof. vm_compute. repeat split; reflexivity. Qed.

Lemma ground_path t n ks :
  path t n ks -> forall fuel, (length ks < fuel)%nat ->
  is_ground_trie_node fuel t n = Some (forallb (fun k => negb (is_var_key k)) ks).
Proof.
  induction 1 as [n nd Hn Hpar|n nd p ks Hn Hpar Hp IH]; intros fuel Hf.
  - destruct fuel; [simpl in Hf; lia|]. simpl. rewrite Hn. simpl. rewrite Hpar. reflexivity.
  - destruct fuel; [lia|]. simpl. rewrite Hn. simpl. rewrite Hpar.
    rewrite length_app in Hf. simpl in Hf.
    rewrite forallb_app. simpl. unfold is_var_key at 2.
    destruct ((tag (tn_key nd) =? TAG_VAR) && negb (tn_key nd =? TRIE_KEY_POP)); simpl.
    + rewrite andb_false_r. reflexivity.
    + rewrite IH by lia. rewrite !andb_true_r. reflexivity.
Qed.

Lemma tag_wrap z : tag (wrap z) = z mod 8.
Proof.
  rewrite tag_mod. unfold wrap, word_bits.
  apply Z.mod_mod_divide. exists (2 ^ 61). reflexivity.
Qed.

Lemma tag_consPtr_any a ts : 0 <= ts < 128 -> tag (consPtr a ts) = ts mod 8.
Proof.
  intros Hts. unfold consPtr. rewrite tag_wrap. unfold LMASK_BITS.
  change 8 with (2 ^ 3). rewrite <- !Z.land_ones by lia.
  rewrite Z.land_lor_distr_l.
  replace (Z.land (Z.shiftl a 7) (Z.ones 3)) with 0; [reflexivity|].
  symmetry. apply Z.bits_inj'. intros i Hi. rewrite Z.land_spec, Z.bits_0.
  destruct (Z.lt_ge_cases i 7).
  - rewrite Z.shiftl_spec_low by lia. reflexivity.
  - rewrite Z.ones_spec_high by lia. apply andb_false_r.
Qed.

Lemma surrogate_not_var tg i : indirect_tag_ok tg -> is_var_key (indirect_surrogate tg i) = false.
Proof.
  intros Htg. unfold is_var_key, indirect_surrogate.
  assert (H : 0 <= Z.lor tg STG_GLOBAL < 128 /\ Z.lor tg STG_GLOBAL mod 8 = tg /\ tg <> TAG_VAR).
  { destruct Htg as [-> | [-> | ->]]; vm_compute; repeat split; congruence. }
  destruct H as (Hr & H8 & Hne). rewrite tag_consPtr_any by exact Hr. rewrite H8.
  replace (tg =? TAG_VAR) with false by (symmetry; apply Z.eqb_neq; exact Hne). reflexivity.
Qed.

Lemma var_key_is_var i : 0 <= i < 2 ^ 56 -> is_var_key (var_key i) = true.
Proof.
  intros Hi. unfold is_var_key. rewrite tag_var_key, Z.eqb_refl. simpl.
  apply negb_true_iff, Z.eqb_neq, var_key_pop. exact Hi.
Qed.

(** The path of a term has a variable key exactly when the term has a
    variable. *)
Lemma enc_ground_all :
  (forall s vs tbl keys vs' tbl', enc vs tbl s = (keys, vs', tbl') -> good s ->
     Z.of_nat (length vs') < 2 ^ 56 ->
     forallb (fun k => negb (is_var_key k)) keys = bool_decide (vars_of s = []))
  /\ (forall l vs tbl keys vs' tbl', enc_l vs tbl l = (keys, vs', tbl') -> good_l l ->
     Z.of_nat (length vs') < 2 ^ 56 ->
     forallb (fun k => negb (is_var_key k)) keys = bool_decide (vars_of_l l = [])).
Proof.
  set (P := fun s => forall vs tbl keys vs' tbl', enc vs tbl s = (keys, vs', tbl') -> good s ->
     Z.of_nat (length vs') < 2 ^ 56 ->
     forallb (fun k => negb (is_var_key k)) keys = bool_decide (vars_of s = [])).
  set (P0 := fun l => forall vs tbl keys vs' tbl', enc_l vs tbl l = (keys, vs', tbl') ->
     good_l l -> Z.of_nat (length vs') < 2 ^ 56 ->
     forallb (fun k => negb (is_var_key k)) keys = bool_decide (vars_of_l l = [])).
  assert (Hvar : forall a, P (SVar a)).
  { intros a vs tbl keys vs' tbl' H _ Hlen. simpl in H.
    destruct (index_nat a vs) as [i|] eqn:E; injection H as <- <- <-; simpl.
    - apply index_nat_lookup, lookup_lt_Some in E.
      rewrite var_key_is_var by lia. reflexivity.
    - rewrite length_app in Hlen. simpl in Hlen.
      rewrite var_key_is_var by lia. reflexivity. }
  assert (Hat : forall w, P (SAtomic w)).
  { intros w vs tbl keys vs' tbl' H [(Tv & _) _] _. simpl in H. injection H as <- <- <-.
    simpl. unfold is_var_key. rewrite Tv. reflexivity. }
  assert (Hin : forall tg c, P (SIndirect tg c)).
  { intros tg c vs tbl keys vs' tbl' H [Htg _] _. simpl in H.
    destruct (index_of (tg, c) tbl 0); injection H as <- <- <-; simpl;
      rewrite surrogate_not_var by exact Htg; reflexivity. }
  assert (Hcmp : forall f args, P0 args -> P (SCompound f args)).
  { intros f args IH vs tbl keys vs' tbl' H (Hf & _ & Hg) Hlen. simpl in H.
    destruct (enc_l vs tbl args) as [[ks vs1] tbl1] eqn:E. injection H as <- <- <-.
    simpl. rewrite forallb_app. simpl.
    rewrite (IH _ _ _ _ _ E Hg Hlen).
    unfold is_var_key at 1. rewrite (functor_key_tag f Hf). simpl.
    rewrite andb_true_r. reflexivity. }
  assert (Hnil : P0 SNil).
  { intros vs tbl keys vs' tbl' H _ _. simpl in H. injection H as <- <- <-. reflexivity. }
  assert (Hcons : forall s, P s -> forall l, P0 l -> P0 (SCons s l)).
  { intros s IHs l IHl vs tbl keys vs' tbl' H [Hgs Hgl] Hlen. simpl in H.
    destruct (enc vs tbl s) as [[k1 vs1] tbl1] eqn:E1.
    destruct (enc_l vs1 tbl1 l) as [[k2 vs2] tbl2] eqn:E2. injection H as <- <- <-.
    destruct enc_facts_all as [_ Fl].
    destruct (Fl _ _ _ _ _ _ E2) as (Pv2 & _). apply prefix_length in Pv2.
    rewrite forallb_app, (IHs _ _ _ _ _ E1 Hgs), (IHl _ _ _ _ _ E2 Hgl Hlen) by lia.
    simpl. destruct (vars_of s) as [|x xs]; simpl.
    - destruct (vars_of_l l); reflexivity.
    - reflexivity. }
  split.
  - apply (shape_t_mut P P0); assumption.
  - apply (shape_l_mut P P0); assumption.
Qed.

(** The node that a successful adding lookup returns ends the path of
    the keys of the term. *)
Lemma lookup_path fuel t m k s n t' m' :
  wf_links t -> Z.of_nat (size m) < 2 ^ 56 -> shape m k s ->
  trie_lookup fuel t m k true = Some (TRUE, Some n, t', m') ->
  exists keys vs' tbl',
    enc [] (default [] (indirects t)) s = (keys, vs', tbl')
    /\ path t' n keys /\ wf_links t' /\ default [] (indirects t') = tbl'
    /\ (length vs' <= size m)%nat.
Proof.
  intros Hwf Hsize Hshape Hrun. unfold trie_lookup in Hrun.
  destruct (trie_lookup_loop fuel true _) as [ls|] eqn:Hloop; [|discriminate].
  simpl in Hrun.
  destruct (clear_vars fuel (ls_mem ls) k (ls_var_number ls)) as [m1|]; [|discriminate].
  simpl in Hrun.
  destruct (ls_rc ls =? TRUE) eqn:Hrc; [|congruence].
  destruct (ls_node ls) as [node|] eqn:Hnode; [|congruence].
  injection Hrun as -> <- <-. apply Z.eqb_eq in Hrc.
  set (tbl0 := default [] (indirects t)).
  destruct (enc [] tbl0 s) as [[keys vs'] tbl'] eqn:Henc.
  destruct (walk_all m Hsize) as [Hwalk _].
  destruct Hwf as (Hroot & Hwf'). pose proof Hroot as (rd & Hrd & Hrp).
  destruct (Hwalk s k fuel (mkLookup (initTermAgenda 1 k) (Some root) 0 TRUE 0 t m)
                   ls [] O root [] tbl0 [] keys vs' tbl' Hshape eq_refl)
    as (fe' & ls' & n' & Hrun' & Hag' & Hinv'); [| exact Hloop | split; eauto | exact Henc |].
  { split; [reflexivity|]. split; [reflexivity|].
    split; [split; [apply NoDup_nil; exact I|split; [intros i a Hi; discriminate|reflexivity]]|].
    split; [reflexivity|]. split; [split; assumption|].
    split; [exact (path_root t root rd Hrd Hrp)|reflexivity]. }
  apply loop_done with (loc := k + 1) in Hrun'; [|exact Hag']. subst ls'.
  destruct Hinv' as (Hn' & _ & Hmarks & Hvn & Hwft & Hpath & Htbl').
  rewrite Hnode in Hn'. injection Hn' as <-. simpl app in Hpath.
  exists keys, vs', tbl'. split; [reflexivity|]. split; [exact Hpath|].
  split; [exact Hwft|]. split; [exact Htbl'|]. eapply marks_length; eauto.
Qed.

(** After a term was added, is_ground_trie_node of its node tells
    whether the term is ground. *)
Theorem is_ground_after_insert (fuel : nat) (t : trie) (m : mem) (k : Z) (s : shape_t)
    (n : node_id) (t' : trie) (m' : mem) :
  wf_links t ->
  Z.of_nat (size m) < 2 ^ 56 ->
  shape m k s ->
  trie_lookup fuel t m k true = Some (TRUE, Some n, t', m') ->
  exists N, forall fuel', (N <= fuel')%nat ->
    is_ground_trie_node fuel' t' n = Some (bool_decide (vars_of s = [])).
Proof.
  intros Hwf Hsize Hshape Hrun.
  destruct (lookup_path _ _ _ _ _ _ _ _ Hwf Hsize Hshape Hrun)
    as (keys & vs' & tbl' & Henc & Hpath & _ & _ & Hlen).
  exists (S (length keys)). intros fuel' Hf.
  rewrite (ground_path _ _ _ Hpath) by lia.
  destruct enc_ground_all as [Hg _]. destruct (shape_good_all m) as [Hgood _].
  rewrite (Hg _ _ _ _ _ _ Henc (Hgood s k Hshape)) by lia. reflexivity.
Qed.

Lemma is_ground_after_insert_witness :
  exists N, forall fuel', (N <= fuel')%nat ->
    is_ground_trie_node fuel' trie_term 8%nat = Some (bool_decide (vars_of term_shape = [])).
Proof.
  apply (is_ground_after_insert 100 trie_create term_mem 10 term_shape 8%nat trie_term term_mem).
  - exact wf_links_create.
  - vm_compute. reflexivity.
  - exact term_shape_ok.
  - vm_compute. reflexivity.
Defined.

(** f(a) is ground, f(X, a, g(X, Y)) is not. *)
Example is_ground_fa :
  is_ground_trie_node 10 trie_fa 3%nat = Some true
  /\ is_ground_trie_node 10 trie_term 8%nat = Some false.
Proof. vm_compute. split; reflexivity. Qed.

Lemma full_mono t : forall f F n, full f t n = true -> (f <= F)%nat -> full F t n = true.
Proof.
  induction f as [|f IH]; intros F n H Hle; [discriminate|].
  destruct F as [|F]; [lia|]. simpl in *.
  destruct (nodes t !! n) as [nd|]; [|discriminate].
  destruct (tn_children nd) as [|k c|tbl]; [exact H|apply IH; [exact H|lia]|].
  apply andb_true_iff in H as [H1 H2]. apply andb_true_iff. split; [exact H1|].
  rewrite forallb_forall in *. intros x Hx. apply IH; [auto|lia].
Qed.

Lemma leaves_full t : forall f F n p,
  full f t n = true -> (f <= F)%nat -> leaves F t n p = leaves f t n p.
Proof.
  induction f as [|f IH]; intros F n p H Hle; [discriminate|].
  destruct F as [|F]; [lia|]. simpl in *.
  destruct (nodes t !! n) as [nd|]; [|discriminate].
  destruct (tn_children nd) as [|k c|tbl]; [reflexivity|apply IH; [exact H|lia]|].
  apply andb_true_iff in H as [_ H2]. rewrite forallb_forall in H2.
  induction tbl as [|x r IHr]; [reflexivity|]. simpl. f_equal.
  - apply IH; [apply H2; left; reflexivity|lia].
  - apply IHr. intros y Hy. apply H2. right. exact Hy.
Qed.

Lemma leaves_indep t f F1 F2 n p :
  full f t n = true -> (f <= F1)%nat -> (f <= F2)%nat -> leaves F1 t n p = leaves F2 t n p.
Proof. intros H H1 H2. rewrite (leaves_full t f F1), (leaves_full t f F2) by assumption. reflexivity. Qed.

Lemma rest_indep t f F1 F2 (e : list (word * node_id)) p :
  (forall x, In x e -> full f t (snd x) = true) -> (f <= F1)%nat -> (f <= F2)%nat ->
  flat_map (fun x => leaves F1 t (snd x) (p ++ [fst x])) e
  = flat_map (fun x => leaves F2 t (snd x) (p ++ [fst x])) e.
Proof.
  intros Hall H1 H2. induction e as [|x r IHr]; [reflexivity|]. cbn [flat_map]. f_equal.
  - apply (leaves_indep t f); [apply Hall; left; reflexivity|lia|lia].
  - apply IHr. intros y Hy. apply Hall. right. exact Hy.
Qed.

Lemma enum_full_cons F t ch below :
  (forall e x, ch_table ch = Some e -> x ∈ e -> full F t (snd x) = true) ->
  enum_full F t below -> enum_full F t (ch :: below).
Proof.
  intros H1 H2 c e x Hc He Hx. apply elem_of_cons in Hc as [->|Hc]; [eauto|].
  eapply H2; eauto.
Qed.

Lemma enum_full_tail F t ch below : enum_full F t (ch :: below) -> enum_full F t below.
Proof. intros H c e x Hc. apply H. apply elem_of_cons. auto. Qed.

(** The descent from a choice whose child has only valued leaves below it
    ends in the first of them. *)
Lemma descent_full t : forall f ch below fuel F,
  full f t (ch_child ch) = true -> (f <= fuel)%nat -> (f <= F)%nat ->
  enum_full F t (ch :: below) ->
  exists cps' sol,
    descent_node fuel t (ch :: below) = Some (true, cps')
    /\ unify_trie_path t cps' = Some sol
    /\ sol :: pending F t cps'
       = leaves F t (ch_child ch) (rev (map ch_key (ch :: below))) ++ pending F t (ch :: below)
    /\ enum_full F t cps'.
Proof.
  induction f as [|f IH]; intros ch below fuel F Hfull Hfuel HF Henum; [discriminate|].
  destruct fuel as [|fuel]; [lia|]. destruct F as [|F]; [lia|].
  simpl in Hfull. destruct (nodes t !! ch_child ch) as [cd|] eqn:Hcd; [|discriminate].
  cbn [descent_node]. rewrite Hcd. cbn [mbind option_bind].
  cbn [leaves]. rewrite Hcd.
  destruct (tn_children cd) as [|k c|tbl] eqn:Hch.
  - exists (ch :: below), (mkSolution (rev (map ch_key (ch :: below))) (tn_value cd) (ch_child ch)).
    rewrite Hfull. split; [reflexivity|]. split; [unfold unify_trie_path; rewrite Hcd; reflexivity|].
    apply negb_true_iff in Hfull. rewrite Hfull. split; [reflexivity|exact Henum].
  - unfold add_choice. rewrite Hcd. cbn [mbind option_bind]. rewrite Hch.
    set (ch' := mkChoice None k c).
    destruct (IH ch' (ch :: below) fuel (S F)) as (cps' & sol & Hd & Hs & Heq & Hen);
      [exact Hfull|lia|lia| |].
    { apply enum_full_cons; [|exact Henum]. intros e x He. discriminate. }
    exists cps', sol. split; [exact Hd|]. split; [exact Hs|]. split; [|exact Hen].
    rewrite Heq. cbn [pending ch_table ch' rest_enum]. simpl app at 2.
    f_equal. cbn [ch_child ch' map ch_key rev].
    apply (leaves_indep t f); [exact Hfull|lia|lia].
  - apply andb_true_iff in Hfull as [Hne Hall]. rewrite forallb_forall in Hall.
    destruct tbl as [|[k1 c1] e]; [discriminate|].
    unfold add_choice. rewrite Hcd. cbn [mbind option_bind]. rewrite Hch.
    cbn [newTableEnum advanceTableEnum].
    set (ch' := mkChoice (Some e) k1 c1).
    assert (Hfe : forall x, x ∈ e -> full (S F) t (snd x) = true).
    { intros x Hx. apply (full_mono t f); [|lia]. apply Hall. right.
      apply list_elem_of_In. exact Hx. }
    destruct (IH ch' (ch :: below) fuel (S F)) as (cps' & sol & Hd & Hs & Heq & Hen);
      [apply (Hall (k1, c1)); left; reflexivity|lia|lia| |].
    { apply enum_full_cons; [|exact Henum]. intros e0 x He Hx.
      cbn in He. injection He as <-. apply Hfe. exact Hx. }
    exists cps', sol. split; [exact Hd|]. split; [exact Hs|]. split; [|exact Hen].
    rewrite Heq. cbn [pending ch_table ch' rest_enum ch_child map ch_key rev flat_map fst snd].
    rewrite <- !app_assoc. f_equal.
    + apply (leaves_indep t f); [apply (Hall (k1, c1)); left; reflexivity|lia|lia].
    + f_equal. apply (rest_indep t f); [|lia|lia].
      intros x Hx. apply Hall. right. exact Hx.
Qed.

(** next_choice gives the next valued leaf, or tells that nothing is
    left. *)
Lemma next_full t F : forall cps fuel,
  enum_full F t cps -> (F <= fuel)%nat ->
  (next_choice fuel t cps = Some (false, []) /\ pending F t cps = [])
  \/ exists cps' sol,
       next_choice fuel t cps = Some (true, cps')
       /\ unify_trie_path t cps' = Some sol
       /\ sol :: pending F t cps' = pending F t cps
       /\ enum_full F t cps'.
Proof.
  induction cps as [|ch below IH]; intros fuel Henum Hfuel.
  - left. split; reflexivity.
  - cbn [next_choice]. unfold advance_node.
    destruct (ch_table ch) as [e|] eqn:He.
    + destruct e as [|[k v] e']; cbn [advanceTableEnum].
      * destruct (IH fuel (enum_full_tail _ _ _ _ Henum) Hfuel) as [[Hn Hp]|H].
        -- left. split; [exact Hn|]. cbn [pending]. rewrite He. exact Hp.
        -- right. destruct H as (cps' & sol & Hn & Hs & Hp & Hen).
           exists cps', sol. split; [exact Hn|]. split; [exact Hs|]. split; [|exact Hen].
           cbn [pending]. rewrite He. exact Hp.
      * right. set (ch' := mkChoice (@Some TableEnum e') k v).
        assert (Hv : full F t v = true).
        { apply (Henum ch ((k, v) :: e') (k, v)); [left|exact He|left]. }
        destruct (descent_full t F ch' below fuel F Hv Hfuel (le_n _))
          as (cps' & sol & Hd & Hs & Heq & Hen).
        { apply enum_full_cons; [|exact (enum_full_tail _ _ _ _ Henum)].
          intros e0 x He0 Hx. cbn in He0. injection He0 as <-.
          apply (Henum ch ((k, v) :: e') x); [left|exact He|right; exact Hx]. }
        exists cps', sol. unfold ch' in *. rewrite Hd. cbn [mbind option_bind fst snd].
        split; [reflexivity|]. split; [exact Hs|]. split; [|exact Hen].
        rewrite Heq. cbn [pending ch_table rest_enum ch_child map ch_key rev].
        rewrite He. cbn [rest_enum flat_map fst snd]. rewrite <- !app_assoc. reflexivity.
    + destruct (IH fuel (enum_full_tail _ _ _ _ Henum) Hfuel) as [[Hn Hp]|H].
      * left. split; [exact Hn|]. cbn [pending]. rewrite He. exact Hp.
      * right. destruct H as (cps' & sol & Hn & Hs & Hp & Hen).
        exists cps', sol. split; [exact Hn|]. split; [exact Hs|]. split; [|exact Hen].
        cbn [pending]. rewrite He. exact Hp.
Qed.

Lemma gen_loop_full t F accept : forall n cps sol fuel,
  unify_trie_path t cps = Some sol -> enum_full F t cps ->
  length (pending F t cps) = n -> (n + F + 2 <= fuel)%nat ->
  trie_gen_loop fuel accept t cps = Some (filter accept (sol :: pending F t cps)).
Proof.
  induction n as [|n IH]; intros cps sol fuel Hs Henum Hlen Hfuel;
    (destruct fuel as [|fuel]; [lia|]); cbn [trie_gen_loop];
    (destruct cps as [|ch below]; [discriminate|]); rewrite Hs; cbn [mbind option_bind];
    (destruct (next_full t F (ch :: below) (S fuel) Henum) as [[Hn Hp]|H]; [lia| |]).
  - rewrite Hn, Hp. cbn [mbind option_bind fst snd]. rewrite filter_cons.
    destruct (accept sol); [rewrite decide_True by exact I; reflexivity|].
    rewrite decide_False by (intros H; exact H).
    destruct fuel as [|fuel]; [lia|]. reflexivity.
  - destruct H as (cps' & sol' & _ & _ & Hp & _). rewrite <- Hp in Hlen. discriminate.
  - rewrite Hp in Hlen. discriminate.
  - destruct H as (cps' & sol' & Hn & Hs' & Hp & Hen).
    rewrite Hn. cbn [mbind option_bind fst snd].
    assert (Hlen' : length (pending F t cps') = n).
    { rewrite <- Hp in Hlen. simpl in Hlen. lia. }
    rewrite (IH cps' sol' fuel Hs' Hen Hlen') by lia.
    rewrite <- Hp. rewrite (filter_cons _ sol).
    destruct (accept sol); [rewrite decide_True by exact I|
                            rewrite decide_False by (intros H; exact H)]; reflexivity.
Qed.

(** On a trie whose root holds no value and whose leaves all hold one,
    with no empty table, trie_gen run to exhaustion gives the leaves in
    depth-first order, each once, as far as the arguments of the call
    accept them. *)
Theorem trie_gen_complete (F fuel : nat) (accept : solution -> bool) (t : trie)
    (rd : trie_node) :
  nodes t !! root = Some rd ->
  tn_value rd = 0 ->
  full F t root = true ->
  (length (leaves F t root []) + F + 2 <= fuel)%nat ->
  trie_gen fuel accept t = Some (filter accept (leaves F t root [])).
Proof.
  intros Hrd Hv0 Hfull Hfuel. destruct F as [|f]; [discriminate|].
  unfold trie_gen. rewrite Hrd. cbn [mbind option_bind].
  revert Hfuel. cbn [leaves full] in *. rewrite Hrd in *. intros Hfuel.
  destruct (tn_children rd) as [|k c|tbl] eqn:Hch.
  - rewrite Hv0 in Hfull. discriminate.
  - unfold add_choice. rewrite Hrd. cbn [mbind option_bind]. rewrite Hch.
    cbn [mbind option_bind].
    set (ch := mkChoice (@None TableEnum) k c).
    destruct (descent_full t f ch [] fuel (S f)) as (cps' & sol & Hd & Hs & Heq & Hen);
      [exact Hfull|lia|lia| |].
    { apply enum_full_cons; [intros e x He; discriminate|].
      intros c0 e x Hc0. apply elem_of_nil in Hc0. contradiction. }
    rewrite Hd. cbn [mbind option_bind fst snd].
    cbn [pending ch_table ch rest_enum ch_child map ch_key rev] in Heq.
    rewrite app_nil_r in Heq.
    rewrite (leaves_indep t f (S f) f) in Heq by (exact Hfull || lia).
    simpl app in Heq.
    rewrite (gen_loop_full t (S f) accept (length (pending (S f) t cps')) cps' sol fuel
               Hs Hen eq_refl).
    + rewrite Heq. reflexivity.
    + apply (f_equal length) in Heq. cbn [length] in Heq. simpl app in Hfuel. lia.
  - apply andb_true_iff in Hfull as [Hne Hall]. rewrite forallb_forall in Hall.
    destruct tbl as [|[k1 c1] e]; [discriminate|].
    unfold add_choice. rewrite Hrd. cbn [mbind option_bind]. rewrite Hch.
    cbn [newTableEnum advanceTableEnum mbind option_bind].
    set (ch := mkChoice (@Some TableEnum e) k1 c1).
    destruct (descent_full t f ch [] fuel (S f)) as (cps' & sol & Hd & Hs & Heq & Hen);
      [apply (Hall (k1, c1)); left; reflexivity|lia|lia| |].
    { apply enum_full_cons.
      - intros e0 x He Hx. cbn in He. injection He as <-.
        apply (full_mono t f); [|lia]. apply Hall. right. apply list_elem_of_In. exact Hx.
      - intros c0 e0 x Hc0. apply elem_of_nil in Hc0. contradiction. }
    rewrite Hd. cbn [mbind option_bind fst snd].
    cbn [pending ch_table ch rest_enum ch_child map ch_key rev] in Heq.
    rewrite app_nil_r in Heq.
    rewrite (leaves_indep t f (S f) f) in Heq
      by first [lia | apply (Hall (k1, c1)); left; reflexivity].
    rewrite (rest_indep t f (S f) f) in Heq
      by first [lia | intros x Hx; apply Hall; right; exact Hx].
    cbn [flat_map fst snd] in Hfuel |- *.
    rewrite (gen_loop_full t (S f) accept (length (pending (S f) t cps')) cps' sol fuel
               Hs Hen eq_refl).
    + rewrite Heq. reflexivity.
    + apply (f_equal length) in Heq. cbn [length] in Heq. lia.
Qed.

Lemma trie_gen_complete_witness :
  trie_gen 10 (fun _ => true) trie_abc
  = Some (filter (fun _ => true) (leaves 2 trie_abc root [])).
Proof.
  apply (trie_gen_complete 2 10 (fun _ => true) trie_abc
           (mkNode 0 0 None (TN_HASHED [(atom 1, 1%nat); (atom 2, 2%nat); (atom 3, 3%nat)]))).
  - vm_compute. reflexivity.
  - reflexivity.
  - vm_compute. reflexivity.
  - vm_compute. lia.
Defined.

(** The leaves of the trie of a, b and c, and of the trie of
    f(X, a, g(X, Y)) *)
Example leaves_abc :
  leaves 2 trie_abc root []
  = [mkSolution [atom 1] (atom 11) 1%nat; mkSolution [atom 2] (atom 12) 2%nat;
     mkSolution [atom 3] (atom 13) 3%nat].
Proof. vm_compute. reflexivity. Qed.

Lemma down_snoc t a ks b nd k c :
  down t a ks b -> nodes t !! b = Some nd -> entry_of nd k c -> down t a (ks ++ [k]) c.
Proof.
  induction 1 as [n|n nd0 k0 c0 ks n' Hn He Hd IH]; intros Hb Hent.
  - simpl. eapply down_cons; eauto. apply down_nil.
  - simpl. eapply down_cons; eauto.
Qed.

Lemma chain_down t cps :
  chain t cps -> down t root (rev (map ch_key cps)) (choice_parent cps).
Proof.
  induction cps as [|ch below IH]; intros H.
  - apply down_nil.
  - destruct H as [(pd & Hpd & Hent & _) Hbelow]. simpl.
    eapply down_snoc; eauto.
Qed.

Lemma add_choice_chain t cps ch cd :
  chain t cps -> nodes t !! choice_parent cps = Some cd -> tn_children cd <> NoChildren ->
  add_choice t (choice_parent cps) = Some ch -> chain t (ch :: cps).
Proof.
  intros Hc Hcd Hne Hadd. unfold add_choice in Hadd. rewrite Hcd in Hadd. simpl in Hadd.
  split; [|exact Hc]. exists cd. split; [exact Hcd|]. unfold entry_of.
  destruct (tn_children cd) as [|k c|tbl]; [congruence| |].
  - injection Hadd as <-. simpl. split; [auto|]. intros e x He. discriminate.
  - unfold newTableEnum, advanceTableEnum in Hadd.
    destruct tbl as [|[k v] e]; [discriminate|]. injection Hadd as <-. simpl.
    split; [apply elem_of_cons; auto|].
    intros e0 x He Hx. injection He as <-. destruct x as [xk xv]. simpl.
    apply elem_of_cons. auto.
Qed.

Lemma descent_chain t : forall fuel cps b cps',
  chain t cps -> descent_node fuel t cps = Some (b, cps') ->
  chain t cps' /\ cps' <> [] /\ (b = true -> at_leaf t cps')
  /\ exists up, cps' = up ++ cps.
Proof.
  induction fuel as [|fuel IH]; intros cps b cps' Hc Hd; [discriminate|].
  simpl in Hd. destruct cps as [|ch below]; [discriminate|].
  destruct (nodes t !! ch_child ch) as [cd|] eqn:Hcd; [|discriminate]. simpl in Hd.
  destruct (tn_children cd) as [|k c|tbl] eqn:Hch.
  - injection Hd as <- <-. split; [exact Hc|]. split; [discriminate|]. split.
    + intros Hv. exists cd. split; [exact Hcd|]. split; [exact Hch|].
      apply negb_true_iff in Hv. apply Z.eqb_neq. exact Hv.
    + exists []. reflexivity.
  - destruct (add_choice t (ch_child ch)) as [ch'|] eqn:Hadd; [|discriminate]. simpl in Hd.
    assert (Hc' : chain t (ch' :: ch :: below)).
    { apply (add_choice_chain t (ch :: below) ch' cd Hc Hcd); [congruence|exact Hadd]. }
    destruct (IH _ _ _ Hc' Hd) as (H1 & H2 & H3 & up & Hup).
    split; [exact H1|]. split; [exact H2|]. split; [exact H3|].
    exists (up ++ [ch']). rewrite <- app_assoc. exact Hup.
  - destruct (add_choice t (ch_child ch)) as [ch'|] eqn:Hadd; [|discriminate]. simpl in Hd.
    assert (Hc' : chain t (ch' :: ch :: below)).
    { apply (add_choice_chain t (ch :: below) ch' cd Hc Hcd); [congruence|exact Hadd]. }
    destruct (IH _ _ _ Hc' Hd) as (H1 & H2 & H3 & up & Hup).
    split; [exact H1|]. split; [exact H2|]. split; [exact H3|].
    exists (up ++ [ch']). rewrite <- app_assoc. exact Hup.
Qed.

Lemma advance_chain t ch ch' below :
  chain t (ch :: below) -> advance_node ch = Some ch' -> chain t (ch' :: below).
Proof.
  intros [(pd & Hpd & Hent & Hrest) Hbelow] Hadv. unfold advance_node in Hadv.
  destruct (ch_table ch) as [e|] eqn:He; [|discriminate].
  unfold advanceTableEnum in Hadv. destruct e as [|[k v] e']; [discriminate|].
  injection Hadv as <-. split; [|exact Hbelow]. exists pd. split; [exact Hpd|]. simpl.
  split.
  - apply (Hrest ((k, v) :: e') (k, v) eq_refl). apply elem_of_cons. auto.
  - intros e0 x He0 Hx. injection He0 as <-.
    apply (Hrest ((k, v) :: e') x eq_refl). apply elem_of_cons. auto.
Qed.

Lemma next_chain t fuel : forall cps b cps',
  chain t cps -> next_choice fuel t cps = Some (b, cps') ->
  if b then chain t cps' /\ cps' <> [] /\ at_leaf t cps' else cps' = [].
Proof.
  induction cps as [|ch below IH]; intros b cps' Hc Hn.
  - simpl in Hn. injection Hn as <- <-. reflexivity.
  - simpl in Hn. pose proof Hc as [_ Hbelow].
    destruct (advance_node ch) as [ch'|] eqn:Hadv; [|apply IH; assumption].
    destruct (descent_node fuel t (ch' :: below)) as [[b1 cps1]|] eqn:Hd; [|discriminate].
    simpl in Hn. destruct b1.
    + injection Hn as <- <-.
      destruct (descent_chain t _ _ _ _ (advance_chain _ _ _ _ Hc Hadv) Hd)
        as (H1 & H2 & H3 & _).
      auto.
    + apply IH; assumption.
Qed.

Lemma path_stored t cps sol :
  chain t cps -> cps <> [] -> at_leaf t cps -> unify_trie_path t cps = Some sol ->
  stored t sol.
Proof.
  intros Hc Hne Hleaf Hu. destruct cps as [|ch below]; [congruence|].
  destruct Hleaf as (nd & Hnd & Hch & Hv).
  unfold unify_trie_path in Hu. rewrite Hnd in Hu. simpl in Hu. injection Hu as <-.
  split.
  - apply (chain_down t (ch :: below) Hc).
  - exists nd. simpl. auto.
Qed.

Lemma gen_loop_stored t accept : forall fuel cps sols,
  chain t cps -> at_leaf t cps ->
  trie_gen_loop fuel accept t cps = Some sols ->
  Forall (fun sol => accept sol = true /\ stored t sol) sols.
Proof.
  induction fuel as [|fuel IH]; intros cps sols Hc Hleaf Hrun; [discriminate|].
  destruct cps as [|ch below]; [simpl in Hrun; injection Hrun as <-; constructor|].
  cbn [trie_gen_loop] in Hrun.
  destruct (unify_trie_path t (ch :: below)) as [sol|] eqn:Hu; [|discriminate].
  cbn [mbind option_bind] in Hrun.
  destruct (next_choice (S fuel) t (ch :: below)) as [[b cps']|] eqn:Hn; [|discriminate].
  cbn [mbind option_bind fst snd] in Hrun.
  pose proof (path_stored t _ sol Hc ltac:(discriminate) Hleaf Hu) as Hsol.
  pose proof (next_chain t _ _ _ _ Hc Hn) as Hnext.
  destruct (accept sol) eqn:Hacc.
  - destruct b.
    + destruct Hnext as (H1 & H2 & H3).
      destruct (trie_gen_loop fuel accept t cps') as [sols'|] eqn:Hrest; [|discriminate].
      simpl in Hrun. injection Hrun as <-. constructor; [auto|]. eapply IH; eauto.
    + injection Hrun as <-. constructor; [auto|constructor].
  - destruct b.
    + destruct Hnext as (H1 & H2 & H3). eapply IH; eauto.
    + subst cps'. destruct fuel; [discriminate|]. simpl in Hrun. injection Hrun as <-.
      constructor.
Qed.

(** trie_gen gives nothing that is not stored: whatever the trie, every
    solution of a run to exhaustion is accepted by the arguments of the
    call, its node is a leaf that holds the value of the solution, and
    its keys lead from the root down to that node. *)
Theorem trie_gen_sound (fuel : nat) (accept : solution -> bool) (t : trie)
    (sols : list solution) :
  trie_gen fuel accept t = Some sols ->
  Forall (fun sol => accept sol = true /\ stored t sol) sols.
Proof.
  intros Hrun. unfold trie_gen in Hrun.
  destruct (nodes t !! root) as [rd|] eqn:Hrd; [|discriminate]. simpl in Hrun.
  assert (Hstart : tn_children rd <> NoChildren ->
            (ch ← add_choice t root;
             r ← descent_node fuel t [ch];
             if (fst r : bool) then trie_gen_loop fuel accept t (snd r)
             else r' ← next_choice fuel t (snd r);
                  if (fst r' : bool) then trie_gen_loop fuel accept t (snd r') else Some [])
            = Some sols ->
            Forall (fun sol => accept sol = true /\ stored t sol) sols).
  { intros Hne H.
    destruct (add_choice t root) as [ch|] eqn:Hadd; [|discriminate]. simpl in H.
    assert (Hc : chain t [ch]).
    { apply (add_choice_chain t [] ch rd I Hrd Hne Hadd). }
    destruct (descent_node fuel t [ch]) as [[b cps]|] eqn:Hd; [|discriminate]. simpl in H.
    destruct (descent_chain t _ _ _ _ Hc Hd) as (H1 & H2 & H3 & _).
    destruct b.
    - eapply gen_loop_stored; eauto.
    - destruct (next_choice fuel t cps) as [[b' cps']|] eqn:Hn; [|discriminate]. simpl in H.
      pose proof (next_chain t _ _ _ _ H1 Hn) as Hnext.
      destruct b'.
      + destruct Hnext as (K1 & K2 & K3). eapply gen_loop_stored; eauto.
      + injection H as <-. constructor. }
  destruct (tn_children rd) as [|k c|tbl] eqn:Hch.
  - injection Hrun as <-. constructor.
  - apply Hstart; [discriminate|exact Hrun].
  - apply Hstart; [discriminate|exact Hrun].
Qed.

Lemma trie_gen_sound_witness :
  Forall (fun sol => true = true /\ stored trie_fb sol)
    [mkSolution [MK_FUNCTOR 1 1; atom 1; TRIE_KEY_POP] (atom 11) 3%nat;
     mkSolution [MK_FUNCTOR 1 1; atom 2; TRIE_KEY_POP] (atom 12) 5%nat].
Proof.
  apply (trie_gen_sound 10 (fun _ => true) trie_fb). vm_compute. reflexivity.
Defined.

Lemma shrinks_refl t : shrinks t t.
Proof. intros x xd H. eauto. Qed.

Lemma shrinks_trans t1 t2 t3 : shrinks t1 t2 -> shrinks t2 t3 -> shrinks t1 t3.
Proof.
  intros H12 H23 x xd3 H3. destruct (H23 x xd3 H3) as (xd2 & H2 & E2).
  destruct (H12 x xd2 H2) as (xd1 & H1 & E1). exists xd1. split; [exact H1|].
  destruct E2 as [->| ->]; destruct E1 as [->| ->]; auto.
Qed.

Lemma shrinks_entry t t' p pd' k c :
  shrinks t t' -> nodes t' !! p = Some pd' -> entry_of pd' k c ->
  exists pd, nodes t !! p = Some pd /\ entry_of pd k c.
Proof.
  intros Hs Hp He. destruct (Hs p pd' Hp) as (pd & Hpd & [->| ->]); [eauto|].
  unfold entry_of in He. simpl in He. contradiction.
Qed.

Lemma shrinks_down t t' : shrinks t t' -> forall a ks b, down t' a ks b -> down t a ks b.
Proof.
  intros Hs a ks b H. induction H as [n|n nd k c ks n' Hn He Hd IH]; [apply down_nil|].
  destruct (shrinks_entry _ _ _ _ _ _ Hs Hn He) as (pd & Hpd & He').
  eapply down_cons; eauto.
Qed.

Lemma shrinks_unreferenced t t' n : shrinks t t' -> unreferenced t n -> unreferenced t' n.
Proof.
  intros Hs Hu p pd' k Hp He.
  destruct (shrinks_entry _ _ _ _ _ _ Hs Hp He) as (pd & Hpd & He'). eapply Hu; eauto.
Qed.

Lemma down_last t a ks b :
  down t a ks b -> ks <> [] -> exists p pd k, nodes t !! p = Some pd /\ entry_of pd k b.
Proof.
  induction 1 as [n|n nd k c ks n' Hn He Hd IH]; intros Hne; [congruence|].
  destruct ks as [|k' ks'].
  - inversion Hd; subst. eauto.
  - apply IH. discriminate.
Qed.

Lemma down_rank dep t a ks b :
  tree_ok dep t -> down t a ks b -> (dep a <= dep b)%nat /\ (ks <> [] -> (dep a < dep b)%nat).
Proof.
  intros Hok. induction 1 as [n|n nd k c ks n' Hn He Hd IH]; [split; [lia|congruence]|].
  destruct (Hok n nd Hn) as [Hent _]. destruct (Hent k c He) as (cd & _ & _ & Hlt).
  destruct IH as [IH _]. split; [lia|intros _; lia].
Qed.

Lemma foldl_clear_none f (tbl : Table) :
  foldl (fun acc e => t' ← acc; clear_node f t' (snd e) true) None tbl = None.
Proof. induction tbl as [|e tbl IH]; [reflexivity|exact IH]. Qed.

(** The nodes and the indirect table after the releases of clear_node *)
Lemma released_same nd t :
  let t2 := if tn_value nd =? 0 then release_key (tn_key nd) t
            else release_value (tn_value nd) (release_key (tn_key nd) t) in
  nodes t2 = nodes t /\ indirects t2 = indirects t.
Proof.
  simpl. unfold release_value, release_key.
  destruct (tn_value nd =? 0); destruct (isAtom (tn_key nd));
    try destruct (isAtom (tn_value nd)); try destruct (isRecord (tn_value nd));
    split; reflexivity.
Qed.

(** The step of clear_node on the node itself: its children are taken
    off, and the node is freed when [dealloc] is set. *)
Lemma clear_step_facts dep t t2 n nd (d : bool) :
  tree_ok dep t -> nodes t !! n = Some nd -> unreferenced t n ->
  nodes t2 = nodes t -> indirects t2 = indirects t ->
  let t3 := update_node t2 n (set_children nd NoChildren) in
  let t4 := if d then dealloc_node t3 n else t3 in
  nodes t4 !! n = (if d then None else Some (set_children nd NoChildren))
  /\ (forall x, x <> n -> nodes t4 !! x = nodes t !! x)
  /\ indirects t4 = indirects t
  /\ shrinks t t4
  /\ tree_ok dep t4
  /\ (forall k c, entry_of nd k c ->
        is_Some (nodes t4 !! c) /\ unreferenced t4 c /\ (dep n < dep c)%nat).
Proof.
  intros Hok Hn Hun Hn2 Hi2 t3 t4.
  assert (Hat : nodes t4 !! n = (if d then None else Some (set_children nd NoChildren))).
  { unfold t4, t3, dealloc_node, update_node. destruct d; simpl.
    - destruct (alloc_pool t2); simpl; apply lookup_delete_eq.
    - apply lookup_insert_eq. }
  assert (Hother : forall x, x <> n -> nodes t4 !! x = nodes t !! x).
  { intros x Hx. unfold t4, t3, dealloc_node, update_node. destruct d; simpl.
    - destruct (alloc_pool t2); simpl; rewrite lookup_delete_ne by congruence;
        rewrite lookup_insert_ne by congruence; rewrite Hn2; reflexivity.
    - rewrite lookup_insert_ne by congruence. rewrite Hn2. reflexivity. }
  assert (Hind : indirects t4 = indirects t).
  { unfold t4, t3, dealloc_node, update_node. destruct d; simpl; [|exact Hi2].
    destruct (alloc_pool t2); simpl; exact Hi2. }
  assert (Hsh : shrinks t t4).
  { intros x xd' Hx. destruct (decide (x = n)) as [->|Hne].
    - rewrite Hat in Hx. destruct d; [discriminate|]. injection Hx as <-. eauto.
    - rewrite Hother in Hx by exact Hne. eauto. }
  assert (Hnoent : forall p pd k c, nodes t4 !! p = Some pd -> entry_of pd k c ->
            p <> n /\ nodes t !! p = Some pd).
  { intros p pd k c Hp He. destruct (decide (p = n)) as [->|Hne].
    - rewrite Hat in Hp. destruct d; [discriminate|]. injection Hp as <-.
      unfold entry_of in He. simpl in He. contradiction.
    - rewrite Hother in Hp by exact Hne. auto. }
  split; [exact Hat|]. split; [exact Hother|]. split; [exact Hind|]. split; [exact Hsh|].
  split.
  - intros p pd Hp. split.
    + intros k c He. destruct (Hnoent p pd k c Hp He) as [Hne Hp0].
      destruct (Hok p pd Hp0) as [Hent _]. destruct (Hent k c He) as (cd & Hc & Hpar & Hlt).
      exists cd. split; [|auto].
      rewrite Hother; [exact Hc|]. intros ->. exact (Hun p pd k Hp0 He).
    + destruct (decide (p = n)) as [->|Hne].
      * rewrite Hat in Hp. destruct d; [discriminate|]. injection Hp as <-. exact I.
      * rewrite Hother in Hp by exact Hne. destruct (Hok p pd Hp) as [_ Hnd]. exact Hnd.
  - intros k c He. destruct (Hok n nd Hn) as [Hent _].
    destruct (Hent k c He) as (cd & Hc & Hpar & Hlt).
    assert (Hcn : c <> n) by (intros ->; lia).
    split; [rewrite Hother by exact Hcn; eauto|]. split; [|exact Hlt].
    intros p pd k' Hp He'. destruct (Hnoent p pd k' c Hp He') as [Hne Hp0].
    destruct (Hok p pd Hp0) as [Hent' _].
    destruct (Hent' k' c He') as (cd' & Hc' & Hpar' & _). congruence.
Qed.

Lemma bounded_shrinks (dep : node_id -> nat) (H : nat) t t' :
  shrinks t t' -> (forall x, is_Some (nodes t !! x) -> (dep x < H)%nat) ->
  forall x, is_Some (nodes t' !! x) -> (dep x < H)%nat.
Proof. intros Hs Hb x [xd Hx]. destruct (Hs x xd Hx) as (xd0 & Hx0 & _). eauto. Qed.

Lemma clear_fold (dep : node_id -> nat) (H : nat) f : clear_spec dep H f -> forall (tbl : Table) t0,
  tree_ok dep t0 -> (forall x, is_Some (nodes t0 !! x) -> (dep x < H)%nat) ->
  NoDup (map snd tbl) ->
  (forall e, e ∈ tbl ->
     is_Some (nodes t0 !! snd e) /\ unreferenced t0 (snd e) /\ (H < f + dep (snd e))%nat) ->
  exists t', foldl (fun acc e => t' ← acc; clear_node f t' (snd e) true) (Some t0) tbl = Some t'
    /\ tree_ok dep t' /\ shrinks t0 t'
    /\ (forall x, (forall e ks, e ∈ tbl -> ~ down t0 (snd e) ks x) ->
          nodes t' !! x = nodes t0 !! x)
    /\ indirects t' = indirects t0.
Proof.
  intros IH. induction tbl as [|e tbl IHt]; intros t0 Hok Hb Hnd Hall.
  - exists t0. simpl. split; [reflexivity|]. split; [exact Hok|].
    split; [apply shrinks_refl|]. auto.
  - cbn [map] in Hnd. apply NoDup_cons in Hnd as [Hfresh Hnd].
    destruct (Hall e) as ([ed He] & Hun & Hf); [apply elem_of_cons; auto|].
    destruct (IH t0 (snd e) true ed Hok Hb He Hun Hf)
      as (t1 & Hrun & Hok1 & Hs1 & Hfr1 & _ & Hi1).
    destruct (IHt t1 Hok1 (bounded_shrinks dep H _ _ Hs1 Hb) Hnd) as (t' & Hrun' & Hok' & Hs' & Hfr' & Hi').
    { intros e' He'. destruct (Hall e') as ([ed' Hed'] & Hun' & Hf');
        [apply elem_of_cons; auto|].
      split; [|split; [eapply shrinks_unreferenced; eauto|exact Hf']].
      rewrite Hfr1; [eauto|].
      intros ks Hd. destruct ks as [|k ks].
      - assert (Heq : snd e = snd e') by (inversion Hd; congruence).
        apply Hfresh. rewrite Heq. apply list_elem_of_In.
        apply in_map. apply list_elem_of_In. exact He'.
      - destruct (down_last _ _ _ _ Hd) as (p & pd & k' & Hp & Hent); [discriminate|].
        exact (Hun' p pd k' Hp Hent). }
    exists t'. simpl. rewrite Hrun. split; [exact Hrun'|]. split; [exact Hok'|].
    split; [eapply shrinks_trans; eauto|]. split; [|congruence].
    intros x Hx. rewrite Hfr'.
    + apply Hfr1. intros ks. apply (Hx e ks). apply elem_of_cons. auto.
    + intros e' ks He' Hd. apply (Hx e' ks); [apply elem_of_cons; auto|].
      eapply shrinks_down; eauto.
Qed.

Lemma clear_node_tree (dep : node_id -> nat) (H : nat) : forall fuel, clear_spec dep H fuel.
Proof.
  induction fuel as [|f IH]; intros t n d nd Hok Hb Hn Hun Hfuel.
  { specialize (Hb n ltac:(eauto)). lia. }
  simpl. rewrite Hn. simpl.
  destruct (released_same nd t) as [Hn2 Hi2].
  set (t2 := if tn_value nd =? 0 then release_key (tn_key nd) t
             else release_value (tn_value nd) (release_key (tn_key nd) t)) in *.
  destruct (clear_step_facts dep t t2 n nd d Hok Hn Hun Hn2 Hi2)
    as (Hat & Hother & Hind & Hsh & Hok4 & Hkids).
  set (t4 := if d then dealloc_node (update_node t2 n (set_children nd NoChildren)) n
             else update_node t2 n (set_children nd NoChildren)) in *.
  assert (Hunreach : forall c k ks, entry_of nd k c -> ~ down t4 c ks n).
  { intros c k ks He Hd. destruct (Hkids k c He) as (_ & _ & Hlt).
    destruct (down_rank dep t4 c ks n Hok4 Hd) as [Hle _]. lia. }
  unfold cleared_node. destruct (tn_children nd) as [|k c|tbl] eqn:Hch.
  - exists t2. split; [reflexivity|]. split.
    { intros p pd Hp. rewrite Hn2 in Hp. destruct (Hok p pd Hp) as [Hent Hnd].
      split; [|exact Hnd]. intros k c He. rewrite Hn2. eauto. }
    split; [intros x xd Hx; rewrite Hn2 in Hx; eauto|].
    split; [intros x _; rewrite Hn2; reflexivity|].
    split; [rewrite Hn2; exact Hn|exact Hi2].
  - assert (He : entry_of nd k c) by (unfold entry_of; rewrite Hch; auto).
    destruct (Hkids k c He) as ([cd Hc] & Hunc & Hlt).
    destruct (IH t4 c true cd Hok4 (bounded_shrinks dep H _ _ Hsh Hb) Hc Hunc ltac:(lia))
      as (t' & Hrun & Hok' & Hs' & Hfr' & _ & Hi').
    exists t'. split; [exact Hrun|]. split; [exact Hok'|].
    split; [eapply shrinks_trans; eauto|]. split; [|split; [|congruence]].
    + intros x Hx. rewrite Hfr'.
      * apply Hother. intros ->. apply (Hx []). apply down_nil.
      * intros ks Hd. apply (Hx (k :: ks)). eapply down_cons; eauto.
        eapply shrinks_down; eauto.
    + rewrite Hfr'; [exact Hat|]. intros ks. apply (Hunreach c k ks He).
  - assert (He : forall e, e ∈ tbl -> entry_of nd (fst e) (snd e)).
    { intros [k c] Hin. unfold entry_of. rewrite Hch. exact Hin. }
    destruct (Hok n nd Hn) as [_ Hnd]. rewrite Hch in Hnd.
    destruct (clear_fold dep H f IH tbl t4 Hok4 (bounded_shrinks dep H _ _ Hsh Hb) Hnd)
      as (t' & Hrun & Hok' & Hs' & Hfr' & Hi').
    { intros e Hin. destruct (Hkids _ _ (He e Hin)) as (Hc & Hunc & Hlt).
      split; [exact Hc|]. split; [exact Hunc|lia]. }
    exists t'. split; [exact Hrun|]. split; [exact Hok'|].
    split; [eapply shrinks_trans; eauto|]. split; [|split; [|congruence]].
    + intros x Hx. rewrite Hfr'.
      * apply Hother. intros ->. apply (Hx []). apply down_nil.
      * intros e ks Hin Hd. apply (Hx (fst e :: ks)). eapply down_cons; eauto.
        eapply shrinks_down; eauto.
    + rewrite Hfr'; [exact Hat|]. intros e ks Hin. apply (Hunreach (snd e) (fst e) ks (He e Hin)).
Qed.

Lemma tree_ok_b_sound t : tree_ok_b t = true -> tree_ok (fun x => x) t.
Proof.
  unfold tree_ok_b. rewrite forallb_forall. intros Hall p pd Hp.
  specialize (Hall (p, pd)). simpl in Hall.
  assert (Hin : In (p, pd) (map_to_list (nodes t)))
    by (apply list_elem_of_In, elem_of_map_to_list; exact Hp).
  specialize (Hall Hin).
  assert (Hchild : forall c, child_ok t p c = true ->
            exists cd, nodes t !! c = Some cd /\ tn_parent cd = Some p /\ (p < c)%nat).
  { intros c Hc. unfold child_ok in Hc. destruct (nodes t !! c) as [cd|]; [|discriminate].
    apply andb_true_iff in Hc as [H1 H2]. apply bool_decide_eq_true in H1.
    apply Nat.ltb_lt in H2. eauto. }
  unfold entry_of. destruct (tn_children pd) as [|k c|tbl].
  - split; [intros k c []|exact I].
  - split; [|exact I]. intros k' c' [_ <-]. apply Hchild. exact Hall.
  - apply andb_true_iff in Hall as [H1 H2]. apply bool_decide_eq_true in H2.
    split; [|exact H2]. intros k c Hkc. apply Hchild.
    rewrite forallb_forall in H1. apply (H1 (k, c)). apply list_elem_of_In. exact Hkc.
Qed.

Lemma empty_clears (dep : node_id -> nat) (H fuel : nat) (o : trie_object)
    (rd : trie_node) :
  tree_ok dep (content o) ->
  (forall x, is_Some (nodes (content o) !! x) -> (dep x < H)%nat) ->
  nodes (content o) !! root = Some rd ->
  tn_parent rd = None ->
  references o = 0 ->
  (H < fuel + dep root)%nat ->
  exists o',
    trie_empty fuel o = Some o'
    /\ get_trie (Some o') = (None, Some existence_error_trie)
    /\ is_trie (Some o') = false
    /\ nodes (content o') !! root = Some (set_children rd NoChildren)
    /\ (forall k, get_child (content o') root k = Some None)
    /\ indirects (content o') = None
    /\ tree_ok dep (content o')
    /\ (forall base, accounted base (content o) -> accounted base (content o')).
Proof.
  intros Hok Hb Hrd Hpar Href Hfuel.
  assert (Hun : unreferenced (content o) root).
  { intros p pd k Hp He. destruct (Hok p pd Hp) as [Hent _].
    destruct (Hent k root He) as (cd & Hc & Hcp & _). congruence. }
  destruct (clear_node_tree dep H fuel (content o) root false rd Hok Hb Hrd Hun Hfuel)
    as (t1 & Hrun & Hok1 & Hsh & _ & Hroot & Hind).
  assert (Hroot' : nodes t1 !! root = Some (set_children rd NoChildren)).
  { rewrite Hroot. unfold cleared_node, set_children.
    destruct rd as [v k p c]. simpl. destruct c; reflexivity. }
  set (t2 := match indirects (content o) with
             | Some _ => set_indirects t1 None
             | None => t1
             end).
  assert (Hn2 : nodes t2 = nodes t1) by (unfold t2; destruct (indirects (content o)); reflexivity).
  exists (mkObject TRIE_CMAGIC (references o) t2).
  split; [unfold trie_empty; rewrite Href; simpl; rewrite Hrun; reflexivity|].
  split; [reflexivity|]. split; [reflexivity|]. simpl.
  split; [rewrite Hn2; exact Hroot'|].
  split; [intros k; unfold get_child; rewrite Hn2, Hroot'; reflexivity|].
  split; [unfold t2; destruct (indirects (content o)) eqn:E; [reflexivity|congruence]|].
  split.
  - intros p pd Hp. rewrite Hn2 in Hp. destruct (Hok1 p pd Hp) as [Hent Hnd].
    split; [|exact Hnd]. intros k c He. rewrite Hn2. eauto.
  - intros base Hacc. apply (accounted_clear_node base) in Hrun; [|exact Hacc].
    eapply accounted_same; [|exact Hrun].
    unfold t2. destruct (indirects (content o)); repeat split.
Qed.

(** trie_empty of a trie that nobody accesses, for a trie shaped as a
    tree and enough steps for its depth: the call returns, the trie is
    marked as destroyed and is no longer handed out by get_trie, the
    root is left without children, so that get_child finds no key, the
    indirect table is gone, and the accounting of the nodes is kept. *)
Theorem trie_empty_clears (dep : node_id -> nat) (H fuel : nat) (o : trie_object)
    (rd : trie_node) :
  tree_ok dep (content o) ->
  (forall x, is_Some (nodes (content o) !! x) -> (dep x < H)%nat) ->
  nodes (content o) !! root = Some rd ->
  tn_parent rd = None ->
  references o = 0 ->
  (H < fuel + dep root)%nat ->
  exists o',
    trie_empty fuel o = Some o'
    /\ get_trie (Some o') = (None, Some existence_error_trie)
    /\ is_trie (Some o') = false
    /\ nodes (content o') !! root = Some (set_children rd NoChildren)
    /\ (forall k, get_child (content o') root k = Some None)
    /\ indirects (content o') = None
    /\ tree_ok dep (content o')
    /\ (forall base, accounted base (content o) -> accounted base (content o')).
Proof. apply empty_clears. Qed.

Lemma trie_empty_clears_witness :
  exists o',
    trie_empty 10 (mkObject TRIE_MAGIC 0 trie_fb) = Some o'
    /\ get_trie (Some o') = (None, Some existence_error_trie)
    /\ is_trie (Some o') = false
    /\ nodes (content o') !! root
       = Some (set_children (mkNode 0 0 None (TN_KEY (MK_FUNCTOR 1 1) 1%nat)) NoChildren)
    /\ (forall k, get_child (content o') root k = Some None)
    /\ indirects (content o') = None
    /\ tree_ok (fun x => x) (content o')
    /\ (forall base, accounted base trie_fb -> accounted base (content o')).
Proof.
  apply (trie_empty_clears (fun x => x) 6 10 (mkObject TRIE_MAGIC 0 trie_fb)).
  - apply tree_ok_b_sound. vm_compute. reflexivity.
  - apply fresh_ids_b_sound. vm_compute. reflexivity.
  - vm_compute. reflexivity.
  - reflexivity.
  - reflexivity.
  - unfold root. lia.
Defined.

(** A trie destroyed while it is accessed is only marked; its nodes are
    cleared when the last access is released.  On a live trie, acquiring
    and releasing an access changes nothing. *)
Theorem destroy_deferred (dep : node_id -> nat) (H fuel : nat) (o : trie_object)
    (rd : trie_node) :
  tree_ok dep (content o) ->
  (forall x, is_Some (nodes (content o) !! x) -> (dep x < H)%nat) ->
  nodes (content o) !! root = Some rd ->
  tn_parent rd = None ->
  magic o = TRIE_MAGIC ->
  references o = 0 ->
  (H < fuel + dep root)%nat ->
  release_trie fuel (acquire_trie o) = Some o
  /\ exists o1 o2,
       trie_destroy_1 fuel (Some (acquire_trie o)) = Some (TRUE, None, Some o1)
       /\ content o1 = content o
       /\ get_trie (Some o1) = (None, Some existence_error_trie)
       /\ release_trie fuel o1 = Some o2
       /\ trie_empty fuel o = Some o2
       /\ forall k, get_child (content o2) root k = Some None.
Proof.
  intros Hok Hb Hrd Hpar Hmagic Href Hfuel.
  destruct (empty_clears dep H fuel o rd Hok Hb Hrd Hpar Href Hfuel)
    as (o2 & Hrun & _ & _ & _ & Hget & _).
  destruct o as [mg refs t]. simpl in *. subst mg refs. split; [reflexivity|].
  exists (mkObject TRIE_CMAGIC 1 t), o2. split; [reflexivity|]. split; [reflexivity|].
  split; [reflexivity|]. split; [|split; [exact Hrun|exact Hget]].
  unfold release_trie, trie_clean. simpl.
  unfold trie_empty in *. simpl in *. exact Hrun.
Qed.

Lemma destroy_deferred_witness :
  release_trie 10 (acquire_trie (mkObject TRIE_MAGIC 0 trie_fb))
  = Some (mkObject TRIE_MAGIC 0 trie_fb)
  /\ exists o1 o2,
       trie_destroy_1 10 (Some (acquire_trie (mkObject TRIE_MAGIC 0 trie_fb)))
       = Some (TRUE, None, Some o1)
       /\ content o1 = trie_fb
       /\ get_trie (Some o1) = (None, Some existence_error_trie)
       /\ release_trie 10 o1 = Some o2
       /\ trie_empty 10 (mkObject TRIE_MAGIC 0 trie_fb) = Some o2
       /\ forall k, get_child (content o2) root k = Some None.
Proof.
  apply (destroy_deferred (fun x => x) 6 10 (mkObject TRIE_MAGIC 0 trie_fb)
           (mkNode 0 0 None (TN_KEY (MK_FUNCTOR 1 1) 1%nat))).
  - apply tree_ok_b_sound. vm_compute. reflexivity.
  - apply fresh_ids_b_sound. vm_compute. reflexivity.
  - vm_compute. reflexivity.
  - reflexivity.
  - reflexivity.
  - reflexivity.
  - unfold root. lia.
Defined.

(** After trie_empty the nodes of f(a) and f(b) that had children are
    freed and the two leaves are not: the node counter is left at 2. *)
Example trie_empty_fb :
  (size <$> (nodes <$> (content <$> trie_empty 10 (mkObject TRIE_MAGIC 0 trie_fb)))) = Some 3%nat
  /\ (node_count <$> (content <$> trie_empty 10 (mkObject TRIE_MAGIC 0 trie_fb))) = Some 2.
Proof. vm_compute. split; reflexivity. Qed.


Lemma hangs_unique t n a1 : hangs t n a1 -> forall a2, hangs t n a2 -> a2 = a1.
Proof.
  induction 1 as [n nd Hn Hp|n nd p pd anc Hn Hp Hpd Hc Hh IH]; intros a2 H2.
  - inversion H2; subst; [reflexivity|congruence].
  - inversion H2 as [|n' nd' p' pd' anc' Hn' Hp' Hpd' Hc' Hh']; subst; [congruence|].
    rewrite Hn in Hn'. injection Hn' as <-. rewrite Hp in Hp'. injection Hp' as <-.
    f_equal. apply IH. exact Hh'.
Qed.

Lemma hangs_suffix t n anc : hangs t n anc ->
  forall x, x ∈ anc -> exists pre anc', anc = pre ++ x :: anc' /\ hangs t x anc'.
Proof.
  induction 1 as [n nd Hn Hp|n nd p pd anc Hn Hp Hpd Hc Hh IH]; intros x Hx.
  - apply elem_of_nil in Hx. contradiction.
  - apply elem_of_cons in Hx as [->|Hx].
    + exists [], anc. split; [reflexivity|exact Hh].
    + destruct (IH x Hx) as (pre & anc' & -> & Hh'). exists (p :: pre), anc'.
      split; [reflexivity|exact Hh'].
Qed.

Lemma hangs_notin t n anc : hangs t n anc -> n ∉ anc.
Proof.
  intros Hh Hin. destruct (hangs_suffix _ _ _ Hh n Hin) as (pre & anc' & E & Hh').
  pose proof (hangs_unique _ _ _ Hh _ Hh') as E'. subst anc'.
  apply (f_equal length) in E. rewrite length_app in E. simpl in E. lia.
Qed.

Lemma hangs_nodup t n anc : hangs t n anc -> NoDup (n :: anc).
Proof.
  induction 1 as [n nd Hn Hp|n nd p pd anc Hn Hp Hpd Hc Hh IH].
  - apply NoDup_singleton.
  - apply NoDup_cons. split; [|exact IH].
    apply (hangs_notin t n (p :: anc)). eapply hangs_step; eauto.
Qed.

(** Two neighbours on the way up: the upper one is the parent of the
    lower one and has it as its child. *)
Lemma hangs_link t n anc : hangs t n anc ->
  forall pre y z post, n :: anc = pre ++ y :: z :: post ->
    exists yd zd, nodes t !! y = Some yd /\ tn_parent yd = Some z
                  /\ nodes t !! z = Some zd /\ child_of zd (tn_key yd) = Some y.
Proof.
  induction 1 as [n nd Hn Hp|n nd p pd anc Hn Hp Hpd Hc Hh IH]; intros pre y z post E.
  - destruct pre as [|? [|? ?]]; discriminate.
  - destruct pre as [|x pre].
    + simpl in E. injection E as <- <- _. exists nd, pd. auto.
    + simpl in E. injection E as _ E. apply (IH pre y z post E).
Qed.

Lemma lookupHTable_in (tbl : Table) k v : lookupHTable tbl k = Some v -> (k, v) ∈ tbl.
Proof.
  induction tbl as [|[k' v'] tbl IH]; simpl; [discriminate|].
  destruct (k' =? k) eqn:E.
  - intros H. injection H as <-. apply Z.eqb_eq in E. subst k'. apply elem_of_cons. auto.
  - intros H. apply elem_of_cons. right. apply IH. exact H.
Qed.










(** One round of the loop of prune_node, for a node that is the child of
    its parent: the node is detached and destroyed, and the loop goes on
    with the parent when that is left without children. *)
Lemma prune_node_step fuel t n nd p pd :
  nodes t !! n = Some nd -> tn_parent nd = Some p ->
  nodes t !! p = Some pd -> child_of pd (tn_key nd) = Some n ->
  prune_node (S fuel) t n =
    (t2 ← destroy_node (S fuel)
            (update_node t p (set_children pd (detach (tn_children pd) (tn_key nd)))) n;
     if other_children pd (tn_key nd) then Some t2 else prune_node fuel t2 p).
Proof.
  intros Hn Hp Hpd Hc. rewrite prune_node_unfold, Hn. simpl mbind. rewrite Hp, Hpd.
  simpl mbind. unfold child_of in Hc. unfold other_children, detach.
  destruct (tn_children pd) as [|k c|tbl].
  - discriminate.
  - destruct (k =? tn_key nd); [|discriminate]. reflexivity.
  - cbv zeta.
    destruct (destroy_node (S fuel) _ n) as [t2|]; [|reflexivity]. simpl mbind.
    destruct (length (deleteHTable tbl (tn_key nd)) =? 0)%nat; reflexivity.
Qed.

Lemma prune_chain_step fuel t n nd p pd :
  nodes t !! n = Some nd -> tn_parent nd = Some p -> nodes t !! p = Some pd ->
  prune_chain (S fuel) t n =
    if other_children pd (tn_key nd) then Some ([n], p)
    else r ← prune_chain fuel t p; Some (n :: fst r, snd r).
Proof. intros Hn Hp Hpd. cbn [prune_chain]. rewrite Hn. simpl. rewrite Hp, Hpd. reflexivity. Qed.

(** A node left without other children is childless once the child is
    detached. *)
Lemma detach_childless pd k :
  other_children pd k = false ->
  detach (tn_children pd) k = NoChildren \/ detach (tn_children pd) k = TN_HASHED [].
Proof.
  unfold other_children, detach. destruct (tn_children pd) as [|k' c|tbl]; auto.
  intros H. apply negb_false_iff in H. apply length_zero_nil in H. rewrite H. auto.
Qed.

(** What destroying a childless node leaves of it *)
Lemma destroy_node_childless_self fuel t n nd t' :
  nodes t !! n = Some nd ->
  tn_children nd = NoChildren \/ tn_children nd = TN_HASHED [] ->
  destroy_node (S fuel) t n = Some t' ->
  match nodes t' !! n with
  | Some nd' => tn_children nd' = NoChildren
  | None => True
  end.
Proof.
  intros Hn [Hc|Hc]; unfold destroy_node; simpl; rewrite Hn; simpl; rewrite Hc.
  - intros H. injection H as <-.
    destruct (tn_value nd =? 0);
      rewrite ?nodes_release_value, ?nodes_release_key, Hn; exact Hc.
  - simpl. intros H. injection H as <-.
    unfold dealloc_node, PL_free_node, update_node.
    destruct (alloc_pool _); simpl; rewrite lookup_delete_eq; exact I.
Qed.

(** The loop of prune_node from a childless node that hangs in the
    trie: the nodes it takes out are the chain that [prune_chain] reads
    off the trie, a lower part of the way up; the node at which it stops
    loses the entry of the chain, every other node is left as it was. *)
Lemma prune_node_chain t0 : forall fuel t n anc nd0 nd,
  hangs t0 n anc -> (length anc < fuel)%nat ->
  nodes t0 !! n = Some nd0 -> nodes t !! n = Some nd ->
  tn_parent nd = tn_parent nd0 -> tn_key nd = tn_key nd0 ->
  (tn_children nd = NoChildren \/ tn_children nd = TN_HASHED []) ->
  (forall x, x ∈ anc -> nodes t !! x = nodes t0 !! x) ->
  exists t' l a rest,
    prune_node fuel t n = Some t'
    /\ prune_chain fuel t0 n = Some (l, a)
    /\ n :: anc = l ++ a :: rest
    /\ (forall x, x ∉ l -> x <> a -> nodes t' !! x = nodes t !! x)
    /\ (forall x, x ∈ l -> match nodes t' !! x with
                           | Some xd' => tn_children xd' = NoChildren
                           | None => True
                           end)
    /\ (l = [] -> t' = t)
    /\ (l <> [] -> exists x xd ad,
          last l = Some x /\ nodes t0 !! x = Some xd /\ nodes t0 !! a = Some ad
          /\ nodes t' !! a = Some (set_children ad (detach (tn_children ad) (tn_key xd)))).
Proof.
  induction fuel as [|fuel IH]; intros t n anc nd0 nd Hh Hfuel Hn0 Hn Hpar Hkey Hch Hagree;
    [lia|].
  pose proof (hangs_notin _ _ _ Hh) as Hnotin.
  inversion Hh as [n' nd' Hn' Hp'|n' nd' p pd anc' Hn' Hp' Hpd0 Hc Hhp]; subst;
    rewrite Hn0 in Hn'; injection Hn' as <-.
  - exists t, [], n, []. rewrite prune_node_unfold, Hn. simpl mbind. rewrite Hpar, Hp'.
    cbn [prune_chain]. rewrite Hn0. simpl mbind. rewrite Hp'.
    split; [reflexivity|]. split; [reflexivity|]. split; [reflexivity|].
    split; [reflexivity|]. split; [intros x Hx; apply elem_of_nil in Hx; contradiction|].
    split; [reflexivity|]. intros H; exfalso; apply H; reflexivity.
  - pose proof (hangs_notin _ _ _ Hhp) as Hpnotin.
    assert (Hnp : n <> p) by (intros ->; apply Hnotin; apply elem_of_cons; auto).
    assert (Hpd : nodes t !! p = Some pd)
      by (rewrite Hagree by (apply elem_of_cons; auto); exact Hpd0).
    rewrite (prune_node_step fuel t n nd p pd Hn ltac:(congruence) Hpd ltac:(congruence)).
    rewrite (prune_chain_step fuel t0 n nd0 p pd Hn0 Hp' Hpd0). rewrite Hkey.
    set (c' := detach (tn_children pd) (tn_key nd0)).
    set (t1 := update_node t p (set_children pd c')).
    assert (Hn1 : nodes t1 !! n = Some nd)
      by (unfold t1, update_node; simpl; rewrite lookup_insert_ne by congruence; exact Hn).
    destruct (destroy_node_childless fuel t1 n nd Hn1 Hch) as (t2 & Hd & Hframe).
    pose proof (destroy_node_childless_self fuel t1 n nd t2 Hn1 Hch Hd) as Hself.
    rewrite Hd. simpl mbind.
    assert (Hp2 : nodes t2 !! p = Some (set_children pd c')).
    { rewrite Hframe by congruence. unfold t1, update_node; simpl. apply lookup_insert_eq. }
    destruct (other_children pd (tn_key nd0)) eqn:Ho.
    + exists t2, [n], p, anc'.
      split; [reflexivity|]. split; [reflexivity|]. split; [reflexivity|].
      split; [|split; [|split; [discriminate|]]].
      * intros x Hx Hxp. rewrite Hframe by (intros ->; apply Hx; apply elem_of_cons; auto).
        unfold t1, update_node; simpl. apply lookup_insert_ne. congruence.
      * intros x Hx. apply list_elem_of_singleton in Hx. subst x. exact Hself.
      * intros _. exists n, nd0, pd. split; [reflexivity|]. split; [exact Hn0|].
        split; [exact Hpd0|]. exact Hp2.
    + destruct (IH t2 p anc' pd (set_children pd c') Hhp ltac:(simpl in Hfuel; lia) Hpd0 Hp2
                  eq_refl eq_refl (detach_childless _ _ Ho))
        as (t' & l & a & rest & Hrun & Hchain & Hsplit & Hfr & Hkids & Hnil & Hcons).
      { intros x Hx. rewrite Hframe by (intros ->; apply Hnotin; apply elem_of_cons; auto).
        unfold t1, update_node; simpl.
        rewrite lookup_insert_ne by (intros ->; exact (Hpnotin Hx)).
        apply Hagree. apply elem_of_cons. auto. }
      rewrite Hrun, Hchain. simpl mbind.
      assert (Hnl : (n ∉ l) /\ n <> a).
      { split.
        - intros Hin. apply Hnotin. rewrite Hsplit. apply elem_of_app. auto.
        - intros ->. apply Hnotin. rewrite Hsplit. apply elem_of_app. right.
          apply elem_of_cons. auto. }
      destruct Hnl as [Hnl Hna].
      assert (Hpin : p ∈ l \/ p = a).
      { destruct l as [|y l']; simpl in Hsplit; injection Hsplit as -> _;
          [right; reflexivity|left; apply elem_of_cons; auto]. }
      exists t', (n :: l), a, rest.
      split; [reflexivity|]. split; [reflexivity|].
      split; [simpl; rewrite Hsplit; reflexivity|].
      split; [|split; [|split; [discriminate|]]].
      * intros x Hx Hxa.
        assert (Hxn : x <> n) by (intros ->; apply Hx; apply elem_of_cons; auto).
        assert (Hxl : x ∉ l) by (intros Hin; apply Hx; apply elem_of_cons; auto).
        rewrite Hfr by assumption. rewrite Hframe by exact Hxn.
        unfold t1, update_node; simpl. apply lookup_insert_ne.
        intros <-. destruct Hpin as [Hin| ->]; [exact (Hxl Hin)|exact (Hxa eq_refl)].
      * intros x Hx. apply elem_of_cons in Hx as [->|Hx]; [|apply Hkids; exact Hx].
        rewrite Hfr by assumption. exact Hself.
      * intros _. destruct l as [|y l'].
        -- simpl in Hsplit. injection Hsplit as <- _.
           rewrite (Hnil eq_refl). exists n, nd0, pd.
           split; [reflexivity|]. split; [exact Hn0|]. split; [exact Hpd0|]. exact Hp2.
        -- destruct Hcons as (x & xd & ad & Hlast & Hx0 & Ha0 & Ha'); [discriminate|].
           exists x, xd, ad. split; [exact Hlast|]. split; [exact Hx0|].
           split; [exact Ha0|exact Ha'].
Qed.


(** The member of the chain that follows a given one on the way up *)
Lemma chain_next (n : node_id) anc l a rest y :
  n :: anc = l ++ a :: rest -> y ∈ l ->
  exists pre z post, n :: anc = pre ++ y :: z :: post
                     /\ (z ∈ l \/ (z = a /\ last l = Some y)).
Proof.
  intros E Hy. apply list_elem_of_split in Hy as (l1 & l2 & ->).
  destruct l2 as [|z l2].
  - exists l1, a, rest. split; [rewrite E, <- app_assoc; reflexivity|].
    right. split; [reflexivity|]. apply last_snoc.
  - exists l1, z, (l2 ++ a :: rest). split; [rewrite E, <- app_assoc; reflexivity|].
    left. apply elem_of_app. right. apply elem_of_cons. right. apply elem_of_cons. auto.
Qed.

Lemma chain_nil t fuel n a :
  prune_chain fuel t n = Some ([], a) ->
  a = n /\ exists nd, nodes t !! n = Some nd /\ tn_parent nd = None.
Proof.
  destruct fuel as [|fuel]; [discriminate|]. cbn [prune_chain].
  destruct (nodes t !! n) as [nd|]; [|discriminate]. simpl.
  destruct (tn_parent nd) as [p|] eqn:Hp.
  - destruct (nodes t !! p) as [pd|]; [|discriminate]. simpl.
    destruct (other_children pd (tn_key nd)); [discriminate|].
    destruct (prune_chain fuel t p) as [[l' a']|]; discriminate.
  - intros H. injection H as <-. eauto.
Qed.

Lemma chain_head t fuel n l a :
  prune_chain fuel t n = Some (l, a) -> l <> [] -> exists l0, l = n :: l0.
Proof.
  destruct fuel as [|fuel]; [discriminate|]. cbn [prune_chain].
  destruct (nodes t !! n) as [nd|]; [|discriminate]. simpl.
  destruct (tn_parent nd) as [p|]; [|intros H; injection H as <- _; congruence].
  destruct (nodes t !! p) as [pd|]; [|discriminate]. simpl.
  destruct (other_children pd (tn_key nd)).
  - intros H _. injection H as <- _. eauto.
  - destruct (prune_chain fuel t p) as [[l' a']|]; [|discriminate]. simpl.
    intros H _. injection H as <- _. eauto.
Qed.






(** After f(b) was pruned away, the pruning from the leaf of f(a) goes
    up to the root; in the trie of f(a) whose inner node 2 holds a value,
    the pruning from node 2 takes out node 2, which has a child, and
    node 1, and stops at the root. *)
Example prune_chain_runs :
  prune_chain 10 trie_fb_pruned 3%nat = Some ([3; 2; 1]%nat, root)
  /\ hangs_b 10 trie_fb_pruned 5%nat = None
  /\ prune_chain 10 trie_fa_inner 2%nat = Some ([2; 1]%nat, root)
  /\ match trie_delete 10 trie_fa_inner 2%nat true with
     | Some t' => get_child t' root (MK_FUNCTOR 1 1) = Some None
                  /\ nodes t' !! 2%nat = None
     | None => False
     end.
Proof. vm_compute. repeat split; reflexivity. Qed.

Lemma descend_app t : forall a n b,
  descend t n (a ++ b) = c ← descend t n a; descend t c b.
Proof.
  induction a as [|k a IH]; intros n b; [reflexivity|]. simpl.
  destruct (get_child t n k) as [[c|]|]; [apply IH|reflexivity|reflexivity].
Qed.

Lemma descend_cons t n k ks n' :
  descend t n (k :: ks) = Some n' ->
  exists c, get_child t n k = Some (Some c) /\ descend t c ks = Some n'.
Proof.
  simpl. destruct (get_child t n k) as [[c|]|]; [eauto|discriminate|discriminate].
Qed.

Lemma descend_one t n k n' : descend t n [k] = Some n' -> get_child t n k = Some (Some n').
Proof.
  intros H. apply descend_cons in H as (c & Hc & Hd). simpl in Hd. congruence.
Qed.

Lemma follow_found t n k c : get_child t n k = Some (Some c) ->
  follow_node t n k false = Some (Some c, t).
Proof. intros H. unfold follow_node. rewrite H. reflexivity. Qed.

(** A reference chain is followed by deRef once the fuel covers it. *)
Lemma derefs_fuel m p q : derefs m p q ->
  exists d, forall f, (d <= f)%nat -> deRef f m p = Some q.
Proof.
  induction 1 as [p w Hw Hr|p w q Hw Hr Hd [d IH]].
  - exists 1%nat. intros f Hf. destruct f; [lia|]. simpl. rewrite Hw. simpl. rewrite Hr.
    reflexivity.
  - exists (S d). intros f Hf. destruct f; [lia|]. simpl. rewrite Hw. simpl. rewrite Hr.
    apply IH. lia.
Qed.

(** One cell of the walk *)
Lemma find_cell m0 ls loc k stk n vs q ls1 :
  ls_node ls = Some n ->
  ls_agenda ls = mkAgenda (mkANode loc (S k)) stk ->
  marks m0 vs (ls_mem ls) ->
  derefs m0 loc q ->
  (forall fe, lookup_step fe false ls n (mkAgenda (mkANode (loc + 1) k) stk) q = Some ls1) ->
  exists R, forall rest, (R <= rest)%nat ->
    trie_lookup_loop (1 + rest) false ls = trie_lookup_loop rest false ls1.
Proof.
  intros Hn Hag Hm Hd Hstep. destruct (derefs_fuel _ _ _ Hd) as [d Hfuel].
  exists d. intros rest Hrest. change (1 + rest)%nat with (S rest).
  rewrite trie_lookup_loop_unfold, Hn, Hag, next_P_cell.
  rewrite <- (deRef_skeleton _ _ (marks_skeleton _ _ _ Hm)).
  rewrite Hfuel by lia. simpl mbind. cbv beta iota. rewrite Hstep. reflexivity.
Qed.

Lemma follow_got t n k r : get_child t n k = Some r ->
  follow_node t n k false = Some (r, t).
Proof. intros H. unfold follow_node. rewrite H. destruct r; reflexivity. Qed.

Lemma isIndirect_nonzero w : isIndirect w = true -> (w =? 0) = false.
Proof.
  intros H. apply Z.eqb_neq. intros ->. vm_compute in H. discriminate.
Qed.

Lemma step_var m0 T tbl a : Z.of_nat (size m0) < 2 ^ 56 -> step_t m0 T tbl (SVar a).
Proof.
  intros Hsize loc ls stk k n vs key vs' r Hsh Hag Hinv Henc Hget.
  destruct Hsh as (q & w & Hd & Hw & -> & ->).
  pose proof Hinv as (Hn & Hrc & Hm & Hvn & HT).
  pose proof (marks_length _ _ _ Hm) as Hlen.
  simpl in Henc. destruct (index_nat q vs) as [i|] eqn:Hidx.
  - injection Henc as <- <-.
    apply index_nat_lookup in Hidx as Hi.
    destruct Hm as (Hnd & Hin & Hout). destruct (Hin i q Hi) as [_ HE].
    assert (Hib : (i < length vs)%nat) by (eapply lookup_lt_Some; eauto).
    destruct (find_cell m0 ls loc k stk n vs q
                (mkLookup (mkAgenda (mkANode (loc + 1) k) stk) r (ls_var_number ls)
                   (ls_rc ls) (ls_compounds ls) T (ls_mem ls)) Hn Hag
                (conj Hnd (conj Hin Hout)) Hd) as [R HR].
    { intros fe. unfold lookup_step. rewrite HE. simpl mbind. rewrite tag_var_key.
      change (TAG_VAR =? TAG_VAR) with true. cbv iota. unfold isVar.
      destruct (var_key (Z.of_nat i + 1) =? 0) eqn:E0.
      { apply Z.eqb_eq in E0. exfalso. revert E0. apply var_key_nonzero. lia. }
      rewrite HT, (follow_got _ _ _ _ Hget). reflexivity. }
    exists R. eexists. split; [exact HR|]. simpl. split; [reflexivity|].
    split; [reflexivity|]. split; [exact Hrc|].
    split; [exact (conj Hnd (conj Hin Hout))|]. split; [exact Hvn|reflexivity].
  - injection Henc as <- <-.
    apply index_nat_none in Hidx.
    destruct Hm as (Hnd & Hin & Hout).
    assert (HE : ls_mem ls !! q = Some 0) by (rewrite Hout by exact Hidx; exact Hw).
    assert (Hm' : marks m0 (vs ++ [q]) (<[q := var_key (Z.of_nat (length vs) + 1)]> (ls_mem ls))).
    { split; [|split].
      - apply NoDup_app. split; [exact Hnd|]. split; [|apply NoDup_singleton].
        intros x Hx Hx'. apply list_elem_of_singleton in Hx'. subst x. contradiction.
      - intros i x Hi. destruct (decide (i < length vs)%nat) as [Hlt|Hge].
        + rewrite lookup_app_l in Hi by exact Hlt. destruct (Hin i x Hi) as [H0 HEx].
          split; [exact H0|]. rewrite lookup_insert_ne; [exact HEx|].
          intros ->. apply Hidx. eapply list_elem_of_lookup_2; eauto.
        + rewrite lookup_app_r in Hi by lia.
          destruct (i - length vs)%nat as [|j] eqn:Ej; [|destruct j; discriminate].
          injection Hi as <-. split; [exact Hw|].
          assert (i = length vs) by lia. subst i. apply lookup_insert_eq.
      - intros x Hx. rewrite lookup_insert_ne.
        + apply Hout. intros Hin'. apply Hx. apply elem_of_app. left. exact Hin'.
        + intros ->. apply Hx. apply elem_of_app. right. apply list_elem_of_singleton.
          reflexivity. }
    destruct (find_cell m0 ls loc k stk n vs q
                (mkLookup (mkAgenda (mkANode (loc + 1) k) stk) r
                   (Z.of_nat (length vs) + 1)
                   (ls_rc ls) (ls_compounds ls) T
                   (<[q := var_key (Z.of_nat (length vs) + 1)]> (ls_mem ls))) Hn Hag
                (conj Hnd (conj Hin Hout)) Hd) as [R HR].
    { intros fe. unfold lookup_step. rewrite HE. simpl mbind.
      change (tag 0 =? TAG_VAR) with true. cbv iota.
      change (isVar 0) with true. cbv iota.
      rewrite Hvn. rewrite wrap_small by lia.
      rewrite HT, (follow_got _ _ _ _ Hget). reflexivity. }
    exists R. eexists. split; [exact HR|]. simpl. split; [reflexivity|].
    split; [reflexivity|]. split; [exact Hrc|]. split; [exact Hm'|].
    split; [|reflexivity]. rewrite length_app. simpl. lia.
Qed.

Lemma step_atomic m0 T tbl w : step_t m0 T tbl (SAtomic w).
Proof.
  intros loc ls stk k n vs key vs' r Hsh Hag Hinv Henc Hget.
  destruct Hsh as (q & w' & Hd & Hw & -> & (Tv & Ta & Tc & Ti & Tf)).
  pose proof Hinv as (Hn & Hrc & Hm & Hvn & HT).
  simpl in Henc. injection Henc as <- <-.
  destruct (find_cell m0 ls loc k stk n vs q
              (mkLookup (mkAgenda (mkANode (loc + 1) k) stk) r (ls_var_number ls)
                 (ls_rc ls) (ls_compounds ls) T (ls_mem ls)) Hn Hag Hm Hd) as [R HR].
  { intros fe. unfold lookup_step.
    rewrite (marks_nonvar _ _ _ _ _ Hm Hw Tv). simpl mbind.
    rewrite Tv, Ta, Tc, Ti. simpl negb. cbv iota.
    rewrite HT, (follow_got _ _ _ _ Hget). reflexivity. }
  exists R. eexists. split; [exact HR|]. simpl. auto 10.
Qed.

Lemma step_indirect m0 T tbl tg c :
  default [] (indirects T) = tbl -> Z.of_nat (length tbl) < 2 ^ 56 ->
  step_t m0 T tbl (SIndirect tg c).
Proof.
  intros Htbl Hlen loc ls stk k n vs key vs' r Hsh Hag Hinv Henc Hget.
  pose proof (proj1 (shape_good_all m0) _ _ Hsh) as [Htgok _].
  destruct Hsh as (q & w & Hd & Hw & Hi & Htg & Hc & Hct).
  pose proof Hinv as (Hn & Hrc & Hm & Hvn & HT).
  destruct (indirect_tag _ Hi) as (Tv & Ta & Tc).
  simpl in Henc.
  destruct (index_of (tg, c) tbl 0) as [i|] eqn:Hidx.
  2:{ exfalso. injection Henc as _ _ Hbad.
      apply (f_equal length) in Hbad. rewrite length_app in Hbad. simpl in Hbad. lia. }
  injection Henc as <- <-.
  destruct (index_of_lookup _ _ _ _ Hidx) as [Hir Hil].
  assert (Hsome : indirects T = Some tbl).
  { destruct (indirects T) as [tb|]; unfold default in Htbl; [f_equal; exact Htbl|].
    subst tbl. simpl in Hidx. discriminate. }
  assert (HcE : ls_mem ls !! valPtr w = Some c).
  { apply (marks_nonvar _ _ _ _ _ Hm Hc). apply Z.eqb_neq. exact Hct. }
  destruct (surrogate_facts tg i Htgok ltac:(lia)) as (_ & _ & _ & Hsi & _).
  destruct (find_cell m0 ls loc k stk n vs q
              (mkLookup (mkAgenda (mkANode (loc + 1) k) stk) r (ls_var_number ls)
                 (ls_rc ls) (ls_compounds ls) T (ls_mem ls)) Hn Hag Hm Hd) as [R HR].
  { intros fe. unfold lookup_step.
    rewrite (marks_nonvar _ _ _ _ _ Hm Hw Tv). simpl mbind.
    rewrite Tv, Ta, Tc, Hi. simpl negb. cbv iota.
    unfold trie_intern_indirect, intern_indirect. rewrite HcE. simpl mbind.
    rewrite HT, Hsome, Htg, Hidx. simpl mbind. cbv beta iota.
    rewrite (isIndirect_nonzero _ Hsi).
    rewrite (set_indirects_id _ _ Hsome), (follow_got _ _ _ _ Hget). reflexivity. }
  exists R. eexists. split; [exact HR|]. simpl. auto 10.
Qed.

(** A step that finds the child is a step of the found walk. *)
Lemma found_step m0 T tbl s : step_t m0 T tbl s ->
  (forall vs keys vs', enc vs tbl s = (keys, vs', tbl) -> exists key, keys = [key]) ->
  find_t m0 T tbl s.
Proof.
  intros Hstep Hone loc ls stk k n vs keys vs' n' Hsh Hag Hinv Henc Hdesc.
  destruct (Hone _ _ _ Henc) as [key ->]. apply descend_one in Hdesc.
  destruct (Hstep loc ls stk k n vs key vs' (Some n') Hsh Hag Hinv Henc Hdesc)
    as (R & ls' & HR & Hag' & Hn' & Hrc' & Hm' & Hvn' & HT').
  exists 1%nat, R, ls'. split; [exact HR|]. split; [exact Hag'|].
  unfold find_inv. auto 10.
Qed.

Lemma found_var m0 T tbl a : Z.of_nat (size m0) < 2 ^ 56 -> find_t m0 T tbl (SVar a).
Proof.
  intros Hsize. apply found_step; [apply step_var; exact Hsize|].
  intros vs keys vs' H. simpl in H.
  destruct (index_nat a vs); apply (f_equal (fun x => fst (fst x))) in H; simpl in H;
    subst keys; eauto.
Qed.

Lemma found_atomic m0 T tbl w : find_t m0 T tbl (SAtomic w).
Proof.
  apply found_step; [apply step_atomic|].
  intros vs keys vs' H. simpl in H.
  apply (f_equal (fun x => fst (fst x))) in H. simpl in H. subst keys. eauto.
Qed.

Lemma found_indirect m0 T tbl tg c :
  default [] (indirects T) = tbl -> Z.of_nat (length tbl) < 2 ^ 56 ->
  find_t m0 T tbl (SIndirect tg c).
Proof.
  intros Htbl Hlen. apply found_step; [apply step_indirect; assumption|].
  intros vs keys vs' H. simpl in H.
  destruct (index_of (tg, c) tbl 0); apply (f_equal (fun x => fst (fst x))) in H; simpl in H;
    subst keys; eauto.
Qed.

Lemma found_nil m0 T tbl : find_l m0 T tbl SNil.
Proof.
  intros loc ls stk k n vs keys vs' n' Hsh Hag Hinv Henc Hdesc.
  simpl in Henc. injection Henc as <- <-. simpl in Hdesc. injection Hdesc as <-.
  exists O, O, ls. split; [reflexivity|]. split; [|exact Hinv].
  rewrite Hag. simpl. rewrite Z.add_0_r. reflexivity.
Qed.

Lemma prefix_both {A} (l1 l2 : list A) : l1 `prefix_of` l2 -> l2 `prefix_of` l1 -> l2 = l1.
Proof.
  intros H1 H2. apply prefix_length_eq; [exact H2|]. apply prefix_length. exact H1.
Qed.

Lemma found_cons m0 T tbl s l : find_t m0 T tbl s -> find_l m0 T tbl l ->
  find_l m0 T tbl (SCons s l).
Proof.
  intros IHs IHl loc ls stk k n vs keys vs' n' Hsh Hag Hinv Henc Hdesc.
  destruct Hsh as [Hs Hl]. simpl in Henc.
  destruct (enc vs tbl s) as [[k1 vs1] tbl1] eqn:E1.
  destruct (enc_l vs1 tbl1 l) as [[k2 vs2] tbl2] eqn:E2.
  injection Henc as <- <- ->.
  destruct (proj1 enc_facts_all _ _ _ _ _ _ E1) as (_ & Hp1 & _).
  destruct (proj2 enc_facts_all _ _ _ _ _ _ E2) as (_ & Hp2 & _).
  assert (tbl1 = tbl) by (apply prefix_both; assumption). subst tbl1.
  rewrite descend_app in Hdesc.
  destruct (descend T n k1) as [n1|] eqn:Hd1; [|discriminate]. simpl in Hdesc.
  destruct (IHs loc ls stk (slen l + k)%nat n vs k1 vs1 n1 Hs Hag Hinv E1 Hd1)
    as (N1 & R1 & ls1 & Hrun1 & Hag1 & Hinv1).
  destruct (IHl (loc + 1) ls1 stk k n1 vs1 k2 vs2 n' Hl Hag1 Hinv1 E2 Hdesc)
    as (N2 & R2 & ls2 & Hrun2 & Hag2 & Hinv2).
  exists (N1 + N2)%nat, (R1 + R2)%nat, ls2. split; [|split; [|exact Hinv2]].
  - intros rest Hrest. rewrite <- Nat.add_assoc. rewrite Hrun1 by lia. apply Hrun2. lia.
  - rewrite Hag2. simpl slen. f_equal. f_equal. lia.
Qed.

Lemma found_compound m0 T tbl f args : find_l m0 T tbl args -> find_t m0 T tbl (SCompound f args).
Proof.
  intros IHl loc ls stk k n vs keys vs' n' Hsh Hag Hinv Henc Hdesc.
  destruct Hsh as (q & w & Hd & Hw & Htc & Hf & Hfk & Har & Hargs).
  pose proof Hinv as (Hn & Hrc & Hm & Hvn & HT).
  simpl in Henc. destruct (enc_l vs tbl args) as [[k1 vs1] tbl1] eqn:E1.
  injection Henc as <- <- ->.
  apply descend_cons in Hdesc as (n1 & Hc1 & Hdesc).
  rewrite descend_app in Hdesc.
  destruct (descend T n1 k1) as [n2|] eqn:Hd2; [|discriminate]. simpl in Hdesc.
  apply descend_one in Hdesc.
  assert (Tv : (tag w =? TAG_VAR) = false) by (rewrite Htc; reflexivity).
  assert (Tfv : (tag f =? TAG_VAR) = false) by (rewrite (functor_key_tag _ Hfk); reflexivity).
  set (ls1 := mkLookup (pushWorkAgenda_P (mkAgenda (mkANode (loc + 1) k) stk) (arityFunctor f)
                          (valPtr w + 1))
                (Some n1) (ls_var_number ls) (ls_rc ls) (ls_compounds ls) T (ls_mem ls)).
  destruct (find_cell m0 ls loc k stk n vs q ls1 Hn Hag Hm Hd) as [R0 HR0].
  { intros fe. unfold lookup_step.
    rewrite (marks_nonvar _ _ _ _ _ Hm Hw Tv). simpl mbind.
    rewrite Htc.
    change (TAG_COMPOUND =? TAG_VAR) with false.
    change (TAG_COMPOUND =? TAG_ATTVAR) with false.
    change (TAG_COMPOUND =? TAG_COMPOUND) with true. cbv iota.
    rewrite (marks_nonvar _ _ _ _ _ Hm Hf Tfv). simpl mbind.
    cbv beta iota zeta. simpl andb. cbv iota.
    rewrite HT, (follow_found _ _ _ _ Hc1). reflexivity. }
  assert (Hag1 : ls_agenda ls1
                 = mkAgenda (mkANode (valPtr w + 1) (slen args + 0))
                     (mkANode (loc + 1) k :: stk)).
  { unfold ls1, pushWorkAgenda_P; simpl. rewrite Har, Nat.add_0_r. reflexivity. }
  assert (Hinv1 : find_inv m0 T ls1 n1 vs) by (unfold find_inv, ls1; simpl; auto 10).
  destruct (IHl (valPtr w + 1) ls1 (mkANode (loc + 1) k :: stk) O n1 vs k1 vs1 n2
              Hargs Hag1 Hinv1 E1 Hd2) as (N2 & R2 & ls2 & Hrun2 & Hag2 & Hinv2).
  pose proof Hinv2 as (Hn2 & Hrc2 & Hm2 & Hvn2 & HT2).
  exists (1 + N2 + 1)%nat, (R0 + R2)%nat.
  exists (mkLookup (mkAgenda (mkANode (loc + 1) k) stk) (Some n') (ls_var_number ls2)
            (ls_rc ls2) (ls_compounds ls2) T (ls_mem ls2)).
  split; [|split; [reflexivity|unfold find_inv; simpl; auto 10]].
  intros rest Hrest.
  replace (1 + N2 + 1 + rest)%nat with (1 + (N2 + (1 + rest)))%nat by lia.
  rewrite HR0 by lia. rewrite Hrun2 by lia.
  change (1 + rest)%nat with (S rest).
  rewrite trie_lookup_loop_unfold, Hn2, Hag2, next_P_pop. simpl mbind. cbv beta iota.
  rewrite HT2, (follow_found _ _ _ _ Hdesc). reflexivity.
Qed.

Lemma found_all m0 T tbl :
  Z.of_nat (size m0) < 2 ^ 56 ->
  default [] (indirects T) = tbl -> Z.of_nat (length tbl) < 2 ^ 56 ->
  (forall s, find_t m0 T tbl s) /\ (forall l, find_l m0 T tbl l).
Proof.
  intros Hsize Htbl Hlen.
  assert (Ht : forall s, find_t m0 T tbl s).
  { apply (shape_t_mut (find_t m0 T tbl) (find_l m0 T tbl)).
    - intros a. apply found_var. exact Hsize.
    - apply found_atomic.
    - intros tg c. apply found_indirect; assumption.
    - intros f args IH. apply found_compound. exact IH.
    - apply found_nil.
    - intros s IHs l IHl. apply found_cons; assumption. }
  split; [exact Ht|].
  apply (shape_l_mut (find_t m0 T tbl) (find_l m0 T tbl)).
  - intros a. apply found_var. exact Hsize.
  - apply found_atomic.
  - intros tg c. apply found_indirect; assumption.
  - intros f args IH. apply found_compound. exact IH.
  - apply found_nil.
  - intros s IHs l IHl. apply found_cons; assumption.
Qed.

Lemma descend_nodes t t' : nodes t' = nodes t -> forall ks n, descend t' n ks = descend t n ks.
Proof.
  intros Hn. induction ks as [|k ks IH]; intros n; [reflexivity|]. simpl.
  assert (Hg : get_child t' n k = get_child t n k) by (unfold get_child; rewrite Hn; reflexivity).
  rewrite Hg. destruct (get_child t n k) as [[c|]|]; [apply IH|reflexivity|reflexivity].
Qed.

Lemma follow_no_add_child t n k r t' :
  follow_node t n k false = Some (r, t') -> t' = t /\ get_child t n k = Some r.
Proof.
  unfold follow_node. destruct (get_child t n k) as [[c|]|]; simpl; intros H;
    [injection H as <- <-|injection H as <- <-|discriminate]; auto.
Qed.

(** One cell of a walk that adds nothing: the walk stops, or the cursor
    moves to a child of the node. *)
Lemma step_no_add_child f ls n a p ls' :
  lookup_step f false ls n a p = Some ls' ->
  ls_node ls' = None
  \/ exists key c, get_child (ls_trie ls) n key = Some (Some c)
       /\ ls_node ls' = Some c /\ nodes (ls_trie ls') = nodes (ls_trie ls).
Proof.
  unfold lookup_step. intros H.
  destruct (ls_mem ls !! p) as [w|]; [|discriminate]. simpl in H.
  assert (Hgo : forall key t1 vn m' a' rc cm,
            nodes t1 = nodes (ls_trie ls) ->
            ('(n0, t') ← follow_node t1 n key false;
             Some (mkLookup a' n0 vn rc cm t' m')) = Some ls' ->
            ls_node ls' = None
            \/ exists key c, get_child (ls_trie ls) n key = Some (Some c)
                 /\ ls_node ls' = Some c /\ nodes (ls_trie ls') = nodes (ls_trie ls)).
  { intros key t1 vn m' a' rc cm Hn1 Hf.
    destruct (follow_node t1 n key false) as [[r t']|] eqn:E; [|discriminate].
    simpl in Hf. injection Hf as <-. apply follow_no_add_child in E as [-> Hg].
    destruct r as [c|]; [|left; reflexivity]. right. exists key, c. simpl.
    split; [|auto]. unfold get_child in *. rewrite <- Hn1. exact Hg. }
  destruct (tag w =? TAG_VAR).
  { destruct (isVar w); eapply Hgo; eauto. }
  destruct (tag w =? TAG_ATTVAR).
  { destruct (prune_error _ _ _); [|discriminate]. simpl in H. injection H as <-.
    left. reflexivity. }
  destruct (tag w =? TAG_COMPOUND).
  { destruct (ls_mem ls !! valPtr w) as [fn|]; [|discriminate]. simpl in H.
    eapply Hgo; eauto. }
  destruct (negb (isIndirect w)); [eapply Hgo; eauto|].
  destruct (trie_intern_indirect _ _ _ _) as [[i t1]|] eqn:Hin; [|discriminate].
  simpl in H.
  assert (Hn1 : nodes t1 = nodes (ls_trie ls)).
  { unfold trie_intern_indirect in Hin.
    destruct (intern_indirect _ _ _ _) as [[i' tb]|]; [|discriminate].
    simpl in Hin. injection Hin as _ <-. reflexivity. }
  destruct (i =? 0); [injection H as <-; left; reflexivity|].
  eapply Hgo; eauto.
Qed.

(** A walk that adds nothing and ends on a node went down to it from
    the node it started on. *)
Lemma no_add_descend : forall fuel ls lsF n0 nF,
  trie_lookup_loop fuel false ls = Some lsF ->
  ls_node ls = Some n0 -> ls_node lsF = Some nF ->
  exists ks, descend (ls_trie ls) n0 ks = Some nF.
Proof.
  induction fuel as [|fuel IH]; intros ls lsF n0 nF Hrun Hn0 HnF; [discriminate|].
  rewrite trie_lookup_loop_unfold, Hn0 in Hrun.
  destruct (nextTermAgenda_P (S fuel) (ls_mem ls) (ls_agenda ls)) as [[item a]|];
    [|discriminate].
  simpl in Hrun. destruct item as [| |p].
  - injection Hrun as <-. exists []. simpl. congruence.
  - destruct (follow_node (ls_trie ls) n0 TRIE_KEY_POP false) as [[r t']|] eqn:Hf;
      [|discriminate].
    simpl in Hrun. apply follow_no_add_child in Hf as [-> Hg].
    destruct r as [c|].
    + destruct (IH _ _ c nF Hrun eq_refl HnF) as [ks Hks]. simpl in Hks.
      exists (TRIE_KEY_POP :: ks). simpl. rewrite Hg. exact Hks.
    + apply loop_node_none in Hrun; [|reflexivity]. subst lsF. discriminate.
  - destruct (lookup_step (S fuel) false ls n0 a p) as [ls1|] eqn:Hstep; [|discriminate].
    simpl in Hrun.
    destruct (step_no_add_child _ _ _ _ _ _ Hstep) as [Hnone|(key & c & Hg & Hc & Hnodes)].
    + apply loop_node_none in Hrun; [|exact Hnone]. subst lsF. congruence.
    + destruct (IH _ _ c nF Hrun Hc HnF) as [ks Hks].
      exists (key :: ks). simpl. rewrite Hg.
      rewrite <- (descend_nodes _ _ Hnodes). exact Hks.
Qed.

Lemma descend_path t : wf_links t -> forall ks n0 ks0 n,
  path t n0 ks0 -> descend t n0 ks = Some n -> path t n (ks0 ++ ks).
Proof.
  intros (_ & Hch & _). induction ks as [|k ks IH]; intros n0 ks0 n Hp Hd.
  - simpl in Hd. injection Hd as <-. rewrite app_nil_r. exact Hp.
  - apply descend_cons in Hd as (c & Hg & Hd).
    apply get_child_inv in Hg as (nd & Hn & Hc).
    destruct (Hch n0 nd k c Hn Hc) as (cd & Hcd & Hpar & Hkey).
    replace (ks0 ++ k :: ks) with ((ks0 ++ [k]) ++ ks) by (rewrite <- app_assoc; reflexivity).
    apply (IH c); [|exact Hd]. rewrite <- Hkey. eapply path_step; eauto.
Qed.

Lemma path_functional t n ks : path t n ks -> forall ks', path t n ks' -> ks' = ks.
Proof.
  induction 1 as [n nd Hn Hpar|n nd p ks Hn Hpar Hp IH]; intros ks' H'.
  - inversion H' as [n' nd' Hn' Hpar'|n' nd' p' ks0 Hn' Hpar' Hp']; subst; [reflexivity|].
    congruence.
  - inversion H' as [n' nd' Hn' Hpar'|n' nd' p' ks0 Hn' Hpar' Hp']; subst; [congruence|].
    rewrite Hn in Hn'. injection Hn' as <-. rewrite Hpar in Hpar'. injection Hpar' as <-.
    rewrite (IH ks0 Hp'). reflexivity.
Qed.

(** After a term was added, its keys lead from the root down to its
    node. *)
Lemma lookup_descend fuel t m k s n t' m' :
  wf_links t -> Z.of_nat (size m) < 2 ^ 56 -> shape m k s ->
  trie_lookup fuel t m k true = Some (TRUE, Some n, t', m') ->
  exists keys vs' tbl',
    enc [] (default [] (indirects t)) s = (keys, vs', tbl')
    /\ descend t' root keys = Some n /\ default [] (indirects t') = tbl'.
Proof.
  intros Hwf Hsize Hshape Hrun.
  destruct (lookup_path fuel t m k s n t' m' Hwf Hsize Hshape Hrun)
    as (keys & vs' & tbl' & Henc & Hpath & Hwf' & Htbl' & _).
  exists keys, vs', tbl'. split; [exact Henc|]. split; [|exact Htbl'].
  unfold trie_lookup in Hrun.
  destruct (trie_lookup_loop fuel true _) as [ls|] eqn:Hloop; [|discriminate].
  simpl in Hrun.
  destruct (clear_vars fuel (ls_mem ls) k (ls_var_number ls)) as [m1|]; [|discriminate].
  simpl in Hrun.
  destruct (ls_rc ls =? TRUE) eqn:Hrc; [|congruence].
  destruct (ls_node ls) as [node|] eqn:Hnode; [|congruence].
  injection Hrun as -> <- <-. apply Z.eqb_eq in Hrc.
  destruct Hwf as (Hroot & Hch & Hfresh).
  destruct (lockstep false fuel _ ls Hloop) as [_ Hrun2];
    [split; [exact Hrc|rewrite Hnode; eauto]|exact Hfresh|].
  destruct (Hrun2 (ls_trie ls) 0 (grows_refl _)) as [c2' Hr]; [discriminate|].
  destruct (no_add_descend _ _ _ root n Hr eq_refl) as [ks Hks]; [exact Hnode|].
  simpl in Hks.
  destruct Hwf' as (Hroot' & Hwf').
  pose proof Hroot' as (rd & Hrd & Hrp).
  pose proof (descend_path _ (conj Hroot' Hwf') ks root [] n
                (path_root _ root rd Hrd Hrp) Hks) as Hp2.
  simpl in Hp2. rewrite (path_functional _ _ _ Hpath _ Hp2) in Hks. exact Hks.
Qed.

(** Once the indirect data of a term are in the table, its keys are the
    same for every longer table, and the table stays as it is. *)
Lemma enc_stable_all :
  (forall s vs tbl keys vs' tbl' tblF, enc vs tbl s = (keys, vs', tbl') ->
     tbl' `prefix_of` tblF -> enc vs tblF s = (keys, vs', tblF))
  /\ (forall l vs tbl keys vs' tbl' tblF, enc_l vs tbl l = (keys, vs', tbl') ->
     tbl' `prefix_of` tblF -> enc_l vs tblF l = (keys, vs', tblF)).
Proof.
  set (P := fun s => forall vs tbl keys vs' tbl' tblF, enc vs tbl s = (keys, vs', tbl') ->
     tbl' `prefix_of` tblF -> enc vs tblF s = (keys, vs', tblF)).
  set (P0 := fun l => forall vs tbl keys vs' tbl' tblF, enc_l vs tbl l = (keys, vs', tbl') ->
     tbl' `prefix_of` tblF -> enc_l vs tblF l = (keys, vs', tblF)).
  assert (Hvar : forall a, P (SVar a)).
  { intros a vs tbl keys vs' tbl' tblF H _. simpl in *.
    destruct (index_nat a vs); injection H as <- <- _; reflexivity. }
  assert (Hat : forall w, P (SAtomic w)).
  { intros w vs tbl keys vs' tbl' tblF H _. simpl in *. injection H as <- <- _. reflexivity. }
  assert (Hind : forall tg c, P (SIndirect tg c)).
  { intros tg c vs tbl keys vs' tbl' tblF H [ext ->]. simpl in *.
    destruct (index_of (tg, c) tbl 0) as [i|] eqn:Hidx.
    - injection H as <- <- <-. rewrite (index_of_app _ _ ext _ _ Hidx). reflexivity.
    - injection H as <- <- <-.
      rewrite (index_of_app _ _ ext _ _ (index_of_last _ _ _ Hidx)).
      rewrite Z.add_0_l. reflexivity. }
  assert (Hcomp : forall f args, P0 args -> P (SCompound f args)).
  { intros f args IH vs tbl keys vs' tbl' tblF H Hp. simpl in *.
    destruct (enc_l vs tbl args) as [[k1 vs1] tbl1] eqn:E1. injection H as <- <- <-.
    rewrite (IH _ _ _ _ _ _ E1 Hp). reflexivity. }
  assert (Hnil : P0 SNil).
  { intros vs tbl keys vs' tbl' tblF H _. simpl in *. injection H as <- <- _. reflexivity. }
  assert (Hcons : forall s, P s -> forall l, P0 l -> P0 (SCons s l)).
  { intros s IHs l IHl vs tbl keys vs' tbl' tblF H Hp. simpl in *.
    destruct (enc vs tbl s) as [[k1 vs1] tbl1] eqn:E1.
    destruct (enc_l vs1 tbl1 l) as [[k2 vs2] tbl2] eqn:E2. injection H as <- <- <-.
    destruct (proj2 enc_facts_all _ _ _ _ _ _ E2) as (_ & Hp2 & _).
    rewrite (IHs _ _ _ _ _ tblF E1) by (etransitivity; eauto).
    assert (E2' : enc_l vs1 tblF l = (k2, vs2, tblF)).
    { destruct (enc_l vs1 tblF l) as [[k2' vs2'] tbl2'] eqn:E3.
      pose proof (IHl _ _ _ _ _ tblF E2 Hp) as E4. congruence. }
    rewrite E2'. reflexivity. }
  split.
  - apply (shape_t_mut P P0); assumption.
  - apply (shape_l_mut P P0); assumption.
Qed.

Lemma index_nat_map (r : Z -> Z) a vs :
  (forall b, b ∈ vs -> r b = r a -> b = a) ->
  index_nat (r a) (map r vs) = index_nat a vs.
Proof.
  induction vs as [|b vs IH]; intros Hinj; [reflexivity|]. simpl.
  destruct (b =? a) eqn:E.
  - apply Z.eqb_eq in E. subst b. rewrite Z.eqb_refl. reflexivity.
  - assert (E' : (r b =? r a) = false).
    { apply Z.eqb_neq. intros Hr. apply Z.eqb_neq in E. apply E.
      apply Hinj; [apply elem_of_cons; auto|exact Hr]. }
    rewrite E', IH; [reflexivity|].
    intros c Hc. apply Hinj. apply elem_of_cons. auto.
Qed.

(** The keys of a term do not depend on the names of its variables. *)
Lemma enc_rename_all (r : Z -> Z) (V : Z -> Prop) :
  (forall a b, V a -> V b -> r a = r b -> a = b) ->
  (forall s vs tbl keys vs' tbl',
     (forall a, a ∈ vars_of s -> V a) -> (forall a, a ∈ vs -> V a) ->
     enc vs tbl s = (keys, vs', tbl') ->
     enc (map r vs) tbl (rename r s) = (keys, map r vs', tbl')
     /\ forall a, a ∈ vs' -> V a)
  /\ (forall l vs tbl keys vs' tbl',
     (forall a, a ∈ vars_of_l l -> V a) -> (forall a, a ∈ vs -> V a) ->
     enc_l vs tbl l = (keys, vs', tbl') ->
     enc_l (map r vs) tbl (rename_l r l) = (keys, map r vs', tbl')
     /\ forall a, a ∈ vs' -> V a).
Proof.
  intros Hinj.
  set (P := fun s => forall vs tbl keys vs' tbl',
     (forall a, a ∈ vars_of s -> V a) -> (forall a, a ∈ vs -> V a) ->
     enc vs tbl s = (keys, vs', tbl') ->
     enc (map r vs) tbl (rename r s) = (keys, map r vs', tbl')
     /\ forall a, a ∈ vs' -> V a).
  set (P0 := fun l => forall vs tbl keys vs' tbl',
     (forall a, a ∈ vars_of_l l -> V a) -> (forall a, a ∈ vs -> V a) ->
     enc_l vs tbl l = (keys, vs', tbl') ->
     enc_l (map r vs) tbl (rename_l r l) = (keys, map r vs', tbl')
     /\ forall a, a ∈ vs' -> V a).
  assert (Hvar : forall a, P (SVar a)).
  { intros a vs tbl keys vs' tbl' Hs Hvs H. simpl in *.
    assert (Ha : V a) by (apply Hs; apply list_elem_of_singleton; reflexivity).
    rewrite index_nat_map by (intros b Hb; apply Hinj; auto).
    destruct (index_nat a vs); injection H as <- <- <-.
    - split; [reflexivity|exact Hvs].
    - rewrite length_map, map_app. split; [reflexivity|].
      intros b Hb. apply elem_of_app in Hb as [Hb|Hb]; [auto|].
      apply list_elem_of_singleton in Hb. subst b. exact Ha. }
  assert (Hat : forall w, P (SAtomic w)).
  { intros w vs tbl keys vs' tbl' _ Hvs H. simpl in *. injection H as <- <- <-. auto. }
  assert (Hind : forall tg c, P (SIndirect tg c)).
  { intros tg c vs tbl keys vs' tbl' _ Hvs H. simpl in *.
    destruct (index_of (tg, c) tbl 0); injection H as <- <- <-; auto. }
  assert (Hcomp : forall f args, P0 args -> P (SCompound f args)).
  { intros f args IH vs tbl keys vs' tbl' Hs Hvs H. simpl in *.
    destruct (enc_l vs tbl args) as [[k1 vs1] tbl1] eqn:E1. injection H as <- <- <-.
    destruct (IH _ _ _ _ _ Hs Hvs E1) as [E Hv]. rewrite E. auto. }
  assert (Hnil : P0 SNil).
  { intros vs tbl keys vs' tbl' _ Hvs H. simpl in *. injection H as <- <- <-. auto. }
  assert (Hcons : forall s, P s -> forall l, P0 l -> P0 (SCons s l)).
  { intros s IHs l IHl vs tbl keys vs' tbl' Hs Hvs H. simpl in *.
    destruct (enc vs tbl s) as [[k1 vs1] tbl1] eqn:E1.
    destruct (enc_l vs1 tbl1 l) as [[k2 vs2] tbl2] eqn:E2. injection H as <- <- <-.
    destruct (IHs _ _ _ _ _ (fun a Ha => Hs a (proj2 (elem_of_app _ _ _) (or_introl Ha)))
                Hvs E1) as [E Hv1].
    destruct (IHl _ _ _ _ _ (fun a Ha => Hs a (proj2 (elem_of_app _ _ _) (or_intror Ha)))
                Hv1 E2) as [E' Hv2].
    rewrite E, E'. auto. }
  split.
  - apply (shape_t_mut P P0); assumption.
  - apply (shape_l_mut P P0); assumption.
Qed.

Lemma loop_end fuel add ls loc :
  ls_agenda ls = mkAgenda (mkANode loc O) [] -> trie_lookup_loop (S fuel) add ls = Some ls.
Proof.
  intros Hag. rewrite trie_lookup_loop_unfold. destruct (ls_node ls); [|reflexivity].
  rewrite Hag. reflexivity.
Qed.

(** A variant of a stored term is found: the term [s1] was added and got
    node [n]; a lookup without additions of any term [s2] that is [s1]
    up to a renaming of its variables, wherever it stands, returns [n]
    (given the steps for the walk) and leaves the trie and the term as
    they are. *)
Theorem lookup_variant (fuel : nat) (t : trie) (m1 : mem) (k1 : Z) (s1 : shape_t)
    (n : node_id) (t' : trie) (m1' : mem) (m2 : mem) (k2 : Z) (s2 : shape_t) :
  wf_links t ->
  Z.of_nat (size m1) < 2 ^ 56 ->
  shape m1 k1 s1 ->
  trie_lookup fuel t m1 k1 true = Some (TRUE, Some n, t', m1') ->
  Z.of_nat (length (default [] (indirects t'))) < 2 ^ 56 ->
  wf_mem m2 ->
  Z.of_nat (size m2) < 2 ^ 56 ->
  shape m2 k2 s2 ->
  variant s1 s2 ->
  exists N, forall fuel2, (N <= fuel2)%nat ->
    trie_lookup fuel2 t' m2 k2 false = Some (TRUE, Some n, t', m2).
Proof.
  intros Hwf Hsize1 Hsh1 Hrun Htab Hwm2 Hsize2 Hsh2 (r & Hinj & ->).
  destruct (lookup_descend fuel t m1 k1 s1 n t' m1' Hwf Hsize1 Hsh1 Hrun)
    as (keys & vs' & tbl' & Henc & Hdesc & Htbl').
  pose proof (proj1 enc_stable_all _ _ _ _ _ _ tbl' Henc ltac:(reflexivity)) as Henc1.
  destruct (proj1 (enc_rename_all r (fun a => a ∈ vars_of s1) Hinj) s1 [] tbl' keys vs' tbl')
    as [Henc2 _]; [auto| |exact Henc1|].
  { intros a Ha. apply elem_of_nil in Ha. contradiction. }
  simpl in Henc2.
  destruct (found_all m2 t' tbl' Hsize2 Htbl' ltac:(rewrite <- Htbl'; exact Htab)) as [Hfind _].
  set (ls0 := mkLookup (initTermAgenda 1 k2) (Some root) 0 TRUE 0 t' m2).
  destruct (Hfind (rename r s1) k2 ls0 [] O root [] keys (map r vs') n Hsh2 eq_refl)
    as (N & R & ls' & Hloop & Hag & Hinv); [|exact Henc2|exact Hdesc|].
  { unfold find_inv, ls0. simpl. split; [reflexivity|]. split; [reflexivity|].
    split; [|auto]. split; [apply NoDup_nil; exact I|].
    split; [intros i a Hi; discriminate|reflexivity]. }
  destruct Hinv as (Hn' & Hrc' & Hm' & Hvn' & HT').
  exists (N + S R)%nat. intros fuel2 Hfuel2.
  assert (Hrun2 : trie_lookup_loop fuel2 false ls0 = Some ls').
  { replace fuel2 with (N + S (R + (fuel2 - N - S R)))%nat by lia.
    rewrite Hloop by lia. apply (loop_end _ _ _ _ Hag). }
  unfold trie_lookup. fold ls0. rewrite Hrun2. simpl mbind.
  rewrite (lookup_loop_cleared fuel2 t' m2 k2 false ls' Hwm2 ltac:(lia) Hrun2).
  simpl mbind. rewrite Hrc', Hn', HT'. reflexivity.
Qed.

Lemma variant_shape_ok : shape variant_mem 50 variant_shape.
Proof. unfold variant_shape. shape_tac. Qed.

Lemma variant_shapes : variant term_shape variant_shape.
Proof.
  exists (fun a => if a =? 21 then 70 else if a =? 32 then 82 else a). split.
  - intros a b Ha Hb. simpl in Ha, Hb.
    assert (Hab : forall x, x ∈ [21; 21; 32] -> x = 21 \/ x = 32).
    { intros x Hx. repeat (apply elem_of_cons in Hx as [Hx|Hx]; [auto|]).
      apply elem_of_nil in Hx. contradiction. }
    destruct (Hab a Ha) as [-> | ->]; destruct (Hab b Hb) as [-> | ->];
      simpl; intros H; congruence.
  - reflexivity.
Qed.

Lemma lookup_variant_witness :
  exists N, forall fuel2, (N <= fuel2)%nat ->
    trie_lookup fuel2 trie_term variant_mem 50 false
    = Some (TRUE, Some 8%nat, trie_term, variant_mem).
Proof.
  apply (lookup_variant 100 trie_create term_mem 10 term_shape 8%nat trie_term term_mem
           variant_mem 50 variant_shape).
  - exact wf_links_create.
  - vm_compute. reflexivity.
  - exact term_shape_ok.
  - vm_compute. reflexivity.
  - vm_compute. reflexivity.
  - apply wf_mem_b_sound. vm_compute. reflexivity.
  - vm_compute. reflexivity.
  - exact variant_shape_ok.
  - exact variant_shapes.
Defined.

(** The lookup of the copy, run *)
Example lookup_variant_run :
  trie_lookup 20 trie_term variant_mem 50 false = Some (TRUE, Some 8%nat, trie_term, variant_mem).
Proof. vm_compute. reflexivity. Qed.

Lemma miss_here T n k ks : get_child T n k = Some None -> miss T n (k :: ks).
Proof. intros H. exists [], k, ks, n. auto. Qed.

Lemma miss_step T n k c ks : get_child T n k = Some (Some c) -> miss T c ks -> miss T n (k :: ks).
Proof.
  intros H (pre & k' & post & x & -> & Hd & Hg). exists (k :: pre), k', post, x.
  split; [reflexivity|]. split; [simpl; rewrite H; exact Hd|exact Hg].
Qed.

Lemma miss_cons_inv T n k ks : miss T n (k :: ks) ->
  get_child T n k = Some None \/ exists c, get_child T n k = Some (Some c) /\ miss T c ks.
Proof.
  intros (pre & k' & post & x & E & Hd & Hg). destruct pre as [|k0 pre].
  - simpl in E. injection E as <- <-. simpl in Hd. injection Hd as <-. auto.
  - simpl in E. injection E as <- ->. apply descend_cons in Hd as (c & Hc & Hd).
    right. exists c. split; [exact Hc|]. exists pre, k', post, x. auto.
Qed.

Lemma miss_nil T n : ~ miss T n [].
Proof. intros (pre & k & post & x & E & _). destruct pre; discriminate. Qed.

Lemma miss_one T n k : miss T n [k] -> get_child T n k = Some None.
Proof.
  intros H. apply miss_cons_inv in H as [H|(c & _ & H)]; [exact H|].
  exfalso. eapply miss_nil; eauto.
Qed.

Lemma miss_app_inv T : forall a n b, miss T n (a ++ b) ->
  miss T n a \/ exists c, descend T n a = Some c /\ miss T c b.
Proof.
  induction a as [|k a IH]; intros n b H.
  - right. exists n. auto.
  - simpl in H. apply miss_cons_inv in H as [H|(c & Hc & H)].
    + left. apply miss_here. exact H.
    + destruct (IH c b H) as [Hl|(c' & Hd & Hm)].
      * left. eapply miss_step; eauto.
      * right. exists c'. split; [simpl; rewrite Hc; exact Hd|exact Hm].
Qed.

Lemma loop_stop fuel add ls : ls_node ls = None -> trie_lookup_loop (S fuel) add ls = Some ls.
Proof. intros H. rewrite trie_lookup_loop_unfold, H. reflexivity. Qed.

(** After [N] steps of a found walk, a failing rest *)
Lemma fail_after ls ls' N R N2 lsF :
  (forall rest, (R <= rest)%nat ->
     trie_lookup_loop (N + rest) false ls = trie_lookup_loop rest false ls') ->
  (forall fuel, (N2 <= fuel)%nat -> trie_lookup_loop fuel false ls' = Some lsF) ->
  forall fuel, (N + R + N2 <= fuel)%nat -> trie_lookup_loop fuel false ls = Some lsF.
Proof.
  intros H1 H2 fuel Hf. replace fuel with (N + (fuel - N))%nat by lia.
  rewrite H1 by lia. apply H2. lia.
Qed.

Lemma fail_step m0 T tbl s : step_t m0 T tbl s ->
  (forall vs keys vs', enc vs tbl s = (keys, vs', tbl) -> exists key, keys = [key]) ->
  fail_t m0 T tbl s.
Proof.
  intros Hstep Hone loc ls stk k n vs keys vs' Hsh Hag Hinv Henc Hmiss.
  destruct (Hone _ _ _ Henc) as [key ->]. apply miss_one in Hmiss.
  destruct (Hstep loc ls stk k n vs key vs' None Hsh Hag Hinv Henc Hmiss)
    as (R & ls' & HR & Hag' & Hn' & Hrc' & Hm' & Hvn' & HT').
  exists (1 + R + 1)%nat, ls'. split; [|auto].
  apply (fail_after ls ls' 1 R 1 ls' HR).
  intros fuel Hf. destruct fuel; [lia|]. apply loop_stop. exact Hn'.
Qed.

Lemma fail_nil m0 T tbl : fail_l m0 T tbl SNil.
Proof.
  intros loc ls stk k n vs keys vs' Hsh Hag Hinv Henc Hmiss.
  simpl in Henc. injection Henc as <- <-. exfalso. eapply miss_nil; eauto.
Qed.

Lemma fail_cons m0 T tbl s l :
  find_t m0 T tbl s -> fail_t m0 T tbl s -> fail_l m0 T tbl l -> fail_l m0 T tbl (SCons s l).
Proof.
  intros Hfs IHs IHl loc ls stk k n vs keys vs' Hsh Hag Hinv Henc Hmiss.
  destruct Hsh as [Hs Hl]. simpl in Henc.
  destruct (enc vs tbl s) as [[k1 vs1] tbl1] eqn:E1.
  destruct (enc_l vs1 tbl1 l) as [[k2 vs2] tbl2] eqn:E2.
  injection Henc as <- <- ->.
  destruct (proj1 enc_facts_all _ _ _ _ _ _ E1) as (_ & Hp1 & _).
  destruct (proj2 enc_facts_all _ _ _ _ _ _ E2) as (_ & Hp2 & _).
  assert (tbl1 = tbl) by (apply prefix_both; assumption). subst tbl1.
  apply miss_app_inv in Hmiss as [Hmiss|(n1 & Hd1 & Hmiss)].
  - apply (IHs loc ls stk (slen l + k)%nat n vs k1 vs1 Hs Hag Hinv E1 Hmiss).
  - destruct (Hfs loc ls stk (slen l + k)%nat n vs k1 vs1 n1 Hs Hag Hinv E1 Hd1)
      as (N1 & R1 & ls1 & Hrun1 & Hag1 & Hinv1).
    destruct (IHl (loc + 1) ls1 stk k n1 vs1 k2 vs2 Hl Hag1 Hinv1 E2 Hmiss)
      as (N2 & lsF & Hrun2 & HF).
    exists (N1 + R1 + N2)%nat, lsF. split; [|exact HF].
    apply (fail_after ls ls1 N1 R1 N2 lsF Hrun1 Hrun2).
Qed.

Lemma fail_compound m0 T tbl f args :
  find_l m0 T tbl args -> fail_l m0 T tbl args -> fail_t m0 T tbl (SCompound f args).
Proof.
  intros Hfl IHl loc ls stk k n vs keys vs' Hsh Hag Hinv Henc Hmiss.
  destruct Hsh as (q & w & Hd & Hw & Htc & Hf & Hfk & Har & Hargs).
  pose proof Hinv as (Hn & Hrc & Hm & Hvn & HT).
  simpl in Henc. destruct (enc_l vs tbl args) as [[k1 vs1] tbl1] eqn:E1.
  injection Henc as <- <- ->.
  assert (Tv : (tag w =? TAG_VAR) = false) by (rewrite Htc; reflexivity).
  assert (Tfv : (tag f =? TAG_VAR) = false) by (rewrite (functor_key_tag _ Hfk); reflexivity).
  (* the step on the functor, whatever get_child gives *)
  assert (Hfun : forall r, get_child T n f = Some r ->
            exists R, forall rest, (R <= rest)%nat ->
              trie_lookup_loop (1 + rest) false ls
              = trie_lookup_loop rest false
                  (mkLookup (pushWorkAgenda_P (mkAgenda (mkANode (loc + 1) k) stk)
                               (arityFunctor f) (valPtr w + 1))
                     r (ls_var_number ls) (ls_rc ls) (ls_compounds ls) T (ls_mem ls))).
  { intros r Hget. apply (find_cell m0 ls loc k stk n vs q _ Hn Hag Hm Hd).
    intros fe. unfold lookup_step.
    rewrite (marks_nonvar _ _ _ _ _ Hm Hw Tv). simpl mbind.
    rewrite Htc.
    change (TAG_COMPOUND =? TAG_VAR) with false.
    change (TAG_COMPOUND =? TAG_ATTVAR) with false.
    change (TAG_COMPOUND =? TAG_COMPOUND) with true. cbv iota.
    rewrite (marks_nonvar _ _ _ _ _ Hm Hf Tfv). simpl mbind.
    cbv beta iota zeta. simpl andb. cbv iota.
    rewrite HT, (follow_got _ _ _ _ Hget). reflexivity. }
  apply miss_cons_inv in Hmiss as [Hmiss|(n1 & Hc1 & Hmiss)].
  { destruct (Hfun None Hmiss) as [R0 HR0].
    eexists (1 + R0 + 1)%nat, _. split; [|split; [|split]];
      [apply (fail_after ls _ 1 R0 1 _ HR0);
       intros fuel Hfu; destruct fuel; [lia|]; apply loop_stop; reflexivity
      |reflexivity|exact Hrc|reflexivity]. }
  destruct (Hfun (Some n1) Hc1) as [R0 HR0].
  set (ls1 := mkLookup (pushWorkAgenda_P (mkAgenda (mkANode (loc + 1) k) stk) (arityFunctor f)
                          (valPtr w + 1))
                (Some n1) (ls_var_number ls) (ls_rc ls) (ls_compounds ls) T (ls_mem ls)) in *.
  assert (Hag1 : ls_agenda ls1
                 = mkAgenda (mkANode (valPtr w + 1) (slen args + 0))
                     (mkANode (loc + 1) k :: stk)).
  { unfold ls1, pushWorkAgenda_P; simpl. rewrite Har, Nat.add_0_r. reflexivity. }
  assert (Hinv1 : find_inv m0 T ls1 n1 vs) by (unfold find_inv, ls1; simpl; auto 10).
  apply miss_app_inv in Hmiss as [Hmiss|(n2 & Hd2 & Hmiss)].
  { destruct (IHl (valPtr w + 1) ls1 (mkANode (loc + 1) k :: stk) O n1 vs k1 vs1
                Hargs Hag1 Hinv1 E1 Hmiss) as (N2 & lsF & Hrun2 & HF).
    exists (1 + R0 + N2)%nat, lsF. split; [|exact HF].
    apply (fail_after ls ls1 1 R0 N2 lsF HR0 Hrun2). }
  apply miss_one in Hmiss.
  destruct (Hfl (valPtr w + 1) ls1 (mkANode (loc + 1) k :: stk) O n1 vs k1 vs1 n2
              Hargs Hag1 Hinv1 E1 Hd2) as (N2 & R2 & ls2 & Hrun2 & Hag2 & Hinv2).
  pose proof Hinv2 as (Hn2 & Hrc2 & Hm2 & Hvn2 & HT2).
  set (lsF := mkLookup (mkAgenda (mkANode (loc + 1) k) stk) None (ls_var_number ls2)
                (ls_rc ls2) (ls_compounds ls2) T (ls_mem ls2)).
  assert (Hpop : forall fuel, (2 <= fuel)%nat -> trie_lookup_loop fuel false ls2 = Some lsF).
  { intros fuel Hfu. destruct fuel as [|fuel]; [lia|].
    rewrite trie_lookup_loop_unfold, Hn2, Hag2, next_P_pop. simpl mbind. cbv beta iota.
    rewrite HT2, (follow_got _ _ _ _ Hmiss). simpl mbind.
    destruct fuel; [lia|]. apply loop_stop. reflexivity. }
  assert (Hmid : forall fuel, (N2 + R2 + 2 <= fuel)%nat ->
            trie_lookup_loop fuel false ls1 = Some lsF)
    by (apply (fail_after ls1 ls2 N2 R2 2 lsF Hrun2 Hpop)).
  exists (1 + R0 + (N2 + R2 + 2))%nat, lsF. split; [|unfold lsF; simpl; auto].
  apply (fail_after ls ls1 1 R0 _ lsF HR0 Hmid).
Qed.

Lemma single_var a (tbl : indirect_table) : forall (vs : list Z) keys vs',
  enc vs tbl (SVar a) = (keys, vs', tbl) -> exists key, keys = [key].
Proof.
  intros vs keys vs' H. simpl in H.
  destruct (index_nat a vs); apply (f_equal (fun x => fst (fst x))) in H; simpl in H;
    subst keys; eauto.
Qed.

Lemma single_atomic w (tbl : indirect_table) : forall (vs : list Z) keys vs',
  enc vs tbl (SAtomic w) = (keys, vs', tbl) -> exists key, keys = [key].
Proof.
  intros vs keys vs' H. simpl in H.
  apply (f_equal (fun x => fst (fst x))) in H. simpl in H. subst keys. eauto.
Qed.

Lemma single_indirect tg c (tbl : indirect_table) : forall (vs : list Z) keys vs',
  enc vs tbl (SIndirect tg c) = (keys, vs', tbl) -> exists key, keys = [key].
Proof.
  intros vs keys vs' H. simpl in H.
  destruct (index_of (tg, c) tbl 0); apply (f_equal (fun x => fst (fst x))) in H; simpl in H;
    subst keys; eauto.
Qed.

Lemma fail_all m0 T tbl :
  Z.of_nat (size m0) < 2 ^ 56 ->
  default [] (indirects T) = tbl -> Z.of_nat (length tbl) < 2 ^ 56 ->
  (forall s, fail_t m0 T tbl s) /\ (forall l, fail_l m0 T tbl l).
Proof.
  intros Hsize Htbl Hlen.
  destruct (found_all m0 T tbl Hsize Htbl Hlen) as [Hft Hfl].
  assert (Ht : forall s, fail_t m0 T tbl s).
  { apply (shape_t_mut (fail_t m0 T tbl) (fail_l m0 T tbl)).
    - intros a. apply fail_step; [apply step_var; exact Hsize|apply single_var].
    - intros w. apply fail_step; [apply step_atomic|apply single_atomic].
    - intros tg c. apply fail_step; [apply step_indirect; assumption|apply single_indirect].
    - intros f args IH. apply fail_compound; [apply Hfl|exact IH].
    - apply fail_nil.
    - intros s IHs l IHl. apply fail_cons; [apply Hft|exact IHs|exact IHl]. }
  split; [exact Ht|].
  apply (shape_l_mut (fail_t m0 T tbl) (fail_l m0 T tbl)).
  - intros a. apply fail_step; [apply step_var; exact Hsize|apply single_var].
  - intros w. apply fail_step; [apply step_atomic|apply single_atomic].
  - intros tg c. apply fail_step; [apply step_indirect; assumption|apply single_indirect].
  - intros f args IH. apply fail_compound; [apply Hfl|exact IH].
  - apply fail_nil.
  - intros s IHs l IHl. apply fail_cons; [apply Hft|exact IHs|exact IHl].
Qed.

(** A term whose keys are not all in the trie is not found: the lookup
    without additions returns FALSE and changes nothing. *)
Lemma lookup_miss m T tbl k s keys vs' :
  wf_mem m -> Z.of_nat (size m) < 2 ^ 56 -> shape m k s ->
  default [] (indirects T) = tbl -> Z.of_nat (length tbl) < 2 ^ 56 ->
  enc [] tbl s = (keys, vs', tbl) -> miss T root keys ->
  exists N, forall fuel, (N <= fuel)%nat ->
    trie_lookup fuel T m k false = Some (FALSE, None, T, m).
Proof.
  intros Hwm Hsize Hsh Htbl Hlen Henc Hmiss.
  destruct (fail_all m T tbl Hsize Htbl Hlen) as [Hfail _].
  set (ls0 := mkLookup (initTermAgenda 1 k) (Some root) 0 TRUE 0 T m).
  destruct (Hfail s k ls0 [] O root [] keys vs' Hsh eq_refl) as (N & lsF & Hloop & Hn & Hrc & HT);
    [|exact Henc|exact Hmiss|].
  { unfold find_inv, ls0. simpl. split; [reflexivity|]. split; [reflexivity|].
    split; [|auto]. split; [apply NoDup_nil; exact I|].
    split; [intros i a Hi; discriminate|reflexivity]. }
  exists N. intros fuel Hfuel. specialize (Hloop fuel Hfuel).
  unfold trie_lookup. fold ls0. rewrite Hloop. simpl mbind.
  rewrite (lookup_loop_cleared fuel T m k false lsF Hwm ltac:(lia) Hloop).
  simpl mbind. rewrite Hrc, Hn, HT. reflexivity.
Qed.

Lemma same_links_refl t : same_links t t.
Proof. split; reflexivity. Qed.

Lemma same_links_trans t1 t2 t3 : same_links t1 t2 -> same_links t2 t3 -> same_links t1 t3.
Proof. intros [A1 A2] [B1 B2]. split; [congruence|]. intros x. rewrite B2. apply A2. Qed.

Lemma same_links_nodes t t' :
  nodes t' = nodes t -> indirects t' = indirects t -> same_links t t'.
Proof. intros Hn Hi. split; [exact Hi|]. intros x. rewrite Hn. reflexivity. Qed.

Lemma same_links_value t n nd v :
  nodes t !! n = Some nd -> same_links t (update_node t n (set_value nd v)).
Proof.
  intros Hn. split; [reflexivity|]. intros x. simpl.
  destruct (decide (x = n)) as [->|Hne].
  - rewrite lookup_insert_eq, Hn. reflexivity.
  - rewrite lookup_insert_ne by congruence. reflexivity.
Qed.

Lemma same_links_get_child t t' x k : same_links t t' -> get_child t' x k = get_child t x k.
Proof.
  intros [_ H]. specialize (H x). unfold get_child.
  destruct (nodes t' !! x) as [nd'|], (nodes t !! x) as [nd|]; simpl in *;
    try discriminate; [|reflexivity].
  injection H as _ _ Hc. rewrite Hc. reflexivity.
Qed.

Lemma same_links_descend t t' : same_links t t' ->
  forall ks n, descend t' n ks = descend t n ks.
Proof.
  intros H. induction ks as [|k ks IH]; intros n; [reflexivity|]. simpl.
  rewrite (same_links_get_child _ _ _ _ H).
  destruct (get_child t n k) as [[c|]|]; [apply IH|reflexivity|reflexivity].
Qed.

Lemma same_links_child_links t t' : same_links t t' -> child_links t -> child_links t'.
Proof.
  intros [_ H] Hc p pd' k c Hp Hch.
  pose proof (H p) as Hp'. rewrite Hp in Hp'.
  destruct (nodes t !! p) as [pd|] eqn:Hpd; [|discriminate]. simpl in Hp'.
  injection Hp' as _ _ Hcc.
  destruct (Hc p pd k c Hpd) as (cd & Hcd & Hpar & Hkey).
  { unfold child_of in *. rewrite <- Hcc. exact Hch. }
  pose proof (H c) as Hc'. rewrite Hcd in Hc'.
  destruct (nodes t' !! c) as [cd'|]; [|discriminate]. simpl in Hc'.
  injection Hc' as Hk Hpa _. exists cd'. split; [reflexivity|]. split; congruence.
Qed.

Lemma clear_node_indirects : forall fuel t n d t',
  clear_node fuel t n d = Some t' -> indirects t' = indirects t.
Proof.
  induction fuel as [|fuel IH]; intros t n d t' Hrun; [discriminate|].
  simpl in Hrun. destruct (nodes t !! n) as [nd|]; [|discriminate]. simpl in Hrun.
  destruct (released_same nd t) as [_ Hi2].
  set (t2 := if tn_value nd =? 0 then release_key (tn_key nd) t
             else release_value (tn_value nd) (release_key (tn_key nd) t)) in *.
  set (t4 := if d then dealloc_node (update_node t2 n (set_children nd NoChildren)) n
             else update_node t2 n (set_children nd NoChildren)) in *.
  assert (Hi4 : indirects t4 = indirects t).
  { unfold t4, dealloc_node, update_node. destruct d; simpl; [|exact Hi2].
    destruct (alloc_pool t2); simpl; exact Hi2. }
  destruct (tn_children nd) as [|k c|tbl].
  - injection Hrun as <-. exact Hi2.
  - apply IH in Hrun. congruence.
  - rewrite <- Hi4. clear Hi4. revert Hrun. generalize t4.
    induction tbl as [|e tbl IHt]; intros t0 Hrun.
    + simpl in Hrun. injection Hrun as <-. reflexivity.
    + simpl in Hrun. destruct (clear_node fuel t0 (snd e) true) as [t5|] eqn:E.
      * apply IHt in Hrun. apply IH in E. congruence.
      * rewrite foldl_clear_none in Hrun. discriminate.
Qed.

Lemma prune_node_indirects : forall fuel t n t',
  prune_node fuel t n = Some t' -> indirects t' = indirects t.
Proof.
  induction fuel as [|fuel IH]; intros t n t' Hrun; [discriminate|].
  rewrite prune_node_unfold in Hrun.
  destruct (nodes t !! n) as [nd|]; [|discriminate]. simpl in Hrun.
  destruct (tn_parent nd) as [p|]; [|injection Hrun as <-; reflexivity].
  destruct (nodes t !! p) as [pd|]; [|discriminate]. simpl in Hrun.
  unfold destroy_node in Hrun.
  destruct (tn_children pd) as [|k c|tbl].
  - destruct (clear_node (S fuel) t n true) as [t1|] eqn:E; [|discriminate].
    simpl in Hrun. apply IH in Hrun. apply clear_node_indirects in E. congruence.
  - destruct (clear_node (S fuel) _ n true) as [t1|] eqn:E; [|discriminate].
    simpl in Hrun. apply IH in Hrun. apply clear_node_indirects in E. simpl in E. congruence.
  - destruct (clear_node (S fuel) _ n true) as [t1|] eqn:E; [|discriminate].
    simpl in Hrun. apply clear_node_indirects in E. simpl in E.
    destruct (length (deleteHTable tbl (tn_key nd)) =? 0)%nat.
    + apply IH in Hrun. congruence.
    + injection Hrun as <-. exact E.
Qed.

Lemma descend_snoc t ks c k n :
  descend t c (ks ++ [k]) = Some n ->
  exists y, descend t c ks = Some y /\ get_child t y k = Some (Some n).
Proof.
  rewrite descend_app. destruct (descend t c ks) as [y|]; [|discriminate]. simpl.
  intros H. exists y. split; [reflexivity|]. apply descend_one. exact H.
Qed.

(** A descent to the node passes through the node at which the pruning
    stops and enters the pruned chain at its top. *)
Lemma split_at_chain t : child_links t -> forall fuel n l a,
  prune_chain fuel t n = Some (l, a) -> l <> [] ->
  forall ks c, descend t c ks = Some n ->
    c ∈ l \/ exists ks1 k ks2 x,
               ks = ks1 ++ k :: ks2 /\ descend t c ks1 = Some a
               /\ get_child t a k = Some (Some x) /\ last l = Some x.
Proof.
  intros Hcl. induction fuel as [|fuel IH]; intros n l a Hc Hl ks c Hd; [discriminate|].
  destruct (chain_head _ _ _ _ _ Hc Hl) as [l0 El].
  destruct ks as [|k0 ks'] using rev_ind.
  { simpl in Hd. injection Hd as ->. left. rewrite El. apply elem_of_cons. auto. }
  clear IHks'. apply descend_snoc in Hd as (y & Hy & Hg).
  cbn [prune_chain] in Hc.
  destruct (nodes t !! n) as [nd|] eqn:Hn; [|discriminate]. simpl in Hc.
  destruct (tn_parent nd) as [p|] eqn:Hp; [|injection Hc as <- _; congruence].
  assert (y = p).
  { pose proof Hg as Hg'. apply get_child_inv in Hg' as (yd & Hyd & Hch).
    destruct (Hcl y yd k0 n Hyd Hch) as (cd & Hcd & Hpar & _). congruence. }
  subst y.
  destruct (nodes t !! p) as [pd|] eqn:Hpd; [|discriminate]. simpl in Hc.
  destruct (other_children pd (tn_key nd)).
  - injection Hc as <- <-. right. exists ks', k0, [], n. auto.
  - destruct (prune_chain fuel t p) as [[l' a']|] eqn:Hr; [|discriminate].
    simpl in Hc. injection Hc as <- <-.
    destruct l' as [|z l'].
    + apply chain_nil in Hr as [-> _]. right. exists ks', k0, [], n. auto.
    + destruct (IH p (z :: l') a' Hr ltac:(discriminate) ks' c Hy)
        as [Hin|(ks1 & k & ks2 & x & E & Hd1 & Hg1 & Hlast)].
      * left. apply elem_of_cons. auto.
      * right. exists ks1, k, (ks2 ++ [k0]), x. subst ks'.
        split; [rewrite <- app_assoc; reflexivity|]. split; [exact Hd1|].
        split; [exact Hg1|]. exact Hlast.
Qed.

(** A node that the keys lead to from the root hangs in the trie. *)
Lemma descend_hangs t : child_links t ->
  (exists rd, nodes t !! root = Some rd /\ tn_parent rd = None) ->
  forall ks n, descend t root ks = Some n -> exists anc, hangs t n anc.
Proof.
  intros Hcl (rd & Hrd & Hrp). induction ks as [|k ks IH] using rev_ind; intros n Hd.
  - simpl in Hd. injection Hd as <-. exists []. eapply hangs_top; eauto.
  - apply descend_snoc in Hd as (y & Hy & Hg).
    destruct (IH y Hy) as (anc & Hh).
    apply get_child_inv in Hg as (yd & Hyd & Hc).
    destruct (Hcl y yd k n Hyd Hc) as (nd & Hn & Hpar & Hkey).
    exists (y :: anc). eapply hangs_step; eauto. rewrite Hkey. exact Hc.
Qed.

(** The part of the way up that lies above a node on it *)
Lemma hangs_split t : forall l n anc a rest,
  hangs t n anc -> n :: anc = l ++ a :: rest -> hangs t a rest.
Proof.
  induction l as [|y l IH]; intros n anc a rest Hh E.
  - simpl in E. injection E as <- <-. exact Hh.
  - destruct Hh as [n nd Hn Hp|n nd p pd anc Hn Hp Hpd Hc Hhp];
      simpl in E; injection E as _ E.
    + destruct l; discriminate.
    + apply (IH p anc a rest Hhp). exact E.
Qed.

(** A descent to a node starts at one of its ancestors. *)
Lemma descend_above t : child_links t -> forall ks c a rest,
  hangs t a rest -> descend t c ks = Some a -> ks <> [] -> c ∈ rest.
Proof.
  intros Hcl. induction ks as [|k ks IH] using rev_ind; intros c a rest Hh Hd Hne;
    [congruence|].
  apply descend_snoc in Hd as (y & Hy & Hg).
  apply get_child_inv in Hg as (yd & Hyd & Hc).
  destruct (Hcl y yd k a Hyd Hc) as (ad & Ha & Hpar & _).
  inversion Hh as [a' ad' Ha' Hp'|a' ad' p pd rest' Ha' Hp' Hpd Hc' Hhp]; subst;
    rewrite Ha in Ha'; injection Ha' as <-; [congruence|].
  rewrite Hpar in Hp'. injection Hp' as <-.
  destruct ks as [|k0 ks0].
  - simpl in Hy. injection Hy as ->. apply elem_of_cons. auto.
  - apply elem_of_cons. right. apply (IH c y rest' Hhp Hy). discriminate.
Qed.

Lemma descend_frame t t2 a rest : child_links t -> hangs t a rest ->
  (forall y, y ∈ rest -> nodes t2 !! y = nodes t !! y) ->
  forall ks c, descend t c ks = Some a -> descend t2 c ks = Some a.
Proof.
  intros Hcl Hh Hfr. induction ks as [|k ks IH]; intros c Hd; [exact Hd|].
  pose proof (descend_above t Hcl _ _ _ _ Hh Hd ltac:(discriminate)) as Hc.
  apply descend_cons in Hd as (c' & Hg & Hd). simpl.
  assert (Hg2 : get_child t2 c k = get_child t c k).
  { unfold get_child. rewrite Hfr; [reflexivity|exact Hc]. }
  rewrite Hg2, Hg. apply IH. exact Hd.
Qed.

Lemma lookup_deleteHTable tbl k : lookupHTable (deleteHTable tbl k) k = None.
Proof.
  induction tbl as [|[k' v] tbl IH]; [reflexivity|]. simpl.
  destruct (k' =? k) eqn:E; [exact IH|]. simpl. rewrite E. exact IH.
Qed.

Lemma child_of_detach nd k :
  child_of (set_children nd (detach (tn_children nd) k)) k = None.
Proof.
  unfold child_of, detach. simpl. destruct (tn_children nd) as [|k' c|tbl]; simpl;
    [reflexivity|reflexivity|apply lookup_deleteHTable].
Qed.

Lemma enc_nonempty_all :
  (forall s vs tbl keys vs' tbl', enc vs tbl s = (keys, vs', tbl') -> keys <> [])
  /\ (forall l : shape_l, True).
Proof.
  split; [|auto]. intros s vs tbl keys vs' tbl' H. destruct s; simpl in H.
  - destruct (index_nat a vs); injection H as <- _ _; discriminate.
  - injection H as <- _ _. discriminate.
  - destruct (index_of (tg, c) tbl 0); injection H as <- _ _; discriminate.
  - destruct (enc_l vs tbl args) as [[k1 vs1] tbl1]. injection H as <- _ _. discriminate.
Qed.

(** What trie_insert leaves of the trie that its lookup gave: the links
    and the indirect table *)
Lemma insert_same_links fuel t m Key Value update r :
  trie_insert fuel t m Key Value update = Some r -> r_rc r = TRUE ->
  exists n t1 m1,
    trie_lookup fuel t m Key true = Some (TRUE, Some n, t1, m1)
    /\ r_node r = Some n /\ same_links t1 (r_trie r).
Proof.
  intros Hrun Hrc. unfold trie_insert in Hrun.
  destruct (trie_lookup fuel t m Key true) as [[[[rc nodep] t1] m1]|] eqn:Hlook;
    [|discriminate].
  simpl in Hrun.
  destruct (rc =? TRUE) eqn:Erc.
  2:{ destruct (trie_error rc) as [rc' exc] eqn:Herr. injection Hrun as <-. simpl in Hrc.
      unfold trie_error in Herr.
      destruct (rc =? TRIE_LOOKUP_CONTAINS_ATTVAR); [|destruct (rc =? TRIE_LOOKUP_CYCLIC)];
        injection Herr as <- _; discriminate. }
  apply Z.eqb_eq in Erc. subst rc.
  destruct nodep as [node|]; [|discriminate]. simpl in Hrun.
  destruct (intern_value fuel t1 m1 Value) as [[val t2]|] eqn:Hval; [|discriminate].
  simpl in Hrun.
  assert (H12 : same_links t1 t2).
  { unfold intern_value in Hval.
    destruct (deRef fuel m1 Value) as [vp|]; [|discriminate]. simpl in Hval.
    destruct (m1 !! vp) as [w|]; [|discriminate]. simpl in Hval.
    destruct (isAtom w || isTaggedInt w); [injection Hval as _ <-; apply same_links_refl|].
    unfold PL_record in Hval.
    repeat match type of Hval with
    | (match ?x with _ => _ end) = _ => destruct x; try discriminate
    | (mbind _ ?x) = _ => destruct x; try discriminate; simpl in Hval
    end.
    injection Hval as _ <-. apply same_links_nodes; reflexivity. }
  destruct (nodes t2 !! node) as [nd|] eqn:Hnd; [|discriminate]. simpl in Hrun.
  assert (Hacq : forall v, same_links t2 (acquire_key v t2)).
  { intros v. apply same_links_nodes; [apply nodes_acquire_key|].
    unfold acquire_key. destruct (isAtom v); reflexivity. }
  assert (Hset : forall v, same_links t2 (update_node (acquire_key v t2) node (set_value nd v))).
  { intros v. eapply same_links_trans; [apply Hacq|]. apply same_links_value.
    rewrite nodes_acquire_key. exact Hnd. }
  exists node, t1, m1. split; [reflexivity|].
  destruct (tn_value nd =? 0); simpl in Hrun.
  - injection Hrun as <-. simpl. split; [reflexivity|].
    eapply same_links_trans; [exact H12|]. eapply same_links_trans; [apply (Hset val)|].
    apply same_links_nodes; reflexivity.
  - destruct update; [|injection Hrun as <-; discriminate].
    destruct (equal_value t2 (tn_value nd) val); simpl in Hrun.
    + destruct (isRecord val); injection Hrun as <-; simpl; (split; [reflexivity|]).
      * eapply same_links_trans; [exact H12|]. apply same_links_nodes; reflexivity.
      * exact H12.
    + injection Hrun as <-. simpl. split; [reflexivity|].
      eapply same_links_trans; [exact H12|]. eapply same_links_trans; [apply (Hset val)|].
      apply same_links_nodes; unfold release_value;
        destruct (isAtom (tn_value nd)); try destruct (isRecord (tn_value nd)); reflexivity.
Qed.

(** What is deleted is no longer found: a term was inserted and its
    node, a leaf, is then deleted with pruning; the deletion returns
    (given the steps for the way up), and a lookup of the term without
    additions then returns FALSE (given the steps for the walk) and
    leaves the trie and the term as they are. *)
Theorem lookup_after_delete (fuel : nat) (t : trie) (m : mem)
    (Key Value : Z) (update : bool) (r : result) (s : shape_t) (n : node_id)
    (nd : trie_node) :
  wf_links t ->
  wf_mem m ->
  Z.of_nat (size m) < 2 ^ 56 ->
  shape m Key s ->
  trie_insert fuel t m Key Value update = Some r ->
  r_rc r = TRUE ->
  r_node r = Some n ->
  nodes (r_trie r) !! n = Some nd ->
  tn_children nd = NoChildren ->
  (tn_value nd =? 0) = false ->
  Z.of_nat (length (default [] (indirects (r_trie r)))) < 2 ^ 56 ->
  exists Nd, forall fuel_d, (Nd <= fuel_d)%nat ->
    exists t2,
      trie_delete fuel_d (r_trie r) n true = Some t2
      /\ exists N, forall fuel2, (N <= fuel2)%nat ->
           trie_lookup fuel2 t2 m Key false = Some (FALSE, None, t2, m).
Proof.
  intros Hwf Hwm Hsize Hsh Hrun Hrc Hnode Hn Hch Hv Htab.
  destruct (insert_same_links _ _ _ _ _ _ _ Hrun Hrc) as (n' & t1 & m1 & Hlook & Hn' & Hsl).
  rewrite Hnode in Hn'. injection Hn' as <-.
  set (T := r_trie r) in *.
  destruct (lookup_descend fuel t m Key s n t1 m1 Hwf Hsize Hsh Hlook)
    as (keys & vs' & tbl' & Henc & Hdesc1 & Htbl1).
  destruct (lookup_path fuel t m Key s n t1 m1 Hwf Hsize Hsh Hlook)
    as (_ & _ & _ & _ & _ & (Hroot1 & Hcl1 & _) & _ & _).
  assert (Hcl : child_links T) by (apply (same_links_child_links t1); assumption).
  assert (Hdesc : descend T root keys = Some n)
    by (rewrite (same_links_descend _ _ Hsl); exact Hdesc1).
  assert (HtblT : default [] (indirects T) = tbl')
    by (destruct Hsl as [-> _]; exact Htbl1).
  assert (Hroot : exists rd, nodes T !! root = Some rd /\ tn_parent rd = None).
  { destruct Hroot1 as (rd & Hrd & Hrp). destruct Hsl as [_ Hx]. specialize (Hx root).
    rewrite Hrd in Hx. destruct (nodes T !! root) as [rd'|]; [|discriminate].
    simpl in Hx. injection Hx as _ Hp _. exists rd'. split; [reflexivity|congruence]. }
  destruct (descend_hangs T Hcl Hroot keys n Hdesc) as (anc & Hh).
  exists (S (length anc)). intros fuel_d Hfuel.
  (* the extent of the pruning *)
  destruct (prune_node_chain T fuel_d T n anc nd nd Hh ltac:(lia) Hn Hn eq_refl eq_refl
              (or_introl Hch) (fun _ _ => eq_refl))
    as (t' & l & a & rest & Hprune & Hchain & Hsplit & Hframe & _ & _ & Hcons).
  pose proof (hangs_nodup _ _ _ Hh) as Hnd. rewrite Hsplit in Hnd.
  pose proof (hangs_split T l n anc a rest Hh Hsplit) as Hha.
  assert (Hl : l <> []).
  { intros ->. apply chain_nil in Hchain as (_ & nd0 & Hn0 & Hp0).
    rewrite Hn in Hn0. injection Hn0 as <-.
    destruct keys as [|k0 ks'] using rev_ind.
    { exact (proj1 enc_nonempty_all _ _ _ _ _ _ Henc eq_refl). }
    apply descend_snoc in Hdesc as (y & _ & Hg).
    apply get_child_inv in Hg as (yd & Hyd & Hc).
    destruct (Hcl y yd k0 n Hyd Hc) as (cd & Hcd & Hpar & _). congruence. }
  destruct (Hcons Hl) as (x & xd & ad & Hlast & Hx & Ha & Ha').
  destruct (split_at_chain T Hcl fuel_d n l a Hchain Hl keys root Hdesc)
    as [Hin|(ks1 & k & ks2 & x' & Ekeys & Hd1 & Hg1 & Hlast')].
  { exfalso. destruct (chain_next n anc l a rest root Hsplit Hin) as (pre & z & post & E & _).
    destruct (hangs_link _ _ _ Hh pre root z post E) as (yd & _ & Hy & Hp & _).
    destruct Hroot as (rd & Hrd & Hrp). congruence. }
  rewrite Hlast in Hlast'. injection Hlast' as <-.
  assert (Hkx : tn_key xd = k).
  { apply get_child_inv in Hg1 as (ad' & Had' & Hc).
    destruct (Hcl a ad' k x Had' Hc) as (cd & Hcd & _ & Hkey). congruence. }
  set (t2 := set_value_count t' (uint_wrap (value_count t' - 1))).
  exists t2. split.
  { unfold trie_delete. rewrite Hn. simpl mbind. rewrite Hv, Hprune. reflexivity. }
  assert (Hmiss : miss t2 root keys).
  { exists ks1, k, ks2, a. split; [exact Ekeys|]. split.
    - apply (descend_frame T t2 a rest Hcl Hha); [|exact Hd1].
      apply NoDup_app in Hnd as (_ & Hdis & Hnd2). apply NoDup_cons in Hnd2 as [Har _].
      intros y Hy. unfold t2. simpl. apply Hframe.
      + intros Hin. apply (Hdis y Hin). apply elem_of_cons. auto.
      + intros ->. exact (Har Hy).
    - unfold get_child, t2. simpl. rewrite Ha'. simpl.
      rewrite <- Hkx.
      pose proof (child_of_detach ad (tn_key xd)) as Hdet. unfold child_of in Hdet.
      simpl in Hdet.
      destruct (detach (tn_children ad) (tn_key xd)) as [|k' c'|tbl0] eqn:Ed; simpl in *.
      + reflexivity.
      + destruct (k' =? tn_key xd); [discriminate|reflexivity].
      + rewrite Hdet. reflexivity. }
  assert (Hind2 : default [] (indirects t2) = tbl').
  { unfold t2. simpl. rewrite (prune_node_indirects _ _ _ _ Hprune). exact HtblT. }
  pose proof (proj1 enc_stable_all _ _ _ _ _ _ tbl' Henc ltac:(reflexivity)) as Henc1.
  apply (lookup_miss m t2 tbl' Key s keys vs' Hwm Hsize Hsh Hind2); [|exact Henc1|exact Hmiss].
  rewrite <- HtblT. exact Htab.
Qed.

Lemma wf_links_b_sound t : wf_links_b t = true -> wf_links t.
Proof.
  unfold wf_links_b. intros H. apply andb_true_iff in H as [H Hfresh].
  apply andb_true_iff in H as [Hroot Hall].
  split; [|split; [|apply fresh_ids_b_sound; exact Hfresh]].
  - destruct (nodes t !! root) as [rd|]; [|discriminate].
    apply bool_decide_eq_true in Hroot. eauto.
  - intros p pd k c Hp Hc. rewrite forallb_forall in Hall.
    specialize (Hall (p, pd)). simpl in Hall.
    assert (Hin : In (p, pd) (map_to_list (nodes t)))
      by (apply list_elem_of_In, elem_of_map_to_list; exact Hp).
    specialize (Hall Hin).
    assert (Hlink : link_ok t p k c = true ->
              exists cd, nodes t !! c = Some cd /\ tn_parent cd = Some p /\ tn_key cd = k).
    { unfold link_ok. destruct (nodes t !! c) as [cd|]; [|discriminate].
      intros E. apply andb_true_iff in E as [E1 E2]. apply bool_decide_eq_true in E1.
      apply Z.eqb_eq in E2. eauto. }
    apply Hlink. unfold child_of in Hc. destruct (tn_children pd) as [|k' c'|tbl].
    + discriminate.
    + destruct (k' =? k) eqn:E; [|discriminate]. injection Hc as <-.
      apply Z.eqb_eq in E. subst k'. exact Hall.
    + rewrite forallb_forall in Hall. specialize (Hall (k, c)). simpl in Hall.
      rewrite Hc in Hall. apply Hall. apply list_elem_of_In. apply lookupHTable_in. exact Hc.
Qed.

Lemma lookup_after_delete_witness :
  exists Nd, forall fuel_d, (Nd <= fuel_d)%nat ->
    exists t2,
      trie_delete fuel_d (r_trie result_term_p) 13%nat true = Some t2
      /\ exists N, forall fuel2, (N <= fuel2)%nat ->
           trie_lookup fuel2 t2 term_mem 10 false = Some (FALSE, None, t2, term_mem).
Proof.
  apply (lookup_after_delete 100 trie_fb_pruned term_mem 10 6 false
           result_term_p term_shape 13%nat
           (mkNode (atom 11) TRIE_KEY_POP (Some 12%nat) NoChildren)).
  - apply wf_links_b_sound; vm_compute; reflexivity.
  - apply wf_mem_b_sound; vm_compute; reflexivity.
  - vm_compute; reflexivity.
  - exact term_shape_ok.
  - vm_compute; reflexivity.
  - vm_compute; reflexivity.
  - vm_compute; reflexivity.
  - vm_compute; reflexivity.
  - reflexivity.
  - vm_compute; reflexivity.
  - vm_compute; reflexivity.
Defined.

(** Run: after the deletion the term is not found, and neither is its
    copy. *)
Example lookup_after_delete_run :
  match trie_delete 20 (r_trie result_term_v) 8%nat true with
  | Some t2 =>
      trie_lookup 20 t2 term_mem 10 false = Some (FALSE, None, t2, term_mem)
      /\ trie_lookup 20 t2 variant_mem 50 false = Some (FALSE, None, t2, variant_mem)
  | None => False
  end.
Proof. vm_compute. split; reflexivity. Qed.

Lemma root_of_descend t : child_links t ->
  (exists rd, nodes t !! root = Some rd /\ tn_parent rd = None) ->
  forall ks n, descend t root ks = Some n ->
  forall fuel, (length ks < fuel)%nat -> root_of_node fuel t n = Some root.
Proof.
  intros Hcl (rd & Hrd & Hrp). induction ks as [|k ks IH] using rev_ind; intros n Hd fuel Hf.
  - simpl in Hd. injection Hd as <-. destruct fuel; [simpl in Hf; lia|]. simpl.
    rewrite Hrd. simpl. rewrite Hrp. reflexivity.
  - apply descend_snoc in Hd as (y & Hy & Hg).
    apply get_child_inv in Hg as (yd & Hyd & Hc).
    destruct (Hcl y yd k n Hyd Hc) as (cd & Hcd & Hpar & _).
    rewrite length_app in Hf. simpl in Hf.
    destruct fuel; [lia|]. simpl. rewrite Hcd. simpl. rewrite Hpar.
    apply (IH y Hy). lia.
Qed.

(** The node that an adding lookup returns leads back to its trie:
    get_trie_form_node walks up from it to the root and hands out the
    trie (given the steps for the length of the path). *)
Theorem node_leads_to_trie (fuel : nat) (o : trie_object) (m : mem) (k : Z) (s : shape_t)
    (n : node_id) (t' : trie) (m' : mem) :
  wf_links (content o) ->
  magic o = TRIE_MAGIC ->
  Z.of_nat (size m) < 2 ^ 56 ->
  shape m k s ->
  trie_lookup fuel (content o) m k true = Some (TRUE, Some n, t', m') ->
  exists N, forall fuel', (N <= fuel')%nat ->
    get_trie_form_node fuel' (mkObject (magic o) (references o) t') n
    = Some (mkObject (magic o) (references o) t').
Proof.
  intros Hwf Hmagic Hsize Hsh Hrun.
  destruct (lookup_descend _ _ _ _ _ _ _ _ Hwf Hsize Hsh Hrun)
    as (keys & vs' & tbl' & _ & Hdesc & _).
  destruct (lookup_path _ _ _ _ _ _ _ _ Hwf Hsize Hsh Hrun)
    as (_ & _ & _ & _ & _ & (Hroot & Hcl & _) & _ & _).
  exists (S (length keys)). intros fuel' Hf.
  unfold get_trie_form_node. simpl.
  rewrite (root_of_descend t' Hcl Hroot keys n Hdesc) by lia. simpl.
  rewrite Hmagic. reflexivity.
Qed.

Lemma node_leads_to_trie_witness :
  exists N, forall fuel', (N <= fuel')%nat ->
    get_trie_form_node fuel' (mkObject TRIE_MAGIC 0 trie_term) 8%nat
    = Some (mkObject TRIE_MAGIC 0 trie_term).
Proof.
  apply (node_leads_to_trie 100 (mkObject TRIE_MAGIC 0 trie_create) term_mem 10 term_shape
           8%nat trie_term term_mem).
  - exact wf_links_create.
  - reflexivity.
  - vm_compute. reflexivity.
  - exact term_shape_ok.
  - vm_compute. reflexivity.
Defined.

(** ** Lookup in a trie without keys *)
Lemma fail_found m T k (ls0 lsF : lookup_state) N :
  wf_mem m -> Z.of_nat (size m) < 2 ^ 56 ->
  ls0 = mkLookup (initTermAgenda 1 k) (Some root) 0 TRUE 0 T m ->
  (forall fuel, (N <= fuel)%nat -> trie_lookup_loop fuel false ls0 = Some lsF) ->
  ls_node lsF = None -> ls_rc lsF = TRUE ->
  forall fuel, (N <= fuel)%nat ->
    trie_lookup fuel T m k false = Some (FALSE, None, ls_trie lsF, m).
Proof.
  intros Hwm Hsize -> Hloop Hn Hrc fuel Hfuel. specialize (Hloop fuel Hfuel).
  unfold trie_lookup. rewrite Hloop. simpl mbind.
  rewrite (lookup_loop_cleared fuel T m k false lsF Hwm ltac:(lia) Hloop).
  simpl mbind. rewrite Hrc, Hn. reflexivity.
Qed.

(** Nothing is found in a trie whose root has no children, such as a
    new trie or one that was emptied: the lookup without additions of any
    term returns FALSE (given the steps for its first cell) and leaves
    the term as it is; the trie is unchanged, except that an absent
    indirect table is made when the term is an indirect datum. *)
Theorem lookup_without_keys (T : trie) (rd : trie_node) (m : mem) (k : Z) (s : shape_t) :
  nodes T !! root = Some rd ->
  tn_children rd = NoChildren ->
  wf_mem m ->
  Z.of_nat (size m) < 2 ^ 56 ->
  shape m k s ->
  exists N T', same_but_indirects T T'
    /\ forall fuel, (N <= fuel)%nat ->
         trie_lookup fuel T m k false = Some (FALSE, None, T', m).
Proof.
  intros Hrd Hch Hwm Hsize Hsh.
  assert (Hnone : forall T0 key, nodes T0 = nodes T -> get_child T0 root key = Some None).
  { intros T0 key Hn. unfold get_child. rewrite Hn, Hrd. simpl. rewrite Hch. reflexivity. }
  set (ls0 := mkLookup (initTermAgenda 1 k) (Some root) 0 TRUE 0 T m).
  assert (Hinv : find_inv m T ls0 root []).
  { unfold find_inv, ls0. simpl. split; [reflexivity|]. split; [reflexivity|].
    split; [|auto]. split; [apply NoDup_nil; exact I|].
    split; [intros i a Hi; discriminate|reflexivity]. }
  assert (Hmarks : marks m [] (ls_mem ls0)) by (destruct Hinv as (_ & _ & H & _); exact H).
  assert (Hfrom : forall lsF R,
            (forall rest, (R <= rest)%nat ->
               trie_lookup_loop (1 + rest) false ls0 = trie_lookup_loop rest false lsF) ->
            ls_node lsF = None -> ls_rc lsF = TRUE ->
            forall fuel, (1 + R + 1 <= fuel)%nat ->
              trie_lookup fuel T m k false = Some (FALSE, None, ls_trie lsF, m)).
  { intros lsF R HR Hn Hrc. apply (fail_found m T k ls0 lsF); auto.
    apply (fail_after ls0 lsF 1 R 1 lsF HR).
    intros fuel Hf. destruct fuel; [lia|]. apply loop_stop. exact Hn. }
  destruct s as [a|w|tg c|f args].
  - destruct (step_var m T [] a Hsize k ls0 [] O root [] (var_key 1) [a] None Hsh eq_refl Hinv)
      as (R & ls' & HR & _ & Hn' & Hrc' & _ & _ & HT'); [reflexivity|apply Hnone; reflexivity|].
    exists (1 + R + 1)%nat, T. split; [left; reflexivity|].
    intros fuel Hf. rewrite (Hfrom ls' R HR Hn' Hrc' fuel Hf), HT'. reflexivity.
  - destruct (step_atomic m T [] w k ls0 [] O root [] w [] None Hsh eq_refl Hinv)
      as (R & ls' & HR & _ & Hn' & Hrc' & _ & _ & HT'); [reflexivity|apply Hnone; reflexivity|].
    exists (1 + R + 1)%nat, T. split; [left; reflexivity|].
    intros fuel Hf. rewrite (Hfrom ls' R HR Hn' Hrc' fuel Hf), HT'. reflexivity.
  - destruct Hsh as (q & w & Hd & Hw & Hi & Htg & Hc & Hct).
    destruct (indirect_tag _ Hi) as (Tv & Ta & Tc).
    set (tbl := match indirects T with Some tb => tb | None => new_indirect_table end).
    set (T1 := set_indirects T (Some tbl)).
    assert (HT1 : same_but_indirects T T1).
    { unfold T1, tbl. destruct (indirects T) as [tb|] eqn:E.
      - left. apply set_indirects_id. exact E.
      - right. split; [exact E|reflexivity]. }
    destruct (find_cell m ls0 k O [] root [] q
                (mkLookup (mkAgenda (mkANode (k + 1) O) []) None 0 TRUE 0 T1 m)
                eq_refl eq_refl Hmarks Hd) as [R HR].
    { intros fe. unfold lookup_step. simpl ls_mem. rewrite Hw. simpl mbind.
      rewrite Tv, Ta, Tc, Hi. simpl negb. cbv iota.
      unfold trie_intern_indirect, intern_indirect. simpl ls_mem. rewrite Hc. simpl mbind.
      simpl ls_trie. fold tbl.
      destruct (index_of (tag w, c) tbl 0) as [i|]; simpl mbind; cbv beta iota.
      - fold T1. destruct (indirect_surrogate (tag w) i =? 0); [reflexivity|].
        rewrite (follow_got _ _ _ _ (Hnone T1 _ eq_refl)). reflexivity.
      - reflexivity. }
    exists (1 + R + 1)%nat, T1. split; [exact HT1|].
    apply (Hfrom _ R HR); reflexivity.
  - destruct Hsh as (q & w & Hd & Hw & Htc & Hf & Hfk & Har & Hargs).
    destruct (find_cell m ls0 k O [] root [] q
                (mkLookup (pushWorkAgenda_P (mkAgenda (mkANode (k + 1) O) []) (arityFunctor f)
                             (valPtr w + 1)) None 0 TRUE 0 T m)
                eq_refl eq_refl Hmarks Hd) as [R HR].
    { intros fe. unfold lookup_step. simpl ls_mem. rewrite Hw. simpl mbind.
      rewrite Htc.
      change (TAG_COMPOUND =? TAG_VAR) with false.
      change (TAG_COMPOUND =? TAG_ATTVAR) with false.
      change (TAG_COMPOUND =? TAG_COMPOUND) with true. cbv iota.
      rewrite Hf. simpl mbind. cbv beta iota zeta. simpl andb. cbv iota.
      simpl ls_trie. rewrite (follow_got _ _ _ _ (Hnone T _ eq_refl)). reflexivity. }
    exists (1 + R + 1)%nat, T. split; [left; reflexivity|].
    apply (Hfrom _ R HR); reflexivity.
Qed.

Lemma lookup_without_keys_witness :
  exists N T', same_but_indirects trie_create T'
    /\ forall fuel, (N <= fuel)%nat ->
         trie_lookup fuel trie_create term_mem 10 false = Some (FALSE, None, T', term_mem).
Proof.
  apply (lookup_without_keys trie_create (mkNode 0 0 None NoChildren) term_mem 10 term_shape).
  - reflexivity.
  - reflexivity.
  - apply wf_mem_b_sound. vm_compute. reflexivity.
  - vm_compute. reflexivity.
  - exact term_shape_ok.
Defined.

(** The first key of a term tells its kind. *)
Lemma head_kind s vs (T : indirect_table) keys vs' T' :
  good s -> Z.of_nat (length T) < 2 ^ 56 ->
  enc vs T s = (keys, vs', T') ->
  exists k ks, keys = k :: ks /\ key_kind k = shape_kind s.
Proof.
  intros Hg HT H. destruct s as [a|w|tg c|f args]; simpl in H.
  - assert (Hk : forall i, key_kind (var_key i) = 0%nat).
    { intros i. unfold key_kind. rewrite var_key_not_functor, tag_var_key. reflexivity. }
    destruct (index_nat a vs); injection H as <- _ _; eauto.
  - injection H as <- _ _. exists w, []. split; [reflexivity|].
    destruct Hg as [(Tv & _ & _ & Ti & Tf) _]. unfold key_kind. rewrite Tf, Tv, Ti. reflexivity.
  - destruct Hg as [Htg _].
    assert (Hk : forall i, 0 <= i < 2 ^ 56 -> key_kind (indirect_surrogate tg i) = 2%nat).
    { intros i Hi. destruct (surrogate_facts tg i Htg Hi) as (_ & Hf & Hv & Hin & _).
      unfold key_kind. rewrite Hf, Hv, Hin. reflexivity. }
    destruct (index_of (tg, c) T 0) as [i|] eqn:Hidx; injection H as <- _ _.
    + apply index_of_lookup in Hidx as [Hr _]. eexists _, _. split; [reflexivity|].
      apply Hk. lia.
    + eexists _, _. split; [reflexivity|]. apply Hk. lia.
  - destruct (enc_l vs T args) as [[k1 vs1] T1]. injection H as <- _ _.
    destruct Hg as (Hf & _). eexists _, _. split; [reflexivity|].
    unfold key_kind. rewrite Hf. reflexivity.
Qed.

Lemma surrogate_inj tg i tg' i' :
  indirect_tag_ok tg -> indirect_tag_ok tg' -> 0 <= i < 2 ^ 56 -> 0 <= i' < 2 ^ 56 ->
  indirect_surrogate tg i = indirect_surrogate tg' i' -> tg = tg' /\ i = i'.
Proof.
  intros Htg Htg' Hi Hi' H. unfold indirect_surrogate in H.
  destruct (global_word_facts (i + 1) tg Htg ltac:(lia)) as (_ & _ & _ & Ht & Hv).
  destruct (global_word_facts (i' + 1) tg' Htg' ltac:(lia)) as (_ & _ & _ & Ht' & Hv').
  rewrite H in Ht, Hv. split; [congruence|lia].
Qed.

(** Two terms with the same first key are of the same kind. *)
Lemma same_kind (T : indirect_table) s1 s2 vsA vsB k1 k2 r1 r2 vsA' vsB' TA TB :
  good s1 -> good s2 -> Z.of_nat (length T) < 2 ^ 56 ->
  enc vsA T s1 = (k1, vsA', TA) -> enc vsB T s2 = (k2, vsB', TB) ->
  k1 ++ r1 = k2 ++ r2 -> shape_kind s1 = shape_kind s2.
Proof.
  intros G1 G2 HT E1 E2 H.
  destruct (head_kind _ _ _ _ _ _ G1 HT E1) as (x & xs & -> & K1).
  destruct (head_kind _ _ _ _ _ _ G2 HT E2) as (y & ys & -> & K2).
  simpl in H. injection H as -> _. congruence.
Qed.

Lemma inj_var T a : Z.of_nat (length T) < 2 ^ 56 -> inj_t T (SVar a).
Proof.
  intros HT s2 vsA vsB k1 k2 r1 r2 vsA' vsB' G1 G2 E1 E2 H Hlen HA HB.
  pose proof (same_kind T _ _ _ _ _ _ _ _ _ _ _ _ G1 G2 HT E1 E2 H) as Hk.
  destruct s2 as [b| | |]; try discriminate. clear Hk. simpl in E1, E2. simpl.
  destruct (index_nat a vsA) as [i|] eqn:Ia; injection E1 as <- <-;
    destruct (index_nat b vsB) as [j|] eqn:Ib; injection E2 as <- <-;
    simpl in H; injection H as Hkey <-.
  - apply index_nat_lookup in Ia as La. apply index_nat_lookup in Ib as Lb.
    apply lookup_lt_Some in La as Bi. apply lookup_lt_Some in Lb as Bj.
    apply var_key_inj in Hkey; [|lia|lia]. assert (i = j) by lia. subst j.
    split; [reflexivity|]. split; [reflexivity|]. split; [exact Hlen|].
    f_equal. symmetry. apply (var_image_old _ _ _ _ _ Ia Lb).
  - exfalso. apply index_nat_lookup in Ia as La. apply lookup_lt_Some in La as Bi.
    rewrite length_app in HB. simpl in HB.
    apply var_key_inj in Hkey; lia.
  - exfalso. apply index_nat_lookup in Ib as Lb. apply lookup_lt_Some in Lb as Bj.
    rewrite length_app in HA. simpl in HA.
    apply var_key_inj in Hkey; lia.
  - split; [rewrite Hlen; reflexivity|]. split; [reflexivity|].
    split; [rewrite !length_app; simpl; lia|].
    f_equal. symmetry. apply var_image_new; [exact Ia|lia].
Qed.

Lemma inj_atomic T w : Z.of_nat (length T) < 2 ^ 56 -> inj_t T (SAtomic w).
Proof.
  intros HT s2 vsA vsB k1 k2 r1 r2 vsA' vsB' G1 G2 E1 E2 H Hlen HA HB.
  pose proof (same_kind T _ _ _ _ _ _ _ _ _ _ _ _ G1 G2 HT E1 E2 H) as Hk.
  destruct s2 as [|w'| |]; try discriminate. clear Hk. simpl in E1, E2. simpl.
  injection E1 as <- <-. injection E2 as <- <-. simpl in H. injection H as -> <-.
  auto.
Qed.

Lemma inj_indirect T tg c : Z.of_nat (length T) < 2 ^ 56 -> inj_t T (SIndirect tg c).
Proof.
  intros HT s2 vsA vsB k1 k2 r1 r2 vsA' vsB' G1 G2 E1 E2 H Hlen HA HB.
  pose proof (same_kind T _ _ _ _ _ _ _ _ _ _ _ _ G1 G2 HT E1 E2 H) as Hk.
  destruct s2 as [| |tg' c'|]; try discriminate. clear Hk. simpl in E1, E2. simpl.
  destruct G1 as [Htg _], G2 as [Htg' _].
  destruct (index_of (tg, c) T 0) as [i|] eqn:Ii.
  2:{ exfalso. injection E1 as _ _ Hbad. apply (f_equal length) in Hbad.
      rewrite length_app in Hbad. simpl in Hbad. lia. }
  destruct (index_of (tg', c') T 0) as [i'|] eqn:Ii'.
  2:{ exfalso. injection E2 as _ _ Hbad. apply (f_equal length) in Hbad.
      rewrite length_app in Hbad. simpl in Hbad. lia. }
  injection E1 as <- <-. injection E2 as <- <-. simpl in H. injection H as Hkey <-.
  apply index_of_lookup in Ii as [Hr Hl]. apply index_of_lookup in Ii' as [Hr' Hl'].
  apply surrogate_inj in Hkey as [<- <-]; [|assumption|assumption|lia|lia].
  rewrite Hl in Hl'. injection Hl' as <-. auto.
Qed.

Lemma inj_compound T f args :
  Z.of_nat (length T) < 2 ^ 56 -> inj_l T args -> inj_t T (SCompound f args).
Proof.
  intros HT IH s2 vsA vsB k1 k2 r1 r2 vsA' vsB' G1 G2 E1 E2 H Hlen HA HB.
  pose proof (same_kind T _ _ _ _ _ _ _ _ _ _ _ _ G1 G2 HT E1 E2 H) as Hk.
  destruct s2 as [| | |f' args']; try discriminate. clear Hk. simpl in E1, E2.
  destruct (enc_l vsA T args) as [[ka vsa] Ta] eqn:Ea.
  destruct (enc_l vsB T args') as [[kb vsb] Tb] eqn:Eb.
  injection E1 as <- <- ->. injection E2 as <- <- ->.
  simpl in H. injection H as <- H. rewrite <- !app_assoc in H. simpl in H.
  destruct G1 as (Hf1 & Har1 & Hg1). destruct G2 as (Hf2 & Har2 & Hg2).
  destruct (IH args' vsA vsB ka kb (TRIE_KEY_POP :: r1) (TRIE_KEY_POP :: r2) vsa vsb
              Hg1 Hg2 ltac:(congruence) Ea Eb H Hlen HA HB) as (-> & Hr & Hl & ->).
  injection Hr as <-. simpl. auto.
Qed.

Lemma inj_nil T : inj_l T SNil.
Proof.
  intros l2 vsA vsB k1 k2 r1 r2 vsA' vsB' G1 G2 Hs E1 E2 H Hlen HA HB.
  destruct l2 as [|s' l']; [|discriminate]. simpl in E1, E2.
  injection E1 as <- <-. injection E2 as <- <-. simpl in H. auto.
Qed.

Lemma inj_cons T s l : inj_t T s -> inj_l T l -> inj_l T (SCons s l).
Proof.
  intros IHs IHl l2 vsA vsB k1 k2 r1 r2 vsA' vsB' G1 G2 Hs E1 E2 H Hlen HA HB.
  destruct l2 as [|s' l']; [discriminate|]. simpl in Hs. injection Hs as Hs.
  simpl in E1, E2.
  destruct (enc vsA T s) as [[ks vsA1] TA1] eqn:Es.
  destruct (enc_l vsA1 TA1 l) as [[kl vsA2] TA2] eqn:El.
  destruct (enc vsB T s') as [[ks' vsB1] TB1] eqn:Es'.
  destruct (enc_l vsB1 TB1 l') as [[kl' vsB2] TB2] eqn:El'.
  injection E1 as <- <- ->. injection E2 as <- <- ->.
  destruct (proj1 enc_facts_all _ _ _ _ _ _ Es) as (_ & HpA & HvA & _).
  destruct (proj2 enc_facts_all _ _ _ _ _ _ El) as (HqA & HpA2 & _).
  destruct (proj1 enc_facts_all _ _ _ _ _ _ Es') as (_ & HpB & _).
  destruct (proj2 enc_facts_all _ _ _ _ _ _ El') as (HqB & HpB2 & _).
  assert (TA1 = T) by (apply prefix_both; assumption). subst TA1.
  assert (TB1 = T) by (apply prefix_both; assumption). subst TB1.
  apply prefix_length in HqA as LA. apply prefix_length in HqB as LB.
  rewrite <- !app_assoc in H.
  destruct G1 as [Gs Gl]. destruct G2 as [Gs' Gl'].
  destruct (IHs s' vsA vsB ks ks' (kl ++ r1) (kl' ++ r2) vsA1 vsB1 Gs Gs' Es Es' H Hlen
              ltac:(lia) ltac:(lia)) as (-> & H' & Hlen1 & ->).
  destruct (IHl l' vsA1 vsB1 kl kl' r1 r2 vsA2 vsB2 Gl Gl' Hs El El' H' Hlen1 HA HB)
    as (-> & -> & Hlen2 & ->).
  split; [reflexivity|]. split; [reflexivity|]. split; [exact Hlen2|].
  simpl. f_equal. apply (proj1 (rename_ext_all _ _)).
  intros a Ha. symmetry. apply var_image_ext; [exact HqA|exact HqB|lia|].
  apply HvA. exact Ha.
Qed.

Lemma inj_all T : Z.of_nat (length T) < 2 ^ 56 ->
  (forall s, inj_t T s) /\ (forall l, inj_l T l).
Proof.
  intros HT.
  assert (Ht : forall s, inj_t T s).
  { apply (shape_t_mut (inj_t T) (inj_l T)).
    - intros a. apply inj_var. exact HT.
    - intros w. apply inj_atomic. exact HT.
    - intros tg c. apply inj_indirect. exact HT.
    - intros f args IH. apply inj_compound; assumption.
    - apply inj_nil.
    - intros s IHs l IHl. apply inj_cons; assumption. }
  split; [exact Ht|].
  apply (shape_l_mut (inj_t T) (inj_l T)).
  - intros a. apply inj_var. exact HT.
  - intros w. apply inj_atomic. exact HT.
  - intros tg c. apply inj_indirect. exact HT.
  - intros f args IH. apply inj_compound; assumption.
  - apply inj_nil.
  - intros s IHs l IHl. apply inj_cons; assumption.
Qed.

Lemma descend_grows t t' : grows t t' ->
  forall ks n n', descend t n ks = Some n' -> descend t' n ks = Some n'.
Proof.
  intros [Hg _]. induction ks as [|k ks IH]; intros n n' Hd; [exact Hd|].
  apply descend_cons in Hd as (c & Hc & Hd). simpl.
  apply get_child_inv in Hc as (nd & Hn & Hch).
  destruct (Hg n nd k c Hn Hch) as (nd' & Hn' & Hch').
  rewrite (get_child_child_of _ _ _ _ Hn'), Hch'. apply IH. exact Hd.
Qed.

(** Only variants share a node: when adding a second term returns the
    node of a term added before, the two terms are equal up to a
    renaming of variables that keeps distinct variables distinct. *)
Theorem same_node_variant (fuel fuel' : nat) (t : trie) (m1 : mem) (k1 : Z) (s1 : shape_t)
    (n : node_id) (t1 : trie) (m1' : mem) (m2 : mem) (k2 : Z) (s2 : shape_t)
    (t2 : trie) (m2' : mem) :
  wf_links t ->
  Z.of_nat (size m1) < 2 ^ 56 ->
  shape m1 k1 s1 ->
  trie_lookup fuel t m1 k1 true = Some (TRUE, Some n, t1, m1') ->
  Z.of_nat (size m2) < 2 ^ 56 ->
  shape m2 k2 s2 ->
  trie_lookup fuel' t1 m2 k2 true = Some (TRUE, Some n, t2, m2') ->
  Z.of_nat (length (default [] (indirects t2))) < 2 ^ 56 ->
  variant s1 s2.
Proof.
  intros Hwf Hs1 Hsh1 Hrun1 Hs2 Hsh2 Hrun2 Htab.
  destruct (lookup_descend _ _ _ _ _ _ _ _ Hwf Hs1 Hsh1 Hrun1)
    as (keys1 & vs1 & tbl1 & Henc1 & Hdesc1 & Htbl1).
  destruct (lookup_path _ _ _ _ _ _ _ _ Hwf Hs1 Hsh1 Hrun1)
    as (keys1' & vs1' & tbl1' & Henc1' & _ & Hwf1 & _ & Hl1).
  rewrite Henc1 in Henc1'. injection Henc1' as <- <- <-.
  destruct (lookup_path _ _ _ _ _ _ _ _ Hwf1 Hs2 Hsh2 Hrun2)
    as (keys2 & vs2 & tbl2 & Henc2 & Hpath2 & Hwf2 & Htbl2 & Hl2).
  rewrite Htbl1 in Henc2.
  assert (Hgrows : grows t1 t2).
  { destruct Hwf1 as (_ & _ & Hfr). apply (lookup_add_grows _ _ _ _ _ _ _ Hfr Hrun2). }
  pose proof (descend_grows _ _ Hgrows _ _ _ Hdesc1) as Hdesc2.
  assert (Hkeys : keys2 = keys1).
  { pose proof Hwf2 as (Hroot2 & _). destruct Hroot2 as (rd & Hrd & Hrp).
    pose proof (descend_path _ Hwf2 keys1 root [] n (path_root _ root rd Hrd Hrp) Hdesc2)
      as Hp. simpl in Hp. symmetry. exact (path_functional _ _ _ Hpath2 _ Hp). }
  subst keys2.
  destruct (proj1 enc_facts_all _ _ _ _ _ _ Henc1) as (_ & _ & Hv1 & Hnd1).
  destruct (proj1 enc_facts_all _ _ _ _ _ _ Henc2) as (_ & Hp12 & _ & Hnd2).
  pose proof (proj1 enc_stable_all _ _ _ _ _ _ tbl2 Henc1 Hp12) as E1.
  pose proof (proj1 enc_stable_all _ _ _ _ _ _ tbl2 Henc2 ltac:(reflexivity)) as E2.
  rewrite Htbl2 in Htab.
  destruct (proj1 (inj_all tbl2 Htab) s1 s2 [] [] keys1 keys1 [] [] vs1 vs2
              (proj1 (shape_good_all m1) _ _ Hsh1) (proj1 (shape_good_all m2) _ _ Hsh2)
              E1 E2 eq_refl eq_refl ltac:(lia) ltac:(lia)) as (_ & _ & Hlen & ->).
  exists (var_image vs1 vs2). split; [|reflexivity].
  intros a b Ha Hb. apply var_image_inj; auto.
  apply Hnd2. apply NoDup_nil. exact I.
Qed.

Lemma same_node_variant_witness : variant term_shape variant_shape.
Proof.
  apply (same_node_variant 100 100 trie_create term_mem 10 term_shape 8%nat trie_term
           term_mem variant_mem 50 variant_shape trie_term variant_mem).
  - exact wf_links_create.
  - vm_compute. reflexivity.
  - exact term_shape_ok.
  - vm_compute. reflexivity.
  - vm_compute. reflexivity.
  - exact variant_shape_ok.
  - vm_compute. reflexivity.
  - vm_compute. reflexivity.
Defined.

Lemma values_release_key k t : value_count (release_key k t) = value_count t.
Proof. unfold release_key. destruct (isAtom k); reflexivity. Qed.

Lemma values_release_value v t : value_count (release_value v t) = value_count t.
Proof. unfold release_value. destruct (isAtom v); [|destruct (isRecord v)]; reflexivity. Qed.

Lemma values_acquire_key k t : value_count (acquire_key k t) = value_count t.
Proof. unfold acquire_key. destruct (isAtom k); reflexivity. Qed.

Lemma values_dealloc t n : value_count (dealloc_node t n) = value_count t.
Proof. unfold dealloc_node. simpl. destruct (alloc_pool t); reflexivity. Qed.

Lemma values_new t key r t' : new_trie_node t key = (r, t') -> value_count t' = value_count t.
Proof.
  unfold new_trie_node. intros H.
  destruct (alloc_pool t) as [p|];
    [destruct (pool_size p + sizeof_trie_node <=? pool_limit p)|];
    injection H as _ <-; simpl; rewrite ?values_acquire_key; reflexivity.
Qed.

Lemma values_clear_node : forall fuel t n dealloc t',
  clear_node fuel t n dealloc = Some t' -> value_count t' = value_count t.
Proof.
  induction fuel as [|fuel IH]; intros t n dealloc t' Hrun; [discriminate|].
  simpl in Hrun. destruct (nodes t !! n) as [nd|] eqn:Hn; [|discriminate]. simpl in Hrun.
  set (t2 := if tn_value nd =? 0 then release_key (tn_key nd) t
             else release_value (tn_value nd) (release_key (tn_key nd) t)) in *.
  assert (H2 : value_count t2 = value_count t).
  { unfold t2. destruct (tn_value nd =? 0);
      rewrite ?values_release_value, values_release_key; reflexivity. }
  set (t3 := update_node t2 n (set_children nd NoChildren)) in *.
  assert (H4 : value_count (if dealloc then dealloc_node t3 n else t3) = value_count t).
  { destruct dealloc; rewrite ?values_dealloc; exact H2. }
  destruct (tn_children nd) as [|k c|table].
  - injection Hrun as <-. exact H2.
  - rewrite (IH _ _ _ _ Hrun). exact H4.
  - revert Hrun H4. generalize (if dealloc then dealloc_node t3 n else t3).
    induction table as [|e table IHt]; intros t0 Hrun H0.
    + simpl in Hrun. injection Hrun as <-. exact H0.
    + simpl in Hrun. destruct (clear_node fuel t0 (snd e) true) as [t5|] eqn:E.
      * apply (IHt t5 Hrun). rewrite (IH _ _ _ _ E). exact H0.
      * exfalso. clear -Hrun. induction table as [|e' table IHt']; [discriminate|].
        simpl in Hrun. auto.
Qed.

Lemma values_prune_node : forall fuel t n t',
  prune_node fuel t n = Some t' -> value_count t' = value_count t.
Proof.
  induction fuel as [|fuel IH]; intros t n t' Hrun; [discriminate|].
  simpl in Hrun. destruct (nodes t !! n) as [nd|] eqn:Hn; [|discriminate]. simpl in Hrun.
  destruct (tn_parent nd) as [p|]; [|injection Hrun as <-; reflexivity].
  destruct (nodes t !! p) as [pd|] eqn:Hp; [|discriminate]. simpl in Hrun.
  unfold destroy_node in Hrun.
  destruct (tn_children pd) as [|k c|table].
  - destruct (clear_node (S fuel) t n true) as [t1|] eqn:E; [|discriminate]. simpl in Hrun.
    rewrite (IH _ _ _ Hrun). apply (values_clear_node _ _ _ _ _ E).
  - destruct (clear_node (S fuel) _ n true) as [t1|] eqn:E; [|discriminate]. simpl in Hrun.
    rewrite (IH _ _ _ Hrun). apply (values_clear_node _ _ _ _ _ E).
  - destruct (clear_node (S fuel) _ n true) as [t1|] eqn:E; [|discriminate]. simpl in Hrun.
    apply values_clear_node in E. simpl in E.
    destruct (length (deleteHTable table (tn_key nd)) =? 0)%nat.
    + rewrite (IH _ _ _ Hrun). exact E.
    + injection Hrun as <-. exact E.
Qed.

Lemma values_insert_child t n key r t' :
  insert_child t n key = Some (r, t') -> value_count t' = value_count t.
Proof.
  intros Hrun. unfold insert_child in Hrun.
  destruct (nodes t !! n) as [nd|] eqn:Hn; [|discriminate]. simpl in Hrun.
  destruct (new_trie_node t key) as [[new|] t1] eqn:Hnew; apply values_new in Hnew.
  - assert (Hgo : forall c r0 t0,
      (newd ← nodes (update_node t1 n (set_children nd c)) !! new;
       Some (r0, update_node (update_node t1 n (set_children nd c)) new
                              (set_parent newd (Some n)))) = Some (r, t0) ->
      value_count t0 = value_count t).
    { intros c r0 t0 H.
      destruct (nodes (update_node t1 n (set_children nd c)) !! new) as [newd|] eqn:E;
        [|discriminate].
      simpl in H. injection H as _ <-. exact Hnew. }
    destruct (tn_children nd) as [|k c|table].
    + eapply Hgo. exact Hrun.
    + destruct (k =? key).
      * injection Hrun as _ <-. exact Hnew.
      * eapply Hgo. exact Hrun.
    + destruct (addHTable table key new) as [old table'] eqn:Hadd.
      destruct (new =? old)%nat.
      * eapply Hgo. exact Hrun.
      * unfold destroy_node in Hrun.
        destruct (clear_node 1 _ new true) as [t3|] eqn:E; [|discriminate].
        simpl in Hrun. injection Hrun as _ <-.
        apply values_clear_node in E. simpl in E. congruence.
  - injection Hrun as _ <-. exact Hnew.
Qed.

Lemma values_follow_node t n key add r t' :
  follow_node t n key add = Some (r, t') -> value_count t' = value_count t.
Proof.
  intros Hrun. unfold follow_node in Hrun.
  destruct (get_child t n key) as [[c|]|]; simpl in Hrun; [| |discriminate].
  - injection Hrun as _ <-. reflexivity.
  - destruct add; [eapply values_insert_child; eauto|]. injection Hrun as _ <-. reflexivity.
Qed.

Lemma values_prune_error fuel t n t' :
  prune_error fuel t n = Some t' -> value_count t' = value_count t.
Proof.
  intros Hrun. unfold prune_error in Hrun.
  destruct (follow_node t n TRIE_ERROR_VAL true) as [[r t1]|] eqn:E; [|discriminate].
  simpl in Hrun. destruct r as [n'|]; [|discriminate]. simpl in Hrun.
  rewrite (values_prune_node _ _ _ _ Hrun). apply (values_follow_node _ _ _ _ _ _ E).
Qed.

Lemma values_intern t m w add i t' :
  trie_intern_indirect t m w add = Some (i, t') -> value_count t' = value_count t.
Proof.
  intros Hrun. unfold trie_intern_indirect in Hrun.
  destruct (intern_indirect _ m w add) as [[i' tbl']|]; [|discriminate].
  simpl in Hrun. injection Hrun as _ <-. reflexivity.
Qed.

Lemma values_lookup_step fuel add ls node a p ls' :
  lookup_step fuel add ls node a p = Some ls' ->
  value_count (ls_trie ls') = value_count (ls_trie ls).
Proof.
  intros Hrun. unfold lookup_step in Hrun.
  destruct (ls_mem ls !! p) as [w|]; [|discriminate]. simpl in Hrun.
  destruct (tag w =? TAG_VAR).
  { destruct (isVar w);
      (destruct (follow_node (ls_trie ls) node _ add) as [[n t']|] eqn:E; [|discriminate]);
      simpl in Hrun; injection Hrun as <-; simpl; eapply values_follow_node; eauto. }
  destruct (tag w =? TAG_ATTVAR).
  { destruct (prune_error fuel (ls_trie ls) node) as [t'|] eqn:E; [|discriminate].
    simpl in Hrun. injection Hrun as <-. simpl. eapply values_prune_error; eauto. }
  destruct (tag w =? TAG_COMPOUND).
  { destruct (ls_mem ls !! valPtr w) as [f|]; [|discriminate]. simpl in Hrun.
    destruct (add && _ && _).
    - destruct (prune_error fuel (ls_trie ls) node) as [t'|] eqn:E; [|discriminate].
      simpl in Hrun. injection Hrun as <-. simpl. eapply values_prune_error; eauto.
    - destruct (follow_node (ls_trie ls) node f add) as [[n t']|] eqn:E; [|discriminate].
      simpl in Hrun. injection Hrun as <-. simpl. eapply values_follow_node; eauto. }
  destruct (negb (isIndirect w)).
  { destruct (follow_node (ls_trie ls) node w add) as [[n t']|] eqn:E; [|discriminate].
    simpl in Hrun. injection Hrun as <-. simpl. eapply values_follow_node; eauto. }
  destruct (trie_intern_indirect (ls_trie ls) (ls_mem ls) w add) as [[i t1]|] eqn:E;
    [|discriminate].
  simpl in Hrun. apply values_intern in E.
  destruct (i =? 0).
  - injection Hrun as <-. exact E.
  - destruct (follow_node t1 node i add) as [[n t']|] eqn:E'; [|discriminate].
    simpl in Hrun. injection Hrun as <-. simpl.
    rewrite (values_follow_node _ _ _ _ _ _ E'). exact E.
Qed.

Lemma values_lookup_loop add : forall fuel ls lsF,
  trie_lookup_loop fuel add ls = Some lsF ->
  value_count (ls_trie lsF) = value_count (ls_trie ls).
Proof.
  induction fuel as [|fuel IH]; intros ls lsF Hrun; [discriminate|].
  rewrite trie_lookup_loop_unfold in Hrun.
  destruct (ls_node ls) as [node|]; [|injection Hrun as <-; reflexivity].
  destruct (nextTermAgenda_P (S fuel) (ls_mem ls) (ls_agenda ls)) as [[item a]|];
    [|discriminate].
  simpl in Hrun. destruct item as [| |p].
  - injection Hrun as <-. reflexivity.
  - destruct (follow_node (ls_trie ls) node TRIE_KEY_POP add) as [[n t']|] eqn:E;
      [|discriminate].
    simpl in Hrun. rewrite (IH _ _ Hrun). simpl. eapply values_follow_node; eauto.
  - destruct (lookup_step (S fuel) add ls node a p) as [ls'|] eqn:E; [|discriminate].
    simpl in Hrun. rewrite (IH _ _ Hrun). eapply values_lookup_step; eauto.
Qed.

Lemma values_lookup fuel t m k add rc nodep t' m' :
  trie_lookup fuel t m k add = Some (rc, nodep, t', m') -> value_count t' = value_count t.
Proof.
  intros Hrun. unfold trie_lookup in Hrun.
  destruct (trie_lookup_loop fuel add _) as [ls|] eqn:Hloop; [|discriminate].
  simpl in Hrun. apply values_lookup_loop in Hloop. simpl in Hloop.
  destruct (clear_vars fuel (ls_mem ls) k (ls_var_number ls)); [|discriminate].
  simpl in Hrun.
  destruct (ls_rc ls =? TRUE); [destruct (ls_node ls)|]; injection Hrun as _ _ <- _;
    exact Hloop.
Qed.

Lemma values_intern_value fuel t m Value val t' :
  intern_value fuel t m Value = Some (val, t') -> value_count t' = value_count t.
Proof.
  unfold intern_value. intros H.
  destruct (deRef fuel m Value) as [vp|]; [|discriminate]. simpl in H.
  destruct (m !! vp) as [w|]; [|discriminate]. simpl in H.
  destruct (isAtom w || isTaggedInt w); [injection H as _ <-; reflexivity|].
  unfold PL_record in H.
  destruct (compile_term fuel m Value []) as [[code vars]|]; [|discriminate].
  simpl in H. injection H as _ <-. reflexivity.
Qed.

(** What a successful trie_insert that is no update leaves behind: the
    lookup that made the node, the trie of the result grown from the
    trie of that lookup, and the value counter one up. *)
Lemma insert_new_facts fuel t m Key Value r :
  trie_insert fuel t m Key Value false = Some r -> r_rc r = TRUE ->
  exists node t1,
    trie_lookup fuel t m Key true = Some (TRUE, Some node, t1, r_mem r)
    /\ r_node r = Some node
    /\ grows t1 (r_trie r)
    /\ is_Some (nodes (r_trie r) !! node)
    /\ value_count (r_trie r) = uint_wrap (value_count t + 1).
Proof.
  intros Hrun Hrc. unfold trie_insert in Hrun.
  destruct (trie_lookup fuel t m Key true) as [[[[rc nodep] t1] m1]|] eqn:Hlook;
    [|discriminate].
  simpl in Hrun.
  destruct (rc =? TRUE) eqn:Erc.
  2:{ destruct (trie_error rc) as [rc' exc] eqn:Herr. injection Hrun as <-. simpl in Hrc.
      unfold trie_error in Herr.
      destruct (rc =? TRIE_LOOKUP_CONTAINS_ATTVAR); [|destruct (rc =? TRIE_LOOKUP_CYCLIC)];
        injection Herr as <- _; discriminate. }
  apply Z.eqb_eq in Erc. subst rc.
  destruct nodep as [node|]; [|discriminate]. simpl in Hrun.
  destruct (intern_value fuel t1 m1 Value) as [[val t2]|] eqn:Hval; [|discriminate].
  simpl in Hrun.
  destruct (intern_value_grows _ _ _ _ _ _ Hval) as [Hg2 _].
  apply values_intern_value in Hval. apply values_lookup in Hlook as Hvc.
  destruct (nodes t2 !! node) as [nd|] eqn:Hnd; [|discriminate]. simpl in Hrun.
  destruct (tn_value nd =? 0) eqn:Hv0; simpl in Hrun;
    [|injection Hrun as <-; discriminate].
  injection Hrun as <-. cbn [r_trie r_mem r_node r_rc r_exception] in *.
  exists node, t1. split; [reflexivity|]. split; [reflexivity|]. split; [|split].
  - eapply grows_trans; [exact Hg2|].
    eapply grows_trans; [apply (grows_same t2 (acquire_key val t2))|].
    + apply nodes_acquire_key.
    + unfold acquire_key. destruct (isAtom val); reflexivity.
    + eapply grows_trans; [apply grows_update_value; rewrite nodes_acquire_key; exact Hnd|].
      apply grows_same; reflexivity.
  - simpl. rewrite lookup_insert_eq. eauto.
  - simpl. rewrite values_acquire_key. congruence.
Qed.

(** The value counter goes up and down with the values: a trie_insert
    that adds a new key and a trie_delete of the node it made, with or
    without pruning, leave the counter of values where it was. *)
Theorem insert_delete_value_count (fuel fuel_d : nat) (t : trie) (m : mem) (Key Value : Z)
    (r : result) (n : node_id) (nd : trie_node) (prune : bool) (t2 : trie) :
  0 <= value_count t < 2 ^ 32 ->
  trie_insert fuel t m Key Value false = Some r ->
  r_rc r = TRUE ->
  r_node r = Some n ->
  nodes (r_trie r) !! n = Some nd ->
  (tn_value nd =? 0) = false ->
  trie_delete fuel_d (r_trie r) n prune = Some t2 ->
  value_count t2 = value_count t.
Proof.
  intros Hvc Hrun Hrc Hn Hnd Hval Hdel.
  destruct (insert_new_facts _ _ _ _ _ _ Hrun Hrc) as (node & t1 & _ & _ & _ & _ & Hup).
  unfold trie_delete in Hdel. rewrite Hnd in Hdel. simpl in Hdel. rewrite Hval in Hdel.
  assert (Hback : uint_wrap (value_count (r_trie r) - 1) = value_count t).
  { rewrite Hup, uint_wrap_pred. unfold uint_wrap.
    replace (value_count t + 1 - 1) with (value_count t) by lia.
    apply Z.mod_small. exact Hvc. }
  destruct prune.
  - destruct (prune_node fuel_d (r_trie r) n) as [t3|] eqn:E; [|discriminate].
    simpl in Hdel. injection Hdel as <-. simpl.
    rewrite (values_prune_node _ _ _ _ E). exact Hback.
  - simpl in Hdel. injection Hdel as <-. simpl. rewrite values_release_value. simpl.
    exact Hback.
Qed.

Lemma insert_delete_value_count_witness :
  value_count (default trie_create
                 (trie_delete 10 (r_trie result_term_v) 8%nat true)) = value_count trie_create.
Proof.
  apply (insert_delete_value_count 100 10 trie_create term_mem 10 6 result_term_v 8%nat
           (default (mkNode 0 0 None NoChildren) (nodes (r_trie result_term_v) !! 8%nat)) true).
  - vm_compute. split; [discriminate|reflexivity].
  - vm_compute. reflexivity.
  - vm_compute. reflexivity.
  - vm_compute. reflexivity.
  - vm_compute. reflexivity.
  - vm_compute. reflexivity.
  - vm_compute. reflexivity.
Defined.

(** Deleting without pruning keeps the key: after a trie_insert that
    added a new key, trie_delete of its node with [prune] false takes
    the value only; a lookup of the key without additions still returns
    the node, which has no value any more. *)
Theorem delete_keeps_node (fuel fuel_d : nat) (t : trie) (m : mem) (Key Value : Z)
    (r : result) (n : node_id) :
  fresh_ids t ->
  wf_mem m ->
  Z.of_nat (size m) < 2 ^ 57 ->
  trie_insert fuel t m Key Value false = Some r ->
  r_rc r = TRUE ->
  r_node r = Some n ->
  exists t2 nd2,
    trie_delete fuel_d (r_trie r) n false = Some t2
    /\ nodes t2 !! n = Some nd2
    /\ tn_value nd2 = 0
    /\ trie_lookup fuel t2 m Key false = Some (TRUE, Some n, t2, m).
Proof.
  intros Hfresh Hwm Hsize Hrun Hrc Hn.
  destruct (insert_new_facts _ _ _ _ _ _ Hrun Hrc) as (node & t1 & Hlook & Hn' & Hg & [nd Hnd] & _).
  rewrite Hn in Hn'. injection Hn' as <-.
  assert (Hm : r_mem r = m) by (eapply lookup_mem_same; eauto). rewrite Hm in Hlook.
  unfold trie_delete. rewrite Hnd. simpl.
  destruct (tn_value nd =? 0) eqn:Hv.
  - exists (r_trie r), nd. split; [reflexivity|]. split; [exact Hnd|].
    split; [apply Z.eqb_eq; exact Hv|].
    apply (lookup_in_grown fuel t m Key n t1 m (r_trie r) false Hfresh Hlook Hg).
  - simpl. eexists. exists (set_value nd 0). split; [reflexivity|]. split; [|split].
    + simpl.
      replace (nodes (release_value (tn_value nd) (update_node (r_trie r) n (set_value nd 0))))
        with (nodes (update_node (r_trie r) n (set_value nd 0)))
        by (unfold release_value; destruct (isAtom (tn_value nd));
            [|destruct (isRecord (tn_value nd))]; reflexivity).
      simpl. apply lookup_insert_eq.
    + reflexivity.
    + apply (lookup_in_grown fuel t m Key n t1 m _ false Hfresh Hlook).
      eapply grows_trans; [exact Hg|].
      eapply grows_trans; [apply (grows_update_value _ _ _ 0 Hnd)|].
      apply grows_same; simpl; unfold release_value;
        destruct (isAtom (tn_value nd)); [| destruct (isRecord (tn_value nd)) | | destruct (isRecord (tn_value nd))];
        reflexivity.
Qed.

Lemma delete_keeps_node_witness :
  exists t2 nd2,
    trie_delete 10 (r_trie result_term_v) 8%nat false = Some t2
    /\ nodes t2 !! 8%nat = Some nd2
    /\ tn_value nd2 = 0
    /\ trie_lookup 100 t2 term_mem 10 false = Some (TRUE, Some 8%nat, t2, term_mem).
Proof.
  apply (delete_keeps_node 100 10 trie_create term_mem 10 6 result_term_v 8%nat).
  - apply fresh_ids_b_sound. vm_compute. reflexivity.
  - apply wf_mem_b_sound. vm_compute. reflexivity.
  - vm_compute. reflexivity.
  - vm_compute. reflexivity.
  - vm_compute. reflexivity.
  - vm_compute. reflexivity.
Defined.
